(** * Zodika timeline engine: manifest normalisation, scene scheduling,
      sub-event firing and the bounded preload pipeline.

    A shallow embedding of [engine/core.js] and [engine/loader.js], with
    the parts of [engine/presets.js] and [scripts/app.js] that stand
    between the loader and the engine.

    Conventions of the embedding:
    - a JavaScript number is a [num]: a rational, an infinity or NaN;
      arithmetic on finite values is exact and the sign of zero is dropped;
    - a manifest, as [JSON.parse] delivers it, is a tree of [val];
      module [Heap] keeps objects in a store with references, for the
      statements that are about mutation and aliasing;
    - a function that can throw returns a [result];
    - the engine's fields keep their source names ([_t0], [_now],
      [_running], [_activeIndex], [_sceneNodes], [_firedText],
      [_firedCallout]); [frame] stands for the request that [_raf] holds;
    - what the host does between two callbacks (a frame, a loaded image,
      an expired timer, a settled promise) is an explicit event. *)

From Stdlib Require Import ZArith QArith String Ascii List Lia Bool Lqa.
From stdpp Require Import base option list gmap sets strings pretty.

Set Warnings "-register-all".
Local Open Scope string_scope.
Local Open Scope Z_scope.
Local Open Scope list_scope.

(** ** Results of code that may throw *)

Inductive error :=
| TypeError (msg : string)
| Error (msg : string)
| DataCloneError.

Inductive result (A : Type) :=
| Ok (a : A)
| Throw (e : error).
Arguments Ok {A} a.
Arguments Throw {A} e.

Global Instance result_ret : MRet result := λ A a, Ok a.
Global Instance result_bind : MBind result := λ A B k r,
  match r with
  | Ok a => k a
  | Throw e => Throw e
  end.

Definition is_ok {A} (r : result A) : bool :=
  match r with Ok _ => true | Throw _ => false end.

(** ** JavaScript numbers *)

Module Num.

Inductive num :=
| NaN
| NegInf
| Fin (q : Q)
| PosInf.

Definition zero : num := Fin 0.
Definition ofZ (z : Z) : num := Fin (inject_Z z).

(** [a + b] *)
Definition add (a b : num) : num :=
  match a, b with
  | NaN, _ | _, NaN => NaN
  | PosInf, NegInf | NegInf, PosInf => NaN
  | PosInf, _ | _, PosInf => PosInf
  | NegInf, _ | _, NegInf => NegInf
  | Fin x, Fin y => Fin (x + y)
  end.

Definition neg (a : num) : num :=
  match a with
  | NaN => NaN
  | NegInf => PosInf
  | PosInf => NegInf
  | Fin x => Fin (- x)
  end.

(** [a - b] *)
Definition sub (a b : num) : num := add a (neg b).

(** [a / b] *)
Definition div (a b : num) : num :=
  match a, b with
  | NaN, _ | _, NaN => NaN
  | (PosInf | NegInf), (PosInf | NegInf) => NaN
  | Fin _, (PosInf | NegInf) => Fin 0
  | PosInf, Fin y => if Qle_bool 0 y then PosInf else NegInf
  | NegInf, Fin y => if Qle_bool 0 y then NegInf else PosInf
  | Fin x, Fin y =>
      if Qeq_bool y 0 then
        (if Qeq_bool x 0 then NaN
         else if Qle_bool 0 x then PosInf else NegInf)
      else Fin (x / y)
  end.

(** [a < b]; every comparison with NaN is false. *)
Definition ltb (a b : num) : bool :=
  match a, b with
  | NaN, _ | _, NaN => false
  | _, NegInf => false
  | NegInf, _ => true
  | PosInf, _ => false
  | Fin _, PosInf => true
  | Fin x, Fin y => negb (Qle_bool y x)
  end.

(** [a <= b] *)
Definition leb (a b : num) : bool :=
  match a, b with
  | NaN, _ | _, NaN => false
  | NegInf, _ => true
  | _, PosInf => true
  | _, NegInf => false
  | PosInf, _ => false
  | Fin x, Fin y => Qle_bool x y
  end.

(** [a >= b] and [a > b] *)
Definition geb (a b : num) : bool := leb b a.
Definition gtb (a b : num) : bool := ltb b a.

(** [Math.max(a, b)] *)
Definition max (a b : num) : num :=
  match a, b with
  | NaN, _ | _, NaN => NaN
  | _, _ => if leb a b then b else a
  end.

(** [Math.min(a, b)] *)
Definition min (a b : num) : num :=
  match a, b with
  | NaN, _ | _, NaN => NaN
  | _, _ => if leb a b then a else b
  end.

(** [isFinite(a)] on a number *)
Definition isFinite (a : num) : bool :=
  match a with Fin _ => true | _ => false end.

(** Truthiness of a number: [0] and [NaN] are falsy. *)
Definition truthy (a : num) : bool :=
  match a with
  | NaN => false
  | Fin x => negb (Qeq_bool x 0)
  | _ => true
  end.

End Num.
Export Num(num, NaN, NegInf, Fin, PosInf).

(** ** JavaScript values, as trees *)

Module Js.

(** Primitive values. [PFun] stands for a host function object, such as
    the method [Array.prototype.at] that a property read can return. *)
Inductive prim :=
| PUndef
| PNull
| PBool (b : bool)
| PNum (n : num)
| PStr (s : string)
| PFun (name : string).

Inductive val :=
| VPrim (p : prim)
| VArr (elems : list val)
| VObj (fields : list (string * val)).

Definition VUndef : val := VPrim PUndef.
Definition VNull : val := VPrim PNull.
Definition VNum (n : num) : val := VPrim (PNum n).
Definition VStr (s : string) : val := VPrim (PStr s).
Definition VBool (b : bool) : val := VPrim (PBool b).

(** *** Own properties of an object, in insertion order *)

Fixpoint field_get {V} (k : string) (fs : list (string * V)) : option V :=
  match fs with
  | [] => None
  | (k', v) :: fs' => if String.eqb k k' then Some v else field_get k fs'
  end.

(** Assignment keeps the position of an existing key and appends a new
    one. *)
Fixpoint field_set {V} (k : string) (v : V) (fs : list (string * V))
  : list (string * V) :=
  match fs with
  | [] => [(k, v)]
  | (k', v') :: fs' =>
      if String.eqb k k' then (k, v) :: fs'
      else (k', v') :: field_set k v fs'
  end.

(** *** Decimal literals, for [Number(string)] *)

Definition is_ws (c : ascii) : bool :=
  match c with
  | " "%char | "009"%char | "010"%char | "011"%char | "012"%char
  | "013"%char => true
  | _ => false
  end.

Fixpoint ltrim (s : string) : string :=
  match s with
  | String c s' => if is_ws c then ltrim s' else s
  | EmptyString => EmptyString
  end.

Definition rtrim (s : string) : string :=
  String.rev (ltrim (String.rev s)).

Definition digit_of (c : ascii) : option Z :=
  let n := Z.of_N (N_of_ascii c) in
  if Z.leb 48 n && Z.leb n 57 then Some (n - 48) else None.

(** Digits of [s] up to its end or to a ["."]: the value read, the number
    of digits, and what follows them. *)
Fixpoint digits (s : string) (acc : Z) (len : nat) : Z * nat * string :=
  match s with
  | String c s' =>
      match digit_of c with
      | Some dgt => digits s' (10 * acc + dgt) (S len)
      | None => (acc, len, s)
      end
  | EmptyString => (acc, len, s)
  end.

Definition unsigned_literal (s : string) : num :=
  if String.eqb s "Infinity" then PosInf else
  let '(ip, ilen, rest) := digits s 0 0%nat in
  match rest with
  | EmptyString => if Nat.eqb ilen 0 then NaN else Num.ofZ ip
  | String "."%char frac =>
      let '(fp, flen, rest') := digits frac 0 0%nat in
      match rest' with
      | EmptyString =>
          if Nat.eqb (ilen + flen) 0 then NaN
          else Fin (inject_Z ip + inject_Z fp / inject_Z (10 ^ Z.of_nat flen))
      | _ => NaN
      end
  | _ => NaN
  end.

(** [Number(s)] for a string: blank is [0], then an optional sign and a
    decimal literal or [Infinity]. Exponent, hexadecimal, octal and binary
    forms are outside this model and read as [NaN]. *)
Definition StringToNumber (s : string) : num :=
  match rtrim (ltrim s) with
  | EmptyString => Num.zero
  | String "-"%char s' => Num.neg (unsigned_literal s')
  | String "+"%char s' => unsigned_literal s'
  | s' => unsigned_literal s'
  end.

(** *** Coercions and operators *)

Definition prim_ToNumber (p : prim) : num :=
  match p with
  | PUndef => NaN
  | PNull => Num.zero
  | PBool b => if b then Num.ofZ 1 else Num.zero
  | PNum n => n
  | PStr s => StringToNumber s
  | PFun _ => NaN
  end.

(** [Number(v)]. An array goes through its string form: empty is [0], a
    single element reads as that element does ([null] and [undefined]
    print as the empty string), anything longer contains a comma. *)
Fixpoint ToNumber (v : val) : num :=
  match v with
  | VPrim p => prim_ToNumber p
  | VObj _ => NaN
  | VArr [] => Num.zero
  | VArr [x] =>
      match x with
      | VPrim (PUndef | PNull) => Num.zero
      | VPrim (PBool _) => NaN
      | _ => ToNumber x
      end
  | VArr _ => NaN
  end.

Definition prim_truthy (p : prim) : bool :=
  match p with
  | PUndef | PNull => false
  | PBool b => b
  | PNum n => Num.truthy n
  | PStr s => negb (String.eqb s EmptyString)
  | PFun _ => true
  end.

Definition truthy (v : val) : bool :=
  match v with
  | VPrim p => prim_truthy p
  | _ => true
  end.

(** [a || b] *)
Definition or (a b : val) : val := if truthy a then a else b.

(** [a ?? b] *)
Definition nullish (a b : val) : val :=
  match a with
  | VPrim (PUndef | PNull) => b
  | _ => a
  end.

(** [typeof v === "number"] *)
Definition is_number (v : val) : option num :=
  match v with
  | VPrim (PNum n) => Some n
  | _ => None
  end.

(** [Array.isArray(v)] *)
Definition isArray (v : val) : option (list val) :=
  match v with
  | VArr l => Some l
  | _ => None
  end.

Definition is_array (v : val) : bool :=
  match v with
  | VArr _ => true
  | _ => false
  end.

(** [v.k] for the property names the engine reads. Reading from
    [undefined] or [null] throws; strings and arrays inherit a method
    called [at]; no other name used by the engine is inherited. *)
Definition get (v : val) (k : string) : result val :=
  match v with
  | VPrim (PUndef | PNull) =>
      Throw (TypeError ("Cannot read properties of undefined or null: " +:+ k))
  | VObj fs => Ok (default VUndef (field_get k fs))
  | VArr _ | VPrim (PStr _) =>
      Ok (if String.eqb k "at" then VPrim (PFun "at") else VUndef)
  | VPrim _ => Ok VUndef
  end.

(** [v?.k] *)
Definition get_opt (v : val) (k : string) : val :=
  match get v k with
  | Ok x => x
  | Throw _ => VUndef
  end.

(** [v.k = x] on an object of the manifest. In a module (strict code) the
    assignment throws on a primitive. A tree keeps no named property on
    an array; the engine assigns one on no path that its callers reach,
    and the case is reported as an error here. *)
Definition set (v : val) (k : string) (x : val) : result val :=
  match v with
  | VObj fs => Ok (VObj (field_set k x fs))
  | VArr l => Throw (Error ("named property on an array: " +:+ k))
  | VPrim _ => Throw (TypeError ("Cannot create property " +:+ k))
  end.

(** [{ ...v }]: the own enumerable properties of [v], in order. *)
Fixpoint indexed (i : nat) (l : list val) : list (string * val) :=
  match l with
  | [] => []
  | x :: rest => (pretty i, x) :: indexed (S i) rest
  end.

Fixpoint chars (s : string) : list val :=
  match s with
  | EmptyString => []
  | String c s' => VPrim (PStr (String c EmptyString)) :: chars s'
  end.

Definition spread (v : val) : list (string * val) :=
  match v with
  | VObj fs => fs
  | VArr l => indexed 0 l
  | VPrim (PStr s) => indexed 0 (chars s)
  | VPrim _ => []
  end.

(** [String(v)]; how a number prints is the host's business. *)
Fixpoint ToString (numberToString : num → string) (v : val) : string :=
  match v with
  | VPrim PUndef => "undefined"
  | VPrim PNull => "null"
  | VPrim (PBool b) => if b then "true" else "false"
  | VPrim (PNum n) => numberToString n
  | VPrim (PStr s) => s
  | VPrim (PFun name) => "function " +:+ name +:+ "() { [native code] }"
  | VObj _ => "[object Object]"
  | VArr l =>
      String.concat ","
        (map (λ x, match x with
                   | VPrim (PUndef | PNull) => EmptyString
                   | _ => ToString numberToString x
                   end) l)
  end.

(** [s.trim()] *)
Definition trim (s : string) : string := rtrim (ltrim s).

End Js.
Export Js(val, VPrim, VArr, VObj, PUndef, PNull, PBool, PNum, PStr, PFun,
          VUndef, VNull, VNum, VStr, VBool).

(** [arr[i]] for an index that may be negative or past the end. *)
Definition at_index {A} (l : list A) (i : Z) : option A :=
  if i <? 0 then None else l !! Z.to_nat i.

(** [structuredClone] on a tree: a copy, unless a function is found. *)
Fixpoint cloneable (v : val) : bool :=
  match v with
  | VPrim (PFun _) => false
  | VPrim _ => true
  | VArr l => forallb cloneable l
  | VObj fs => forallb (λ kv, cloneable kv.2) fs
  end.

Definition structuredClone (v : val) : result val :=
  if cloneable v then Ok v else Throw DataCloneError.

(** ** engine/core.js: the manifest *)

Module Core.

(** [#normalizeManifest], the body of the [forEach] callback: scene [s] at
    index [i], with the running [cursor]. *)
Definition normalizeScene (cursor : num) (i : nat) (s : val)
  : result (val * num) :=
  dv ← Js.get s "d";
  match Js.is_number dv with
  | None =>
      Throw (Error ("Manifest: scene[" +:+ pretty i +:+ "] missing positive duration 'd'"))
  | Some d =>
      if Num.leb d Num.zero then
        Throw (Error ("Manifest: scene[" +:+ pretty i +:+ "] missing positive duration 'd'"))
      else
        tv ← Js.get s "t";
        match Js.is_number tv with
        | Some t => Ok (s, Num.add t d)
        | None =>
            s' ← Js.set s "t" (VNum cursor);
            Ok (s', Num.add cursor d)
        end
  end.

Fixpoint normalizeScenes (cursor : num) (i : nat) (ss : list val)
  : result (list val) :=
  match ss with
  | [] => Ok []
  | s :: rest =>
      '(s', cursor') ← normalizeScene cursor i s;
      rest' ← normalizeScenes cursor' (S i) rest;
      Ok (s' :: rest')
  end.

(** [#normalizeManifest(manifest)] *)
Definition normalizeManifest (manifest : val) : result val :=
  m ← structuredClone manifest;
  scenes ← Js.get m "scenes";
  match Js.isArray scenes with
  | None => Throw (TypeError "m.scenes.forEach is not a function")
  | Some ss =>
      ss' ← normalizeScenes Num.zero 0 ss;
      Js.set m "scenes" (VArr ss')
  end.

(** The guard at the head of the constructor, on [manifest]. *)
Definition checkManifest (manifest : val) : result unit :=
  if Js.truthy manifest then
    match Js.isArray (Js.get_opt manifest "scenes") with
    | Some _ => Ok ()
    | None => Throw (Error "ZdkCore: 'manifest.scenes' is required")
    end
  else Throw (Error "ZdkCore: 'manifest.scenes' is required").

(** The scenes of a manifest (none when [scenes] is not an array). *)
Definition scenesOf (m : val) : list val :=
  default [] (Js.isArray (Js.get_opt m "scenes")).

(** *** A normalised scene, as the scheduler reads it *)

Record Scene := {
  t : num;
  d : num;
  media : val;
  text : val;
  callouts : val;
  transitionIn : val;
  transitionOut : val;
}.

Definition sceneOf (s : val) : option Scene :=
  t ← Js.is_number (Js.get_opt s "t");
  d ← Js.is_number (Js.get_opt s "d");
  Some {| t := t; d := d;
          media := Js.get_opt s "media";
          text := Js.get_opt s "text";
          callouts := Js.get_opt s "callouts";
          transitionIn := Js.get_opt s "transitionIn";
          transitionOut := Js.get_opt s "transitionOut" |}.

Definition scheduleOf (m : val) : option (list Scene) :=
  mapM sceneOf (scenesOf m).

(** *** [#findSceneIndexAt] *)

Definition inScene (s : Scene) (now : num) : bool :=
  Num.geb now (t s) && Num.ltb now (Num.add (t s) (d s)).

Fixpoint findFrom (i : Z) (arr : list Scene) (now : num) : Z :=
  match arr with
  | [] => -1
  | s :: rest => if inScene s now then i else findFrom (i + 1) rest now
  end.

Definition findSceneIndexAt (arr : list Scene) (now : num) : Z :=
  findFrom 0 arr now.


(** *** The render surface, as far as the scheduler drives it *)

(** A text or callout element: whether it carries the class [is-in], its
    inline [opacity] (empty when unset), and how many times the class
    [is-in] has been added to it. Role and effect classes, positions and
    the Ken Burns animation are styling and are not tracked. *)
Record Element := {
  isIn : bool;
  opacity : string;
  reveals : nat;
}.

Record TextNode := {
  t_el : Element;
  t_at : val;
  t_role : val;
  t_idx : nat;
}.

Record CalloutNode := {
  c_el : Element;
  c_at : val;
  c_idx : nat;
}.

(** What [_sceneNodes] holds for a mounted scene. [attached] tells whether
    the container is still a child of the media layer, [fx] is the
    transition class it carries. *)
Record SceneNode := {
  attached : bool;
  fx : option string;
  img_src : val;
  textNodes : list TextNode;
  calloutNodes : list CalloutNode;
}.

(** The engine and the host around it. Scene nodes are objects: [nodes]
    is the store of them, a node's identity is its position there, and
    [_sceneNodes] and the pending exit timers both refer to nodes by
    identity. [frame] says that a frame callback is requested and not
    cancelled; [awaiting] lists the scene changes suspended on an image,
    [microtasks] those that resume as soon as the running callback
    returns. *)
Record State := {
  scenes : list Scene;
  _t0 : num;
  _now : num;
  _running : bool;
  _activeIndex : Z;
  _sceneNodes : gmap Z nat;
  _firedText : gset string;
  _firedCallout : gset string;
  nodes : list SceneNode;
  frame : bool;
  timers : list (Z * nat);
  awaiting : list Z;
  microtasks : list Z;
  recording : bool;
}.

Definition with_clock (t0 now : num) (st : State) : State :=
  {| scenes := scenes st; _t0 := t0; _now := now; _running := _running st;
     _activeIndex := _activeIndex st; _sceneNodes := _sceneNodes st;
     _firedText := _firedText st; _firedCallout := _firedCallout st;
     nodes := nodes st; frame := frame st; timers := timers st;
     awaiting := awaiting st; microtasks := microtasks st;
     recording := recording st |}.

Definition with_running (r fr rec : bool) (st : State) : State :=
  {| scenes := scenes st; _t0 := _t0 st; _now := _now st; _running := r;
     _activeIndex := _activeIndex st; _sceneNodes := _sceneNodes st;
     _firedText := _firedText st; _firedCallout := _firedCallout st;
     nodes := nodes st; frame := fr; timers := timers st;
     awaiting := awaiting st; microtasks := microtasks st;
     recording := rec |}.

Definition with_frame (fr : bool) (st : State) : State :=
  with_running (_running st) fr (recording st) st.

Definition with_active (i : Z) (st : State) : State :=
  {| scenes := scenes st; _t0 := _t0 st; _now := _now st;
     _running := _running st;
     _activeIndex := i; _sceneNodes := _sceneNodes st;
     _firedText := _firedText st; _firedCallout := _firedCallout st;
     nodes := nodes st; frame := frame st; timers := timers st;
     awaiting := awaiting st; microtasks := microtasks st;
     recording := recording st |}.

Definition with_fired (ft fc : gset string) (st : State) : State :=
  {| scenes := scenes st; _t0 := _t0 st; _now := _now st;
     _running := _running st;
     _activeIndex := _activeIndex st; _sceneNodes := _sceneNodes st;
     _firedText := ft; _firedCallout := fc;
     nodes := nodes st; frame := frame st; timers := timers st;
     awaiting := awaiting st; microtasks := microtasks st;
     recording := recording st |}.

Definition with_nodes (m : gmap Z nat) (ns : list SceneNode) (st : State)
  : State :=
  {| scenes := scenes st; _t0 := _t0 st; _now := _now st;
     _running := _running st;
     _activeIndex := _activeIndex st; _sceneNodes := m;
     _firedText := _firedText st; _firedCallout := _firedCallout st;
     nodes := ns; frame := frame st; timers := timers st;
     awaiting := awaiting st; microtasks := microtasks st;
     recording := recording st |}.

Definition with_pending (ts : list (Z * nat)) (aw mt : list Z) (st : State)
  : State :=
  {| scenes := scenes st; _t0 := _t0 st; _now := _now st;
     _running := _running st;
     _activeIndex := _activeIndex st; _sceneNodes := _sceneNodes st;
     _firedText := _firedText st; _firedCallout := _firedCallout st;
     nodes := nodes st; frame := frame st; timers := ts;
     awaiting := aw; microtasks := mt;
     recording := recording st |}.

(** The node mounted for scene [index], if any: [_sceneNodes.get(index)]. *)
Definition nodeOf (st : State) (index : Z) : option SceneNode :=
  id ← _sceneNodes st !! index; nodes st !! id.

(** Write through the reference held in [_sceneNodes]. *)
Definition setNode (index : Z) (n : SceneNode) (st : State) : State :=
  match _sceneNodes st !! index with
  | Some id => with_nodes (_sceneNodes st) (<[id := n]> (nodes st)) st
  | None => st
  end.

(** *** Trigger keys *)

(** The key of text event [idx] of scene [index]. *)
Definition textKey (index : Z) (idx : nat) : string :=
  pretty index +:+ "#" +:+ pretty idx.

(** The key of callout event [idx] of scene [index]. *)
Definition calloutKey (index : Z) (idx : nat) : string :=
  pretty index +:+ "#c" +:+ pretty idx.

(** *** [#applyTransition]: the class the container ends up with *)

Definition applyTransition (kind : val) (isEnter : bool) : string :=
  match kind with
  | VPrim (PStr "swipe") => if isEnter then "fx-swipe-enter" else "fx-swipe-exit"
  | VPrim (PStr "zoom") => if isEnter then "fx-zoom-in" else "fx-zoom-out"
  | VPrim (PStr "light-wipe") =>
      if isEnter then "fx-light-wipe" else "fx-crossfade-exit"
  | _ => if isEnter then "fx-crossfade-enter" else "fx-crossfade-exit"
  end.

(** *** [#ensureSceneMounted] *)

Definition hidden : Element :=
  {| isIn := false; opacity := "0"; reveals := 0 |}.
Definition bare : Element :=
  {| isIn := false; opacity := EmptyString; reveals := 0 |}.

(** [el.classList.add("is-in")], with [el.style.opacity = o] when asked. *)
Definition addIsIn (o : option string) (el : Element) : Element :=
  {| isIn := true; opacity := default (opacity el) o;
     reveals := S (reveals el) |}.

(** [el.classList.remove("is-in")] *)
Definition removeIsIn (el : Element) : Element :=
  {| isIn := false; opacity := opacity el; reveals := reveals el |}.

(** [scene.text.forEach((block, i) => ...)]: the handles pushed. *)
Fixpoint mountText (i : nat) (blocks : list val) : result (list TextNode) :=
  match blocks with
  | [] => Ok []
  | block :: rest =>
      role ← Js.get block "role";
      at_ ← Js.get block "at";
      rest' ← mountText (S i) rest;
      Ok ({| t_el := hidden; t_at := Js.nullish at_ (VNum Num.zero);
             t_role := role; t_idx := i |} :: rest')
  end.

(** [scene.callouts.forEach((c, i) => ...)]: the handles pushed. *)
Fixpoint mountCallouts (i : nat) (cs : list val) : result (list CalloutNode) :=
  match cs with
  | [] => Ok []
  | c :: rest =>
      _ ← Js.get c "x";
      at_ ← Js.get c "at";
      rest' ← mountCallouts (S i) rest;
      Ok ({| c_el := bare; c_at := Js.nullish at_ (VNum Num.zero);
             c_idx := i |} :: rest')
  end.

(** The reveal at the end of a mount with [finalize] set. *)
Definition revealText (n : TextNode) : TextNode :=
  {| t_el := addIsIn (Some "1") (t_el n);
     t_at := t_at n; t_role := t_role n; t_idx := t_idx n |}.

Definition revealCallout (n : CalloutNode) : CalloutNode :=
  {| c_el := addIsIn None (c_el n);
     c_at := c_at n; c_idx := c_idx n |}.

(** The node built for [scene], up to the point where the image is
    awaited. *)
Definition buildNode (scene : Scene) (finalize : bool) : result SceneNode :=
  let src := Js.or (Js.get_opt (media scene) "src") (VStr EmptyString) in
  tns ← match Js.isArray (text scene) with
        | Some blocks => mountText 0 blocks
        | None => Ok []
        end;
  cns ← match Js.isArray (callouts scene) with
        | Some cs => mountCallouts 0 cs
        | None => Ok []
        end;
  Ok {| attached := true; fx := None; img_src := src;
        textNodes := if finalize then revealText <$> tns else tns;
        calloutNodes := if finalize then revealCallout <$> cns else cns |}.

Inductive mounted := AlreadyMounted | FreshlyMounted | MountFailed (e : error).

(** [#ensureSceneMounted(index, finalize)], up to its first suspension.
    An exception leaves the engine as it was: nothing has been stashed
    yet. *)
Definition ensureSceneMounted (index : Z) (finalize : bool) (st : State)
  : State * mounted :=
  match _sceneNodes st !! index with
  | Some _ => (st, AlreadyMounted)
  | None =>
      match at_index (scenes st) index with
      | None =>
          (st, MountFailed (TypeError "Cannot read properties of undefined (reading 'media')"))
      | Some scene =>
          match buildNode scene finalize with
          | Throw e => (st, MountFailed e)
          | Ok n =>
              (with_nodes (<[index := length (nodes st)]> (_sceneNodes st))
                          (nodes st ++ [n])%list st,
               FreshlyMounted)
          end
      end
  end.

(** *** [#enterScene] *)

Definition hideText (n : TextNode) : TextNode :=
  {| t_el := removeIsIn (t_el n);
     t_at := t_at n; t_role := t_role n; t_idx := t_idx n |}.

Definition hideCallout (n : CalloutNode) : CalloutNode :=
  {| c_el := removeIsIn (c_el n);
     c_at := c_at n; c_idx := c_idx n |}.

Definition enterScene (index : Z) (st : State) : State :=
  match nodeOf st index with
  | None => st
  | Some node =>
      let ft := foldl (λ acc n, acc ∖ {[ textKey index (t_idx n) ]})
                      (_firedText st) (textNodes node) in
      let fc := foldl (λ acc n, acc ∖ {[ textKey index (c_idx n) ]})
                      (_firedCallout st) (calloutNodes node) in
      match at_index (scenes st) index with
      | None => with_fired ft fc st
      | Some scene =>
          setNode index
            {| attached := attached node;
               fx := Some (applyTransition (transitionIn scene) true);
               img_src := img_src node;
               textNodes := hideText <$> textNodes node;
               calloutNodes := hideCallout <$> calloutNodes node |}
            (with_fired ft fc st)
      end
  end.

(** *** [#exitScene] *)

Definition exitScene (index : Z) (st : State) : State :=
  match _sceneNodes st !! index, at_index (scenes st) index with
  | Some id, Some scene =>
      match nodes st !! id with
      | Some node =>
          let st' :=
            setNode index
              {| attached := attached node;
                 fx := Some (applyTransition
                               (Js.or (transitionOut scene) (transitionIn scene))
                               false);
                 img_src := img_src node;
                 textNodes := textNodes node;
                 calloutNodes := calloutNodes node |} st in
          with_pending (timers st' ++ [(index, id)])%list (awaiting st')
                       (microtasks st') st'
      | None => st
      end
  | _, _ => st
  end.

(** The callback of the timer set by [#exitScene], for node [id] of
    scene [index]. *)
Definition removeScene (index : Z) (id : nat) (st : State) : State :=
  let ns := match nodes st !! id with
            | Some node =>
                <[id := {| attached := false; fx := fx node;
                           img_src := img_src node;
                           textNodes := textNodes node;
                           calloutNodes := calloutNodes node |}]> (nodes st)
            | None => nodes st
            end in
  with_nodes (delete index (_sceneNodes st)) ns st.

(** *** [#onSceneChange], up to its first suspension *)

Definition onSceneChange (prevIdx nextIdx : Z) (st : State) : State :=
  let st1 := if 0 <=? prevIdx then exitScene prevIdx st else st in
  if 0 <=? nextIdx then
    match ensureSceneMounted nextIdx false st1 with
    | (st2, AlreadyMounted) =>
        with_pending (timers st2) (awaiting st2)
                     (microtasks st2 ++ [nextIdx])%list st2
    | (st2, FreshlyMounted) =>
        with_pending (timers st2) (awaiting st2 ++ [nextIdx])%list
                     (microtasks st2) st2
    | (st2, MountFailed _) => st2
    end
  else st1.

(** *** [#tickScene] *)

(** [tLocal >= at] *)
Definition due (tLocal : num) (at_ : val) : bool :=
  Num.geb tLocal (Js.ToNumber at_).

Definition tickText (index : Z) (tLocal : num)
    (acc : gset string * list TextNode) (n : TextNode)
  : gset string * list TextNode :=
  let key := textKey index (t_idx n) in
  if negb (bool_decide (key ∈ acc.1)) && due tLocal (t_at n) then
    ({[ key ]} ∪ acc.1,
     (acc.2 ++ [{| t_el := addIsIn (Some EmptyString) (t_el n);
                   t_at := t_at n; t_role := t_role n; t_idx := t_idx n |}])%list)
  else (acc.1, (acc.2 ++ [n])%list).

Definition tickCallout (index : Z) (tLocal : num)
    (acc : gset string * list CalloutNode) (n : CalloutNode)
  : gset string * list CalloutNode :=
  let key := calloutKey index (c_idx n) in
  if negb (bool_decide (key ∈ acc.1)) && due tLocal (c_at n) then
    ({[ key ]} ∪ acc.1,
     (acc.2 ++ [{| c_el := addIsIn None (c_el n);
                   c_at := c_at n; c_idx := c_idx n |}])%list)
  else (acc.1, (acc.2 ++ [n])%list).

Definition tickScene (index : Z) (now : num) (st : State) : result State :=
  match at_index (scenes st) index with
  | None => Throw (TypeError "Cannot read properties of undefined (reading 't')")
  | Some s =>
      let tLocal := Num.sub now (t s) in
      match nodeOf st index with
      | None => Ok st
      | Some node =>
          let '(ft, tns) :=
            foldl (tickText index tLocal) (_firedText st, []) (textNodes node) in
          let '(fc, cns) :=
            foldl (tickCallout index tLocal) (_firedCallout st, [])
                  (calloutNodes node) in
          Ok (setNode index
                {| attached := attached node; fx := fx node;
                   img_src := img_src node;
                   textNodes := tns; calloutNodes := cns |}
                (with_fired ft fc st))
      end
  end.

(** *** [stop] and [start] *)

Definition stop (toEnd : bool) (st : State) : State :=
  let st1 := with_running false false false st in
  if toEnd then
    let lastIdx := Z.of_nat (length (scenes st1)) - 1 in
    (ensureSceneMounted lastIdx true st1).1
  else st1.

(** [start], from the point where the first images have been warmed;
    [t0] is the reading of [performance.now()]. *)
Definition start (t0 : num) (st : State) : State :=
  with_running true true true
    (with_fired ∅ ∅ (with_active (-1) (with_clock t0 Num.zero st))).

(** *** The frame callback [loop] *)

Definition grace : num := Fin (1 # 4).

Definition loop (ts : num) (st : State) : State * result unit :=
  if negb (_running st) then (st, Ok ()) else
  let now := Num.div (Num.sub ts (_t0 st)) (Num.ofZ 1000) in
  let st1 := with_clock (_t0 st) now st in
  let idx := findSceneIndexAt (scenes st1) now in
  let st2 := if bool_decide (idx = _activeIndex st1) then st1
             else with_active idx (onSceneChange (_activeIndex st1) idx st1) in
  match (if 0 <=? idx then tickScene idx now st2 else Ok st2) with
  | Throw e => (st2, Throw e)
  | Ok st3 =>
      match at_index (scenes st3) (Z.of_nat (length (scenes st3)) - 1) with
      | None =>
          (st3, Throw (TypeError "Cannot read properties of undefined (reading 't')"))
      | Some last =>
          if Num.gtb now (Num.add (Num.add (t last) (d last)) grace)
          then (stop true st3, Ok ())
          else (with_frame true st3, Ok ())
      end
  end.

(** *** The constructor *)

Definition new (manifest : val) : result State :=
  _ ← checkManifest manifest;
  m ← normalizeManifest manifest;
  match scheduleOf m with
  | None => Throw (TypeError "scene without numeric 't' and 'd'")
  | Some ss =>
      Ok {| scenes := ss; _t0 := Num.zero; _now := Num.zero;
            _running := false; _activeIndex := -1; _sceneNodes := ∅;
            _firedText := ∅; _firedCallout := ∅; nodes := [];
            frame := false; timers := []; awaiting := []; microtasks := [];
            recording := false |}
  end.

(** *** What the host delivers *)

Inductive event :=
| Frame (ts : num)
| ImageSettled (index : Z)
| Timeout
| Stop (toEnd : bool).

(** Scene changes that were suspended on an already mounted scene resume
    when the running callback returns. *)
Definition flush (st : State) : State :=
  foldl (λ acc i, enterScene i acc)
        (with_pending (timers st) (awaiting st) [] st) (microtasks st).

Fixpoint remove_first (i : Z) (l : list Z) : option (list Z) :=
  match l with
  | [] => None
  | j :: rest =>
      if bool_decide (i = j) then Some rest
      else cons j <$> remove_first i rest
  end.

Definition handle (e : event) (st : State) : State :=
  match e with
  | Frame ts =>
      if frame st then flush (loop ts (with_frame false st)).1 else st
  | ImageSettled i =>
      match remove_first i (awaiting st) with
      | Some aw =>
          flush (enterScene i (with_pending (timers st) aw (microtasks st) st))
      | None => st
      end
  | Timeout =>
      match timers st with
      | (index, id) :: rest =>
          flush (removeScene index id
                   (with_pending rest (awaiting st) (microtasks st) st))
      | [] => st
      end
  | Stop toEnd => flush (stop toEnd st)
  end.

Definition run (es : list event) (st : State) : State :=
  foldl (λ acc e, handle e acc) st es.

End Core.

(** ** engine/loader.js *)

Module Loader.

(** What the loader asks of the platform: [new URL(src, base).href], which
    throws on a string that is no URL, and the printing of a number. *)
Record Host := {
  URL_href : string → string → result string;
  Number_toString : num → string;
}.

(** A stand-in host for closed examples: relative names are appended to
    the base, integers print in decimal. *)
Definition plainHost : Host :=
  {| URL_href := λ src base,
       Ok (if String.eqb src "." then base else base +:+ src);
     Number_toString := λ n,
       match n with
       | NaN => "NaN"
       | PosInf => "Infinity"
       | NegInf => "-Infinity"
       | Fin q => pretty (Qnum q / Z.pos (Qden q))
       end |}.

Definition tenth : num := Fin (1 # 10).

(** [sumDurations(scenes)] *)
Definition sumDurations (scenes : list val) : num :=
  foldl (λ acc s,
           let dn := Js.ToNumber (Js.get_opt s "d") in
           Num.add acc (if Num.truthy dn then dn else Num.zero))
        Num.zero scenes.

(** The callback of [m.scenes.map] in [normalizeManifest]. *)
Definition normalizeScene (host : Host) (base : string) (i : nat) (s : val)
  : result val :=
  let scene := VObj (Js.spread s) in
  (* duration *)
  d0 ← Js.get scene "d";
  let dn := Num.max tenth (Js.ToNumber (Js.or d0 (VNum Num.zero))) in
  scene ← Js.set scene "d" (VNum dn);
  if negb (Num.truthy dn) || negb (Num.isFinite dn) then
    Throw (Error ("Manifest scene[" +:+ pretty i +:+ "] requires positive duration 'd'"))
  else
    (* media *)
    m0 ← Js.get scene "media";
    let media := Js.or m0 (VObj []) in
    msrc ← Js.get media "src";
    let src :=
      Js.trim (Js.ToString (Number_toString host)
                           (Js.or msrc (VStr EmptyString))) in
    href ← (if String.eqb src EmptyString then Ok EmptyString
            else URL_href host src base);
    credit ← Js.get media "credit";
    kb ← Js.get media "kenburns";
    scene ← Js.set scene "media"
              (VObj [("src", VStr href); ("credit", credit);
                     ("kenburns", Js.or kb (VStr "center"))]);
    (* text & callouts normalize arrays *)
    tx ← Js.get scene "text";
    scene ← (if Js.is_array tx then Ok scene else Js.set scene "text" (VArr []));
    cs ← Js.get scene "callouts";
    scene ← (if Js.is_array cs then Ok scene
             else Js.set scene "callouts" (VArr []));
    (* transitions defaults *)
    tin ← Js.get scene "transitionIn";
    scene ← Js.set scene "transitionIn" (Js.or tin (VStr "crossfade"));
    tout ← Js.get scene "transitionOut";
    tin' ← Js.get scene "transitionIn";
    Js.set scene "transitionOut" (Js.or tout tin').

Fixpoint normalizeScenes (host : Host) (base : string) (i : nat)
    (ss : list val) : result (list val) :=
  match ss with
  | [] => Ok []
  | s :: rest =>
      s' ← normalizeScene host base i s;
      rest' ← normalizeScenes host base (S i) rest;
      Ok (s' :: rest')
  end.

(** [normalizeManifest(raw, manifestUrl)] *)
Definition normalizeManifest (host : Host) (raw : val) (manifestUrl : string)
  : result val :=
  base ← URL_href host "." manifestUrl;
  m ← structuredClone raw;
  sc ← Js.get m "scenes";
  m ← (if Js.is_array sc then Ok m else Js.set m "scenes" (VArr []));
  sc ← Js.get m "scenes";
  ss' ← normalizeScenes host base 0 (default [] (Js.isArray sc));
  m ← Js.set m "scenes" (VArr ss');
  (* preserve theme/duration hint if present *)
  th ← Js.get m "theme";
  m ← Js.set m "theme"
        (match th with
         | VPrim (PStr "dark") => VStr "dark"
         | _ => VStr "light"
         end);
  du ← Js.get m "duration";
  let hint := Js.ToNumber du in
  Js.set m "duration"
    (VNum (if Num.truthy hint then hint else sumDurations ss')).

(** Steps 1 and 2 of [loadProject], on the manifest as fetched. *)
Definition loadManifest (host : Host) (raw : val) (manifestUrl : string)
  : result val :=
  if negb (Js.truthy raw) || negb (Js.is_array (Js.get_opt raw "scenes"))
  then Throw (Error ("Manifest missing 'scenes' array at " +:+ manifestUrl))
  else normalizeManifest host raw manifestUrl.

(** *** [preloadImage]: one image, with retries *)

(** One call of [decodeImage]. *)
Inductive attempt := Decoded | TimedOut | Broken.

Inductive settled :=
| Loaded (attemptsUsed : nat)
| Exhausted (attemptsUsed : nat) (last : option attempt).

(** The loop [for (attempt = 0; attempt <= retry; attempt++)], entered
    with [fuel] iterations left; [tries k] is what attempt [k] meets. *)
Fixpoint preloadImage_loop (tries : nat → attempt) (k fuel : nat)
    (lastErr : option attempt) : settled :=
  match fuel with
  | O => Exhausted k lastErr
  | S fuel' =>
      match tries k with
      | Decoded => Loaded (S k)
      | err => preloadImage_loop tries (S k) fuel' (Some err)
      end
  end.

Definition preloadImage (retry : Z) (tries : nat → attempt) : settled :=
  preloadImage_loop tries 0 (Z.to_nat (retry + 1)) None.

(** *** [preloadImages]: the pool *)

Inductive signal := Pending | Fulfilled | Rejected.

(** The variables of one call of [preloadImages], the promise it
    returned, and the readiness checks in flight. [started] records each
    dispatch with the active count it found; [resolves] counts the calls
    of [resolve]; [report] is the side channel, one line per settled
    URL. *)
Record Pool := {
  concurrency : Z;
  retry : Z;
  queue : list string;
  active : Z;
  resolved : Z;
  total : nat;
  completion : signal;
  resolves : nat;
  inflight : list string;
  started : list (string * Z);
  report : list (string * settled);
}.

(** The [while] loop of [next]. *)
Fixpoint dispatch (p : Pool) (q : list string) : Pool :=
  match q with
  | [] =>
      {| concurrency := concurrency p; retry := retry p; queue := [];
         active := active p; resolved := resolved p; total := total p;
         completion := completion p; resolves := resolves p;
         inflight := inflight p; started := started p;
         report := report p |}
  | url :: rest =>
      if active p <? concurrency p then
        dispatch
          {| concurrency := concurrency p; retry := retry p; queue := rest;
             active := active p + 1; resolved := resolved p;
             total := total p;
             completion := completion p; resolves := resolves p;
             inflight := (inflight p ++ [url])%list;
             started := (started p ++ [(url, active p)])%list;
             report := report p |}
          rest
      else
        {| concurrency := concurrency p; retry := retry p; queue := q;
           active := active p; resolved := resolved p; total := total p;
           completion := completion p; resolves := resolves p;
           inflight := inflight p; started := started p;
           report := report p |}
  end.

(** [resolve(true)]: a promise settles once, later calls change nothing. *)
Definition resolve (p : Pool) : Pool :=
  {| concurrency := concurrency p; retry := retry p; queue := queue p;
     active := active p; resolved := resolved p; total := total p;
     completion := match completion p with
                   | Pending => Fulfilled
                   | s => s
                   end;
     resolves := S (resolves p);
     inflight := inflight p; started := started p; report := report p |}.

(** [next()] *)
Definition next (p : Pool) : Pool :=
  match queue p with
  | [] => if active p =? 0 then resolve p else dispatch p (queue p)
  | _ => dispatch p (queue p)
  end.

(** [preloadImages(urls, { concurrency, retry })], up to the return of the
    promise. *)
Definition preloadImages (urls : list string) (concurrency retry : Z) : Pool :=
  next {| concurrency := concurrency; retry := retry; queue := urls;
          active := 0; resolved := 0; total := length urls;
          completion := Pending; resolves := 0;
          inflight := []; started := []; report := [] |}.

(** The [finally] callback of the [i]-th check in flight, which has met
    [tries]. *)
Definition settle (i : nat) (tries : nat → attempt) (p : Pool) : Pool :=
  match inflight p !! i with
  | None => p
  | Some url =>
      next {| concurrency := concurrency p; retry := retry p;
              queue := queue p;
              active := active p - 1; resolved := resolved p + 1;
              total := total p;
              completion := completion p; resolves := resolves p;
              inflight := delete i (inflight p);
              started := started p;
              report := (report p ++ [(url, preloadImage (retry p) tries)])%list |}
  end.

(** A run of the pool: which check settles next, and what it met. *)
Definition settles (es : list (nat * (nat → attempt))) (p : Pool) : Pool :=
  foldl (λ acc e, settle e.1 e.2 acc) p es.

End Loader.

(** ** Objects in a store *)

Module Heap.

Abbreviation loc := nat (only parsing).

(** A value is a primitive or a reference to an object of the store. *)
Inductive hval :=
| HPrim (p : Js.prim)
| HRef (l : loc).

Inductive obj :=
| OArr (elems : list hval)
| OObj (fields : list (string * hval)).

(** The store: an object's identity is its position. *)
Abbreviation heap := (list obj) (only parsing).

(** Code that reads and writes the store and may throw; what it wrote
    before it threw stays written. *)
Definition M (A : Type) : Type := heap → heap * result A.

Global Instance M_ret : MRet M := λ A a h, (h, Ok a).
Global Instance M_bind : MBind M := λ A B k m h,
  match m h with
  | (h', Ok a) => k a h'
  | (h', Throw e) => (h', Throw e)
  end.

Definition throw {A} (e : error) : M A := λ h, (h, Throw e).

(** A computation that does not touch the store. *)
Definition lift {A} (r : result A) : M A := λ h, (h, r).

(** A new object. *)
Definition alloc (o : obj) : M loc := λ h, (h ++ [o], Ok (length h)).

Definition load (l : loc) : M obj := λ h,
  match h !! l with
  | Some o => (h, Ok o)
  | None => (h, Throw (Error "dangling reference"))
  end.

Definition store (l : loc) (o : obj) : M unit := λ h, (<[l := o]> h, Ok ()).

Definition undef : hval := HPrim PUndef.

(** [v.k], as [Js.get]. *)
Definition get (v : hval) (k : string) : M hval :=
  match v with
  | HPrim (PUndef | PNull) =>
      throw (TypeError ("Cannot read properties of undefined or null: " +:+ k))
  | HPrim (PStr _) =>
      mret (if String.eqb k "at" then HPrim (PFun "at") else undef)
  | HPrim _ => mret undef
  | HRef l =>
      o ← load l;
      match o with
      | OObj fs => mret (default undef (Js.field_get k fs))
      | OArr _ => mret (if String.eqb k "at" then HPrim (PFun "at") else undef)
      end
  end.

(** [v.k = x], as [Js.set], in place. *)
Definition set (v : hval) (k : string) (x : hval) : M unit :=
  match v with
  | HPrim _ => throw (TypeError ("Cannot create property " +:+ k))
  | HRef l =>
      o ← load l;
      match o with
      | OObj fs => store l (OObj (Js.field_set k x fs))
      | OArr _ => throw (Error ("named property on an array: " +:+ k))
      end
  end.

(** [Array.isArray(v)], with the elements. *)
Definition isArray (v : hval) : M (option (list hval)) :=
  match v with
  | HPrim _ => mret None
  | HRef l =>
      o ← load l;
      match o with
      | OArr es => mret (Some es)
      | OObj _ => mret None
      end
  end.

Definition truthy (v : hval) : bool :=
  match v with
  | HPrim p => Js.prim_truthy p
  | HRef _ => true
  end.

Definition or (a b : hval) : hval := if truthy a then a else b.

Definition is_number (v : hval) : option num :=
  match v with
  | HPrim (PNum n) => Some n
  | _ => None
  end.

(** The tree that [v] denotes in [h], read to depth [fuel]. *)
Fixpoint reify (fuel : nat) (h : heap) (v : hval) : val :=
  match v with
  | HPrim p => VPrim p
  | HRef l =>
      match fuel with
      | O => VUndef
      | S fuel' =>
          match h !! l with
          | Some (OArr es) => VArr (reify fuel' h <$> es)
          | Some (OObj fs) => VObj (prod_map id (reify fuel' h) <$> fs)
          | None => VUndef
          end
      end
  end.

(** The tree of [v]: no chain of references without a cycle is longer
    than the store. *)
Definition read (v : hval) : M val := λ h, (h, Ok (reify (length h) h v)).

(** [{ ...v }] *)
Definition spread (v : hval) : M (list (string * hval)) :=
  match v with
  | HPrim (PStr s) =>
      mret (prod_map id (λ c, match c with
                              | VPrim p => HPrim p
                              | _ => undef
                              end) <$> Js.indexed 0 (Js.chars s))
  | HPrim _ => mret []
  | HRef l =>
      o ← load l;
      match o with
      | OObj fs => mret fs
      | OArr es => mret (zip (pretty <$> seq 0 (length es)) es)
      end
  end.

(** *** [structuredClone] *)

(** The copies made so far: source object, copy. *)
Abbreviation memory := (list (nat * nat)) (only parsing).

Fixpoint copyOf (mem : memory) (l : loc) : option loc :=
  match mem with
  | [] => None
  | (src, cp) :: rest => if Nat.eqb l src then Some cp else copyOf rest l
  end.

(** The values [vs] cloned one after the other by [f]. *)
Fixpoint cloneAll (f : hval → memory → M (hval * memory)) (vs : list hval)
    (mem : memory) : M (list hval * memory) :=
  match vs with
  | [] => mret ([], mem)
  | v :: rest =>
      '(v', mem1) ← f v mem;
      '(rest', mem2) ← cloneAll f rest mem1;
      mret (v' :: rest', mem2)
  end.

(** A function cannot be cloned; an object met before is represented by
    the copy made then; a new object is registered before its properties
    are copied into it. [fuel] bounds the depth of nesting. *)
Fixpoint clone (fuel : nat) (v : hval) (mem : memory) : M (hval * memory) :=
  match v with
  | HPrim (PFun _) => throw DataCloneError
  | HPrim _ => mret (v, mem)
  | HRef l =>
      match copyOf mem l with
      | Some cp => mret (HRef cp, mem)
      | None =>
          match fuel with
          | O => throw (Error "structuredClone: nesting deeper than the store")
          | S fuel' =>
              o ← load l;
              match o with
              | OArr es =>
                  cp ← alloc (OArr []);
                  '(es', mem') ← cloneAll (clone fuel') es ((l, cp) :: mem);
                  _ ← store cp (OArr es');
                  mret (HRef cp, mem')
              | OObj fs =>
                  cp ← alloc (OObj []);
                  '(vs', mem') ← cloneAll (clone fuel') fs.*2 ((l, cp) :: mem);
                  _ ← store cp (OObj (zip fs.*1 vs'));
                  mret (HRef cp, mem')
              end
          end
      end
  end.

Definition structuredClone (v : hval) : M hval := λ h,
  ('(v', _) ← clone (length h) v []; mret v') h.

(** The trees [ts] laid out one after the other by [f]. *)
Fixpoint buildAll {T H} (f : T → M H) (ts : list T) : M (list H) :=
  match ts with
  | [] => mret []
  | t :: rest => v ← f t; vs ← buildAll f rest; mret (v :: vs)
  end.

(** A tree laid out in the store, as [JSON.parse] leaves it: one new
    object for each array and object of the tree. *)
Fixpoint build (t : val) : M hval :=
  match t with
  | VPrim p => mret (HPrim p)
  | VArr ts =>
      es ← buildAll build ts;
      l ← alloc (OArr es);
      mret (HRef l)
  | VObj fts =>
      fs ← buildAll (λ kt, v ← build kt.2; mret (kt.1, v)) fts;
      l ← alloc (OObj fs);
      mret (HRef l)
  end.

End Heap.

(** ** engine/core.js, on objects in the store *)

Module HCore.
Import Heap.

(** The callback of [m.scenes.forEach]: writes [s.t] where it is missing
    and returns the new cursor. *)
Definition normalizeScene (cursor : num) (i : nat) (s : hval) : M num :=
  dv ← get s "d";
  match is_number dv with
  | None =>
      throw (Error ("Manifest: scene[" +:+ pretty i +:+ "] missing positive duration 'd'"))
  | Some d =>
      if Num.leb d Num.zero then
        throw (Error ("Manifest: scene[" +:+ pretty i +:+ "] missing positive duration 'd'"))
      else
        tv ← get s "t";
        match is_number tv with
        | Some t => mret (Num.add t d)
        | None =>
            _ ← set s "t" (HPrim (PNum cursor));
            mret (Num.add cursor d)
        end
  end.

Fixpoint forEachScene (cursor : num) (i : nat) (ss : list hval) : M unit :=
  match ss with
  | [] => mret ()
  | s :: rest =>
      cursor' ← normalizeScene cursor i s;
      forEachScene cursor' (S i) rest
  end.

(** [#normalizeManifest(manifest)] *)
Definition normalizeManifest (manifest : hval) : M hval :=
  m ← structuredClone manifest;
  scenes ← get m "scenes";
  arr ← isArray scenes;
  match arr with
  | None => throw (TypeError "m.scenes.forEach is not a function")
  | Some ss =>
      _ ← forEachScene Num.zero 0 ss;
      mret m
  end.

End HCore.

(** ** engine/loader.js, on objects in the store *)

Module HLoader.
Import Heap.

Definition str (s : string) : hval := HPrim (PStr s).

(** The callback of [m.scenes.map]: the new scene object. *)
Definition normalizeScene (host : Loader.Host) (base : string) (i : nat)
    (s : hval) : M hval :=
  fs ← spread s;
  sl ← alloc (OObj fs);
  let scene := HRef sl in
  (* duration *)
  d0 ← get scene "d";
  dt ← read (or d0 (HPrim (PNum Num.zero)));
  let dn := Num.max Loader.tenth (Js.ToNumber dt) in
  _ ← set scene "d" (HPrim (PNum dn));
  if negb (Num.truthy dn) || negb (Num.isFinite dn) then
    throw (Error ("Manifest scene[" +:+ pretty i +:+ "] requires positive duration 'd'"))
  else
    (* media *)
    m0 ← get scene "media";
    media ← (if truthy m0 then mret m0
             else (l ← alloc (OObj []); mret (HRef l)));
    msrc ← get media "src";
    st ← read (or msrc (str EmptyString));
    let src := Js.trim (Js.ToString (Loader.Number_toString host) st) in
    href ← (if String.eqb src EmptyString then mret EmptyString
            else lift (Loader.URL_href host src base));
    credit ← get media "credit";
    kb ← get media "kenburns";
    ml ← alloc (OObj [("src", str href); ("credit", credit);
                      ("kenburns", or kb (str "center"))]);
    _ ← set scene "media" (HRef ml);
    (* text & callouts normalize arrays *)
    tx ← get scene "text";
    ta ← isArray tx;
    _ ← (if ta is Some _ then mret ()
         else (l ← alloc (OArr []); set scene "text" (HRef l)));
    cs ← get scene "callouts";
    ca ← isArray cs;
    _ ← (if ca is Some _ then mret ()
         else (l ← alloc (OArr []); set scene "callouts" (HRef l)));
    (* transitions defaults *)
    tin ← get scene "transitionIn";
    _ ← set scene "transitionIn" (or tin (str "crossfade"));
    tout ← get scene "transitionOut";
    tin' ← get scene "transitionIn";
    _ ← set scene "transitionOut" (or tout tin');
    mret scene.

Fixpoint mapScenes (host : Loader.Host) (base : string) (i : nat)
    (ss : list hval) : M (list hval) :=
  match ss with
  | [] => mret []
  | s :: rest =>
      s' ← normalizeScene host base i s;
      rest' ← mapScenes host base (S i) rest;
      mret (s' :: rest')
  end.

(** [sumDurations(scenes)] *)
Fixpoint sumDurations (acc : num) (scenes : list hval) : M num :=
  match scenes with
  | [] => mret acc
  | s :: rest =>
      dv ← (match s with
            | HPrim (PUndef | PNull) => mret undef
            | _ => get s "d"
            end);
      dt ← read dv;
      let dn := Js.ToNumber dt in
      sumDurations (Num.add acc (if Num.truthy dn then dn else Num.zero)) rest
  end.

(** [normalizeManifest(raw, manifestUrl)] *)
Definition normalizeManifest (host : Loader.Host) (raw : hval)
    (manifestUrl : string) : M hval :=
  base ← lift (Loader.URL_href host "." manifestUrl);
  m ← structuredClone raw;
  sc ← get m "scenes";
  sa ← isArray sc;
  _ ← (if sa is Some _ then mret ()
       else (l ← alloc (OArr []); set m "scenes" (HRef l)));
  sc ← get m "scenes";
  sa ← isArray sc;
  ss' ← mapScenes host base 0 (default [] sa);
  l ← alloc (OArr ss');
  _ ← set m "scenes" (HRef l);
  (* preserve theme/duration hint if present *)
  th ← get m "theme";
  _ ← set m "theme"
        (match th with
         | HPrim (PStr "dark") => str "dark"
         | _ => str "light"
         end);
  du ← get m "duration";
  dt ← read du;
  let hint := Js.ToNumber dt in
  total ← (if Num.truthy hint then mret hint else sumDurations Num.zero ss');
  _ ← set m "duration" (HPrim (PNum total));
  mret m.

End HLoader.

(** ** engine/presets.js *)

Module Presets.

(** [clone(x)], where [structuredClone] exists. *)
Definition clone (x : val) : result val := structuredClone x.

(** [applyTheme(manifest, theme = "light")] *)
Definition applyTheme (manifest theme : val) : result val :=
  let theme := match theme with
               | VPrim PUndef => VStr "light"
               | _ => theme
               end in
  m ← clone manifest;
  Js.set m "theme" theme.


(** [sumDurations(scenes)] *)
Definition sumDurations (scenes : list val) : num :=
  foldl (λ acc s,
           let dn := Js.ToNumber (Js.get_opt s "d") in
           Num.add acc (if Num.truthy dn then dn else Num.zero))
        Num.zero scenes.


End Presets.

(** ** engine/presets.js, on objects in the store *)

Module HPresets.
Import Heap.

(** [applyTheme(manifest, theme = "light")]: the assignment is made in
    place, on the copy. *)
Definition applyTheme (manifest theme : hval) : M hval :=
  let theme := match theme with
               | HPrim PUndef => HPrim (PStr "light")
               | _ => theme
               end in
  m ← structuredClone manifest;
  _ ← set m "theme" theme;
  mret m.

End HPresets.

(** ** scripts/app.js *)

Module App.

(** [themeQ === "dark" ? "dark" : themeQ === "light" ? "light" :
    manifest.theme], where [themeQ] is what [params.get("theme")]
    returned. *)
Definition chosenTheme (themeQ : option string) (manifest : val)
  : result val :=
  match themeQ with
  | Some q =>
      if String.eqb q "dark" then Ok (VStr "dark")
      else if String.eqb q "light" then Ok (VStr "light")
      else Js.get manifest "theme"
  | None => Js.get manifest "theme"
  end.

(** The body of the loop of [calcTotalDuration], for the scene [s]. *)
Definition totalStep (end_ : num) (s : val) : result num :=
  tv ← Js.get s "t";
  let t := Js.ToNumber (Js.nullish tv (VNum end_)) in
  dv ← Js.get s "d";
  let d := Js.ToNumber (Js.or dv (VNum Num.zero)) in
  Ok (Num.max end_ (Num.add t d)).

Fixpoint totalLoop (end_ : num) (scenes : list val) : result num :=
  match scenes with
  | [] => Ok end_
  | s :: rest => e ← totalStep end_ s; totalLoop e rest
  end.

(** [calcTotalDuration(manifest)]. The function is private to the page
    script and is given the manifest that [applyTheme] returned. A string
    in the place of [scenes] is walked character by character; a number
    or [true] has no [length]. An object with a [length] of its own and a
    function are outside what a tree holds and are reported as an error
    here. *)
Definition calcTotalDuration (manifest : val) : result num :=
  match Js.or (Js.get_opt manifest "scenes") (VArr []) with
  | VArr scenes => totalLoop Num.zero scenes
  | VPrim (PStr s) => totalLoop Num.zero (Js.chars s)
  | VPrim (PFun _) | VObj _ => Throw (Error "scenes: not an array")
  | VPrim _ => Ok Num.zero
  end.

End App.

(** ** engine/loader.js: fetching, assets and the error overlay *)

Module Project.

(** *** [fetchJSON]: the manifest, with retries *)

(** What one [fetchWithTimeout] meets: a rejection (the network, or the
    abort when [timeoutMs] has passed), or a response with its [ok] flag,
    its status and what [res.json()] settles with. *)
Inductive response :=
| Refused (err : error)
| Responded (ok : bool) (status : Z) (json : result val).

(** The body of the [try] block. *)
Definition attemptJSON (url : string) (r : response) : result val :=
  match r with
  | Refused err => Throw err
  | Responded ok status json =>
      if ok then json
      else Throw (Error ("HTTP " +:+ pretty status +:+ " for " +:+ url))
  end.

(** What a call of [fetchJSON] did: the attempts it made, the sleeps it
    took (in ms, in order) and what it settled with. *)
Record Fetched := {
  attempts : nat;
  sleeps : list Z;
  outcome : result val;
}.

(** The loop [for (attempt = 0; attempt <= retry; attempt++)], entered
    with [fuel] iterations left; [tries k] is what attempt [k] meets. *)
Fixpoint fetchJSON_loop (url : string) (tries : nat → response)
    (attempt fuel : nat) (lastErr : option error) (slept : list Z)
  : Fetched :=
  match fuel with
  | O =>
      {| attempts := attempt; sleeps := slept;
         outcome := Throw (default (Error ("Failed to fetch " +:+ url))
                                   lastErr) |}
  | S fuel' =>
      match attemptJSON url (tries attempt) with
      | Ok v => {| attempts := S attempt; sleeps := slept; outcome := Ok v |}
      | Throw err =>
          fetchJSON_loop url tries (S attempt) fuel' (Some err)
                         (slept ++ [200 * Z.of_nat attempt])
      end
  end.

(** [fetchJSON(url, { retry, timeoutMs })] *)
Definition fetchJSON (url : string) (retry : Z) (tries : nat → response)
  : Fetched :=
  fetchJSON_loop url tries 0 (Z.to_nat (retry + 1)) None [].

(** *** [collectMediaURLs] *)

(** The equality of a [Set]: [NaN] equals itself, the two zeros are one.
    Two objects of a tree are two objects. *)
Definition sameValueZero (a b : val) : bool :=
  match a, b with
  | VPrim PUndef, VPrim PUndef => true
  | VPrim PNull, VPrim PNull => true
  | VPrim (PBool x), VPrim (PBool y) => Bool.eqb x y
  | VPrim (PNum NaN), VPrim (PNum NaN) => true
  | VPrim (PNum PosInf), VPrim (PNum PosInf) => true
  | VPrim (PNum NegInf), VPrim (PNum NegInf) => true
  | VPrim (PNum (Fin x)), VPrim (PNum (Fin y)) => Qeq_bool x y
  | VPrim (PStr x), VPrim (PStr y) => String.eqb x y
  | VPrim (PFun x), VPrim (PFun y) => String.eqb x y
  | _, _ => false
  end.

(** The callback of [forEach]: [set] holds the members in insertion
    order. *)
Definition collectStep (set : list val) (s : val) : list val :=
  let u := Js.get_opt (Js.get_opt s "media") "src" in
  if Js.truthy u && negb (existsb (sameValueZero u) set)
  then set ++ [u] else set.

(** [collectMediaURLs(manifest)] *)
Definition collectMediaURLs (manifest : val) : result (list val) :=
  sc ← Js.get manifest "scenes";
  match Js.isArray (Js.or sc (VArr [])) with
  | None => Throw (TypeError "(manifest.scenes || []).forEach is not a function")
  | Some scenes => Ok (foldl collectStep [] scenes)
  end.

(** *** [decodeImage] *)

Inductive settlement := Decoded | Failed (msg : string).

(** One call of [decodeImage]: the flag [done], whether the timer is
    pending, whether [onload] and [onerror] are set, whether
    [img.decode()] is in flight, what the promise has settled with, and
    how many times [res] or [rej] was called. *)
Record Decode := {
  done : bool;
  timer : bool;
  handlers : bool;
  decoding : bool;
  promise : option settlement;
  calls : nat;
}.

(** [res(true)] or [rej(...)]: a promise keeps its first settlement. *)
Definition settle (s : settlement) (st : Decode) : Decode :=
  {| done := done st; timer := timer st; handlers := handlers st;
     decoding := decoding st;
     promise := match promise st with
                | None => Some s
                | p => p
                end;
     calls := S (calls st) |}.

(** [done = true; cleanup()] *)
Definition finish (st : Decode) : Decode :=
  {| done := true; timer := false; handlers := false;
     decoding := decoding st; promise := promise st; calls := calls st |}.

(** The state when [decodeImage] returns its promise. *)
Definition decodeImage : Decode :=
  {| done := false; timer := true; handlers := true; decoding := false;
     promise := None; calls := 0 |}.

(** What the host may deliver: the timer, the image's [load] or [error]
    event, the settlement of [img.decode()]. *)
Inductive signal := TimerFires | ImgLoad | ImgError | DecodeSettles (ok : bool).

(** The callbacks; [hasDecode] tells whether [img.decode] exists. *)
Definition deliver (hasDecode : bool) (e : signal) (st : Decode) : Decode :=
  match e with
  | TimerFires =>
      if timer st then
        let st := {| done := done st; timer := false;
                     handlers := handlers st; decoding := decoding st;
                     promise := promise st; calls := calls st |} in
        if done st then st
        else settle (Failed "decode timeout") (finish st)
      else st
  | ImgLoad =>
      if handlers st then
        if done st then st
        else
          let st := finish st in
          if hasDecode then
            {| done := done st; timer := timer st; handlers := handlers st;
               decoding := true; promise := promise st; calls := calls st |}
          else settle Decoded st
      else st
  | ImgError =>
      if handlers st then
        if done st then st
        else settle (Failed "image error") (finish st)
      else st
  | DecodeSettles _ =>
      if decoding st then
        settle Decoded
          {| done := done st; timer := timer st; handlers := handlers st;
             decoding := false; promise := promise st; calls := calls st |}
      else st
  end.

Definition delivered (hasDecode : bool) (es : list signal) (st : Decode)
  : Decode :=
  foldl (λ acc e, deliver hasDecode e acc) st es.

(** *** [escapeHTML] *)

(** The replacement for one character. *)
Definition escapeChar (c : ascii) : string :=
  if Ascii.eqb c "&" then "&amp;"
  else if Ascii.eqb c "<" then "&lt;"
  else if Ascii.eqb c ">" then "&gt;"
  else if Ascii.eqb c "034" then "&quot;"
  else if Ascii.eqb c "'" then "&#39;"
  else String c EmptyString.

(** [escapeHTML(s)] *)
Fixpoint escapeHTML (s : string) : string :=
  match s with
  | EmptyString => EmptyString
  | String c rest => escapeChar c +:+ escapeHTML rest
  end.

(** The text that [showErrorOverlay] puts into its paragraph:
    [escapeHTML(String(message || "Unknown error"))]. *)
Definition overlayText (numberToString : num → string) (message : val)
  : string :=
  escapeHTML (Js.ToString numberToString
                (Js.or message (VStr "Unknown error"))).

End Project.

(** ** Notions used in the statements *)

(** Objects that hold references to [n] or above only, and stores that
    extend [h0] by such objects and leave the objects of [h0] as they
    are. *)
Definition fresh (n : nat) (v : Heap.hval) : Prop :=
  match v with
  | Heap.HRef l => (n ≤ l)%nat
  | Heap.HPrim _ => True
  end.

Definition children (o : Heap.obj) : list Heap.hval :=
  match o with
  | Heap.OArr es => es
  | Heap.OObj fs => fs.*2
  end.

Definition own (n : nat) (o : Heap.obj) : Prop :=
  Forall (fresh n) (children o).

Definition extends (h0 h : Heap.heap) : Prop :=
  ∃ k, h = h0 ++ k ∧ Forall (own (length h0)) k.

(** From a store that extends [h0], the code [m] leads to one that does,
    whether it returns or throws, and its result satisfies [Q]. *)
Definition safe {A} (h0 : Heap.heap) (m : Heap.M A) (Q : A → Prop) : Prop :=
  ∀ h, extends h0 h → extends h0 (m h).1 ∧ ∀ a, (m h).2 = Ok a → Q a.

(** Every copy recorded so far is a new object. *)
Definition copies_fresh (n : nat) (mem : list (nat * nat)) : Prop :=
  Forall (λ e, (n ≤ e.2)%nat) mem.

(** Lists related element by element, over disjoint sets of objects. *)
Fixpoint forest_in {T H} (P : T → H → gset nat → Prop)
    (ts : list T) (es : list H) (Y : gset nat) : Prop :=
  match ts, es with
  | [], [] => Y = ∅
  | t :: ts', e :: es' =>
      ∃ Y1 Y2, Y = Y1 ∪ Y2 ∧ Y1 ## Y2 ∧ P t e Y1 ∧ forest_in P ts' es' Y2
  | _, _ => False
  end.

(** In the store [h], the value [v] denotes the tree [t], held in the
    objects [X], none of which is used twice. *)
Fixpoint tree_in (h : list Heap.obj) (t : val) (v : Heap.hval)
    (X : gset nat) : Prop :=
  match t with
  | VPrim p => v = Heap.HPrim p ∧ X = ∅
  | VArr ts =>
      ∃ l es Y, v = Heap.HRef l ∧ h !! l = Some (Heap.OArr es) ∧ (l ∉ Y)
                ∧ X = {[ l ]} ∪ Y
                ∧ forest_in (tree_in h) ts es Y
  | VObj fts =>
      ∃ l fs Y, v = Heap.HRef l ∧ h !! l = Some (Heap.OObj fs) ∧ (l ∉ Y)
                ∧ X = {[ l ]} ∪ Y
                ∧ forest_in (λ kt kv Z, kt.1 = kv.1 ∧ tree_in h kt.2 kv.2 Z)
                            fts fs Y
  end.

(** A field of an object of the store denotes a field of a tree. *)
Definition field_in (h : list Heap.obj) (kt : string * val)
    (kv : string * Heap.hval) (Z : gset nat) : Prop :=
  kt.1 = kv.1 ∧ tree_in h kt.2 kv.2 Z.

(** What is said below of trees holds of fields as well. *)
Definition framed {T H} (P : list Heap.obj → T → H → gset nat → Prop) : Prop :=
  (∀ h h' t e Z, (∀ l, l ∈ Z → h' !! l = h !! l) → P h t e Z → P h' t e Z)
  ∧ (∀ h t e Z l, P h t e Z → l ∈ Z → (l < length h)%nat).

(** [f] lays its argument out in new objects. *)
Definition lays {T H} (P : list Heap.obj → T → H → gset nat → Prop)
    (f   : T → Heap.M H) (t : T) : Prop :=
  ∀ h, ∃ k e Z, f t h = (h ++ k, Ok e) ∧ P (h ++ k) t e Z
                ∧ ∀ l, l ∈ Z → (length h ≤ l)%nat.

Definition unseen (mem : list (nat * nat)) (X : gset nat) : Prop :=
  ∀ l, l ∈ X → Heap.copyOf mem l = None.

(** What cloning [v], which denotes a tree, comes to: a copy of the tree
    in new objects, or the error of a function found in it. *)
Definition cloned {T H} (P : list Heap.obj → T → H → gset nat → Prop)
    (ok : bool) (t : T) (X : gset nat) (h : list Heap.obj)
    (mem : list (nat * nat)) (out : list Heap.obj * result (H * list (nat * nat)))
    : Prop :=
  if ok then
    ∃ k v' X' mem', out = (h ++ k, Ok (v', mem'))
      ∧ P (h ++ k) t v' X'
      ∧ (∀ l, l ∈ X' → (length h ≤ l)%nat)
      ∧ (∀ l, l ∉ X → Heap.copyOf mem' l = Heap.copyOf mem l)
  else ∃ h', out = (h', Throw DataCloneError).

Definition clones (fuel : nat) (t : val) : Prop :=
  ∀ v X h mem, tree_in h t v X → (size X ≤ fuel)%nat → unseen mem X →
    cloned tree_in (cloneable t) t X h mem (Heap.clone fuel v mem h).

(** What a step on the store, started where [v] denotes the tree on which
    the tree-level step gives [r], comes to: the same result, in objects
    of the tree, with the rest of the store as it was. *)
Definition simulates {S A B} (P : list Heap.obj → S → A → gset nat → Prop)
    (h : list Heap.obj) (v : A) (X : gset nat) (r : result (S * B))
    (out : list Heap.obj * result B) : Prop :=
  match r with
  | Ok (t', b) =>
      ∃ h' X', out = (h', Ok b) ∧ P h' t' v X' ∧ X' ⊆ X
        ∧ length h' = length h
        ∧ ∀ l, l ∉ X → h' !! l = h !! l
  | Throw e => ∃ h', out = (h', Throw e)
  end.

(** Lists related element by element. *)
Fixpoint all2 {T H} (P : T → H → Prop) (ts : list T) (es : list H) : Prop :=
  match ts, es with
  | [], [] => True
  | t :: ts', e :: es' => P t e ∧ all2 P ts' es'
  | _, _ => False
  end.

(** In the store [h], the value [v] denotes the tree [t] through objects
    of [X], none of which is met twice on the way down; an object may
    stand at several places of the tree. *)
Fixpoint denotes (h : list Heap.obj) (t : val) (v : Heap.hval)
    (X : gset nat) : Prop :=
  match t with
  | VPrim p => v = Heap.HPrim p
  | VArr ts =>
      ∃ l es, v = Heap.HRef l ∧ l ∈ X ∧ h !! l = Some (Heap.OArr es)
              ∧ all2 (λ t e, denotes h t e (X ∖ {[ l ]})) ts es
  | VObj fts =>
      ∃ l fs, v = Heap.HRef l ∧ l ∈ X ∧ h !! l = Some (Heap.OObj fs)
              ∧ all2 (λ kt kv, kt.1 = kv.1
                               ∧ denotes h kt.2 kv.2 (X ∖ {[ l ]})) fts fs
  end.

(** The objects of a store of [n] objects. *)
Definition dom (n : nat) : gset nat := set_seq 0 n.

(** [v] denotes [t] in [h] without going through the objects [A]. *)
Definition denotes_off (A : gset nat) (h : list Heap.obj) (t : val)
    (v : Heap.hval) : Prop :=
  denotes h t v (dom (length h) ∖ A).

(** The store [h'] has the objects of [h], as they are in [h], and
    maybe more. *)
Definition keeps (h h' : list Heap.obj) : Prop :=
  (length h ≤ length h')%nat ∧ ∀ l, (l < length h)%nat → h' !! l = h !! l.

(** A field of an object in the store denotes a field of a tree. *)
Definition field_denotes (h : list Heap.obj) (X : gset nat)
    (kt : string * val) (kv : string * Heap.hval) : Prop :=
  kt.1 = kv.1 ∧ denotes h kt.2 kv.2 X.

(** The object [sl], made after the store was [h0], denotes [VObj fts];
    the objects [A] are older than [h0]. *)
Definition building (A : gset nat) (h0 h : list Heap.obj)
    (fts : list (string * val)) (sl : nat) : Prop :=
  keeps h0 h ∧ (length h0 ≤ sl)%nat
  ∧ (∀ l, l ∈ A → (l < length h0)%nat)
  ∧ denotes_off A h (VObj fts) (Heap.HRef sl).

(** A value of a store of [n] objects, and a store whose objects refer to
    its objects only. *)
Definition old (n : nat) (v : Heap.hval) : Prop :=
  match v with
  | Heap.HRef l => (l < n)%nat
  | Heap.HPrim _ => True
  end.

Definition closed (h : list Heap.obj) : Prop :=
  Forall (λ o, Forall (old (length h)) (children o)) h.

(** The objects copied so far. *)
Definition sources (mem : list (nat * nat)) : gset nat := list_to_set mem.*1.

(** The objects of [h0] are in [h] as they are in [h0]. *)
Definition preserves (h0 h : list Heap.obj) : Prop :=
  ∀ l, (l < length h0)%nat → h !! l = h0 !! l.

(** What a clone with enough fuel comes to. *)
Definition returns (h0 : list Heap.obj) (mem : list (nat * nat))
    {A} (out : list Heap.obj * result (A * list (nat * nat))) : Prop :=
  match out with
  | (h', Ok (_, mem')) =>
      preserves h0 h' ∧ sources mem ⊆ sources mem'
      ∧ sources mem' ⊆ dom (length h0)
  | (_, Throw e) => e = DataCloneError
  end.

Definition enough (h0 : list Heap.obj) (fuel : nat) (mem : list (nat * nat))
    : Prop :=
  sources mem ⊆ dom (length h0)
  ∧ (length h0 ≤ fuel + size (sources mem))%nat.

(** The errors of [#normalizeManifest] in the core: a function in the
    manifest, a manifest or a scene that is [undefined] or [null],
    [scenes] that is no array, a duration that is no positive number. *)
Definition core_error (e : error) : Prop :=
  e = DataCloneError
  ∨ e = TypeError "Cannot read properties of undefined or null: scenes"
  ∨ e = TypeError "m.scenes.forEach is not a function"
  ∨ e = TypeError "Cannot read properties of undefined or null: d"
  ∨ ∃ i : nat,
      e = Error ("Manifest: scene[" +:+ pretty i +:+ "] missing positive duration 'd'").


(** The tree that a normaliser on the store makes of the tree [t], laid
    out in an empty store. *)
Definition on_tree (f : Heap.hval → Heap.M Heap.hval) (t : val) : result val :=
  ((v ← Heap.build t; r ← f v; Heap.read r) []).2.

(** A scene object that stands at both positions of [scenes]. *)
Definition shared_scene_store : Heap.heap :=
  [Heap.OObj [("d", Heap.HPrim (PNum (Num.ofZ 2)))];
   Heap.OArr [Heap.HRef 0%nat; Heap.HRef 0%nat];
   Heap.OObj [("scenes", Heap.HRef 1%nat)]].


(** Scene [s] occupies the half-open interval that contains [now]. *)
Definition activeAt (s : Core.Scene) (now : num) : Prop :=
  Num.leb (Core.t s) now = true
  ∧ Num.ltb now (Num.add (Core.t s) (Core.d s)) = true.

(** The start time and the duration that a scene of a manifest carries,
    when they are numbers. *)
Definition startTime (s : val) : option num :=
  Js.is_number (Js.get_opt s "t").

Definition duration (s : val) : option num :=
  Js.is_number (Js.get_opt s "d").

(** Where a scene ends: its start plus its duration. *)
Definition endTime (s : val) : option num :=
  t ← startTime s; d ← duration s; Some (Num.add t d).

(** The sum of the durations of the scenes before position [i]. *)
Definition sumPrior (ss : list val) (i : nat) : num :=
  foldl (λ acc s, Num.add acc (default NaN (duration s))) Num.zero (take i ss).

(** Every scene of [m] that carries no start time of its own is given the
    sum of the durations of the scenes before it. *)
Definition starts_at_sum_of_prior (m : val) : Prop :=
  ∀ m' i s s',
    Core.normalizeManifest m = Ok m' →
    Core.scenesOf m !! i = Some s →
    Core.scenesOf m' !! i = Some s' →
    startTime s = None →
    startTime s' = Some (sumPrior (Core.scenesOf m') i).

Definition scene_of_duration (dz : Z) : val :=
  VObj [("d", VNum (Num.ofZ dz))].

(** Three scenes of durations 2, 3 and 2, none with a start time. *)
Definition manifest_232 : val :=
  VObj [("scenes",
         VArr [scene_of_duration 2; scene_of_duration 3; scene_of_duration 2])].

Definition manifest_232_resolved : val :=
  VObj [("scenes",
         VArr [VObj [("d", VNum (Num.ofZ 2)); ("t", VNum (Num.ofZ 0))];
               VObj [("d", VNum (Num.ofZ 3)); ("t", VNum (Num.ofZ 2))];
               VObj [("d", VNum (Num.ofZ 2)); ("t", VNum (Num.ofZ 5))]])].

(** A first scene that starts at 10 and lasts 2, then one of duration 3
    without a start time. *)
Definition manifest_late_start : val :=
  VObj [("scenes",
         VArr [VObj [("t", VNum (Num.ofZ 10)); ("d", VNum (Num.ofZ 2))];
               scene_of_duration 3])].

(** One scene of two seconds whose only text is due at three seconds. *)
Definition manifest_late_text : val :=
  VObj [("scenes",
         VArr [VObj [("d", VNum (Num.ofZ 2));
                     ("text", VArr [VObj [("html", VStr "fin");
                                          ("at", VNum (Num.ofZ 3))]])]])].

(** One scene of five seconds with a callout that names no offset. *)
Definition manifest_callout : val :=
  VObj [("scenes",
         VArr [VObj [("d", VNum (Num.ofZ 5));
                     ("callouts", VArr [VObj [("html", VStr "detalhe")]])]])].

(** A scene whose duration is zero, and one whose duration is negative. *)
Definition manifest_zero_duration : val :=
  VObj [("scenes", VArr [scene_of_duration 0])].

Definition manifest_negative_duration : val :=
  VObj [("scenes", VArr [scene_of_duration (-3)])].

(** One scene, of duration [n]. *)
Definition manifest_of_duration (n : num) : val :=
  VObj [("scenes", VArr [VObj [("d", VNum n)]])].

Definition manifest_empty : val := VObj [("scenes", VArr [])].

(** One scene of four seconds, a title due at one second and a callout
    due at two. *)
Definition manifest_title : val :=
  VObj [("scenes",
         VArr [VObj [("d", VNum (Num.ofZ 4));
                     ("text", VArr [VObj [("role", VStr "title");
                                          ("html", VStr "mapa");
                                          ("at", VNum (Num.ofZ 1))]]);
                     ("callouts", VArr [VObj [("html", VStr "detalhe");
                                              ("at", VNum (Num.ofZ 2))]])]])].

(** The text and callout elements of the node mounted for a scene. *)
Definition textEls (st : Core.State) (index : Z) : option (list Core.Element) :=
  node ← Core.nodeOf st index; Some (Core.t_el <$> Core.textNodes node).

Definition calloutEls (st : Core.State) (index : Z)
  : option (list Core.Element) :=
  node ← Core.nodeOf st index; Some (Core.c_el <$> Core.calloutNodes node).

Definition ms (z : Z) : num := Num.ofZ z.

(** The text element at position [p] of the node mounted for a scene,
    and the callout element likewise. *)
Definition textElAt (st : Core.State) (index : Z) (p : nat)
  : option Core.Element :=
  node ← Core.nodeOf st index;
  tn ← Core.textNodes node !! p;
  Some (Core.t_el tn).

Definition calloutElAt (st : Core.State) (index : Z) (p : nat)
  : option Core.Element :=
  node ← Core.nodeOf st index;
  cn ← Core.calloutNodes node !! p;
  Some (Core.c_el cn).

(** One step of the loops of [#tickScene], for a handle with key [key],
    due when [isDue], and revealed by [reveal]. *)
Definition tickStep {A} (key : A → string) (isDue : A → bool)
    (reveal : A → A) (acc : gset string * list A) (n : A)
  : gset string * list A :=
  if negb (bool_decide (key n ∈ acc.1)) && isDue n
  then ({[ key n ]} ∪ acc.1, acc.2 ++ [reveal n])
  else (acc.1, acc.2 ++ [n]).

(** What one such loop does to a handle, seen from the set [F] of keys
    fired before the loop. *)
Definition tickOne {A} (key : A → string) (isDue : A → bool)
    (reveal : A → A) (F : gset string) (n : A) : A :=
  if negb (bool_decide (key n ∈ F)) && isDue n then reveal n else n.

Definition revealedText (n : Core.TextNode) : Core.TextNode :=
  {| Core.t_el := Core.addIsIn (Some EmptyString) (Core.t_el n);
     Core.t_at := Core.t_at n; Core.t_role := Core.t_role n;
     Core.t_idx := Core.t_idx n |}.

Definition revealedCallout (n : Core.CalloutNode) : Core.CalloutNode :=
  {| Core.c_el := Core.addIsIn None (Core.c_el n);
     Core.c_at := Core.c_at n; Core.c_idx := Core.c_idx n |}.

(** Scene [index] is scene [s] of the schedule and is mounted as the node
    [node], of identity [id]. *)
Definition mountedAs (st : Core.State) (index : Z) (s : Core.Scene)
    (id : nat) (node : Core.SceneNode) : Prop :=
  at_index (Core.scenes st) index = Some s
  ∧ Core._sceneNodes st !! index = Some id
  ∧ Core.nodes st !! id = Some node.

(** The node after a frame at local offset [tLocal], from the keys fired
    before the frame. *)
Definition tickedNode (index : Z) (tLocal : num) (F FC : gset string)
    (node : Core.SceneNode) : Core.SceneNode :=
  {| Core.attached := Core.attached node;
     Core.fx := Core.fx node;
     Core.img_src := Core.img_src node;
     Core.textNodes :=
       tickOne (λ n, Core.textKey index (Core.t_idx n))
               (λ n, Core.due tLocal (Core.t_at n)) revealedText F
         <$> Core.textNodes node;
     Core.calloutNodes :=
       tickOne (λ n, Core.calloutKey index (Core.c_idx n))
               (λ n, Core.due tLocal (Core.c_at n)) revealedCallout FC
         <$> Core.calloutNodes node |}.

(** A scene mounted with distinct event indices, as every mount leaves
    it. *)
Definition wellMounted (st : Core.State) (index : Z) (s : Core.Scene)
    (node : Core.SceneNode) : Prop :=
  (∃ id, mountedAs st index s id node)
  ∧ NoDup (Core.t_idx <$> Core.textNodes node)
  ∧ NoDup (Core.c_idx <$> Core.calloutNodes node).

(** What the scheduler itself keeps: whether it runs, whether a frame is
    requested, the elapsed time and the active index. *)
Definition scheduler (st : Core.State) : bool * bool * num * Z :=
  (Core._running st, Core.frame st, Core._now st, Core._activeIndex st).

(** Whether a string contains the separator of the trigger keys. *)
Fixpoint has_hash (s : string) : bool :=
  match s with
  | EmptyString => false
  | String c s' => Ascii.eqb c "#" || has_hash s'
  end.

(** A playback: the engine built from [m], started at clock reading 0,
    then driven by the events [es]. *)
Definition playback (m : val) (es : list Core.event) : option Core.State :=
  match Core.new m with
  | Ok st => Some (Core.run es (Core.start Num.zero st))
  | Throw _ => None
  end.

(** What holds of a pool between two callbacks, for the URLs [urls] and
    the options [c] and [r] it was given: the active count is the number
    of checks in flight and is within the bound once one was dispatched;
    URLs were dispatched in the order given, each at an active count
    below the bound; every URL is settled, in flight or queued; each
    settled URL is reported with the outcome of [preloadImage]; and the
    promise is either pending, with the pool saturated while URLs wait
    and not idle once none does, or fulfilled by one call of [resolve],
    with nothing queued and nothing in flight. *)
Record pool_inv (urls : list string) (c r : Z) (p : Loader.Pool) : Prop := {
  inv_conf : Loader.concurrency p = c ∧ Loader.retry p = r;
  inv_active : Loader.active p = Z.of_nat (length (Loader.inflight p));
  inv_bound : Loader.active p = 0 ∨ Loader.active p ≤ c;
  inv_fifo : (Loader.started p).*1 ++ Loader.queue p = urls;
  inv_below : ∀ u a, (u, a) ∈ Loader.started p → 0 ≤ a < c;
  inv_resolved : Loader.resolved p = Z.of_nat (length (Loader.report p));
  inv_perm : (Loader.report p).*1 ++ Loader.inflight p ++ Loader.queue p
             ≡ₚ urls;
  inv_report : ∀ u s, (u, s) ∈ Loader.report p →
                      ∃ tries, s = Loader.preloadImage r tries;
  inv_signal :
    (Loader.completion p = Loader.Pending ∧ Loader.resolves p = 0%nat
     ∧ (Loader.queue p = [] → 0 < Loader.active p)
     ∧ (Loader.queue p ≠ [] → c ≤ Loader.active p))
    ∨ (Loader.completion p = Loader.Fulfilled ∧ Loader.resolves p = 1%nat
       ∧ Loader.queue p = [] ∧ Loader.active p = 0);
}.

(** The same before [next] has run: the promise is pending and [resolve]
    has not been called. *)
Record pool_pre (urls : list string) (c r : Z) (p : Loader.Pool) : Prop := {
  pre_conf : Loader.concurrency p = c ∧ Loader.retry p = r;
  pre_active : Loader.active p = Z.of_nat (length (Loader.inflight p));
  pre_bound : Loader.active p = 0 ∨ Loader.active p ≤ c;
  pre_fifo : (Loader.started p).*1 ++ Loader.queue p = urls;
  pre_below : ∀ u a, (u, a) ∈ Loader.started p → 0 ≤ a < c;
  pre_resolved : Loader.resolved p = Z.of_nat (length (Loader.report p));
  pre_perm : (Loader.report p).*1 ++ Loader.inflight p ++ Loader.queue p
             ≡ₚ urls;
  pre_report : ∀ u s, (u, s) ∈ Loader.report p →
                      ∃ tries, s = Loader.preloadImage r tries;
  pre_pending : Loader.completion p = Loader.Pending;
  pre_resolves : Loader.resolves p = 0%nat;
}.

Definition always (_ : nat) : Loader.attempt := Loader.Decoded.
Definition never (_ : nat) : Loader.attempt := Loader.Broken.

(** A URL has succeeded within the attempts allowed, or has exhausted
    them: [retry + 1] attempts, none when [retry] is negative. *)
Definition settled_within (r : Z) (s : Loader.settled) : Prop :=
  match s with
  | Loader.Loaded n => (1 ≤ n ≤ Z.to_nat (r + 1))%nat
  | Loader.Exhausted n _ => n = Z.to_nat (r + 1)
  end.

(** Five URLs, the second of which never loads. *)
Definition five_urls : list string := ["a"; "b"; "c"; "d"; "e"].

(** The checks of [five_urls] under concurrency 2 settle in this order:
    a, b (failing), c, d, e. *)
Definition five_settles : list (nat * (nat → Loader.attempt)) :=
  [(0%nat, always); (0%nat, never); (0%nat, always); (0%nat, always);
   (0%nat, always)].

(** The scenes [ss'] resolve the scenes [ss] from [cursor] on: each keeps
    its duration, starts where it says or else at the cursor, and moves
    the cursor to its end. *)
Fixpoint chained (cursor : num) (ss ss' : list val) : Prop :=
  match ss, ss' with
  | [], [] => True
  | s :: r, s' :: r' =>
      ∃ d t', duration s = Some d ∧ duration s' = Some d
              ∧ startTime s' = Some t'
              ∧ t' = default cursor (startTime s)
              ∧ chained (Num.add t' d) r r'
  | _, _ => False
  end.

(** ** Notions for the hand-over from the loader to the engine *)

(** A scene as the loader's [normalizeManifest] leaves it: a finite
    duration of at least 0.1, a media record with a string for [src] and
    a Ken Burns preset, arrays for [text] and [callouts], and both
    transitions named. *)
Definition loader_scene (s : val) : Prop :=
  (∃ q, Js.get_opt s "d" = VNum (Fin q) ∧ (1 # 10 <= q)%Q)
  ∧ (∃ src, Js.get_opt (Js.get_opt s "media") "src" = VStr src)
  ∧ Js.truthy (Js.get_opt (Js.get_opt s "media") "kenburns") = true
  ∧ Js.is_array (Js.get_opt s "text") = true
  ∧ Js.is_array (Js.get_opt s "callouts") = true
  ∧ Js.truthy (Js.get_opt s "transitionIn") = true
  ∧ Js.truthy (Js.get_opt s "transitionOut") = true.

(** A scheduled scene lasts a finite time of at least 0.1 s. *)
Definition lasts_a_tenth (s : Core.Scene) : Prop :=
  ∃ q, Core.d s = Fin q ∧ (1 # 10 <= q)%Q.

(** The elapsed time that a frame callback computes from its timestamp. *)
Definition elapsed (ts : num) (st : Core.State) : num :=
  Num.div (Num.sub ts (Core._t0 st)) (Num.ofZ 1000).

(** Where the loop takes the timeline to end: [last.t + last.d]. *)
Definition timelineEnd (ss : list Core.Scene) : option num :=
  s ← last ss; Some (Num.add (Core.t s) (Core.d s)).


(** A scene of a manifest that carries no number as its start time and
    lasts a finite time. *)
Definition implicit_finite (s : val) : Prop :=
  startTime s = None ∧ ∃ q, duration s = Some (Fin q).

(** A scene of a manifest that names no start time at all and lasts a
    finite time. *)
Definition untimed (s : val) : Prop :=
  Js.get_opt s "t" = VUndef ∧ ∃ q, duration s = Some (Fin q).

(** A schedule in which the first scene starts at [c] and every other
    scene where the one before it ends, each lasting a finite time that
    is positive. *)
Fixpoint contiguous (c : Q) (ss : list Core.Scene) : Prop :=
  match ss with
  | [] => True
  | s :: r =>
      Core.t s = Fin c
      ∧ ∃ q, Core.d s = Fin q ∧ (0 < q)%Q ∧ contiguous (c + q) r
  end.

(** The end of the last scene of a contiguous schedule that starts
    at [c]. *)
Fixpoint endOf (c : Q) (ss : list Core.Scene) : Q :=
  match ss with
  | [] => c
  | s :: r =>
      match Core.d s with
      | Fin q => endOf (c + q) r
      | _ => c
      end
  end.

(** Whether the character [c] occurs in [s]. *)
Fixpoint occurs (c : ascii) (s : string) : bool :=
  match s with
  | EmptyString => false
  | String x r => Ascii.eqb c x || occurs c r
  end.

(** The characters that open or close markup or an attribute value. *)
Definition markup (c : ascii) : Prop :=
  c = "<"%char ∨ c = ">"%char ∨ c = "034"%char ∨ c = "'"%char.

(** The sleep after the failed attempt [k] of [fetchJSON], in ms. *)
Definition backoff (k : nat) : Z := 200 * Z.of_nat k.

(** Attempt [k] of a fetch fails. *)
Definition fails (url : string) (tries : nat → Project.response) (k : nat)
  : Prop :=
  is_ok (Project.attemptJSON url (tries k)) = false.

(** A call of [decodeImage] once its promise has settled with [s], and
    one whose image has loaded and whose [img.decode()] is in flight. *)
Definition settledWith (s : Project.settlement) : Project.Decode :=
  {| Project.done := true; Project.timer := false;
     Project.handlers := false; Project.decoding := false;
     Project.promise := Some s; Project.calls := 1 |}.

Definition awaitingDecode : Project.Decode :=
  {| Project.done := true; Project.timer := false;
     Project.handlers := false; Project.decoding := true;
     Project.promise := None; Project.calls := 0 |}.

(** An event that leaves scene [i] the active one of the playback that
    [st] is in: a frame within the scene and not past the end of the
    timeline, a settled image or a removal timer; not a call of
    [stop]. *)
Definition stays_on (st : Core.State) (i : Z) (e : Core.event) : Prop :=
  match e with
  | Core.Frame ts =>
      Core.findSceneIndexAt (Core.scenes st) (elapsed ts st) = i
      ∧ ∀ last, timelineEnd (Core.scenes st) = Some last →
                Num.gtb (elapsed ts st) (Num.add last Core.grace) = false
  | Core.Stop _ => False
  | _ => True
  end.

(** Two scenes that overlap: the first lasts from 1 s to 1.5 s, the
    second from 0 s to 10 s. *)
Definition manifest_overlap : val :=
  VObj [("scenes",
         VArr [VObj [("t", VNum (Num.ofZ 1)); ("d", VNum (Fin (1 # 2)))];
               VObj [("t", VNum (Num.ofZ 0)); ("d", VNum (Num.ofZ 10))]])].

(** The playback of [manifest_overlap] at 1.5 s: the long scene has been
    left at 1 s and has just become the active one again. *)
Definition overlap_reentered : option Core.State :=
  playback manifest_overlap
    [Core.Frame (ms 16); Core.ImageSettled 1; Core.Frame (ms 1000);
     Core.ImageSettled 0; Core.Frame (ms 1500)].

(** One scene of two seconds whose only text block is [null]. *)
Definition manifest_null_text : val :=
  VObj [("scenes",
         VArr [VObj [("d", VNum (Num.ofZ 2)); ("text", VArr [VNull])]])].


(** No settlement of [img.decode()] among the signals. *)
Definition undecoded (e : Project.signal) : Prop :=
  match e with
  | Project.DecodeSettles _ => False
  | _ => True
  end.

(** One activation of scene [i], as the host delivers it: the frame at
    [ts], on which the scene becomes the active one and is mounted; the
    frames at [before], which come while its image loads; the settling of
    the image, on which the suspended [#onSceneChange] resumes and runs
    [#enterScene]; and the frames at [after]. *)
Definition activation (i : Z) (ts : num) (before after : list num)
  : list Core.event :=
  Core.Frame ts :: (Core.Frame <$> before)
    ++ Core.ImageSettled i :: (Core.Frame <$> after).

(** The engine is between two callbacks of a playback that runs, and the
    frame at [ts] makes scene [i], which is [s] in the schedule and is
    not mounted, the active one. *)
Definition activates (st : Core.State) (i : Z) (s : Core.Scene) (ts : num)
  : Prop :=
  Core._running st = true
  ∧ Core.frame st = true
  ∧ Core.microtasks st = []
  ∧ Core._activeIndex st ≠ i
  ∧ Core._sceneNodes st !! i = None
  ∧ at_index (Core.scenes st) i = Some s
  ∧ stays_on st i (Core.Frame ts).

(** The engine [st] of the playback that [st0] is in, between two
    callbacks, with scene [i] active and mounted as [node]. *)
Definition playing (st0 st : Core.State) (i : Z) (s : Core.Scene)
    (node : Core.SceneNode) : Prop :=
  Core.scenes st = Core.scenes st0
  ∧ Core._t0 st = Core._t0 st0
  ∧ Core._running st = true
  ∧ Core.frame st = true
  ∧ Core.microtasks st = []
  ∧ Core._activeIndex st = i
  ∧ wellMounted st i s node.

(** The node after [#enterScene]: the enter transition on the container,
    [is-in] removed from every text and callout. *)
Definition enteredNode (s : Core.Scene) (node : Core.SceneNode)
  : Core.SceneNode :=
  {| Core.attached := Core.attached node;
     Core.fx := Some (Core.applyTransition (Core.transitionIn s) true);
     Core.img_src := Core.img_src node;
     Core.textNodes := Core.hideText <$> Core.textNodes node;
     Core.calloutNodes := Core.hideCallout <$> Core.calloutNodes node |}.

(** The local offset in scene [s] of the frame at [ts]:
    [this._now - s.t]. *)
Definition localOffset (st : Core.State) (s : Core.Scene) (ts : num) : num :=
  Num.sub (elapsed ts st) (Core.t s).

(** One scene of five seconds with a text and a callout that name no
    offset. *)
Definition manifest_prompt : val :=
  VObj [("scenes",
         VArr [VObj [("d", VNum (Num.ofZ 5));
                     ("text", VArr [VObj [("html", VStr "mapa")]]);
                     ("callouts", VArr [VObj [("html", VStr "detalhe")]])]])].

(** * Properties *)

(** ** Own properties of objects *)

Lemma field_get_set_eq {V} k (v : V) fs :
  Js.field_get k (Js.field_set k v fs) = Some v.
Proof.
  induction fs as [|[k' v'] fs IH]; simpl.
  - by rewrite String.eqb_refl.
  - destruct (String.eqb k k') eqn:E; simpl; by rewrite ?String.eqb_refl, ?E.
Qed.

Lemma field_get_set_ne {V} k k' (v : V) fs :
  k ≠ k' → Js.field_get k' (Js.field_set k v fs) = Js.field_get k' fs.
Proof.
  intros Hne. induction fs as [|[k2 v2] fs IH]; simpl.
  - destruct (String.eqb k' k) eqn:E; [|done].
    apply String.eqb_eq in E. congruence.
  - destruct (String.eqb k k2) eqn:E; simpl.
    + apply String.eqb_eq in E. subst k2.
      destruct (String.eqb k' k) eqn:E'; [|done].
      apply String.eqb_eq in E'. congruence.
    + by rewrite IH.
Qed.

Lemma get_opt_set_eq v k x v' :
  Js.set v k x = Ok v' → Js.get_opt v' k = x.
Proof.
  destruct v as [p|l|fs]; simpl; intros H; try discriminate.
  injection H as <-. unfold Js.get_opt. simpl.
  by rewrite field_get_set_eq.
Qed.

Lemma get_opt_set_ne v k k' x v' :
  k ≠ k' → Js.set v k x = Ok v' → Js.get_opt v' k' = Js.get_opt v k'.
Proof.
  intros Hne. destruct v as [p|l|fs]; simpl; intros H; try discriminate.
  injection H as <-. unfold Js.get_opt. simpl.
  by rewrite field_get_set_ne.
Qed.

Lemma get_get_opt v k x : Js.get v k = Ok x → Js.get_opt v k = x.
Proof. unfold Js.get_opt. by intros ->. Qed.

(** ** The active scene *)

Lemma inScene_activeAt s now :
  Core.inScene s now = true ↔ activeAt s now.
Proof.
  unfold Core.inScene, activeAt, Num.geb.
  rewrite andb_true_iff. done.
Qed.

Lemma findFrom_spec arr now k :
  (Core.findFrom k arr now = -1
   ∧ ∀ i s, arr !! i = Some s → Core.inScene s now = false)
  ∨ (∃ i s, Core.findFrom k arr now = k + Z.of_nat i
            ∧ arr !! i = Some s
            ∧ Core.inScene s now = true
            ∧ ∀ j s', (j < i)%nat → arr !! j = Some s' →
                      Core.inScene s' now = false).
Proof.
  revert k. induction arr as [|s arr IH]; intros k; simpl.
  - left. split; [done|]. intros i s H. by rewrite lookup_nil in H.
  - destruct (Core.inScene s now) eqn:E.
    + right. exists 0%nat, s. repeat split; [lia|done|].
      intros j s' Hj. lia.
    + destruct (IH (k + 1)) as [[H1 H2]|(i & s0 & H1 & H2 & H3 & H4)].
      * left. split; [done|].
        intros [|i] s0 Hs; simpl in Hs; [congruence|eauto].
      * right. exists (S i), s0. repeat split; [lia|done|done|].
        intros [|j] s' Hj Hs; simpl in Hs; [congruence|].
        apply (H4 j); [lia|done].
Qed.

(** C4. [#findSceneIndexAt] returns the lowest index whose scene's half-open
    interval [startTime, startTime + duration) contains the time, and [-1]
    exactly when no interval contains it; overlapping intervals are
    settled in favour of the first in sequence order. *)
Theorem findSceneIndexAt_first_match (arr : list Core.Scene) (now : num) :
  (∀ i : nat,
     Core.findSceneIndexAt arr now = Z.of_nat i ↔
     ∃ s, arr !! i = Some s ∧ activeAt s now
          ∧ ∀ j s', (j < i)%nat → arr !! j = Some s' → ¬ activeAt s' now)
  ∧ (Core.findSceneIndexAt arr now = -1 ↔
     ∀ i s, arr !! i = Some s → ¬ activeAt s now)
  ∧ (Core.findSceneIndexAt arr now = -1
     ∨ ∃ i : nat, Core.findSceneIndexAt arr now = Z.of_nat i
                  ∧ (i < length arr)%nat).
Proof.
  unfold Core.findSceneIndexAt.
  assert (Hno : ∀ s, Core.inScene s now = false ↔ ¬ activeAt s now).
  { intros s. rewrite <- inScene_activeAt. by destruct (Core.inScene s now). }
  destruct (findFrom_spec arr now 0) as [[H1 H2]|(i & s & H1 & H2 & H3 & H4)].
  - rewrite H1. split; [|split].
    + intros i. split; [lia|].
      intros (s & Hs & Ha & _). apply inScene_activeAt in Ha.
      rewrite (H2 _ _ Hs) in Ha. done.
    + split; [|done]. intros _ i s Hs. apply Hno. eauto.
    + by left.
  - rewrite H1. split; [|split].
    + intros i'. split.
      * intros Hi. assert (i' = i) as -> by lia.
        exists s. split; [done|]. split; [by apply inScene_activeAt|].
        intros j s' Hj Hs. apply Hno. eauto.
      * intros (s' & Hs' & Ha & Hmin).
        destruct (Nat.lt_trichotomy i' i) as [Hlt|[->|Hgt]]; [|done|].
        -- apply inScene_activeAt in Ha. rewrite (H4 _ _ Hlt Hs') in Ha. done.
        -- exfalso. apply (Hmin i s Hgt H2). by apply inScene_activeAt.
    + split; [lia|]. intros Hall. exfalso.
      apply (Hall i s H2). by apply inScene_activeAt.
    + right. exists i. split; [lia|]. by apply lookup_lt_Some in H2.
Qed.

(** ** Start times after [#normalizeManifest] *)

Lemma normalizeScene_spec cursor i s s' cursor' :
  Core.normalizeScene cursor i s = Ok (s', cursor') →
  ∃ d t', duration s = Some d ∧ duration s' = Some d
          ∧ startTime s' = Some t'
          ∧ t' = default cursor (startTime s)
          ∧ cursor' = Num.add t' d.
Proof.
  unfold Core.normalizeScene, duration, startTime.
  destruct (Js.get s "d") as [dv|e] eqn:Hd; simpl; [|done].
  rewrite (get_get_opt _ _ _ Hd).
  destruct (Js.is_number dv) as [d|] eqn:Hn; [|done].
  destruct (Num.leb d Num.zero); [done|].
  destruct (Js.get s "t") as [tv|e] eqn:Ht; simpl; [|done].
  rewrite (get_get_opt _ _ _ Ht).
  destruct (Js.is_number tv) as [t|] eqn:Hnt.
  - intros [= <- <-]. exists d, t.
    rewrite (get_get_opt _ _ _ Hd), (get_get_opt _ _ _ Ht), Hn, Hnt. done.
  - destruct (Js.set s "t" (VNum cursor)) as [s2|e] eqn:Hs; simpl; [|done].
    intros [= <- <-]. exists d, cursor.
    rewrite (get_opt_set_eq _ _ _ _ Hs).
    rewrite (get_opt_set_ne _ "t" "d" _ _ ltac:(done) Hs).
    rewrite (get_get_opt _ _ _ Hd), Hn. done.
Qed.

Lemma normalizeScenes_chained cursor i ss ss' :
  Core.normalizeScenes cursor i ss = Ok ss' → chained cursor ss ss'.
Proof.
  revert cursor i ss'. induction ss as [|s ss IH]; intros cursor i ss'; simpl.
  - by intros [= <-].
  - destruct (Core.normalizeScene cursor i s) as [[s1 c1]|e] eqn:Hs;
      simpl; [|done].
    destruct (Core.normalizeScenes c1 (S i) ss) as [r|e] eqn:Hr; simpl; [|done].
    intros [= <-].
    destruct (normalizeScene_spec _ _ _ _ _ Hs) as (d & t' & ? & ? & ? & ? & ->).
    exists d, t'. repeat split; try done. by eapply IH.
Qed.


Lemma chained_previous_end cursor ss ss' i s s' :
  chained cursor ss ss' →
  ss !! i = Some s → ss' !! i = Some s' → startTime s = None →
  startTime s' =
    Some (match i with
          | O => cursor
          | S j => default NaN (ss' !! j ≫= endTime)
          end).
Proof.
  revert cursor ss' i. induction ss as [|s0 ss IH]; intros cursor [|s0' ss'] i;
    simpl; try done.
  intros (d & t' & Hd & Hd' & Ht' & Heq & Hch) Hs Hs' Hnone.
  destruct i as [|j]; simpl in *.
  - injection Hs as ->. injection Hs' as ->.
    rewrite Hnone in Heq. simpl in Heq. by subst.
  - rewrite (IH _ _ _ Hch Hs Hs' Hnone).
    destruct j as [|j']; simpl; [|done].
    unfold endTime. rewrite Ht', Hd'. done.
Qed.

Lemma chained_sum cursor ss ss' i s s' :
  chained cursor ss ss' →
  (∀ j p, (j < i)%nat → ss !! j = Some p → startTime p = None) →
  ss !! i = Some s → ss' !! i = Some s' → startTime s = None →
  startTime s' =
    Some (foldl (λ acc x, Num.add acc (default NaN (duration x)))
                cursor (take i ss')).
Proof.
  revert cursor ss' i. induction ss as [|s0 ss IH]; intros cursor [|s0' ss'] i;
    simpl; try done.
  intros (d & t' & Hd & Hd' & Ht' & Heq & Hch) Hprior Hs Hs' Hnone.
  destruct i as [|j]; simpl in *.
  - injection Hs as ->. injection Hs' as ->.
    rewrite Hnone in Heq. simpl in Heq. by subst.
  - rewrite (Hprior 0%nat s0 ltac:(lia) eq_refl) in Heq. simpl in Heq. subst t'.
    rewrite Hd'. simpl.
    apply (IH _ _ _ Hch); try done.
    intros j' p Hj Hp. apply (Hprior (S j') p); [lia|done].
Qed.

Lemma normalizeManifest_chained m m' :
  Core.normalizeManifest m = Ok m' →
  chained Num.zero (Core.scenesOf m) (Core.scenesOf m').
Proof.
  unfold Core.normalizeManifest, structuredClone.
  destruct (cloneable m); simpl; [|done].
  destruct (Js.get m "scenes") as [sc|e] eqn:Hsc; simpl; [|done].
  destruct (Js.isArray sc) as [ss|] eqn:Harr; [|done].
  destruct (Core.normalizeScenes Num.zero 0 ss) as [ss'|e] eqn:Hn; simpl; [|done].
  intros Hset. unfold Core.scenesOf.
  rewrite (get_opt_set_eq _ _ _ _ Hset), (get_get_opt _ _ _ Hsc), Harr. simpl.
  by eapply normalizeScenes_chained.
Qed.

Lemma chained_schedule cursor ss : ∀ ss',
  chained cursor ss ss' → is_Some (mapM Core.sceneOf ss').
Proof.
  intros ss' Hch. apply mapM_is_Some. revert cursor ss' Hch.
  induction ss as [|s ss IH]; intros cursor [|s' ss']; simpl; try done.
  intros (d & t' & _ & Hd & Ht & _ & Hch). constructor; [|by eapply IH].
  unfold compose, Core.sceneOf. unfold startTime in Ht. unfold duration in Hd.
  rewrite Ht, Hd. by eexists.
Qed.

(** After [#normalizeManifest] every scene carries numbers for [t] and
    [d]: the constructor fails in its guard or in the normaliser, and
    nowhere else. *)
Lemma new_fails_in_guard_or_normaliser m e :
  Core.new m = Throw e →
  Core.checkManifest m = Throw e ∨ Core.normalizeManifest m = Throw e.
Proof.
  unfold Core.new.
  destruct (Core.checkManifest m) as [[]|e1]; simpl; [|intros [= ->]; by left].
  destruct (Core.normalizeManifest m) as [m'|e2] eqn:Hn; simpl;
    [|intros [= ->]; by right].
  destruct (chained_schedule _ _ _ (normalizeManifest_chained _ _ Hn))
    as [ss Hss].
  unfold Core.scheduleOf. by rewrite Hss.
Qed.

(** The claim of C5 fails as it is worded: after a scene with a start time
    of its own (10, lasting 2), a scene without one starts at 12, where
    the first ends, while the durations before it sum to 2. *)
Lemma late_start_not_sum_of_prior : ¬ starts_at_sum_of_prior manifest_late_start.
Proof.
  intros H.
  specialize (H _ 1%nat (scene_of_duration 3) _ eq_refl eq_refl eq_refl eq_refl).
  vm_compute in H. discriminate H.
Qed.

(** C5, amended. A scene without a start time of its own starts where the
    scene before it ends (its resolved start plus its duration), the first
    one at 0; when no scene before it has a start time of its own either,
    that is the sum of the durations of all prior scenes. Durations 2, 3, 2
    without start times resolve to starts 0, 2, 5, and the durations add up
    to 7. *)
Theorem starts_chain_from_previous_end :
  (∀ m m' i s s',
     Core.normalizeManifest m = Ok m' →
     Core.scenesOf m !! i = Some s →
     Core.scenesOf m' !! i = Some s' →
     startTime s = None →
     startTime s' =
       Some (match i with
             | O => Num.zero
             | S j => default NaN (Core.scenesOf m' !! j ≫= endTime)
             end)
     ∧ ((∀ j p, (j < i)%nat → Core.scenesOf m !! j = Some p →
                startTime p = None) →
        startTime s' = Some (sumPrior (Core.scenesOf m') i)))
  ∧ (Core.normalizeManifest manifest_232 = Ok manifest_232_resolved
     ∧ startTime <$> Core.scenesOf manifest_232_resolved
       = [Some (Num.ofZ 0); Some (Num.ofZ 2); Some (Num.ofZ 5)]
     ∧ Loader.sumDurations (Core.scenesOf manifest_232_resolved) = Num.ofZ 7
     ∧ (Core.scenesOf manifest_232_resolved !! 2%nat) ≫= endTime
       = Some (Num.ofZ 7)).
Proof.
  split.
  - intros m m' i s s' Hn Hs Hs' Hnone.
    pose proof (normalizeManifest_chained _ _ Hn) as Hch. split.
    + by eapply chained_previous_end.
    + intros Hprior. unfold sumPrior. by eapply chained_sum.
  - vm_compute. done.
Qed.

Lemma starts_chain_from_previous_end_232 :
  Core.normalizeManifest manifest_232 = Ok manifest_232_resolved
  ∧ startTime (VObj [("d", VNum (Num.ofZ 2)); ("t", VNum (Num.ofZ 5))])
    = Some (sumPrior (Core.scenesOf manifest_232_resolved) 2).
Proof.
  split; [reflexivity|].
  apply (proj1 starts_chain_from_previous_end manifest_232
           manifest_232_resolved 2%nat (scene_of_duration 2) _
           eq_refl eq_refl eq_refl eq_refl).
  intros [|[|j]] p Hj Hp; [| |lia]; injection Hp as <-; reflexivity.
Defined.

(** ** An empty schedule *)

Lemma get_opt_array v k l : Js.get_opt v k = VArr l → Js.get v k = Ok (VArr l).
Proof.
  unfold Js.get_opt.
  destruct (Js.get v k) as [x|e] eqn:E; [by intros ->|]. discriminate.
Qed.

(** C10. The constructor accepts a manifest whose [scenes] is an empty
    array, and every frame of the loop then throws on reading the last
    scene: [scenes[scenes.length - 1]] is undefined. *)
Theorem empty_schedule_loop_throws (m : val) :
  Core.checkManifest m = Ok () →
  cloneable m = true →
  Core.scenesOf m = [] →
  ∃ st, Core.new m = Ok st
        ∧ Core.scenes st = []
        ∧ ∀ t0 ts, ∃ st' msg,
            Core.loop ts (Core.start t0 st) = (st', Throw (TypeError msg)).
Proof.
  intros Hchk Hcl Hempty. unfold Core.new. rewrite Hchk. simpl.
  unfold Core.checkManifest in Hchk.
  destruct (Js.truthy m); [|done].
  destruct (Js.isArray (Js.get_opt m "scenes")) as [l|] eqn:Harr; [|done].
  unfold Core.scenesOf in Hempty. rewrite Harr in Hempty. simpl in Hempty.
  subst l. destruct (Js.get_opt m "scenes") as [|l|] eqn:Hg; try done.
  injection Harr as ->. apply get_opt_array in Hg.
  unfold Core.normalizeManifest, structuredClone. rewrite Hcl. simpl.
  rewrite Hg. simpl.
  destruct m as [p|l|fs]; try (destruct p; simpl in Hg; discriminate).
  { simpl in Hg. destruct (String.eqb "scenes" "at"); discriminate. }
  simpl. unfold Core.scheduleOf, Core.scenesOf, Js.get_opt. simpl.
  rewrite field_get_set_eq. simpl.
  eexists. split; [reflexivity|]. split; [reflexivity|].
  intros t0 ts. eexists _, _. unfold Core.loop. simpl. reflexivity.
Qed.

Lemma empty_schedule_loop_throws_witness :
  ∃ st, Core.new manifest_empty = Ok st
        ∧ Core.scenes st = []
        ∧ ∀ t0 ts, ∃ st' msg,
            Core.loop ts (Core.start t0 st) = (st', Throw (TypeError msg)).
Proof.
  apply (empty_schedule_loop_throws manifest_empty); reflexivity.
Defined.

(** ** Trigger keys *)

Lemma append_inv_head (p a b : string) : p +:+ a = p +:+ b → a = b.
Proof. induction p as [|c p IH]; simpl; [done|]. intros [= H]. auto. Qed.

Lemma pretty_N_go_ne_c x s s' :
  s ≠ String "c" s' → pretty_N_go x s ≠ String "c" s'.
Proof.
  revert s. induction (N.lt_wf_0 x) as [x _ IH]; intros s Hs.
  assert (x = 0 ∨ 0 < x)%N as [->|Hpos] by lia.
  - by rewrite pretty_N_go_0.
  - rewrite pretty_N_go_step by done. apply IH.
    + by apply N.div_lt.
    + unfold pretty_N_char. by repeat case_match.
Qed.

Lemma pretty_nat_ne_c (n : nat) s' : pretty n ≠ String "c" s'.
Proof.
  unfold pretty, pretty_nat, pretty, pretty_N.
  case_decide; [discriminate|]. by apply pretty_N_go_ne_c.
Qed.

Lemma textKey_inj index j j' :
  Core.textKey index j = Core.textKey index j' → j = j'.
Proof.
  unfold Core.textKey. intros H.
  apply append_inv_head in H. apply (append_inv_head "#") in H.
  by apply (inj pretty) in H.
Qed.

Lemma calloutKey_inj index j j' :
  Core.calloutKey index j = Core.calloutKey index j' → j = j'.
Proof.
  unfold Core.calloutKey. intros H.
  apply append_inv_head in H. apply (append_inv_head "#c") in H.
  by apply (inj pretty) in H.
Qed.

Lemma textKey_ne_calloutKey index j k :
  Core.textKey index j ≠ Core.calloutKey index k.
Proof.
  unfold Core.textKey, Core.calloutKey. intros H.
  apply append_inv_head in H.
  apply (append_inv_head "#" (pretty j) (String "c" (pretty k))) in H.
  by apply pretty_nat_ne_c in H.
Qed.

(** ** Scene enter *)

Lemma setNode_fired index n st :
  Core._firedText (Core.setNode index n st) = Core._firedText st
  ∧ Core._firedCallout (Core.setNode index n st) = Core._firedCallout st.
Proof. unfold Core.setNode. by destruct (Core._sceneNodes st !! index). Qed.

Lemma foldl_difference_keeps {A} (f : A → string) (l : list A)
    (F : gset string) k :
  k ∈ F → (∀ x, x ∈ l → f x ≠ k) →
  k ∈ foldl (λ acc x, acc ∖ {[ f x ]}) F l.
Proof.
  revert F. induction l as [|x l IH]; intros F HF Hne; simpl; [done|].
  apply IH.
  - assert (f x ≠ k) by (apply Hne; left). set_solver.
  - intros y Hy. apply Hne. by right.
Qed.

Lemma pretty_N_go_no_hash x s :
  has_hash s = false → has_hash (pretty_N_go x s) = false.
Proof.
  revert s. induction (N.lt_wf_0 x) as [x _ IH]; intros s Hs.
  assert (x = 0 ∨ 0 < x)%N as [->|Hpos] by lia.
  - by rewrite pretty_N_go_0.
  - rewrite pretty_N_go_step by done. apply IH.
    + by apply N.div_lt.
    + simpl. rewrite Hs. unfold pretty_N_char. by repeat case_match.
Qed.

Lemma pretty_N_no_hash (x : N) : has_hash (pretty x) = false.
Proof.
  unfold pretty, pretty_N. case_decide; [done|].
  by apply pretty_N_go_no_hash.
Qed.

Lemma pretty_Z_no_hash (z : Z) : has_hash (pretty z) = false.
Proof.
  destruct z as [|p|p]; [done| |].
  - apply pretty_N_no_hash.
  - change (pretty (Z.neg p)) with ("-" +:+ pretty (N.pos p)).
    simpl. apply pretty_N_no_hash.
Qed.

Lemma split_at_hash p : ∀ p' s s',
  has_hash p = false → has_hash p' = false →
  p +:+ String "#" s = p' +:+ String "#" s' → p = p' ∧ s = s'.
Proof.
  induction p as [|c p IH]; intros [|c' p'] s s'; simpl; intros Hp Hp' Heq.
  - by injection Heq as ->.
  - injection Heq as <- _. by rewrite Ascii.eqb_refl in Hp'.
  - injection Heq as -> _. by rewrite Ascii.eqb_refl in Hp.
  - injection Heq as -> Heq.
    apply orb_false_iff in Hp as [_ Hp]. apply orb_false_iff in Hp' as [_ Hp'].
    destruct (IH _ _ _ Hp Hp' Heq) as [-> ->]. done.
Qed.

(** A text key names its scene and its event. *)
Lemma textKey_inj_both index j index' j' :
  Core.textKey index j = Core.textKey index' j' → index = index' ∧ j = j'.
Proof.
  unfold Core.textKey. intros H.
  change ("#" +:+ pretty j) with (String "#" (pretty j)) in H.
  change ("#" +:+ pretty j') with (String "#" (pretty j')) in H.
  apply split_at_hash in H as [Hi Hj]; try apply pretty_Z_no_hash.
  split; by apply (inj pretty).
Qed.

Lemma foldl_difference_spec {A} (f : A → string) (l : list A)
    (F : gset string) k :
  k ∈ foldl (λ acc x, acc ∖ {[ f x ]}) F l ↔ k ∈ F ∧ ∀ x, x ∈ l → f x ≠ k.
Proof.
  revert F. induction l as [|x l IH]; intros F; simpl.
  - split; [|by intros [? _]]. intros H. split; [done|].
    intros x Hx. by apply elem_of_nil in Hx.
  - rewrite IH. split.
    + intros [Hk Hl]. apply elem_of_difference in Hk as [Hk Hx].
      split; [done|]. intros y Hy. apply elem_of_cons in Hy as [->|Hy]; [|auto].
      intros <-. apply Hx. by apply elem_of_singleton.
    + intros [Hk Hl]. split.
      * apply elem_of_difference. split; [done|].
        intros Hx. apply elem_of_singleton in Hx. apply (Hl x); [by left|done].
      * intros y Hy. apply Hl. by right.
Qed.

(** What [#enterScene] does get right: of the text keys it removes
    exactly those of the events of the scene entered; the keys of other
    scenes stay. *)
Lemma enterScene_clears_text_keys st index node k :
  Core.nodeOf st index = Some node →
  k ∈ Core._firedText (Core.enterScene index st) ↔
  k ∈ Core._firedText st
  ∧ ∀ n, n ∈ Core.textNodes node → Core.textKey index (Core.t_idx n) ≠ k.
Proof.
  intros Hn. unfold Core.enterScene. rewrite Hn.
  destruct (at_index (Core.scenes st) index).
  - rewrite (proj1 (setNode_fired _ _ _)). simpl. apply foldl_difference_spec.
  - simpl. apply foldl_difference_spec.
Qed.

Lemma enterScene_keeps_other_scenes st index index' j :
  index' ≠ index →
  Core.textKey index' j ∈ Core._firedText st →
  Core.textKey index' j ∈ Core._firedText (Core.enterScene index st).
Proof.
  intros Hne Hk. destruct (Core.nodeOf st index) as [node|] eqn:Hn.
  - apply (enterScene_clears_text_keys _ _ _ _ Hn). split; [done|].
    intros n _ Heq. apply textKey_inj_both in Heq as [? _]. congruence.
  - unfold Core.enterScene. by rewrite Hn.
Qed.

(** C2, what the code does. [#enterScene] deletes from [_firedCallout]
    with the key format of the text events, which no callout key has: a
    callout key that is in the set before the enter is still in it
    afterwards. The text keys are cleared as the claim says: those of the
    text events of the scene entered leave [_firedText], every other key
    stays, those of other scenes among them. With one callout that names
    no offset, the first frame fires it before the enter runs; the enter
    then hides it and leaves its key, and no later frame reveals it. *)
Theorem enterScene_keeps_callout_keys :
  (∀ st index k,
     Core.calloutKey index k ∈ Core._firedCallout st →
     Core.calloutKey index k ∈ Core._firedCallout (Core.enterScene index st))
  ∧ (∀ st index node k,
       Core.nodeOf st index = Some node →
       k ∈ Core._firedText (Core.enterScene index st) ↔
       k ∈ Core._firedText st
       ∧ ∀ n, n ∈ Core.textNodes node →
              Core.textKey index (Core.t_idx n) ≠ k)
  ∧ (∀ st index index' j,
       index' ≠ index →
       Core.textKey index' j ∈ Core._firedText st →
       Core.textKey index' j ∈ Core._firedText (Core.enterScene index st))
  ∧ (st ← playback manifest_callout [Core.Frame (ms 16)];
     Some (calloutEls st 0, elements (Core._firedCallout st)))
    = Some (Some [{| Core.isIn := true; Core.opacity := EmptyString;
                     Core.reveals := 1 |}], ["0#c0"])
  ∧ (st ← playback manifest_callout
             [Core.Frame (ms 16); Core.ImageSettled 0;
              Core.Frame (ms 1000); Core.Frame (ms 4000)];
     Some (calloutEls st 0, elements (Core._firedCallout st)))
    = Some (Some [{| Core.isIn := false; Core.opacity := EmptyString;
                     Core.reveals := 1 |}], ["0#c0"]).
Proof.
  split; [|split; [exact enterScene_clears_text_keys|];
           split; [exact enterScene_keeps_other_scenes|];
           split; vm_compute; reflexivity].
  intros st index k Hk. unfold Core.enterScene.
  destruct (Core.nodeOf st index) as [node|]; [|done].
  assert (Hfc : Core.calloutKey index k ∈
                foldl (λ acc n, acc ∖ {[ Core.textKey index (Core.c_idx n) ]})
                      (Core._firedCallout st) (Core.calloutNodes node)).
  { apply foldl_difference_keeps; [done|].
    intros x _. apply textKey_ne_calloutKey. }
  destruct (at_index (Core.scenes st) index); [|done].
  by rewrite (proj2 (setNode_fired _ _ _)).
Qed.

Lemma enterScene_keeps_callout_keys_witness :
  "0#c0" ∈ Core._firedCallout
             (Core.enterScene 0
                (Core.with_fired ∅ {[ "0#c0" ]}
                   (Core.start Num.zero
                      {| Core.scenes := []; Core._t0 := Num.zero;
                         Core._now := Num.zero; Core._running := false;
                         Core._activeIndex := -1; Core._sceneNodes := ∅;
                         Core._firedText := ∅; Core._firedCallout := ∅;
                         Core.nodes := []; Core.frame := false;
                         Core.timers := []; Core.awaiting := [];
                         Core.microtasks := []; Core.recording := false |}))).
Proof.
  apply (proj1 enterScene_keeps_callout_keys _ 0 0%nat).
  cbn [Core._firedCallout Core.with_fired].
  apply elem_of_singleton_2. vm_compute. reflexivity.
Defined.

(** ** Stop with finalize *)

Lemma setNode_scheduler index n st :
  scheduler (Core.setNode index n st) = scheduler st.
Proof. unfold Core.setNode. by destruct (Core._sceneNodes st !! index). Qed.

Lemma enterScene_scheduler index st :
  scheduler (Core.enterScene index st) = scheduler st.
Proof.
  unfold Core.enterScene. destruct (Core.nodeOf st index); [|done].
  destruct (at_index (Core.scenes st) index); [|done].
  by rewrite setNode_scheduler.
Qed.

Lemma flush_scheduler st : scheduler (Core.flush st) = scheduler st.
Proof.
  unfold Core.flush.
  assert (H : ∀ l acc, scheduler (foldl (λ acc i, Core.enterScene i acc) acc l)
                       = scheduler acc).
  { induction l as [|i l IH]; intros acc; simpl; [done|].
    by rewrite IH, enterScene_scheduler. }
  by rewrite H.
Qed.

Lemma ensureSceneMounted_scheduler index finalize st :
  scheduler (Core.ensureSceneMounted index finalize st).1 = scheduler st.
Proof.
  unfold Core.ensureSceneMounted.
  destruct (Core._sceneNodes st !! index); [done|].
  destruct (at_index (Core.scenes st) index); [|done].
  by destruct (Core.buildNode _ _).
Qed.

Lemma stop_scheduler toEnd st :
  scheduler (Core.stop toEnd st)
  = (false, false, Core._now st, Core._activeIndex st).
Proof.
  unfold Core.stop. destruct toEnd; [|done].
  by rewrite ensureSceneMounted_scheduler.
Qed.

Lemma handle_stopped e st :
  Core._running st = false → Core.frame st = false →
  scheduler (Core.handle e st) = scheduler st.
Proof.
  intros Hr Hf. destruct e as [ts|i| |toEnd]; simpl.
  - by rewrite Hf.
  - destruct (Core.remove_first i (Core.awaiting st)); [|done].
    by rewrite flush_scheduler, enterScene_scheduler.
  - destruct (Core.timers st) as [|[index id] rest]; [done|].
    by rewrite flush_scheduler.
  - rewrite flush_scheduler, stop_scheduler. unfold scheduler.
    by rewrite Hr, Hf.
Qed.

Lemma run_stopped es : ∀ st,
  Core._running st = false → Core.frame st = false →
  scheduler (Core.run es st) = scheduler st.
Proof.
  induction es as [|e es IH]; intros st Hr Hf; [done|].
  pose proof (handle_stopped e st Hr Hf) as He.
  change (Core.run (e :: es) st) with (Core.run es (Core.handle e st)).
  rewrite IH.
  - done.
  - rewrite <- Hr. exact (f_equal (λ x, x.1.1.1) He).
  - rewrite <- Hf. exact (f_equal (λ x, x.1.1.2) He).
Qed.

Lemma stop_halts toEnd st es :
  scheduler (Core.run es (Core.handle (Core.Stop toEnd) st))
  = (false, false, Core._now st, Core._activeIndex st).
Proof.
  assert (H : scheduler (Core.handle (Core.Stop toEnd) st)
              = (false, false, Core._now st, Core._activeIndex st)).
  { simpl. by rewrite flush_scheduler, stop_scheduler. }
  rewrite run_stopped; [done| |].
  - exact (f_equal (λ x, x.1.1.1) H).
  - exact (f_equal (λ x, x.1.1.2) H).
Qed.

(** With the terminal scene mounted, the finalize flag changes nothing. *)
Lemma stop_finalize_mounted st n :
  Core._sceneNodes st !! (Z.of_nat (length (Core.scenes st)) - 1) = Some n →
  Core.stop true st = Core.stop false st.
Proof.
  intros Hn. unfold Core.stop, Core.ensureSceneMounted.
  destruct st. simpl in *. by rewrite Hn.
Qed.

(** C1, what the code does. A stop halts the loop for good: whatever the
    host delivers afterwards, the engine is not running, no frame is
    requested, and the elapsed time and the active index stay as they
    were. But whenever the terminal scene is mounted,
    [#ensureSceneMounted] returns at its first line and [stop(true)] does
    what [stop()] does. At the end of the timeline the terminal scene is
    still mounted, so the reveal is skipped: a text due after the end of
    its scene stays hidden. When the terminal scene is not mounted, the
    same call mounts it with every text revealed. *)
Theorem stop_finalize_skips_mounted_scene :
  (∀ st toEnd es,
     scheduler (Core.run es (Core.handle (Core.Stop toEnd) st))
     = (false, false, Core._now st, Core._activeIndex st))
  ∧ (∀ st n,
       Core._sceneNodes st !! (Z.of_nat (length (Core.scenes st)) - 1)
       = Some n →
       Core.stop true st = Core.stop false st)
  ∧ (st ← playback manifest_late_text
          [Core.Frame (ms 16); Core.ImageSettled 0; Core.Frame (ms 1000);
           Core.Frame (ms 2000); Core.Frame (ms 2300)];
   Some (Core._running st, Core.frame st, textEls st 0))
  = Some (false, false, Some [Core.hidden])
  ∧ (st ← playback manifest_late_text
            [Core.Frame (ms 16); Core.ImageSettled 0; Core.Stop true];
     Some (Core._running st, Core.frame st, textEls st 0))
    = Some (false, false, Some [Core.hidden])
  ∧ (st ← playback manifest_late_text [Core.Stop true];
     Some (Core._running st, Core.frame st, textEls st 0))
    = Some (false, false,
            Some [{| Core.isIn := true; Core.opacity := "1";
                     Core.reveals := 1 |}]).
Proof.
  split; [intros st toEnd es; apply stop_halts|].
  split; [intros st n; apply stop_finalize_mounted|].
  vm_compute. done.
Qed.

(** ** Durations in the loader *)

Lemma clamp_not_positive n :
  Num.gtb n Num.zero = false →
  Num.max Loader.tenth (Js.ToNumber (Js.or (VNum n) (VNum Num.zero)))
  = Loader.tenth.
Proof.
  destruct n as [| |q|]; try done. unfold Num.gtb, Num.ltb, Num.zero.
  intros Hq. apply negb_false_iff in Hq.
  unfold Js.or, Js.truthy, Js.VNum, Js.prim_truthy, Num.truthy.
  destruct (Qeq_bool q 0) eqn:Hz; simpl; [done|].
  destruct (Qle_bool (1 # 10) q) eqn:Hle; [|done].
  apply Qle_bool_iff in Hq, Hle.
  pose proof (Qle_trans _ _ _ Hle Hq) as H. by vm_compute in H.
Qed.

Lemma normalizeScene_of_duration n base i :
  Num.gtb n Num.zero = false →
  Loader.normalizeScene Loader.plainHost base i (VObj [("d", VNum n)])
  = Loader.normalizeScene Loader.plainHost base i
      (VObj [("d", VNum Loader.tenth)]).
Proof.
  intros Hn. unfold Loader.normalizeScene.
  cbn -[Num.max Js.ToNumber Js.or Num.truthy Num.isFinite].
  rewrite (clamp_not_positive n Hn).
  change (Num.max Loader.tenth
            (Js.ToNumber (Js.or (VNum Loader.tenth) (VNum Num.zero))))
    with Loader.tenth.
  reflexivity.
Qed.

(** The loader takes a duration that is not positive, whatever it is
    (zero, negative, minus infinity, not a number), for 0.1; the core then
    accepts the manifest. *)
Lemma loader_accepts_not_positive n :
  Num.gtb n Num.zero = false →
  (m ← Loader.loadManifest Loader.plainHost (manifest_of_duration n)
                             "manifest.json";
   Ok (duration <$> Core.scenesOf m, is_ok (Core.new m)))
  = Ok ([Some Loader.tenth], true).
Proof.
  intros Hn.
  assert (H : Loader.loadManifest Loader.plainHost (manifest_of_duration n)
                "manifest.json"
              = Loader.loadManifest Loader.plainHost
                  (manifest_of_duration Loader.tenth) "manifest.json").
  { unfold Loader.loadManifest, manifest_of_duration.
    change (negb (Js.truthy (VObj [("scenes", VArr [VObj [("d", VNum n)]])]))
            || negb (Js.is_array
                       (Js.get_opt
                          (VObj [("scenes", VArr [VObj [("d", VNum n)]])])
                          "scenes")))
      with false.
    cbv iota. unfold Loader.normalizeManifest.
    cbn -[Loader.normalizeScene Loader.sumDurations Js.ToNumber Num.truthy].
    by rewrite (normalizeScene_of_duration n _ _ Hn). }
  rewrite H. vm_compute. reflexivity.
Qed.

(** The core rejects a duration of zero or below. *)
Lemma core_rejects_nonpositive n :
  Num.leb n Num.zero = true →
  Core.normalizeManifest (manifest_of_duration n)
  = Throw (Error "Manifest: scene[0] missing positive duration 'd'").
Proof.
  intros Hn. unfold Core.normalizeManifest, manifest_of_duration.
  cbn -[Num.leb]. by rewrite Hn.
Qed.

(** C3, what the code does. [normalizeManifest] of the loader clamps
    before it validates: a duration of zero or below becomes 0.1 and the
    manifest is accepted, then accepted by the constructor of the core as
    well, on trees and on objects in a store alike; so it is for every
    duration that is not positive, minus infinity and NaN included. The
    normaliser of the core rejects every duration of zero or below, and
    both entry points reject a manifest whose [scenes] is not an array. *)
Theorem loader_accepts_nonpositive_duration :
  (m ← Loader.loadManifest Loader.plainHost manifest_zero_duration
                             "manifest.json";
   Ok (duration <$> Core.scenesOf m, is_ok (Core.new m)))
  = Ok ([Some Loader.tenth], true)
  ∧ (m ← Loader.loadManifest Loader.plainHost manifest_negative_duration
                               "manifest.json";
     Ok (duration <$> Core.scenesOf m, is_ok (Core.new m)))
    = Ok ([Some Loader.tenth], true)
  ∧ (m ← on_tree (λ v, HLoader.normalizeManifest Loader.plainHost v
                          "manifest.json")
                 manifest_zero_duration;
     Ok (duration <$> Core.scenesOf m))
    = Ok [Some Loader.tenth]
  ∧ is_ok (Core.normalizeManifest manifest_zero_duration) = false
  ∧ is_ok (Core.normalizeManifest manifest_negative_duration) = false
  ∧ (∀ n,
       Num.gtb n Num.zero = false →
       (m ← Loader.loadManifest Loader.plainHost (manifest_of_duration n)
                                  "manifest.json";
        Ok (duration <$> Core.scenesOf m, is_ok (Core.new m)))
       = Ok ([Some Loader.tenth], true))
  ∧ (∀ n,
       Num.leb n Num.zero = true →
       Core.normalizeManifest (manifest_of_duration n)
       = Throw (Error "Manifest: scene[0] missing positive duration 'd'"))
  ∧ (∀ host raw url,
       Js.is_array (Js.get_opt raw "scenes") = false →
       Loader.loadManifest host raw url
       = Throw (Error ("Manifest missing 'scenes' array at " +:+ url)))
  ∧ (∀ manifest,
       Js.isArray (Js.get_opt manifest "scenes") = None →
       Core.new manifest
       = Throw (Error "ZdkCore: 'manifest.scenes' is required")).
Proof.
  split; [vm_compute; done|].
  split; [vm_compute; done|].
  split; [vm_compute; done|].
  split; [vm_compute; done|].
  split; [vm_compute; done|].
  split; [exact loader_accepts_not_positive|].
  split; [exact core_rejects_nonpositive|].
  split.
  - intros host raw url H. unfold Loader.loadManifest.
    by rewrite H, orb_true_r.
  - intros manifest H. unfold Core.new, Core.checkManifest.
    rewrite H. by destruct (Js.truthy manifest).
Qed.

(** ** The preload pool *)

Lemma dispatch_spec q : ∀ p,
  Loader.queue p = q →
  Loader.active p = Z.of_nat (length (Loader.inflight p)) →
  ∃ took,
    q = took ++ Loader.queue (Loader.dispatch p q)
    ∧ Loader.inflight (Loader.dispatch p q) = Loader.inflight p ++ took
    ∧ Loader.active (Loader.dispatch p q)
      = Z.of_nat (length (Loader.inflight (Loader.dispatch p q)))
    ∧ (Loader.started (Loader.dispatch p q)).*1
      = (Loader.started p).*1 ++ took
    ∧ (∀ u a, (u, a) ∈ Loader.started (Loader.dispatch p q) →
              (u, a) ∈ Loader.started p
              ∨ (Loader.active p ≤ a < Loader.concurrency p))
    ∧ (Loader.queue (Loader.dispatch p q) = []
       ∨ Loader.concurrency p ≤ Loader.active (Loader.dispatch p q))
    ∧ (took = [] ∨ Loader.active (Loader.dispatch p q) ≤ Loader.concurrency p)
    ∧ Loader.concurrency (Loader.dispatch p q) = Loader.concurrency p
    ∧ Loader.retry (Loader.dispatch p q) = Loader.retry p
    ∧ Loader.resolved (Loader.dispatch p q) = Loader.resolved p
    ∧ Loader.completion (Loader.dispatch p q) = Loader.completion p
    ∧ Loader.resolves (Loader.dispatch p q) = Loader.resolves p
    ∧ Loader.report (Loader.dispatch p q) = Loader.report p.
Proof.
  induction q as [|url rest IH]; intros p Hq Hact; simpl.
  - exists []. rewrite !app_nil_r. split_and!; try done; [by left..].
  - destruct (Loader.active p <? Loader.concurrency p) eqn:Hlt.
    + apply Z.ltb_lt in Hlt.
      match goal with
      | |- context [Loader.dispatch ?p' rest] =>
          destruct (IH p' eq_refl)
            as (took & H1 & H2 & H3 & H4 & H5 & H6 & H6' & H7);
            [simpl; rewrite length_app; simpl; lia|]
      end.
      simpl in *. exists (url :: took).
      split; [simpl; by f_equal|].
      split; [by rewrite H2, <- app_assoc|].
      split; [done|].
      split; [by rewrite H4, fmap_app, <- app_assoc|].
      split.
      { intros u a Hin. destruct (H5 u a Hin) as [Hin'|Hr].
        - apply elem_of_app in Hin' as [?|Hin']; [by left|].
          apply list_elem_of_singleton in Hin'. injection Hin' as -> ->.
          right. lia.
        - right. lia. }
      split; [destruct H6; [by left|right; lia]|].
      split; [|done]. right. destruct H6' as [->|?]; [|done].
      rewrite H3, H2, app_nil_r, length_app. simpl. lia.
    + apply Z.ltb_ge in Hlt. simpl. exists [].
      rewrite !app_nil_r. split_and!; try done; [by left|right; lia|by left].
Qed.

Lemma next_inv urls c r p : pool_pre urls c r p → pool_inv urls c r (Loader.next p).
Proof.
  intros [[Hc1 Hc2] Ha Hbd Hf Hb Hr Hperm Hrep Hp Hz]. unfold Loader.next.
  destruct (Loader.queue p) as [|u q] eqn:Hq.
  - destruct (Loader.active p =? 0) eqn:H0.
    + apply Z.eqb_eq in H0. unfold Loader.resolve.
      split; simpl; rewrite ?Hq; try done.
      right. by rewrite Hp, Hz.
    + apply Z.eqb_neq in H0. simpl.
      split; simpl; rewrite ?Hq; try done.
      left. split_and!; try done. lia.
  - pose proof (dispatch_spec (u :: q) p Hq Ha) as Hd.
    set (p' := Loader.dispatch p (u :: q)) in *.
    destruct Hd
      as (took & H1 & H2 & H3 & H4 & H5 & H6 & H6' & H7 & H8 & H9 & H10 & H11 & H12).
    split.
    + by rewrite H7, H8.
    + done.
    + destruct H6' as [->|?]; [|right; lia].
      rewrite H3, H2, app_nil_r, <- Ha. exact Hbd.
    + rewrite H4, <- app_assoc, <- H1. done.
    + intros x a Hin. destruct (H5 x a Hin) as [?|?]; [eauto|lia].
    + by rewrite H9, H12.
    + rewrite H12, H2, <- Hperm, H1, <- !app_assoc. done.
    + by rewrite H12.
    + left. rewrite H10, H11. split_and!; try done.
      * intros Hempty. rewrite Hempty, app_nil_r in H1. subst took.
        rewrite H3, H2, length_app. simpl. lia.
      * intros Hne. destruct H6 as [?|?]; [done|]. by rewrite <- Hc1.
Qed.

Lemma preloadImages_inv urls c r :
  pool_inv urls c r (Loader.preloadImages urls c r).
Proof.
  apply next_inv. split; simpl; try done.
  - by left.
  - intros u a H. by apply elem_of_nil in H.
  - intros u a H. by apply elem_of_nil in H.
Qed.

Lemma settle_inv urls c r i tries p :
  pool_inv urls c r p → pool_inv urls c r (Loader.settle i tries p).
Proof.
  intros Hinv. unfold Loader.settle.
  destruct (Loader.inflight p !! i) as [url|] eqn:Hi; [|done].
  destruct Hinv as [[Hc1 Hc2] Ha Hbd Hf Hb Hr Hperm Hrep Hs].
  pose proof (lookup_lt_Some _ _ _ Hi) as Hlt.
  apply next_inv. split; simpl; try done.
  - rewrite length_delete by eauto. lia.
  - right. lia.
  - rewrite length_app. simpl. lia.
  - rewrite <- Hperm, fmap_app. simpl.
    rewrite (delete_Permutation (Loader.inflight p) i url Hi) at 2.
    rewrite <- !app_assoc. simpl.
    done.
  - intros u s Hin. apply elem_of_app in Hin as [Hin|Hin]; [eauto|].
    apply list_elem_of_singleton in Hin. injection Hin as -> ->.
    rewrite Hc2. eauto.
  - destruct Hs as [(? & _)|(_ & _ & _ & H0)]; [done|lia].
  - destruct Hs as [(_ & ? & _)|(_ & _ & _ & H0)]; [done|lia].
Qed.

Lemma settles_inv urls c r es p :
  pool_inv urls c r p → pool_inv urls c r (Loader.settles es p).
Proof.
  revert p. induction es as [|[i tries] es IH]; intros p Hp; simpl; [done|].
  apply IH. by apply settle_inv.
Qed.

Lemma preloadImage_loop_spec tries fuel : ∀ k last,
  match Loader.preloadImage_loop tries k fuel last with
  | Loader.Loaded n =>
      (k < n ≤ k + fuel)%nat ∧ tries (n - 1)%nat = Loader.Decoded
  | Loader.Exhausted n _ =>
      n = (k + fuel)%nat ∧ ∀ j, (k ≤ j < n)%nat → tries j ≠ Loader.Decoded
  end.
Proof.
  induction fuel as [|fuel IH]; intros k last; simpl.
  - split; [lia|]. intros j Hj. lia.
  - destruct (tries k) eqn:Hk.
    + split; [lia|]. by replace (S k - 1)%nat with k by lia.
    + specialize (IH (S k) (Some Loader.TimedOut)).
      destruct (Loader.preloadImage_loop tries (S k) fuel _).
      * destruct IH. split; [lia|done].
      * destruct IH as [-> IH]. split; [lia|].
        intros j Hj. destruct (decide (j = k)) as [->|]; [congruence|].
        apply IH. lia.
    + specialize (IH (S k) (Some Loader.Broken)).
      destruct (Loader.preloadImage_loop tries (S k) fuel _).
      * destruct IH. split; [lia|done].
      * destruct IH as [-> IH]. split; [lia|].
        intros j Hj. destruct (decide (j = k)) as [->|]; [congruence|].
        apply IH. lia.
Qed.

Lemma preloadImage_settled r tries :
  settled_within r (Loader.preloadImage r tries).
Proof.
  unfold Loader.preloadImage, settled_within.
  pose proof (preloadImage_loop_spec tries (Z.to_nat (r + 1)) 0 None) as H.
  destruct (Loader.preloadImage_loop _ _ _ _).
  - destruct H. lia.
  - by destruct H.
Qed.

(** C6. Whatever the URLs, the outcomes of the attempts and the order in
    which the checks settle, the promise of [preloadImages] is never
    rejected and [resolve] is called at most once; it is fulfilled
    exactly when the queue is empty and the active count is 0, which is
    exactly when every URL has been reported, each as loaded within
    [retry + 1] attempts or as exhausted after them; and as long as it is
    pending some check is in flight, so a settlement is still to come.
    Five URLs under concurrency 2 and retry 1, one of them never
    loading, end fulfilled by one call of [resolve], with four URLs
    loaded and one exhausted after two attempts. *)
Theorem preload_completion_once :
  (∀ urls c r es,
     1 ≤ c →
     let p := Loader.settles es (Loader.preloadImages urls c r) in
     Loader.completion p ≠ Loader.Rejected
     ∧ (Loader.resolves p ≤ 1)%nat
     ∧ (Loader.completion p = Loader.Fulfilled ↔ Loader.resolves p = 1%nat)
     ∧ (Loader.completion p = Loader.Fulfilled ↔
        Loader.queue p = [] ∧ Loader.active p = 0)
     ∧ (Loader.completion p = Loader.Fulfilled ↔
        length (Loader.report p) = length urls)
     ∧ (Loader.report p).*1 ⊆+ urls
     ∧ (Loader.completion p = Loader.Fulfilled →
        (Loader.report p).*1 ≡ₚ urls)
     ∧ (∀ u s, (u, s) ∈ Loader.report p → settled_within r s)
     ∧ (Loader.completion p = Loader.Pending → Loader.inflight p ≠ []))
  ∧ (let p := Loader.settles five_settles (Loader.preloadImages five_urls 2 1) in
     Loader.completion p = Loader.Fulfilled
     ∧ Loader.resolves p = 1%nat
     ∧ Loader.report p
       = [("a", Loader.Loaded 1);
          ("b", Loader.Exhausted 2 (Some Loader.Broken));
          ("c", Loader.Loaded 1); ("d", Loader.Loaded 1);
          ("e", Loader.Loaded 1)]).
Proof.
  split; [|vm_compute; done].
  intros urls c r es Hc p.
  pose proof (settles_inv urls c r es _ (preloadImages_inv urls c r)) as Hinv.
  fold p in Hinv.
  destruct Hinv as [[Hc1 Hc2] Ha Hbd Hf Hb Hr Hperm Hrep Hs].
  pose proof (Permutation_length Hperm) as Hlen.
  rewrite !length_app, length_fmap in Hlen.
  split_and!.
  - destruct Hs as [(-> & _)|(-> & _)]; done.
  - destruct Hs as [(_ & -> & _)|(_ & -> & _)]; lia.
  - destruct Hs as [(-> & -> & _)|(-> & -> & _)]; done.
  - destruct Hs as [(-> & _ & H1 & _)|(-> & _ & H1 & H2)]; [|done].
    split; [done|]. intros [Hq H0]. specialize (H1 Hq). lia.
  - destruct Hs as [(-> & _ & H1 & _)|(-> & _ & H1 & H2)].
    + split; [done|]. intros Hl.
      assert (Loader.queue p = []) as Hq
        by (apply length_zero_iff_nil; lia).
      specialize (H1 Hq). lia.
    + split; [|done]. intros _. rewrite H1 in Hlen. simpl in Hlen. lia.
  - rewrite <- Hperm. apply submseteq_inserts_r. done.
  - intros Hful.
    destruct Hs as [(Hp & _)|(_ & _ & Hq & H0)]; [congruence|].
    assert (Loader.inflight p = []) as Hi
      by (apply length_zero_iff_nil; lia).
    by rewrite Hq, Hi, !app_nil_r in Hperm.
  - intros u s Hin. destruct (Hrep u s Hin) as [tries ->].
    apply preloadImage_settled.
  - intros Hpend Hnil.
    destruct Hs as [(_ & _ & H1 & H2)|(Hf' & _)]; [|congruence].
    rewrite Hnil in Ha. simpl in Ha.
    destruct (Loader.queue p) as [|x q] eqn:Hq.
    + specialize (H1 eq_refl). lia.
    + specialize (H2 ltac:(done)). lia.
Qed.

Lemma preload_completion_once_witness :
  let p := Loader.settles [(1%nat, never); (0%nat, always)]
             (Loader.preloadImages ["a"; "b"; "c"] 2 1) in
  Loader.completion p ≠ Loader.Rejected
  ∧ (Loader.resolves p ≤ 1)%nat
  ∧ (Loader.completion p = Loader.Fulfilled ↔ Loader.resolves p = 1%nat)
  ∧ (Loader.completion p = Loader.Fulfilled ↔
     Loader.queue p = [] ∧ Loader.active p = 0)
  ∧ (Loader.completion p = Loader.Fulfilled ↔
     length (Loader.report p) = length ["a"; "b"; "c"])
  ∧ (Loader.report p).*1 ⊆+ ["a"; "b"; "c"]
  ∧ (Loader.completion p = Loader.Fulfilled →
     (Loader.report p).*1 ≡ₚ ["a"; "b"; "c"])
  ∧ (∀ u s, (u, s) ∈ Loader.report p → settled_within 1 s)
  ∧ (Loader.completion p = Loader.Pending → Loader.inflight p ≠ []).
Proof.
  apply (proj1 preload_completion_once ["a"; "b"; "c"] 2 1
           [(1%nat, never); (0%nat, always)]).
  lia.
Defined.

(** C7. Whatever the URLs and the order in which the checks settle, the
    active count is the number of checks in flight and stays between 0
    and the concurrency bound; every dispatch found the active count
    strictly below the bound; and the URLs leave the queue in the order
    they were given: those dispatched so far, in dispatch order, followed
    by the queue, are the URLs given. *)
Theorem pool_active_bounded_fifo (urls : list string) (c r : Z)
    (es : list (nat * (nat → Loader.attempt))) :
  0 ≤ c →
  let p := Loader.settles es (Loader.preloadImages urls c r) in
  0 ≤ Loader.active p ≤ c
  ∧ Loader.active p = Z.of_nat (length (Loader.inflight p))
  ∧ (∀ u a, (u, a) ∈ Loader.started p → a < c)
  ∧ (Loader.started p).*1 ++ Loader.queue p = urls.
Proof.
  intros Hc p.
  pose proof (settles_inv urls c r es _ (preloadImages_inv urls c r)) as Hinv.
  fold p in Hinv.
  destruct Hinv as [[Hc1 Hc2] Ha Hbd Hf Hb Hr Hperm Hrep Hs].
  split_and!; try done; try lia.
  intros u a Hin. apply (Hb u a Hin).
Qed.

Lemma pool_active_bounded_fifo_witness :
  let p := Loader.settles [(1%nat, never); (0%nat, always)]
             (Loader.preloadImages ["a"; "b"; "c"] 2 1) in
  0 ≤ Loader.active p ≤ 2
  ∧ Loader.active p = Z.of_nat (length (Loader.inflight p))
  ∧ (∀ u a, (u, a) ∈ Loader.started p → a < 2)
  ∧ (Loader.started p).*1 ++ Loader.queue p = ["a"; "b"; "c"].
Proof.
  apply (pool_active_bounded_fifo ["a"; "b"; "c"] 2 1
           [(1%nat, never); (0%nat, always)]).
  lia.
Defined.

(** ** Mounting *)

Lemma mountText_idx blocks : ∀ i tns,
  Core.mountText i blocks = Ok tns →
  Core.t_idx <$> tns = seq i (length blocks).
Proof.
  induction blocks as [|b blocks IH]; intros i tns; simpl.
  - by intros [= <-].
  - destruct (Js.get b "role"); simpl; [|done].
    destruct (Js.get b "at"); simpl; [|done].
    destruct (Core.mountText (S i) blocks) as [rest|] eqn:Hr; simpl; [|done].
    intros [= <-]. simpl. f_equal. by apply IH.
Qed.

Lemma mountCallouts_idx cs : ∀ i cns,
  Core.mountCallouts i cs = Ok cns →
  Core.c_idx <$> cns = seq i (length cs).
Proof.
  induction cs as [|c cs IH]; intros i cns; simpl.
  - by intros [= <-].
  - destruct (Js.get c "x"); simpl; [|done].
    destruct (Js.get c "at"); simpl; [|done].
    destruct (Core.mountCallouts (S i) cs) as [rest|] eqn:Hr; simpl; [|done].
    intros [= <-]. simpl. f_equal. by apply IH.
Qed.

Lemma buildNode_NoDup scene finalize node :
  Core.buildNode scene finalize = Ok node →
  NoDup (Core.t_idx <$> Core.textNodes node)
  ∧ NoDup (Core.c_idx <$> Core.calloutNodes node).
Proof.
  unfold Core.buildNode.
  set (tr := match Js.isArray (Core.text scene) with
             | Some blocks => Core.mountText 0 blocks
             | None => Ok []
             end).
  set (cr := match Js.isArray (Core.callouts scene) with
             | Some cs => Core.mountCallouts 0 cs
             | None => Ok []
             end).
  assert (Ht : ∀ tns, tr = Ok tns → NoDup (Core.t_idx <$> tns)).
  { intros tns. unfold tr. destruct (Js.isArray (Core.text scene)).
    - intros H. rewrite (mountText_idx _ _ _ H). apply NoDup_seq.
    - intros [= <-]. apply NoDup_nil_2. }
  assert (Hc : ∀ cns, cr = Ok cns → NoDup (Core.c_idx <$> cns)).
  { intros cns. unfold cr. destruct (Js.isArray (Core.callouts scene)).
    - intros H. rewrite (mountCallouts_idx _ _ _ H). apply NoDup_seq.
    - intros [= <-]. apply NoDup_nil_2. }
  destruct tr as [tns|]; simpl; [|done].
  destruct cr as [cns|]; simpl; [|done].
  intros [= <-]. simpl. split.
  - destruct finalize; [|by apply Ht].
    rewrite <- list_fmap_compose. by apply Ht.
  - destruct finalize; [|by apply Hc].
    rewrite <- list_fmap_compose. by apply Hc.
Qed.

(** Every mount leaves the scene mounted with distinct event indices. *)
Lemma ensureSceneMounted_wellMounted st index finalize st' :
  Core.ensureSceneMounted index finalize st = (st', Core.FreshlyMounted) →
  ∃ s node, wellMounted st' index s node.
Proof.
  unfold Core.ensureSceneMounted.
  destruct (Core._sceneNodes st !! index) eqn:Hm; [by intros [= _ ?]|].
  destruct (at_index (Core.scenes st) index) as [s|] eqn:Hs; [|by intros [= _ ?]].
  destruct (Core.buildNode s finalize) as [node|] eqn:Hb; [|by intros [= _ ?]].
  intros [= <-]. exists s, node.
  split; [|by eapply buildNode_NoDup].
  exists (length (Core.nodes st)). split_and!; simpl.
  - done.
  - apply lookup_insert_eq.
  - by rewrite lookup_app_r, Nat.sub_diag by done.
Qed.

(** ** Sub-event firing *)

Lemma tickStep_fold {A} (key : A → string) isDue reveal (l : list A) :
  NoDup (key <$> l) →
  ∀ F acc,
    ∃ F',
      foldl (tickStep key isDue reveal) (F, acc) l
      = (F', acc ++ (tickOne key isDue reveal F <$> l))
      ∧ F ⊆ F'
      ∧ (∀ n, n ∈ l → isDue n = true → key n ∈ F')
      ∧ (∀ k, k ∈ F' → k ∈ F ∨ ∃ n, n ∈ l ∧ isDue n = true ∧ k = key n).
Proof.
  induction l as [|n l IH]; intros Hnd F acc; simpl.
  - exists F. rewrite app_nil_r. split_and!; try done.
    + intros n Hn. by apply elem_of_nil in Hn.
    + intros k Hk. by left.
  - apply NoDup_cons in Hnd as [Hn Hnd].
    assert (Hsame : tickOne key isDue reveal ({[key n]} ∪ F) <$> l
                    = tickOne key isDue reveal F <$> l).
    { apply list_fmap_ext. intros i m Hm. unfold tickOne.
      assert (key m ≠ key n).
      { intros Heq. apply Hn. rewrite <- Heq.
        apply list_elem_of_fmap. exists m. split; [done|].
        by eapply list_elem_of_lookup_2. }
      assert (bool_decide (key m ∈ {[key n]} ∪ F) = bool_decide (key m ∈ F))
        as ->; [|done].
      apply bool_decide_ext. set_solver. }
    assert (Hhead : tickStep key isDue reveal (F, acc) n
                    = if negb (bool_decide (key n ∈ F)) && isDue n
                      then ({[ key n ]} ∪ F, acc ++ [reveal n])
                      else (F, acc ++ [n])) by done.
    assert (Hone : tickOne key isDue reveal F n
                   = if negb (bool_decide (key n ∈ F)) && isDue n
                     then reveal n else n) by done.
    rewrite Hhead, Hone. clear Hhead Hone.
    destruct (negb (bool_decide (key n ∈ F)) && isDue n) eqn:Hfire.
    + destruct (IH Hnd ({[key n]} ∪ F) (acc ++ [reveal n]))
        as (F' & Heq & Hsub & Hdue & Hback).
      exists F'. rewrite Heq, <- app_assoc. simpl.
      rewrite Hsame.
      split_and!; [done|set_solver| |].
      * intros m Hm Hd. apply elem_of_cons in Hm as [->|Hm]; [set_solver|eauto].
      * intros k Hk. destruct (Hback k Hk) as [Hin|(m & Hm & Hd & ->)].
        -- apply elem_of_union in Hin as [Hin|Hin]; [|by left].
           apply elem_of_singleton in Hin as ->.
           right. exists n. apply andb_true_iff in Hfire as [_ ?].
           split_and!; [by left|done|done].
        -- right. exists m. split_and!; [by right|done|done].
    + destruct (IH Hnd F (acc ++ [n])) as (F' & Heq & Hsub & Hdue & Hback).
      exists F'. rewrite Heq, <- app_assoc. simpl.
      split_and!; [done|done| |].
      * intros m Hm Hd. apply elem_of_cons in Hm as [->|Hm]; [|eauto].
        apply andb_false_iff in Hfire as [Hf|Hf]; [|congruence].
        apply negb_false_iff, bool_decide_eq_true in Hf. set_solver.
      * intros k Hk. destruct (Hback k Hk) as [Hin|(m & Hm & Hd & ->)].
        -- by left.
        -- right. exists m. split_and!; [by right|done|done].
Qed.

Lemma NoDup_fmap_agree {A B} (f : A → B) (l : list A) x y :
  NoDup (f <$> l) → x ∈ l → y ∈ l → f x = f y → x = y.
Proof.
  induction l as [|a l IH]; simpl; intros Hnd Hx Hy Hf.
  - by apply elem_of_nil in Hx.
  - apply NoDup_cons in Hnd as [Ha Hnd].
    apply elem_of_cons in Hx as [->|Hx]; apply elem_of_cons in Hy as [->|Hy].
    + done.
    + exfalso. apply Ha. rewrite Hf. by apply list_elem_of_fmap_2.
    + exfalso. apply Ha. rewrite <- Hf. by apply list_elem_of_fmap_2.
    + by apply IH.
Qed.

Lemma NoDup_textKeys index (l : list Core.TextNode) :
  NoDup (Core.t_idx <$> l) →
  NoDup ((λ n, Core.textKey index (Core.t_idx n)) <$> l).
Proof.
  intros H. rewrite (list_fmap_compose Core.t_idx (Core.textKey index)).
  apply NoDup_fmap_2; [|done]. intros j j'. apply textKey_inj.
Qed.

Lemma NoDup_calloutKeys index (l : list Core.CalloutNode) :
  NoDup (Core.c_idx <$> l) →
  NoDup ((λ n, Core.calloutKey index (Core.c_idx n)) <$> l).
Proof.
  intros H. rewrite (list_fmap_compose Core.c_idx (Core.calloutKey index)).
  apply NoDup_fmap_2; [|done]. intros j j'. apply calloutKey_inj.
Qed.

Lemma tickText_step index tLocal :
  Core.tickText index tLocal
  = tickStep (λ n, Core.textKey index (Core.t_idx n))
             (λ n, Core.due tLocal (Core.t_at n)) revealedText.
Proof. reflexivity. Qed.

Lemma tickCallout_step index tLocal :
  Core.tickCallout index tLocal
  = tickStep (λ n, Core.calloutKey index (Core.c_idx n))
             (λ n, Core.due tLocal (Core.c_at n)) revealedCallout.
Proof. reflexivity. Qed.

Lemma tickScene_mounted st index s id node now :
  mountedAs st index s id node →
  NoDup (Core.t_idx <$> Core.textNodes node) →
  NoDup (Core.c_idx <$> Core.calloutNodes node) →
  let tLocal := Num.sub now (Core.t s) in
  ∃ st',
    Core.tickScene index now st = Ok st'
    ∧ mountedAs st' index s id
        (tickedNode index tLocal (Core._firedText st) (Core._firedCallout st)
                    node)
    ∧ Core._firedText st ⊆ Core._firedText st'
    ∧ (∀ n, n ∈ Core.textNodes node → Core.due tLocal (Core.t_at n) = true →
            Core.textKey index (Core.t_idx n) ∈ Core._firedText st')
    ∧ (∀ k, k ∈ Core._firedText st' →
            k ∈ Core._firedText st
            ∨ ∃ n, n ∈ Core.textNodes node
                   ∧ Core.due tLocal (Core.t_at n) = true
                   ∧ k = Core.textKey index (Core.t_idx n))
    ∧ Core._firedCallout st ⊆ Core._firedCallout st'
    ∧ (∀ n, n ∈ Core.calloutNodes node →
            Core.due tLocal (Core.c_at n) = true →
            Core.calloutKey index (Core.c_idx n) ∈ Core._firedCallout st')
    ∧ (∀ k, k ∈ Core._firedCallout st' →
            k ∈ Core._firedCallout st
            ∨ ∃ n, n ∈ Core.calloutNodes node
                   ∧ Core.due tLocal (Core.c_at n) = true
                   ∧ k = Core.calloutKey index (Core.c_idx n)).
Proof.
  intros (Hs & Hid & Hnode) Hnt Hnc tLocal.
  unfold Core.tickScene, Core.nodeOf. rewrite Hs, Hid. simpl. rewrite Hnode.
  fold tLocal. rewrite tickText_step, tickCallout_step.
  destruct (tickStep_fold _ (λ n, Core.due tLocal (Core.t_at n)) revealedText
              _ (NoDup_textKeys index _ Hnt) (Core._firedText st) [])
    as (ft & Hft & Ht1 & Ht2 & Ht3).
  destruct (tickStep_fold _ (λ n, Core.due tLocal (Core.c_at n)) revealedCallout
              _ (NoDup_calloutKeys index _ Hnc) (Core._firedCallout st) [])
    as (fc & Hfc & Hc1 & Hc2 & Hc3).
  rewrite Hft, Hfc. simpl.
  eexists. split; [reflexivity|].
  unfold Core.setNode. simpl. rewrite Hid. simpl.
  split_and!; try done.
  split_and!; try done. simpl.
  apply list_lookup_insert_eq. by eapply lookup_lt_Some.
Qed.

Lemma tickedNode_text_idx index tl F FC node :
  Core.t_idx <$> Core.textNodes (tickedNode index tl F FC node)
  = Core.t_idx <$> Core.textNodes node.
Proof.
  simpl. rewrite <- list_fmap_compose. apply list_fmap_ext.
  intros i n _. unfold tickOne. simpl. by case_match.
Qed.

Lemma tickedNode_callout_idx index tl F FC node :
  Core.c_idx <$> Core.calloutNodes (tickedNode index tl F FC node)
  = Core.c_idx <$> Core.calloutNodes node.
Proof.
  simpl. rewrite <- list_fmap_compose. apply list_fmap_ext.
  intros i n _. unfold tickOne. simpl. by case_match.
Qed.

Lemma tickScene_wellMounted st index s node now :
  wellMounted st index s node →
  let tLocal := Num.sub now (Core.t s) in
  ∃ st',
    Core.tickScene index now st = Ok st'
    ∧ wellMounted st' index s
        (tickedNode index tLocal (Core._firedText st) (Core._firedCallout st)
                    node)
    ∧ (∀ n, n ∈ Core.textNodes node →
         Core.textKey index (Core.t_idx n) ∈ Core._firedText st' ↔
         Core.textKey index (Core.t_idx n) ∈ Core._firedText st
         ∨ Core.due tLocal (Core.t_at n) = true)
    ∧ (∀ n, n ∈ Core.calloutNodes node →
         Core.calloutKey index (Core.c_idx n) ∈ Core._firedCallout st' ↔
         Core.calloutKey index (Core.c_idx n) ∈ Core._firedCallout st
         ∨ Core.due tLocal (Core.c_at n) = true).
Proof.
  intros ([id Hm] & Hnt & Hnc) tLocal.
  destruct (tickScene_mounted _ _ _ _ _ now Hm Hnt Hnc)
    as (st' & Hrun & Hm' & Ht1 & Ht2 & Ht3 & Hc1 & Hc2 & Hc3).
  fold tLocal in Hrun, Hm', Ht2, Ht3, Hc2, Hc3.
  exists st'. split; [done|]. split.
  { split; [by exists id|].
    by rewrite tickedNode_text_idx, tickedNode_callout_idx. }
  split.
  - intros n Hn. split.
    + intros Hk. destruct (Ht3 _ Hk) as [?|(m & Hmem & Hd & Heq)]; [by left|].
      right. apply textKey_inj in Heq.
      by rewrite (NoDup_fmap_agree Core.t_idx _ n m Hnt Hn Hmem Heq).
    + intros [Hk|Hd]; [by apply Ht1|by apply Ht2].
  - intros n Hn. split.
    + intros Hk. destruct (Hc3 _ Hk) as [?|(m & Hmem & Hd & Heq)]; [by left|].
      right. apply calloutKey_inj in Heq.
      by rewrite (NoDup_fmap_agree Core.c_idx _ n m Hnc Hn Hmem Heq).
    + intros [Hk|Hd]; [by apply Hc1|by apply Hc2].
Qed.

Lemma textElAt_wellMounted st index s node p tn :
  wellMounted st index s node →
  Core.textNodes node !! p = Some tn →
  textElAt st index p = Some (Core.t_el tn).
Proof.
  intros ([id (_ & Hid & Hn)] & _) Hp.
  unfold textElAt, Core.nodeOf. rewrite Hid. simpl. rewrite Hn. simpl.
  by rewrite Hp.
Qed.

Lemma calloutElAt_wellMounted st index s node p cn :
  wellMounted st index s node →
  Core.calloutNodes node !! p = Some cn →
  calloutElAt st index p = Some (Core.c_el cn).
Proof.
  intros ([id (_ & Hid & Hn)] & _) Hp.
  unfold calloutElAt, Core.nodeOf. rewrite Hid. simpl. rewrite Hn. simpl.
  by rewrite Hp.
Qed.

Section StoreSafety.
Import Heap.

(** ** Normalisation leaves the caller's objects alone *)


Lemma extends_refl h : extends h h.
Proof. exists []. by rewrite app_nil_r. Qed.

Lemma extends_length h0 h : extends h0 h → (length h0 ≤ length h)%nat.
Proof. intros (k & -> & _). rewrite length_app. lia. Qed.

Lemma extends_old h0 h l o : extends h0 h → h0 !! l = Some o → h !! l = Some o.
Proof. intros (k & -> & _) H. by apply lookup_app_l_Some. Qed.

Lemma extends_own h0 h l o :
  extends h0 h → (length h0 ≤ l)%nat → h !! l = Some o → own (length h0) o.
Proof.
  intros (k & -> & Hk) Hl H. rewrite lookup_app_r in H by done.
  by eapply Forall_lookup_1.
Qed.

Lemma safe_ret {A} h0 (a : A) (Q : A → Prop) : Q a → safe h0 (mret a) Q.
Proof. intros HQ h Hh. split; [done|]. by intros a' [= <-]. Qed.

Lemma safe_throw {A} h0 e (Q : A → Prop) : safe h0 (throw e) Q.
Proof. intros h Hh. split; [done|]. intros a. discriminate. Qed.

Lemma safe_lift {A} h0 (r : result A) : safe h0 (lift r) (λ _, True).
Proof. intros h Hh. split; done. Qed.

Lemma safe_bind {A B} h0 (m : M A) (k : A → M B) (Q : A → Prop) (R : B → Prop) :
  safe h0 m Q → (∀ a, Q a → safe h0 (k a) R) → safe h0 (m ≫= k) R.
Proof.
  intros Hm Hk h Hh. unfold mbind, M_bind.
  destruct (Hm h Hh) as [Hext HQ].
  destruct (m h) as [h' [a|e]]; simpl in *.
  - apply (Hk a (HQ a eq_refl) h' Hext).
  - split; [done|]. intros b. discriminate.
Qed.

Lemma safe_weaken {A} h0 (m : M A) (Q R : A → Prop) :
  safe h0 m Q → (∀ a, Q a → R a) → safe h0 m R.
Proof.
  intros Hm HQR h Hh. destruct (Hm h Hh) as [? HQ]. split; [done|].
  intros a Ha. auto.
Qed.

Lemma safe_alloc h0 o :
  own (length h0) o → safe h0 (alloc o) (λ l, (length h0 ≤ l)%nat).
Proof.
  intros Ho h Hh. pose proof (extends_length _ _ Hh).
  unfold alloc. simpl. split.
  - destruct Hh as (k & -> & Hk). exists (k ++ [o]).
    rewrite app_assoc. split; [done|].
    apply Forall_app. split; [done|]. by apply Forall_singleton.
  - by intros a [= <-].
Qed.

Lemma safe_load h0 l :
  safe h0 (load l) (λ o, (length h0 ≤ l)%nat → own (length h0) o).
Proof.
  intros h Hh. unfold load. destruct (h !! l) as [o|] eqn:Hl; simpl.
  - split; [done|]. intros a [= <-] Hge. by eapply extends_own.
  - split; [done|]. intros a. discriminate.
Qed.

Lemma safe_store h0 l o :
  (length h0 ≤ l)%nat → own (length h0) o → safe h0 (store l o) (λ _, True).
Proof.
  intros Hl Ho h Hh. unfold store. simpl. split; [|done].
  destruct Hh as (k & -> & Hk).
  exists (<[(l - length h0)%nat := o]> k). split.
  - by rewrite insert_app_r_alt by done.
  - apply Forall_insert; done.
Qed.

Lemma safe_read h0 v : safe h0 (read v) (λ _, True).
Proof. intros h Hh. split; done. Qed.

Lemma own_field_get n k fs :
  own n (OObj fs) → fresh n (default undef (Js.field_get k fs)).
Proof.
  unfold own. simpl. induction fs as [|[k' v] fs IH]; simpl; [done|].
  intros H. apply Forall_cons in H as [Hv H].
  destruct (String.eqb k k'); [done|auto].
Qed.

Lemma own_field_set n k v fs :
  fresh n v → own n (OObj fs) → own n (OObj (Js.field_set k v fs)).
Proof.
  unfold own. simpl. intros Hv. induction fs as [|[k' v'] fs IH]; simpl.
  - intros _. by apply Forall_singleton.
  - intros H. apply Forall_cons in H as [Hv' H].
    destruct (String.eqb k k'); simpl; apply Forall_cons; auto.
Qed.

Lemma safe_get h0 v k :
  fresh (length h0) v → safe h0 (get v k) (fresh (length h0)).
Proof.
  intros Hv. destruct v as [p|l]; simpl.
  - destruct p; try apply safe_throw; apply safe_ret; try done.
    by destruct (String.eqb k "at").
  - eapply safe_bind; [apply safe_load|]. intros o Ho.
    specialize (Ho Hv). destruct o as [es|fs].
    + apply safe_ret. by destruct (String.eqb k "at").
    + apply safe_ret. by apply own_field_get.
Qed.

Lemma safe_set h0 v k x :
  fresh (length h0) v → fresh (length h0) x →
  safe h0 (set v k x) (λ _, True).
Proof.
  intros Hv Hx. destruct v as [p|l]; simpl; [apply safe_throw|].
  eapply safe_bind; [apply safe_load|]. intros o Ho.
  specialize (Ho Hv). destruct o as [es|fs]; [apply safe_throw|].
  apply safe_store; [done|]. by apply own_field_set.
Qed.

Lemma safe_isArray h0 v :
  fresh (length h0) v →
  safe h0 (isArray v)
       (λ r, match r with
             | Some es => Forall (fresh (length h0)) es
             | None => True
             end).
Proof.
  intros Hv. destruct v as [p|l]; simpl; [by apply safe_ret|].
  eapply safe_bind; [apply safe_load|]. intros o Ho.
  specialize (Ho Hv). destruct o as [es|fs]; by apply safe_ret.
Qed.

Lemma Forall_zip_snd {A B} (P : B → Prop) (ks : list A) (vs : list B) :
  Forall P vs → Forall P (zip ks vs).*2.
Proof.
  intros H. revert ks. induction H as [|v vs Hv H IH]; intros [|k ks]; simpl;
    try done.
  apply Forall_cons. auto.
Qed.

Lemma copyOf_fresh n mem l cp :
  copies_fresh n mem → copyOf mem l = Some cp → (n ≤ cp)%nat.
Proof.
  unfold copies_fresh. induction mem as [|[src c] mem IH]; simpl; [done|].
  intros H. apply Forall_cons in H as [Hc H].
  destruct (Nat.eqb l src); [by intros [= <-]|auto].
Qed.

Lemma safe_cloneAll h0 f :
  (∀ v mem, copies_fresh (length h0) mem →
            safe h0 (f v mem)
                 (λ r, fresh (length h0) r.1 ∧ copies_fresh (length h0) r.2)) →
  ∀ vs mem, copies_fresh (length h0) mem →
            safe h0 (cloneAll f vs mem)
                 (λ r, Forall (fresh (length h0)) r.1
                       ∧ copies_fresh (length h0) r.2).
Proof.
  intros Hf. induction vs as [|v vs IH]; intros mem Hmem; simpl.
  - by apply safe_ret.
  - eapply safe_bind; [by apply Hf|]. intros [v' mem1] [Hv' Hmem1].
    eapply safe_bind; [by apply IH|]. intros [vs' mem2] [Hvs' Hmem2].
    apply safe_ret. split; [by apply Forall_cons|done].
Qed.

Lemma safe_clone h0 fuel : ∀ v mem,
  copies_fresh (length h0) mem →
  safe h0 (clone fuel v mem)
       (λ r, fresh (length h0) r.1 ∧ copies_fresh (length h0) r.2).
Proof.
  induction fuel as [|fuel IH]; intros v mem Hmem.
  - destruct v as [p|l]; simpl.
    + destruct p; try apply safe_throw; by apply safe_ret.
    + destruct (copyOf mem l) as [cp|] eqn:Hcp; [|apply safe_throw].
      apply safe_ret. split; [|done]. by eapply copyOf_fresh.
  - destruct v as [p|l]; simpl.
    + destruct p; try apply safe_throw; by apply safe_ret.
    + destruct (copyOf mem l) as [cp|] eqn:Hcp.
      { apply safe_ret. split; [|done]. by eapply copyOf_fresh. }
      eapply safe_bind; [apply safe_load|]. intros o _.
      destruct o as [es|fs].
      * eapply safe_bind; [by apply safe_alloc, Forall_nil|]. intros cp Hcp'.
        eapply safe_bind.
        { apply (safe_cloneAll h0 (clone fuel) IH).
          by apply Forall_cons. }
        intros [es' mem'] [Hes' Hmem'].
        eapply safe_bind; [by apply safe_store|]. intros _ _.
        by apply safe_ret.
      * eapply safe_bind; [by apply safe_alloc, Forall_nil|]. intros cp Hcp'.
        eapply safe_bind.
        { apply (safe_cloneAll h0 (clone fuel) IH).
          by apply Forall_cons. }
        intros [vs' mem'] [Hvs' Hmem'].
        eapply safe_bind.
        { apply safe_store; [done|]. by apply Forall_zip_snd. }
        intros _ _. by apply safe_ret.
Qed.

Lemma safe_structuredClone h0 v :
  safe h0 (structuredClone v) (fresh (length h0)).
Proof.
  intros h Hh. unfold structuredClone.
  apply (safe_bind h0 (clone (length h) v [])
           (λ r, let '(v', _) := r in mret v')
           (λ r, fresh (length h0) r.1 ∧ copies_fresh (length h0) r.2));
    [| |done].
  - apply safe_clone. by apply Forall_nil.
  - intros [v' mem'] [Hv' _]. by apply safe_ret.
Qed.

Lemma safe_spread h0 v :
  fresh (length h0) v →
  safe h0 (spread v) (λ fs, own (length h0) (OObj fs)).
Proof.
  intros Hv. destruct v as [p|l]; simpl.
  - destruct p; apply safe_ret; try (by apply Forall_nil).
    unfold own. simpl. clear Hv. generalize 0%nat.
    induction s as [|c s IH]; intros i; simpl; [by apply Forall_nil|].
    apply Forall_cons. split; [done|apply IH].
  - eapply safe_bind; [apply safe_load|]. intros o Ho.
    specialize (Ho Hv). destruct o as [es|fs]; apply safe_ret; [|done].
    by apply Forall_zip_snd.
Qed.

Lemma fresh_or n a b : fresh n a → fresh n b → fresh n (Heap.or a b).
Proof. unfold Heap.or. by destruct (truthy a). Qed.

Lemma safe_core_normalizeScene h0 cursor i s :
  fresh (length h0) s →
  safe h0 (HCore.normalizeScene cursor i s) (λ _, True).
Proof.
  intros Hs. unfold HCore.normalizeScene.
  eapply safe_bind; [by apply safe_get|]. intros dv Hdv.
  destruct (is_number dv) as [d|]; [|apply safe_throw].
  destruct (Num.leb d Num.zero); [apply safe_throw|].
  eapply safe_bind; [by apply safe_get|]. intros tv Htv.
  destruct (is_number tv) as [t|]; [by apply safe_ret|].
  eapply safe_bind; [by apply safe_set|]. intros _ _.
  by apply safe_ret.
Qed.

Lemma safe_forEachScene h0 ss : ∀ cursor i,
  Forall (fresh (length h0)) ss →
  safe h0 (HCore.forEachScene cursor i ss) (λ _, True).
Proof.
  induction ss as [|s ss IH]; intros cursor i Hss; simpl.
  - by apply safe_ret.
  - apply Forall_cons in Hss as [Hs Hss].
    eapply safe_bind; [by apply safe_core_normalizeScene|].
    intros c _. by apply IH.
Qed.

Lemma safe_core_normalizeManifest h0 manifest :
  safe h0 (HCore.normalizeManifest manifest) (fresh (length h0)).
Proof.
  unfold HCore.normalizeManifest.
  eapply safe_bind; [apply safe_structuredClone|]. intros m Hm.
  eapply safe_bind; [by apply safe_get|]. intros scenes Hscenes.
  eapply safe_bind; [by apply safe_isArray|]. intros [ss|] Hss;
    [|apply safe_throw].
  eapply safe_bind; [by apply safe_forEachScene|].
  intros _ _. by apply safe_ret.
Qed.

(** Assigning a new empty array where the property holds no array. *)
Lemma safe_default_array h0 scene k (a : option (list hval)) :
  fresh (length h0) scene →
  safe h0 (if a is Some _ then mret ()
           else alloc (OArr []) ≫= λ l, set scene k (HRef l))
       (λ _, True).
Proof.
  intros Hs. destruct a; [by apply safe_ret|].
  eapply safe_bind; [by apply safe_alloc, Forall_nil|].
  intros l Hl. by apply safe_set.
Qed.

Lemma safe_loader_normalizeScene h0 host base i s :
  fresh (length h0) s →
  safe h0 (HLoader.normalizeScene host base i s) (fresh (length h0)).
Proof.
  intros Hs. unfold HLoader.normalizeScene.
  eapply safe_bind; [by apply safe_spread|]. intros fs Hfs.
  eapply safe_bind; [by apply safe_alloc|]. intros sl Hsl. cbv zeta.
  assert (Hscene : fresh (length h0) (HRef sl)) by done.
  eapply safe_bind; [by apply safe_get|]. intros d0 Hd0.
  eapply safe_bind; [apply safe_read|]. intros dt _.
  eapply safe_bind; [by apply safe_set|]. intros _ _.
  destruct (_ || _); [apply safe_throw|].
  eapply safe_bind; [by apply safe_get|]. intros m0 Hm0.
  eapply (safe_bind _ _ _ (fresh (length h0))).
  { destruct (truthy m0); [by apply safe_ret|].
    eapply safe_bind; [by apply safe_alloc, Forall_nil|].
    intros l Hl. by apply safe_ret. }
  intros media Hmedia.
  eapply safe_bind; [by apply safe_get|]. intros msrc Hmsrc.
  eapply safe_bind; [apply safe_read|]. intros st _.
  eapply (safe_bind _ _ _ (λ _, True)).
  { destruct (_ =? _)%string; [by apply safe_ret|apply safe_lift]. }
  intros href _.
  eapply safe_bind; [by apply safe_get|]. intros credit Hcredit.
  eapply safe_bind; [by apply safe_get|]. intros kb Hkb.
  eapply safe_bind.
  { apply safe_alloc. unfold own. simpl.
    repeat (apply Forall_cons; split); try done; try (by apply Forall_nil).
    by apply fresh_or. }
  intros ml Hml.
  eapply safe_bind; [by apply safe_set|]. intros _ _.
  eapply safe_bind; [by apply safe_get|]. intros tx Htx.
  eapply safe_bind; [by apply safe_isArray|]. intros ta _.
  eapply safe_bind; [by apply safe_default_array|]. intros _ _.
  eapply safe_bind; [by apply safe_get|]. intros cs Hcs.
  eapply safe_bind; [by apply safe_isArray|]. intros ca _.
  eapply safe_bind; [by apply safe_default_array|]. intros _ _.
  eapply safe_bind; [by apply safe_get|]. intros tin Htin.
  eapply safe_bind; [apply safe_set; [done|by apply fresh_or]|]. intros _ _.
  eapply safe_bind; [by apply safe_get|]. intros tout Htout.
  eapply safe_bind; [by apply safe_get|]. intros tin' Htin'.
  eapply safe_bind; [apply safe_set; [done|by apply fresh_or]|]. intros _ _.
  by apply safe_ret.
Qed.

Lemma safe_mapScenes h0 host base ss : ∀ i,
  Forall (fresh (length h0)) ss →
  safe h0 (HLoader.mapScenes host base i ss) (Forall (fresh (length h0))).
Proof.
  induction ss as [|s ss IH]; intros i Hss; simpl.
  - by apply safe_ret, Forall_nil.
  - apply Forall_cons in Hss as [Hs Hss].
    eapply safe_bind; [by apply safe_loader_normalizeScene|]. intros s' Hs'.
    eapply safe_bind; [by apply IH|]. intros rest' Hrest'.
    by apply safe_ret, Forall_cons.
Qed.

Lemma safe_sumDurations h0 ss : ∀ acc,
  Forall (fresh (length h0)) ss →
  safe h0 (HLoader.sumDurations acc ss) (λ _, True).
Proof.
  induction ss as [|s ss IH]; intros acc Hss; simpl.
  - by apply safe_ret.
  - apply Forall_cons in Hss as [Hs Hss].
    eapply (safe_bind _ _ _ (λ _, True)).
    { destruct s as [[]|]; try (by apply safe_ret);
        (eapply safe_weaken; [by apply safe_get|done]). }
    intros dv _.
    eapply safe_bind; [apply safe_read|]. intros dt _. by apply IH.
Qed.

Lemma safe_loader_normalizeManifest h0 host raw url :
  safe h0 (HLoader.normalizeManifest host raw url) (fresh (length h0)).
Proof.
  unfold HLoader.normalizeManifest.
  eapply safe_bind; [apply safe_lift|]. intros base _.
  eapply safe_bind; [apply safe_structuredClone|]. intros m Hm.
  eapply safe_bind; [by apply safe_get|]. intros sc Hsc.
  eapply safe_bind; [by apply safe_isArray|]. intros sa _.
  eapply safe_bind; [by apply safe_default_array|]. intros _ _.
  eapply safe_bind; [by apply safe_get|]. intros sc' Hsc'.
  eapply safe_bind; [by apply safe_isArray|]. intros sa' Hsa'.
  eapply safe_bind.
  { apply safe_mapScenes. destruct sa'; [done|by apply Forall_nil]. }
  intros ss' Hss'.
  eapply safe_bind; [by apply safe_alloc|]. intros l Hl.
  eapply safe_bind; [by apply safe_set|]. intros _ _.
  eapply safe_bind; [by apply safe_get|]. intros th Hth.
  eapply safe_bind.
  { apply safe_set; [done|]. by repeat case_match. }
  intros _ _.
  eapply safe_bind; [by apply safe_get|]. intros du Hdu.
  eapply safe_bind; [apply safe_read|]. intros dt _. cbv zeta.
  eapply (safe_bind _ _ _ (λ _, True)).
  { destruct (Num.truthy _); [by apply safe_ret|by apply safe_sumDurations]. }
  intros total _.
  eapply safe_bind; [by apply safe_set|]. intros _ _.
  by apply safe_ret.
Qed.

(** C9. Whatever the store and whatever value is passed as the manifest,
    both normalisers leave every object that existed before the call as
    it was, whether they return or throw; what they return is a new
    object; and the new objects refer to new objects only, so that no
    part of the result is shared with the caller's manifest. *)
Theorem normalize_leaves_manifest_unchanged (h : list Heap.obj)
    (manifest : Heap.hval) (host : Loader.Host) (manifestUrl : string) :
  let core := HCore.normalizeManifest manifest h in
  let loader := HLoader.normalizeManifest host manifest manifestUrl h in
  (∀ l o, h !! l = Some o → core.1 !! l = Some o)
  ∧ (∀ l o, h !! l = Some o → loader.1 !! l = Some o)
  ∧ (∀ m, core.2 = Ok m → fresh (length h) m)
  ∧ (∀ m, loader.2 = Ok m → fresh (length h) m)
  ∧ (∀ l o, (length h ≤ l)%nat → core.1 !! l = Some o → own (length h) o)
  ∧ (∀ l o, (length h ≤ l)%nat → loader.1 !! l = Some o → own (length h) o).
Proof.
  intros core loader.
  destruct (safe_core_normalizeManifest h manifest h (extends_refl h))
    as [Hc1 Hc2].
  destruct (safe_loader_normalizeManifest h host manifest manifestUrl h
              (extends_refl h)) as [Hl1 Hl2].
  fold core in Hc1, Hc2. fold loader in Hl1, Hl2.
  split_and!; try done.
  - intros l o. by apply extends_old.
  - intros l o. by apply extends_old.
  - intros l o. by apply extends_own.
  - intros l o. by apply extends_own.
Qed.

End StoreSafety.

(** ** The two embeddings side by side *)

(** On the example manifests, the normalisers on the store compute the
    trees that the normalisers on trees compute. *)
Example store_agrees_with_trees :
  on_tree HCore.normalizeManifest manifest_232
  = Core.normalizeManifest manifest_232
  ∧ on_tree HCore.normalizeManifest manifest_late_start
    = Core.normalizeManifest manifest_late_start
  ∧ on_tree HCore.normalizeManifest manifest_title
    = Core.normalizeManifest manifest_title
  ∧ on_tree HCore.normalizeManifest manifest_zero_duration
    = Core.normalizeManifest manifest_zero_duration
  ∧ on_tree HCore.normalizeManifest manifest_empty
    = Core.normalizeManifest manifest_empty
  ∧ on_tree (λ v, HLoader.normalizeManifest Loader.plainHost v "m.json")
            manifest_title
    = Loader.normalizeManifest Loader.plainHost manifest_title "m.json"
  ∧ on_tree (λ v, HLoader.normalizeManifest Loader.plainHost v "m.json")
            manifest_negative_duration
    = Loader.normalizeManifest Loader.plainHost manifest_negative_duration
        "m.json".
Proof. vm_compute. done. Qed.

(** A manifest built in memory can place one scene object at two
    positions, which no parsed manifest does. The clone keeps the
    sharing, the first visit writes the start time 0 into the shared
    object, and the second visit finds it there. *)
Example shared_scene_keeps_first_start :
  (let '(h, r) := HCore.normalizeManifest (Heap.HRef 2%nat)
                    shared_scene_store in
   match r with
   | Ok m => Some (startTime <$> Core.scenesOf (Heap.reify (length h) h m))
   | Throw _ => None
   end)
  = Some [Some (Num.ofZ 0); Some (Num.ofZ 0)].
Proof. vm_compute. done. Qed.

(** ** The tree-level normaliser of the core refines the one on the store *)

Lemma structuredClone_tree_eq t :
  structuredClone t = if cloneable t then Ok t else Throw DataCloneError.
Proof. done. Qed.

Section TreeRefinement.
Import Heap.

(** ** Trees in the store *)

Lemma val_ind' (P : val → Prop) :
  (∀ p, P (VPrim p)) →
  (∀ ts, Forall P ts → P (VArr ts)) →
  (∀ fts, Forall (λ kt, P kt.2) fts → P (VObj fts)) →
  ∀ t, P t.
Proof.
  intros Hp Ha Ho. fix IH 1. intros [p|ts|fts].
  - apply Hp.
  - apply Ha. induction ts as [|t ts IHts]; constructor; [apply IH|done].
  - apply Ho. induction fts as [|[k t] fts IHfts]; constructor; [apply IH|done].
Qed.

Lemma forest_in_impl {T H} (P Q : T → H → gset nat → Prop) ts : ∀ es Y,
  Forall (λ t, ∀ e Z, Z ⊆ Y → P t e Z → Q t e Z) ts →
  forest_in P ts es Y → forest_in Q ts es Y.
Proof.
  induction ts as [|t ts IH]; intros [|e es] Y Hall; simpl; try done.
  apply Forall_cons in Hall as [Ht Hall].
  intros (Y1 & Y2 & -> & Hd & Hp & Hf). exists Y1, Y2.
  split_and!; [done|done|apply Ht; [set_solver|done]|].
  apply IH; [|done].
  eapply Forall_impl; [exact Hall|]. intros t' Ht' e' Z HZ. apply Ht'. set_solver.
Qed.

(** A tree depends only on the objects that hold it. *)
Lemma tree_in_frame h h' t : ∀ v X,
  (∀ l, l ∈ X → h' !! l = h !! l) → tree_in h t v X → tree_in h' t v X.
Proof.
  induction t as [p|ts IH|fts IH] using val_ind'; intros v X Hagree; simpl.
  - done.
  - intros (l & es & Y & -> & Hl & Hn & -> & Hf).
    exists l, es, Y. split_and!; try done.
    + rewrite Hagree; [done|set_solver].
    + apply (forest_in_impl (tree_in h)); [|done].
      eapply Forall_impl; [exact IH|]. intros t Ht e Z HZ. apply Ht.
      intros l' Hl'. apply Hagree. set_solver.
  - intros (l & fs & Y & -> & Hl & Hn & -> & Hf).
    exists l, fs, Y. split_and!; try done.
    + rewrite Hagree; [done|set_solver].
    + eapply forest_in_impl; [|exact Hf].
      eapply Forall_impl; [exact IH|]. intros kt Ht kv Z HZ [Hk Hz].
      split; [done|]. apply Ht; [|done].
      intros l' Hl'. apply Hagree. set_solver.
Qed.

(** The objects that hold a tree exist. *)
Lemma tree_in_valid h t : ∀ v X l,
  tree_in h t v X → l ∈ X → (l < length h)%nat.
Proof.
  induction t as [p|ts IH|fts IH] using val_ind'; intros v X l0; simpl.
  - intros [_ ->] Hl. set_solver.
  - intros (l & es & Y & -> & Hl & Hn & -> & Hf) Hl0.
    apply elem_of_union in Hl0 as [Hl0|Hl0].
    + apply elem_of_singleton in Hl0 as ->. by eapply lookup_lt_Some.
    + clear Hl. revert es Y Hf Hl0 Hn.
      induction IH as [|t ts Ht _ IHts]; intros [|e es] Y; simpl; try done.
      * intros ->. set_solver.
      * intros (Y1 & Y2 & -> & Hd & Hp & Hf) Hl0 Hn.
        apply elem_of_union in Hl0 as [Hl0|Hl0]; [by eapply Ht|].
        eapply (IHts es Y2); [done|done|set_solver].
  - intros (l & fs & Y & -> & Hl & Hn & -> & Hf) Hl0.
    apply elem_of_union in Hl0 as [Hl0|Hl0].
    + apply elem_of_singleton in Hl0 as ->. by eapply lookup_lt_Some.
    + clear Hl. revert fs Y Hf Hl0 Hn.
      induction IH as [|t ts Ht _ IHts]; intros [|e es] Y; simpl; try done.
      * intros ->. set_solver.
      * intros (Y1 & Y2 & -> & Hd & [_ Hp] & Hf) Hl0 Hn.
        apply elem_of_union in Hl0 as [Hl0|Hl0]; [by eapply Ht|].
        eapply (IHts es Y2); [done|done|set_solver].
Qed.

Lemma size_below (X : gset nat) n :
  (∀ l, l ∈ X → (l < n)%nat) → (size X ≤ n)%nat.
Proof.
  intros H. rewrite <- (size_set_seq (C:=gset nat) 0 n).
  apply subseteq_size. intros l Hl. apply elem_of_set_seq.
  specialize (H l Hl). lia.
Qed.

(** Reading back a tree, with as much fuel as it has objects. *)
Lemma reify_tree h t : ∀ fuel v X,
  tree_in h t v X → (size X ≤ fuel)%nat → reify fuel h v = t.
Proof.
  induction t as [p|ts IH|fts IH] using val_ind'; intros fuel v X; simpl.
  - intros [-> _] _. by destruct fuel.
  - intros (l & es & Y & -> & Hl & Hn & -> & Hf) Hsz.
    rewrite size_union, size_singleton in Hsz by set_solver.
    destruct fuel as [|fuel]; [lia|]. simpl. rewrite Hl. f_equal.
    assert (HY : (size Y ≤ fuel)%nat) by lia. clear Hsz Hl Hn.
    revert es Y Hf HY.
    induction IH as [|t ts Ht _ IHts]; intros [|e es] Y; simpl; try done.
    intros (Y1 & Y2 & -> & Hd & Hp & Hf) HY.
    rewrite size_union in HY by done. f_equal.
    + apply (Ht _ _ Y1); [done|lia].
    + apply (IHts _ Y2); [done|lia].
  - intros (l & fs & Y & -> & Hl & Hn & -> & Hf) Hsz.
    rewrite size_union, size_singleton in Hsz by set_solver.
    destruct fuel as [|fuel]; [lia|]. simpl. rewrite Hl. f_equal.
    assert (HY : (size Y ≤ fuel)%nat) by lia. clear Hsz Hl Hn.
    revert fs Y Hf HY.
    induction IH as [|[k t] ts Ht _ IHts]; intros [|[k' e] es] Y; simpl;
      try done.
    intros (Y1 & Y2 & -> & Hd & [Hk Hp] & Hf) HY. simpl in *. subst k'.
    rewrite size_union in HY by done. f_equal.
    + unfold prod_map. simpl. f_equal. apply (Ht _ _ Y1); [done|lia].
    + apply (IHts _ Y2); [done|lia].
Qed.

Lemma field_in_frame h h' kt kv Z :
  (∀ l, l ∈ Z → h' !! l = h !! l) → field_in h kt kv Z → field_in h' kt kv Z.
Proof. intros Hagree [Hk Ht]. split; [done|]. by eapply tree_in_frame. Qed.

Lemma field_in_valid h kt kv Z l :
  field_in h kt kv Z → l ∈ Z → (l < length h)%nat.
Proof. intros [_ Ht]. by eapply tree_in_valid. Qed.

Lemma framed_tree : framed tree_in.
Proof.
  split.
  - intros h h' t e Z. apply tree_in_frame.
  - intros h t e Z l. apply tree_in_valid.
Qed.

Lemma framed_field : framed field_in.
Proof.
  split.
  - intros h h' t e Z. apply field_in_frame.
  - intros h t e Z l. apply field_in_valid.
Qed.

Lemma forest_in_frame {T H} (P : list obj → T → H → gset nat → Prop) h h' ts es Y :
  framed P →
  (∀ l, l ∈ Y → h' !! l = h !! l) →
  forest_in (P h) ts es Y → forest_in (P h') ts es Y.
Proof.
  intros [Hfr _] Hagree. apply forest_in_impl.
  apply Forall_forall. intros t _ e Z HZ. apply Hfr.
  intros l Hl. apply Hagree. set_solver.
Qed.

Lemma forest_in_valid {T H} (P : list obj → T → H → gset nat → Prop) h ts :
  framed P → ∀ es Y l,
  forest_in (P h) ts es Y → l ∈ Y → (l < length h)%nat.
Proof.
  intros [_ Hv]. induction ts as [|t ts IH]; intros [|e es] Y l; simpl;
    try done.
  - intros ->. set_solver.
  - intros (Y1 & Y2 & -> & Hd & Hp & Hf) Hl.
    apply elem_of_union in Hl as [Hl|Hl]; [by eapply Hv|by eapply IH].
Qed.

(** *** Laying out a tree *)

Lemma buildAll_lays {T H} (P : list obj → T → H → gset nat → Prop) f ts :
  framed P → Forall (lays P f) ts →
  lays (λ h, forest_in (P h)) (buildAll f) ts.
Proof.
  intros HP. induction 1 as [|t ts Ht _ IH]; intros h; simpl.
  - exists [], [], ∅. rewrite app_nil_r. split_and!; [done|done|set_solver].
  - destruct (Ht h) as (k1 & e & Z1 & He & HP1 & Hn1).
    destruct (IH (h ++ k1)) as (k2 & es & Y2 & Hes & HP2 & Hn2).
    exists (k1 ++ k2), (e :: es), (Z1 ∪ Y2).
    unfold mbind, M_bind. rewrite He. fold (@mbind M _).
    unfold mbind, M_bind. rewrite Hes. unfold mret, M_ret.
    rewrite app_assoc. split_and!; [done| |].
    + exists Z1, Y2. split_and!; [done| |  |done].
      * apply elem_of_disjoint. intros l Hl1 Hl2. specialize (Hn2 l Hl2).
        destruct HP as [_ Hv]. specialize (Hv _ _ _ _ l HP1 Hl1). lia.
      * destruct HP as [Hfr Hv]. eapply Hfr; [|exact HP1].
        intros l Hl. apply lookup_app_l. by eapply Hv.
    + intros l [Hl|Hl]%elem_of_union; [by apply Hn1|].
      specialize (Hn2 l Hl). rewrite length_app in Hn2. lia.
Qed.

Lemma build_lays t : lays tree_in build t.
Proof.
  induction t as [p|ts IH|fts IH] using val_ind'; intros h; simpl.
  - exists [], (HPrim p), ∅. rewrite app_nil_r. split_and!; [done|done|done|set_solver].
  - destruct (buildAll_lays tree_in build ts framed_tree IH h)
      as (k & es & Y & Hes & HP & Hn).
    exists (k ++ [OArr es]), (HRef (length (h ++ k))), ({[ length (h ++ k) ]} ∪ Y).
    unfold mbind, M_bind. rewrite Hes. unfold alloc, mret, M_ret.
    rewrite app_assoc. split_and!; [done| |].
    + exists (length (h ++ k)), es, Y. split_and!; try done.
      * by rewrite lookup_app_r, Nat.sub_diag.
      * intros Hl. pose proof (forest_in_valid _ _ _ framed_tree _ _ _ HP Hl). lia.
      * eapply (forest_in_frame tree_in); [apply framed_tree| |exact HP].
        intros l Hl. apply lookup_app_l.
        by eapply (forest_in_valid tree_in), Hl; [apply framed_tree|].
    + intros l [Hl|Hl]%elem_of_union; [|by apply Hn].
      apply elem_of_singleton in Hl as ->. rewrite length_app. lia.
  - match goal with |- context [buildAll ?f fts] => set (g := f) end.
    assert (IH' : Forall (lays field_in g) fts).
    { eapply Forall_impl; [exact IH|]. intros [k t] Ht h'. simpl in *.
      destruct (Ht h') as (k' & e & Z & He & HP & Hn).
      exists k', (k, e), Z. unfold g, mbind, M_bind. simpl. rewrite He.
      split_and!; [done|by split|done]. }
    destruct (buildAll_lays field_in g fts framed_field IH' h)
      as (k & fs & Y & Hfs & HP & Hn).
    exists (k ++ [OObj fs]), (HRef (length (h ++ k))), ({[ length (h ++ k) ]} ∪ Y).
    unfold mbind, M_bind. rewrite Hfs. unfold alloc, mret, M_ret.
    rewrite app_assoc. split_and!; [done| |].
    + exists (length (h ++ k)), fs, Y. split_and!; try done.
      * by rewrite lookup_app_r, Nat.sub_diag.
      * intros Hl. pose proof (forest_in_valid _ _ _ framed_field _ _ _ HP Hl). lia.
      * eapply (forest_in_frame field_in); [apply framed_field| |exact HP].
        intros l Hl. apply lookup_app_l.
        by eapply (forest_in_valid field_in), Hl; [apply framed_field|].
    + intros l [Hl|Hl]%elem_of_union; [|by apply Hn].
      apply elem_of_singleton in Hl as ->. rewrite length_app. lia.
Qed.

Lemma bind_ok {A B} (m : M A) (k : A → M B) h h' a :
  m h = (h', Ok a) → (m ≫= k) h = k a h'.
Proof. intros Hm. unfold mbind, M_bind. by rewrite Hm. Qed.

Lemma bind_throw {A B} (m : M A) (k : A → M B) h h' e :
  m h = (h', Throw e) → (m ≫= k) h = (h', Throw e).
Proof. intros Hm. unfold mbind, M_bind. by rewrite Hm. Qed.

Lemma load_ok h l o : h !! l = Some o → load l h = (h, Ok o).
Proof. intros Hl. unfold load. by rewrite Hl. Qed.

(** *** Fields and their values *)

Lemma forest_fields h fts : ∀ fs Y,
  forest_in (field_in h) fts fs Y →
  fts.*1 = fs.*1 ∧ forest_in (tree_in h) fts.*2 fs.*2 Y.
Proof.
  induction fts as [|[k t] fts IH]; intros [|[k' v] fs] Y; simpl; try done.
  intros (Y1 & Y2 & -> & Hd & [Hk Hp] & Hf). simpl in *. subst k'.
  destruct (IH _ _ Hf) as [Hks Hvs]. split; [by f_equal|].
  by exists Y1, Y2.
Qed.

Lemma forest_fields_zip h fts : ∀ ks vs Y,
  fts.*1 = ks → forest_in (tree_in h) fts.*2 vs Y →
  forest_in (field_in h) fts (zip ks vs) Y.
Proof.
  induction fts as [|[k t] fts IH]; intros ks [|v vs] Y <-; simpl; try done.
  intros (Y1 & Y2 & -> & Hd & Hp & Hf). exists Y1, Y2.
  split_and!; try done. by apply IH.
Qed.

(** *** Cloning a tree *)

Lemma cloneAll_forest fuel ts :
  Forall (clones fuel) ts →
  ∀ es Y h mem, forest_in (tree_in h) ts es Y → (size Y ≤ fuel)%nat →
    unseen mem Y →
    cloned (λ h, forest_in (tree_in h)) (forallb cloneable ts) ts Y h mem
           (cloneAll (clone fuel) es mem h).
Proof.
  induction 1 as [|t ts Ht _ IH]; intros [|e es] Y h mem; simpl; try done.
  - intros -> _ _. exists [], [], ∅, mem. rewrite app_nil_r.
    split_and!; [done|done|set_solver|done].
  - intros (Y1 & Y2 & -> & Hd & Hp & Hf) Hsz Hun.
    rewrite size_union in Hsz by done.
    specialize (Ht e Y1 h mem Hp). unfold cloned in Ht.
    destruct (cloneable t); simpl.
    + destruct Ht as (k1 & e' & X1 & mem1 & He & HP1 & Hn1 & Hm1);
        [lia|intros l Hl; apply Hun; set_solver|].
      rewrite (bind_ok _ _ _ _ _ He).
      assert (Hf1 : forest_in (tree_in (h ++ k1)) ts es Y2).
      { eapply (forest_in_frame tree_in); [apply framed_tree| |exact Hf].
        intros l Hl. apply lookup_app_l.
        by eapply (forest_in_valid tree_in), Hl; [apply framed_tree|]. }
      specialize (IH es Y2 (h ++ k1) mem1 Hf1). unfold cloned in IH.
      destruct (forallb cloneable ts).
      * destruct IH as (k2 & es' & X2 & mem2 & Hes & HP2 & Hn2 & Hm2);
          [lia| |].
        { intros l Hl. rewrite Hm1; [apply Hun; set_solver|set_solver]. }
        rewrite (bind_ok _ _ _ _ _ Hes). unfold mret, M_ret.
        exists (k1 ++ k2), (e' :: es'), (X1 ∪ X2), mem2.
        rewrite app_assoc. split_and!; [done| | |].
        -- exists X1, X2. split_and!; [done| | |done].
           ++ apply elem_of_disjoint. intros l Hl1 Hl2.
              specialize (Hn2 l Hl2).
              pose proof (tree_in_valid _ _ _ _ l HP1 Hl1). lia.
           ++ eapply tree_in_frame; [|exact HP1].
              intros l Hl. apply lookup_app_l. by eapply tree_in_valid.
        -- intros l [Hl|Hl]%elem_of_union; [by apply Hn1|].
           specialize (Hn2 l Hl). rewrite length_app in Hn2. lia.
        -- intros l Hl. rewrite Hm2, Hm1; [done|set_solver|set_solver].
      * destruct IH as (h' & Hes); [lia| |].
        { intros l Hl. rewrite Hm1; [apply Hun; set_solver|set_solver]. }
        rewrite (bind_throw _ _ _ _ _ Hes). by exists h'.
    + destruct Ht as (h' & He);
        [lia|intros l Hl; apply Hun; set_solver|].
      rewrite (bind_throw _ _ _ _ _ He). by exists h'.
Qed.

Lemma store_new (h : list obj) (o o' : obj) k :
  <[length h := o']> ((h ++ [o]) ++ k) = (h ++ [o']) ++ k.
Proof.
  rewrite <- !(assoc_L (++)). rewrite insert_app_r_alt by lia.
  by rewrite Nat.sub_diag.
Qed.

Lemma lookup_new (h : list obj) (o : obj) k : ((h ++ [o]) ++ k) !! length h = Some o.
Proof.
  rewrite <- (assoc_L (++)). rewrite lookup_app_r by lia.
  by rewrite Nat.sub_diag.
Qed.

Lemma lookup_other (h : list obj) (o o' : obj) k l :
  l ≠ length h → ((h ++ [o']) ++ k) !! l = ((h ++ [o]) ++ k) !! l.
Proof.
  intros Hl. rewrite <- !(assoc_L (++)).
  destruct (decide (l < length h)%nat).
  - by rewrite !lookup_app_l.
  - rewrite (lookup_app_r h ([o'] ++ k)), (lookup_app_r h ([o] ++ k)) by lia.
    destruct (l - length h)%nat as [|m] eqn:E; [lia|done].
Qed.

Lemma alloc_bind {B} (o : obj) (k : nat → M B) h :
  (alloc o ≫= k) h = k (length h) (h ++ [o]).
Proof. done. Qed.

(** The children of an object [l], cloned into the new object that
    stands for it. *)
Lemma clone_children fuel ts es Y h mem l (o : obj) :
  Forall (clones fuel) ts →
  forest_in (tree_in h) ts es Y → (size Y ≤ fuel)%nat →
  unseen mem ({[ l ]} ∪ Y) → (l ∉ Y) →
  cloned (λ h, forest_in (tree_in h)) (forallb cloneable ts) ts Y (h ++ [o])
         ((l, length h) :: mem)
         (cloneAll (clone fuel) es ((l, length h) :: mem) (h ++ [o])).
Proof.
  intros Hts Hf Hsz Hun Hl. apply cloneAll_forest; [done| |done|].
  - eapply (forest_in_frame tree_in); [apply framed_tree| |exact Hf].
    intros l' Hl'. apply lookup_app_l.
    by eapply (forest_in_valid tree_in), Hl'; [apply framed_tree|].
  - intros l' Hl'. simpl.
    destruct (Nat.eqb_spec l' l) as [->|_]; [done|].
    apply Hun. set_solver.
Qed.

Lemma cloneable_fields (fts : list (string * val)) :
  forallb (λ kv, cloneable kv.2) fts = forallb cloneable fts.*2.
Proof.
  induction fts as [|[k t] fts IH]; [done|]. simpl. f_equal. exact IH.
Qed.

Lemma clone_tree t : ∀ fuel, clones fuel t.
Proof.
  induction t as [p|ts IH|fts IH] using val_ind'; intros fuel v X h mem.
  - intros [-> ->] _ _. unfold cloned.
    destruct p, fuel; simpl; try (by exists h);
      (eexists [], _, ∅, mem; rewrite app_nil_r;
       split_and!; [done|done|done|set_solver|done]).
  - intros (l & es & Y & -> & Hl & Hn & -> & Hf) Hsz Hun.
    rewrite size_union, size_singleton in Hsz by set_solver.
    destruct fuel as [|fuel]; [lia|].
    assert (Hts : Forall (clones fuel) ts).
    { eapply Forall_impl; [exact IH|]. intros t Ht. apply Ht. }
    pose proof (clone_children fuel ts es Y h mem l (OArr []) Hts Hf
                  ltac:(lia) Hun Hn) as Hc.
    unfold cloned in *. simpl.
    rewrite (Hun l) by set_solver.
    rewrite (bind_ok _ _ _ _ _ (load_ok _ _ _ Hl)).
    rewrite alloc_bind.
    destruct (forallb cloneable ts).
    + destruct Hc as (k & es' & Y' & mem' & Hes & HP & Hn' & Hm).
      rewrite (bind_ok _ _ _ _ _ Hes). unfold store, mbind, M_bind, mret, M_ret.
      rewrite store_new.
      exists ([OArr es'] ++ k), (HRef (length h)), ({[ length h ]} ∪ Y'), mem'.
      rewrite (assoc_L (++)). split_and!; [done| | |].
      * exists (length h), es', Y'. split_and!; try done.
        -- apply lookup_new.
        -- intros Hin. specialize (Hn' _ Hin). rewrite length_app in Hn'.
           simpl in Hn'. lia.
        -- eapply (forest_in_frame tree_in); [apply framed_tree| |exact HP].
           intros l' Hl'. apply lookup_other.
           specialize (Hn' _ Hl'). rewrite length_app in Hn'. simpl in Hn'. lia.
      * intros l' [Hl'|Hl']%elem_of_union.
        -- apply elem_of_singleton in Hl' as ->. lia.
        -- specialize (Hn' _ Hl'). rewrite length_app in Hn'. lia.
      * intros l' Hl'. rewrite Hm by set_solver. simpl.
        destruct (Nat.eqb_spec l' l) as [->|_]; [set_solver|done].
    + destruct Hc as (h' & Hes). rewrite (bind_throw _ _ _ _ _ Hes).
      by exists h'.
  - intros (l & fs & Y & -> & Hl & Hn & -> & Hf) Hsz Hun.
    rewrite size_union, size_singleton in Hsz by set_solver.
    destruct fuel as [|fuel]; [lia|].
    assert (Hts : Forall (clones fuel) fts.*2).
    { apply Forall_fmap. eapply Forall_impl; [exact IH|].
      intros t Ht. apply Ht. }
    destruct (forest_fields _ _ _ _ Hf) as [Hks Hvs].
    pose proof (clone_children fuel fts.*2 fs.*2 Y h mem l (OObj []) Hts Hvs
                  ltac:(lia) Hun Hn) as Hc.
    unfold cloned in *. simpl.
    rewrite (Hun l) by set_solver.
    rewrite (bind_ok _ _ _ _ _ (load_ok _ _ _ Hl)).
    rewrite alloc_bind.
    rewrite cloneable_fields.
    destruct (forallb cloneable fts.*2).
    + destruct Hc as (k & es' & Y' & mem' & Hes & HP & Hn' & Hm).
      rewrite (bind_ok _ _ _ _ _ Hes). unfold store, mbind, M_bind, mret, M_ret.
      rewrite store_new.
      exists ([OObj (zip fs.*1 es')] ++ k), (HRef (length h)),
        ({[ length h ]} ∪ Y'), mem'.
      rewrite (assoc_L (++)). split_and!; [done| | |].
      * exists (length h), (zip fs.*1 es'), Y'. split_and!; try done.
        -- apply lookup_new.
        -- intros Hin. specialize (Hn' _ Hin). rewrite length_app in Hn'.
           simpl in Hn'. lia.
        -- apply forest_fields_zip; [done|].
           eapply (forest_in_frame tree_in); [apply framed_tree| |exact HP].
           intros l' Hl'. apply lookup_other.
           specialize (Hn' _ Hl'). rewrite length_app in Hn'. simpl in Hn'. lia.
      * intros l' [Hl'|Hl']%elem_of_union.
        -- apply elem_of_singleton in Hl' as ->. lia.
        -- specialize (Hn' _ Hl'). rewrite length_app in Hn'. lia.
      * intros l' Hl'. rewrite Hm by set_solver. simpl.
        destruct (Nat.eqb_spec l' l) as [->|_]; [set_solver|done].
    + destruct Hc as (h' & Hes). rewrite (bind_throw _ _ _ _ _ Hes).
      by exists h'.
Qed.

Lemma structuredClone_tree h t v X :
  tree_in h t v X →
  if cloneable t then
    ∃ k v' X', Heap.structuredClone v h = (h ++ k, Ok v')
      ∧ tree_in (h ++ k) t v' X'
  else ∃ h', Heap.structuredClone v h = (h', Throw DataCloneError).
Proof.
  intros Ht.
  assert (Hsz : (size X ≤ length h)%nat).
  { apply size_below. intros l. by eapply tree_in_valid. }
  pose proof (clone_tree t (length h) v X h [] Ht Hsz ltac:(done)) as Hc.
  unfold cloned, Heap.structuredClone in *. destruct (cloneable t).
  - destruct Hc as (k & v' & X' & mem' & Hc & HP & _ & _).
    rewrite (bind_ok _ _ _ _ _ Hc). by exists k, v', X'.
  - destruct Hc as (h' & Hc). rewrite (bind_throw _ _ _ _ _ Hc). by exists h'.
Qed.

(** *** Reading and writing properties *)

Lemma is_number_tree h t v X :
  tree_in h t v X → Heap.is_number v = Js.is_number t.
Proof.
  destruct t as [p|ts|fts]; simpl.
  - by intros [-> _].
  - by intros (l & es & Y & -> & _).
  - by intros (l & fs & Y & -> & _).
Qed.

(** The field [k] of an object, and what becomes of the object when the
    store changes within that field only. *)
Lemma forest_field h k fts : ∀ fs Y,
  forest_in (field_in h) fts fs Y →
  match Js.field_get k fts, Js.field_get k fs with
  | Some t0, Some v0 =>
      ∃ Z0, Z0 ⊆ Y ∧ tree_in h t0 v0 Z0
        ∧ ∀ h' t' Z', (∀ l, l ∉ Z0 → h' !! l = h !! l) →
            tree_in h' t' v0 Z' → Z' ⊆ Z0 →
            ∃ Y', Y' ⊆ Y
              ∧ forest_in (field_in h') (Js.field_set k t' fts) fs Y'
  | None, None => True
  | _, _ => False
  end.
Proof.
  induction fts as [|[k1 t1] fts IH]; intros [|[k2 v2] fs] Y; simpl; try done.
  intros (Y1 & Y2 & -> & Hd & [Hk Hp] & Hf). simpl in *. subst k2.
  destruct (String.eqb k k1) eqn:E.
  - exists Y1. split_and!; [set_solver|done|].
    intros h' t' Z' Hagree Ht' HZ'. exists (Z' ∪ Y2).
    split; [set_solver|]. exists Z', Y2.
    split_and!; [done|set_solver| |].
    + apply String.eqb_eq in E as ->. by split.
    + eapply (forest_in_frame field_in); [apply framed_field| |exact Hf].
      intros l Hl. apply Hagree. set_solver.
  - specialize (IH fs Y2 Hf).
    destruct (Js.field_get k fts) as [t0|], (Js.field_get k fs) as [v0|];
      try done.
    destruct IH as (Z0 & HZ0 & Ht0 & Hupd).
    exists Z0. split_and!; [set_solver|done|].
    intros h' t' Z' Hagree Ht' HZ'.
    destruct (Hupd h' t' Z' Hagree Ht' HZ') as (Y' & HY' & Hf').
    exists (Y1 ∪ Y'). split; [set_solver|]. exists Y1, Y'.
    split_and!; [done|set_solver| |done].
    split; [done|]. eapply tree_in_frame; [|exact Hp].
    intros l Hl. apply Hagree. set_solver.
Qed.

Lemma get_tree h t v X k :
  tree_in h t v X →
  match Js.get t k with
  | Ok t' => ∃ v' Z, Heap.get v k h = (h, Ok v') ∧ tree_in h t' v' Z ∧ Z ⊆ X
  | Throw e => Heap.get v k h = (h, Throw e)
  end.
Proof.
  destruct t as [p|ts|fts]; simpl.
  - intros [-> ->]. destruct p; simpl; try done;
      destruct (String.eqb k "at");
      (eexists _, ∅; split_and!; done || set_solver).
  - intros (l & es & Y & -> & Hl & _). simpl.
    rewrite (bind_ok _ _ _ _ _ (load_ok _ _ _ Hl)).
    destruct (String.eqb k "at");
      (eexists _, ∅; split_and!; done || set_solver).
  - intros (l & fs & Y & -> & Hl & Hn & -> & Hf). simpl.
    rewrite (bind_ok _ _ _ _ _ (load_ok _ _ _ Hl)).
    pose proof (forest_field h k fts fs Y Hf) as Hk.
    destruct (Js.field_get k fts) as [t0|], (Js.field_get k fs) as [v0|];
      try done; simpl.
    + destruct Hk as (Z0 & HZ0 & Ht0 & _). exists v0, Z0.
      split_and!; [done|done|set_solver].
    + exists undef, ∅. split_and!; done || set_solver.
Qed.

Lemma get_field h l fs k :
  h !! l = Some (OObj fs) →
  Heap.get (HRef l) k h = (h, Ok (default undef (Js.field_get k fs))).
Proof.
  intros Hl. simpl. by rewrite (bind_ok _ _ _ _ _ (load_ok _ _ _ Hl)).
Qed.

Lemma isArray_tree h t v X :
  tree_in h t v X →
  match Js.isArray t with
  | Some ts => ∃ l es Y, Heap.isArray v h = (h, Ok (Some es))
                 ∧ v = HRef l ∧ h !! l = Some (OArr es)
                 ∧ X = {[ l ]} ∪ Y ∧ (l ∉ Y)
                 ∧ forest_in (tree_in h) ts es Y
  | None => Heap.isArray v h = (h, Ok None)
  end.
Proof.
  destruct t as [p|ts|fts]; simpl.
  - by intros [-> _].
  - intros (l & es & Y & -> & Hl & Hn & -> & Hf). simpl.
    rewrite (bind_ok _ _ _ _ _ (load_ok _ _ _ Hl)). by exists l, es, Y.
  - intros (l & fs & Y & -> & Hl & _). simpl.
    by rewrite (bind_ok _ _ _ _ _ (load_ok _ _ _ Hl)).
Qed.

Lemma forest_field_set h k p fts : ∀ fs Y,
  forest_in (field_in h) fts fs Y →
  ∃ Y', Y' ⊆ Y
    ∧ forest_in (field_in h) (Js.field_set k (VPrim p) fts)
                (Js.field_set k (HPrim p) fs) Y'.
Proof.
  induction fts as [|[k1 t1] fts IH]; intros [|[k2 v2] fs] Y; simpl; try done.
  - intros ->. exists ∅. split; [done|]. exists ∅, ∅.
    split_and!; [set_solver|set_solver|by split|done].
  - intros (Y1 & Y2 & -> & Hd & [Hk Hp] & Hf). simpl in *. subst k2.
    destruct (String.eqb k k1) eqn:E.
    + exists (∅ ∪ Y2). split; [set_solver|]. exists ∅, Y2.
      split_and!; [done|set_solver|by split|done].
    + destruct (IH fs Y2 Hf) as (Y' & HY' & Hf').
      exists (Y1 ∪ Y'). split; [set_solver|]. exists Y1, Y'.
      split_and!; [done|set_solver|by split|done].
Qed.

Lemma set_tree h t v X k p :
  tree_in h t v X →
  match Js.set t k (VPrim p) with
  | Ok t' => ∃ h' X', Heap.set v k (HPrim p) h = (h', Ok ())
               ∧ tree_in h' t' v X' ∧ X' ⊆ X
               ∧ length h' = length h
               ∧ ∀ l, l ∉ X → h' !! l = h !! l
  | Throw e => Heap.set v k (HPrim p) h = (h, Throw e)
  end.
Proof.
  destruct t as [q|ts|fts]; simpl.
  - by intros [-> _].
  - intros (l & es & Y & -> & Hl & _). simpl.
    by rewrite (bind_ok _ _ _ _ _ (load_ok _ _ _ Hl)).
  - intros (l & fs & Y & -> & Hl & Hn & -> & Hf). simpl.
    rewrite (bind_ok _ _ _ _ _ (load_ok _ _ _ Hl)). unfold store.
    destruct (forest_field_set h k p fts fs Y Hf) as (Y' & HY' & Hf').
    eexists _, ({[ l ]} ∪ Y'). split_and!; [done| |set_solver| |].
    + exists l, (Js.field_set k (HPrim p) fs), Y'.
      split_and!; [done| |set_solver|done|].
      * apply list_lookup_insert_eq. by eapply lookup_lt_Some.
      * eapply (forest_in_frame field_in); [apply framed_field| |exact Hf'].
        intros l' Hl'. apply list_lookup_insert_ne. set_solver.
    + apply length_insert.
    + intros l' Hl'. apply list_lookup_insert_ne. set_solver.
Qed.

(** *** The normaliser of the core, on trees and in the store *)

Lemma normalizeScene_tree h s e Z cursor i :
  tree_in h s e Z →
  simulates tree_in h e Z (Core.normalizeScene cursor i s)
            (HCore.normalizeScene cursor i e h).
Proof.
  intros Hs. unfold Core.normalizeScene, HCore.normalizeScene, simulates.
  pose proof (get_tree h s e Z "d" Hs) as Hd.
  destruct (Js.get s "d") as [dv|err]; simpl;
    [|rewrite (bind_throw _ _ _ _ _ Hd); by exists h].
  destruct Hd as (dv' & Zd & Hd & Hdv & _).
  rewrite (bind_ok _ _ _ _ _ Hd), (is_number_tree _ _ _ _ Hdv).
  destruct (Js.is_number dv) as [d|]; [|by exists h].
  destruct (Num.leb d Num.zero); [by exists h|].
  pose proof (get_tree h s e Z "t" Hs) as Ht.
  destruct (Js.get s "t") as [tv|err]; simpl;
    [|rewrite (bind_throw _ _ _ _ _ Ht); by exists h].
  destruct Ht as (tv' & Zt & Ht & Htv & _).
  rewrite (bind_ok _ _ _ _ _ Ht), (is_number_tree _ _ _ _ Htv).
  destruct (Js.is_number tv) as [t|].
  - exists h, Z. by split_and!.
  - pose proof (set_tree h s e Z "t" (PNum cursor) Hs) as Hset.
    unfold Js.VNum. destruct (Js.set s "t" (VPrim (PNum cursor))) as [s'|err];
      simpl.
    + destruct Hset as (h' & Z' & Hset & Hs' & HZ' & Hlen & Hagree).
      rewrite (bind_ok _ _ _ _ _ Hset). by exists h', Z'.
    + rewrite (bind_throw _ _ _ _ _ Hset). by exists h.
Qed.

Lemma forEachScene_tree ss : ∀ es Y h cursor i,
  forest_in (tree_in h) ss es Y →
  simulates (λ h, forest_in (tree_in h)) h es Y
            (ss' ← Core.normalizeScenes cursor i ss; Ok (ss', ()))
            (HCore.forEachScene cursor i es h).
Proof.
  induction ss as [|s ss IH]; intros [|e es] Y h cursor i; simpl; try done.
  - intros ->. by exists h, ∅.
  - intros (Y1 & Y2 & -> & Hd & Hs & Hf).
    pose proof (normalizeScene_tree h s e Y1 cursor i Hs) as H1.
    unfold simulates in H1.
    destruct (Core.normalizeScene cursor i s) as [[s' c']|err]; simpl.
    + destruct H1 as (h1 & Z1 & H1 & Hs' & HZ1 & Hlen1 & Hag1).
      rewrite (bind_ok _ _ _ _ _ H1).
      assert (Hf1 : forest_in (tree_in h1) ss es Y2).
      { eapply (forest_in_frame tree_in); [apply framed_tree| |exact Hf].
        intros l Hl. apply Hag1. set_solver. }
      specialize (IH es Y2 h1 c' (S i) Hf1). unfold simulates in IH.
      destruct (Core.normalizeScenes c' (S i) ss) as [ss'|err]; simpl in *.
      * destruct IH as (h2 & Z2 & H2 & Hss' & HZ2 & Hlen2 & Hag2).
        exists h2, (Z1 ∪ Z2). split_and!; [done| |set_solver|congruence|].
        -- exists Z1, Z2. split_and!; [done|set_solver| |done].
           eapply tree_in_frame; [|exact Hs'].
           intros l Hl. apply Hag2. set_solver.
        -- intros l Hl. rewrite Hag2, Hag1; [done|set_solver|set_solver].
      * destruct IH as (h2 & H2). by exists h2.
    + destruct H1 as (h1 & H1). rewrite (bind_throw _ _ _ _ _ H1).
      by exists h1.
Qed.

Lemma normalizeManifest_tree h t v X :
  tree_in h t v X →
  match Core.normalizeManifest t with
  | Ok t' => ∃ h' v' X', HCore.normalizeManifest v h = (h', Ok v')
               ∧ tree_in h' t' v' X'
  | Throw e => ∃ h', HCore.normalizeManifest v h = (h', Throw e)
  end.
Proof.
  intros Ht. unfold Core.normalizeManifest, HCore.normalizeManifest.
  pose proof (structuredClone_tree h t v X Ht) as Hc.
  rewrite structuredClone_tree_eq. destruct (cloneable t); simpl;
    [|destruct Hc as (h' & Hc); rewrite (bind_throw _ _ _ _ _ Hc);
      by exists h'].
  destruct Hc as (k & m & Xm & Hc & Hm). rewrite (bind_ok _ _ _ _ _ Hc).
  clear Hc Ht. set (h1 := h ++ k) in *. clearbody h1. clear h k v X.
  pose proof (get_tree h1 t m Xm "scenes" Hm) as Hg.
  destruct t as [p|ts|fts].
  - destruct Hm as [-> _]. destruct p; simpl in *; by exists h1.
  - simpl in Hg. destruct Hg as (sv & Zs & Hg & Hsv & _).
    rewrite (bind_ok _ _ _ _ _ Hg). simpl in Hsv. destruct Hsv as [-> _].
    simpl. by exists h1.
  - simpl in Hm. destruct Hm as (lm & fs & Ym & -> & Hlm & Hnm & -> & Hf).
    pose proof (forest_field h1 "scenes" fts fs Ym Hf) as Hk.
    rewrite (bind_ok _ _ _ _ _ (get_field _ _ _ "scenes" Hlm)). simpl.
    destruct (Js.field_get "scenes" fts) as [t0|],
      (Js.field_get "scenes" fs) as [v0|]; try done; simpl;
      [|by exists h1].
    destruct Hk as (Z0 & HZ0 & Ht0 & Hupd).
    pose proof (isArray_tree h1 t0 v0 Z0 Ht0) as Ha.
    destruct (Js.isArray t0) as [ss|] eqn:Earr; simpl;
      [|rewrite (bind_ok _ _ _ _ _ Ha); by exists h1].
    destruct Ha as (ls & es & Ys & Ha & -> & Hls & -> & Hns & Hss).
    rewrite (bind_ok _ _ _ _ _ Ha).
    pose proof (forEachScene_tree ss es Ys h1 Num.zero 0%nat Hss) as Hfe.
    unfold simulates in Hfe.
    destruct (Core.normalizeScenes Num.zero 0 ss) as [ss'|err];
      simpl in Hfe |- *.
    + destruct Hfe as (h2 & Ys' & Hfe & Hss' & HYs' & Hlen & Hag).
      rewrite (bind_ok _ _ _ _ _ Hfe).
      destruct (Hupd h2 (VArr ss') ({[ ls ]} ∪ Ys')) as (Y' & HY' & Hf').
      * intros l Hl. apply Hag. set_solver.
      * exists ls, es, Ys'. split_and!; [done| |set_solver|done|done].
        rewrite Hag; done.
      * set_solver.
      * exists h2, (HRef lm), ({[ lm ]} ∪ Y'). split; [done|].
        exists lm, fs, Y'. split_and!; [done| |set_solver|done|done].
        rewrite Hag; [done|set_solver].
    + destruct Hfe as (h2 & Hfe). rewrite (bind_throw _ _ _ _ _ Hfe).
      by exists h2.
Qed.

(** On every manifest that is a tree, the normaliser of the core on trees
    gives what the one on the store gives: the same manifest, read back
    from the store, or the same error. *)
Theorem core_normalizer_refines t :
  on_tree HCore.normalizeManifest t = Core.normalizeManifest t.
Proof.
  unfold on_tree.
  destruct (build_lays t []) as (k & v & X & Hb & Ht & _).
  rewrite (bind_ok _ _ _ _ _ Hb). simpl in *.
  pose proof (normalizeManifest_tree k t v X Ht) as Hn.
  destruct (Core.normalizeManifest t) as [t'|err].
  - destruct Hn as (h' & v' & X' & Hn & Ht').
    rewrite (bind_ok _ _ _ _ _ Hn). unfold read. simpl. f_equal.
    eapply reify_tree; [exact Ht'|].
    apply size_below. intros l. by eapply tree_in_valid.
  - destruct Hn as (h' & Hn). by rewrite (bind_throw _ _ _ _ _ Hn).
Qed.

(** ** The tree-level normaliser of the loader refines the one on the store *)

Lemma all2_Forall2 {T H} (P : T → H → Prop) ts es :
  all2 P ts es ↔ Forall2 P ts es.
Proof.
  revert es. induction ts as [|t ts IH]; intros [|e es]; simpl.
  - split; [constructor|done].
  - split; [done|inversion 1].
  - split; [done|inversion 1].
  - rewrite IH. split; [intros [??]; by constructor|].
    inversion 1; by subst.
Qed.

Lemma all2_impl {T H} (P Q : T → H → Prop) ts : ∀ es,
  Forall (λ t, ∀ e, P t e → Q t e) ts → all2 P ts es → all2 Q ts es.
Proof.
  induction ts as [|t ts IH]; intros [|e es] Hall; simpl; try done.
  apply Forall_cons in Hall as [Ht Hall]. intros [Hp Hf].
  split; [by apply Ht|by apply IH].
Qed.

Lemma all2_impl' {T H} (P Q : T → H → Prop) ts es :
  (∀ t e, P t e → Q t e) → all2 P ts es → all2 Q ts es.
Proof.
  intros HPQ. apply all2_impl. apply Forall_forall. intros t _. apply HPQ.
Qed.

Lemma denotes_frame_mono h h' t : ∀ v X X',
  X ⊆ X' → (∀ l, l ∈ X → h' !! l = h !! l) →
  denotes h t v X → denotes h' t v X'.
Proof.
  induction t as [p|ts IH|fts IH] using val_ind'; intros v X X' HX Hagree;
    simpl.
  - done.
  - intros (l & es & -> & Hin & Hl & Hall). exists l, es.
    split_and!; [done|set_solver|by rewrite Hagree|].
    eapply all2_impl; [|exact Hall].
    eapply Forall_impl; [exact IH|]. intros t Ht e. apply Ht; [set_solver|].
    intros l' Hl'. apply Hagree. set_solver.
  - intros (l & fs & -> & Hin & Hl & Hall). exists l, fs.
    split_and!; [done|set_solver|by rewrite Hagree|].
    eapply all2_impl; [|exact Hall].
    eapply Forall_impl; [exact IH|]. intros kt Ht kv [Hk Hd].
    split; [done|]. eapply Ht; [| |exact Hd]; [set_solver|].
    intros l' Hl'. apply Hagree. set_solver.
Qed.

Lemma reify_denotes h t : ∀ fuel v X,
  denotes h t v X → (size X ≤ fuel)%nat → reify fuel h v = t.
Proof.
  induction t as [p|ts IH|fts IH] using val_ind'; intros fuel v X; simpl.
  - intros -> _. by destruct fuel.
  - intros (l & es & -> & Hin & Hl & Hall) Hsz.
    assert (size (X ∖ {[ l ]}) < size X)%nat as Hlt.
    { apply subset_size. set_solver. }
    destruct fuel as [|fuel]; [lia|]. simpl. rewrite Hl. f_equal.
    assert (HY : (size (X ∖ {[ l ]}) ≤ fuel)%nat) by lia.
    clear Hsz Hl Hin Hlt. revert es Hall.
    induction IH as [|t ts Ht _ IHts]; intros [|e es]; simpl; try done.
    intros [Hd Hall]. f_equal; [by eapply Ht|by apply IHts].
  - intros (l & fs & -> & Hin & Hl & Hall) Hsz.
    assert (size (X ∖ {[ l ]}) < size X)%nat as Hlt.
    { apply subset_size. set_solver. }
    destruct fuel as [|fuel]; [lia|]. simpl. rewrite Hl. f_equal.
    assert (HY : (size (X ∖ {[ l ]}) ≤ fuel)%nat) by lia.
    clear Hsz Hl Hin Hlt. revert fs Hall.
    induction IH as [|[k t] ts Ht _ IHts]; intros [|[k' e] es]; simpl;
      try done.
    intros [[Hk Hd] Hall]. simpl in *. subst k'. f_equal.
    + unfold prod_map. simpl. f_equal. by eapply Ht.
    + by apply IHts.
Qed.

Lemma tree_denotes h t : ∀ v X, tree_in h t v X → denotes h t v X.
Proof.
  induction t as [p|ts IH|fts IH] using val_ind'; intros v X; simpl.
  - by intros [-> _].
  - intros (l & es & Y & -> & Hl & Hn & -> & Hf). exists l, es.
    split_and!; [done|set_solver|done|].
    assert (HY : Y ⊆ ({[ l ]} ∪ Y) ∖ {[ l ]}) by set_solver.
    revert HY. generalize (({[ l ]} ∪ Y) ∖ {[ l ]}). clear Hl Hn.
    revert es Y Hf.
    induction IH as [|t ts Ht _ IHts]; intros [|e es] Y; simpl; try done.
    intros (Y1 & Y2 & -> & Hd & Hp & Hf) X HX. split.
    + eapply denotes_frame_mono; [| |apply Ht, Hp]; [set_solver|done].
    + eapply IHts; [exact Hf|set_solver].
  - intros (l & fs & Y & -> & Hl & Hn & -> & Hf). exists l, fs.
    split_and!; [done|set_solver|done|].
    assert (HY : Y ⊆ ({[ l ]} ∪ Y) ∖ {[ l ]}) by set_solver.
    revert HY. generalize (({[ l ]} ∪ Y) ∖ {[ l ]}). clear Hl Hn.
    revert fs Y Hf.
    induction IH as [|t ts Ht _ IHts]; intros [|e es] Y; simpl; try done.
    intros (Y1 & Y2 & -> & Hd & [Hk Hp] & Hf) X HX. split.
    + split; [done|].
      eapply denotes_frame_mono; [| |apply Ht, Hp]; [set_solver|done].
    + eapply IHts; [exact Hf|set_solver].
Qed.

Lemma denotes_sub h t v X X' : X ⊆ X' → denotes h t v X → denotes h t v X'.
Proof. intros HX. by apply denotes_frame_mono. Qed.

Lemma elem_of_dom l n : l ∈ dom n ↔ (l < n)%nat.
Proof. unfold dom. rewrite elem_of_set_seq. lia. Qed.

Lemma size_dom_off n (A : gset nat) : (size (dom n ∖ A) ≤ n)%nat.
Proof.
  etrans; [apply subseteq_size, subseteq_difference_l; reflexivity|].
  unfold dom. by rewrite size_set_seq.
Qed.

(** A denotation outlives every change of the store that leaves the
    objects outside [A] as they are. *)
Lemma denotes_off_move A A' h h' t v :
  (length h ≤ length h')%nat →
  (∀ l, (l < length h)%nat → l ∉ A → h' !! l = h !! l ∧ l ∉ A') →
  denotes_off A h t v → denotes_off A' h' t v.
Proof.
  intros Hlen Hmove. apply denotes_frame_mono.
  - intros l [Hl HA]%elem_of_difference. apply elem_of_dom in Hl.
    apply elem_of_difference. split; [apply elem_of_dom; lia|].
    by apply Hmove.
  - intros l [Hl HA]%elem_of_difference. apply elem_of_dom in Hl.
    by apply Hmove.
Qed.

Lemma denotes_off_keeps A h h' t v :
  keeps h h' → denotes_off A h t v → denotes_off A h' t v.
Proof.
  intros [Hlen Hk]. apply denotes_off_move; [done|].
  intros l Hl HA. split; [by apply Hk|done].
Qed.

Lemma denotes_off_more A A' h t v :
  A' ⊆ A → denotes_off A h t v → denotes_off A' h t v.
Proof.
  intros HA. apply denotes_off_move; [done|].
  intros l Hl Hn. split; [done|set_solver].
Qed.

Lemma keeps_refl h : keeps h h.
Proof. by split. Qed.

Lemma keeps_trans h1 h2 h3 : keeps h1 h2 → keeps h2 h3 → keeps h1 h3.
Proof.
  intros [Hl1 Hk1] [Hl2 Hk2]. split; [lia|].
  intros l Hl. rewrite Hk2 by lia. by apply Hk1.
Qed.

Lemma keeps_alloc h (o : obj) : keeps h (h ++ [o]).
Proof.
  split; [rewrite length_app; lia|]. intros l Hl. by apply lookup_app_l.
Qed.

Lemma keeps_insert h h0 l (o : obj) :
  keeps h0 h → (length h0 ≤ l)%nat → keeps h0 (<[l := o]> h).
Proof.
  intros [Hlen Hk] Hl. split; [by rewrite length_insert|].
  intros l' Hl'. rewrite list_lookup_insert_ne by lia. by apply Hk.
Qed.

Lemma read_denotes A h t v :
  denotes_off A h t v → read v h = (h, Ok t).
Proof.
  intros Hd. unfold read. do 2 f_equal.
  eapply reify_denotes; [exact Hd|apply size_dom_off].
Qed.

Lemma truthy_denotes h t v X :
  denotes h t v X → Heap.truthy v = Js.truthy t.
Proof.
  destruct t as [p|ts|fts]; simpl.
  - by intros ->.
  - by intros (l & es & -> & _).
  - by intros (l & fs & -> & _).
Qed.

Lemma or_denotes h a b va vb X :
  denotes h a va X → denotes h b vb X →
  denotes h (Js.or a b) (Heap.or va vb) X.
Proof.
  intros Ha Hb. unfold Js.or, Heap.or.
  rewrite (truthy_denotes _ _ _ _ Ha). by destruct (Js.truthy a).
Qed.

Lemma field_get_denotes h X k fts : ∀ fs,
  all2 (field_denotes h X) fts fs →
  denotes h (default VUndef (Js.field_get k fts))
          (default undef (Js.field_get k fs)) X.
Proof.
  induction fts as [|[k1 t1] fts IH]; intros [|[k2 v2] fs]; simpl; try done.
  intros [[Hk Hd] Hall]. simpl in *. subst k2.
  destruct (String.eqb k k1); [done|by apply IH].
Qed.

Lemma field_set_denotes h X k x xv fts : ∀ fs,
  denotes h x xv X →
  all2 (field_denotes h X) fts fs →
  all2 (field_denotes h X) (Js.field_set k x fts) (Js.field_set k xv fs).
Proof.
  intros fs Hx. revert fs.
  induction fts as [|[k1 t1] fts IH]; intros [|[k2 v2] fs]; simpl; try done.
  intros [[Hk Hd] Hall]. simpl in *. subst k2.
  destruct (String.eqb k k1); simpl; [done|]. split; [done|by apply IH].
Qed.

Lemma denotes_obj h fts l X :
  denotes h (VObj fts) (HRef l) X ↔
  ∃ fs, l ∈ X ∧ h !! l = Some (OObj fs)
        ∧ all2 (field_denotes h (X ∖ {[ l ]})) fts fs.
Proof.
  simpl. split.
  - intros (l' & fs & [= <-] & Hin & Hl & Hall). by exists fs.
  - intros (fs & Hin & Hl & Hall). by exists l, fs.
Qed.

Lemma denotes_arr h ts l X :
  denotes h (VArr ts) (HRef l) X ↔
  ∃ es, l ∈ X ∧ h !! l = Some (OArr es)
        ∧ all2 (λ t e, denotes h t e (X ∖ {[ l ]})) ts es.
Proof.
  simpl. split.
  - intros (l' & es & [= <-] & Hin & Hl & Hall). by exists es.
  - intros (es & Hin & Hl & Hall). by exists l, es.
Qed.

(** Reading a property of any value. *)
Lemma get_denotes h t v X k :
  denotes h t v X →
  match Js.get t k with
  | Ok t' => ∃ v', Heap.get v k h = (h, Ok v') ∧ denotes h t' v' X
  | Throw e => Heap.get v k h = (h, Throw e)
  end.
Proof.
  destruct t as [p|ts|fts]; simpl.
  - intros ->. destruct p; simpl; try done;
      destruct (String.eqb k "at"); by eexists.
  - intros (l & es & -> & Hin & Hl & Hall). simpl.
    rewrite (bind_ok _ _ _ _ _ (load_ok _ _ _ Hl)).
    destruct (String.eqb k "at"); by eexists.
  - intros (l & fs & -> & Hin & Hl & Hall). simpl.
    rewrite (bind_ok _ _ _ _ _ (load_ok _ _ _ Hl)).
    eexists. split; [done|].
    eapply denotes_sub; [|by apply field_get_denotes].
    set_solver.
Qed.

(** Reading a property of the object [l]: what is read does not go
    through [l]. *)
Lemma get_object A h fts l k :
  denotes_off A h (VObj fts) (HRef l) →
  ∃ v', Heap.get (HRef l) k h = (h, Ok v')
        ∧ denotes_off (A ∪ {[ l ]}) h
            (default VUndef (Js.field_get k fts)) v'.
Proof.
  intros (fs & Hin & Hl & Hall)%denotes_obj.
  exists (default undef (Js.field_get k fs)). split; [by apply get_field|].
  eapply denotes_sub; [|by apply field_get_denotes].
  unfold dom. set_solver.
Qed.

(** Writing a property of the object [l], with a value that does not go
    through [l]. *)
Lemma set_object A h fts l k x xv :
  denotes_off A h (VObj fts) (HRef l) →
  denotes_off (A ∪ {[ l ]}) h x xv →
  ∃ fs, h !! l = Some (OObj fs)
    ∧ Heap.set (HRef l) k xv h
      = (<[l := OObj (Js.field_set k xv fs)]> h, Ok ())
    ∧ denotes_off A (<[l := OObj (Js.field_set k xv fs)]> h)
        (VObj (Js.field_set k x fts)) (HRef l).
Proof.
  intros (fs & Hin & Hl & Hall)%denotes_obj Hx. exists fs.
  split; [done|]. split.
  - simpl. by rewrite (bind_ok _ _ _ _ _ (load_ok _ _ _ Hl)).
  - apply denotes_obj. exists (Js.field_set k xv fs).
    rewrite length_insert. split_and!; [done| |].
    + apply list_lookup_insert_eq. by eapply lookup_lt_Some.
    + apply all2_Forall2. eapply Forall2_impl.
      * apply all2_Forall2. apply (field_set_denotes h); [|exact Hall].
        eapply denotes_sub; [|exact Hx]. unfold dom. set_solver.
      * intros kt kv [Hk Hd]. split; [done|].
        eapply denotes_frame_mono; [reflexivity| |exact Hd].
        intros l' Hl'. apply list_lookup_insert_ne. set_solver.
Qed.

Lemma isArray_denotes h t v X :
  denotes h t v X →
  match Js.isArray t with
  | Some ts => ∃ es, Heap.isArray v h = (h, Ok (Some es))
                 ∧ all2 (λ t e, denotes h t e X) ts es
  | None => Heap.isArray v h = (h, Ok None)
  end.
Proof.
  destruct t as [p|ts|fts]; simpl.
  - by intros ->.
  - intros (l & es & -> & Hin & Hl & Hall). simpl.
    rewrite (bind_ok _ _ _ _ _ (load_ok _ _ _ Hl)). exists es.
    split; [done|]. eapply all2_impl'; [|exact Hall].
    intros t e. apply denotes_sub. set_solver.
  - intros (l & fs & -> & Hin & Hl & Hall). simpl.
    by rewrite (bind_ok _ _ _ _ _ (load_ok _ _ _ Hl)).
Qed.

Lemma is_array_isArray t : Js.is_array t = bool_decide (is_Some (Js.isArray t)).
Proof. destruct t as [p|ts|fts]; simpl; try done. Qed.

(** *** Spreading a value *)

Lemma indexed_chars h X s : ∀ i,
  all2 (field_denotes h X) (Js.indexed i (Js.chars s))
       (prod_map id (λ c, match c with
                          | VPrim p => HPrim p
                          | _ => undef
                          end) <$> Js.indexed i (Js.chars s)).
Proof.
  induction s as [|c s IH]; intros i; simpl; [done|].
  split; [by split|apply IH].
Qed.

Lemma indexed_elems h X ts : ∀ es i,
  all2 (λ t e, denotes h t e X) ts es →
  all2 (field_denotes h X) (Js.indexed i ts)
       (zip (pretty <$> seq i (length es)) es).
Proof.
  induction ts as [|t ts IH]; intros [|e es] i; simpl; try done.
  intros [Hd Hall]. split; [by split|by apply IH].
Qed.

Lemma spread_denotes h t v X :
  denotes h t v X →
  ∃ fs, Heap.spread v h = (h, Ok fs)
        ∧ all2 (field_denotes h X) (Js.spread t) fs.
Proof.
  destruct t as [p|ts|fts]; simpl.
  - intros ->. destruct p; simpl; try (by exists []).
    eexists. split; [done|]. apply indexed_chars.
  - intros (l & es & -> & Hin & Hl & Hall). simpl.
    rewrite (bind_ok _ _ _ _ _ (load_ok _ _ _ Hl)).
    eexists. split; [done|]. apply indexed_elems.
    eapply all2_impl'; [|exact Hall].
    intros t e. apply denotes_sub. set_solver.
  - intros (l & fs & -> & Hin & Hl & Hall). simpl.
    rewrite (bind_ok _ _ _ _ _ (load_ok _ _ _ Hl)).
    exists fs. split; [done|]. eapply all2_impl'; [|exact Hall].
    intros kt kv [Hk Hd]. split; [done|].
    eapply denotes_sub; [|exact Hd]. set_solver.
Qed.

(** *** New objects *)

Lemma new_object B h fts fs :
  (length h ∉ B) →
  all2 (field_denotes h (dom (length h) ∖ B)) fts fs →
  denotes_off B (h ++ [OObj fs]) (VObj fts) (HRef (length h)).
Proof.
  intros HB Hall. apply denotes_obj. exists fs.
  rewrite length_app. simpl. split_and!.
  - apply elem_of_difference. split; [apply elem_of_dom; lia|done].
  - by rewrite lookup_app_r, Nat.sub_diag.
  - eapply all2_impl'; [|exact Hall]. intros kt kv [Hk Hd].
    split; [done|]. eapply denotes_frame_mono; [| |exact Hd].
    + intros l [Hl Hn]%elem_of_difference. apply elem_of_dom in Hl.
      repeat (apply elem_of_difference; split); [apply elem_of_dom; lia|done|].
      apply not_elem_of_singleton. lia.
    + intros l [Hl Hn]%elem_of_difference. apply elem_of_dom in Hl.
      by apply lookup_app_l.
Qed.

Lemma new_array B h ts es :
  (length h ∉ B) →
  all2 (λ t e, denotes h t e (dom (length h) ∖ B)) ts es →
  denotes_off B (h ++ [OArr es]) (VArr ts) (HRef (length h)).
Proof.
  intros HB Hall. apply denotes_arr. exists es.
  rewrite length_app. simpl. split_and!.
  - apply elem_of_difference. split; [apply elem_of_dom; lia|done].
  - by rewrite lookup_app_r, Nat.sub_diag.
  - eapply all2_impl'; [|exact Hall]. intros t e Hd.
    eapply denotes_frame_mono; [| |exact Hd].
    + intros l [Hl Hn]%elem_of_difference. apply elem_of_dom in Hl.
      repeat (apply elem_of_difference; split); [apply elem_of_dom; lia|done|].
      apply not_elem_of_singleton. lia.
    + intros l [Hl Hn]%elem_of_difference. apply elem_of_dom in Hl.
      by apply lookup_app_l.
Qed.

(** *** An object under construction *)

Lemma building_lt A h0 h fts sl : building A h0 h fts sl → (sl < length h)%nat.
Proof.
  intros (_ & _ & _ & (fs & Hin & _)%denotes_obj).
  apply elem_of_difference in Hin as [Hin _]. by apply elem_of_dom.
Qed.

Lemma building_get A h0 h fts sl k :
  building A h0 h fts sl →
  ∃ v', Heap.get (HRef sl) k h = (h, Ok v')
        ∧ denotes_off (A ∪ {[ sl ]}) h
            (default VUndef (Js.field_get k fts)) v'.
Proof. intros (_ & _ & _ & Hd). by apply get_object. Qed.

Lemma building_set A h0 h fts sl k x xv :
  building A h0 h fts sl →
  denotes_off (A ∪ {[ sl ]}) h x xv →
  ∃ h', Heap.set (HRef sl) k xv h = (h', Ok ())
    ∧ building A h0 h' (Js.field_set k x fts) sl
    ∧ ∀ t v, denotes_off (A ∪ {[ sl ]}) h t v
             → denotes_off (A ∪ {[ sl ]}) h' t v.
Proof.
  intros (Hk & Hsl & HA & Hd) Hx.
  destruct (set_object A h fts sl k x xv Hd Hx) as (fs & Hl & Hset & Hd').
  eexists. split; [exact Hset|]. split.
  - split_and!; [by apply keeps_insert|done|done|done].
  - intros t v. apply denotes_off_move; [by rewrite length_insert|].
    intros l Hl' Hn. split; [|done].
    apply list_lookup_insert_ne. set_solver.
Qed.

Lemma building_alloc A h0 h fts sl (o : obj) :
  building A h0 h fts sl → building A h0 (h ++ [o]) fts sl.
Proof.
  intros (Hk & Hsl & HA & Hd). split_and!; try done.
  - eapply keeps_trans; [exact Hk|apply keeps_alloc].
  - eapply denotes_off_keeps; [apply keeps_alloc|done].
Qed.

Lemma building_fresh A h0 h fts sl :
  building A h0 h fts sl → length h ∉ A ∪ {[ sl ]}.
Proof.
  intros Hb. pose proof (building_lt _ _ _ _ _ Hb) as Hlt.
  destruct Hb as ([Hlen _] & Hsl & HA & _).
  intros [Hin|Hin]%elem_of_union.
  - specialize (HA _ Hin). lia.
  - apply elem_of_singleton in Hin. lia.
Qed.

(** *** The normaliser of the loader, on trees and in the store *)

Lemma get_VObj fts k :
  Js.get (VObj fts) k = Ok (default VUndef (Js.field_get k fts)).
Proof. done. Qed.

Lemma set_VObj fts k x :
  Js.set (VObj fts) k x = Ok (VObj (Js.field_set k x fts)).
Proof. done. Qed.

Lemma result_bind_ok {A B} (a : A) (k : A → result B) : (Ok a ≫= k) = k a.
Proof. done. Qed.

Lemma lift_ok {A} (r : result A) h : lift r h = (h, r).
Proof. done. Qed.

Lemma mret_ok {A} (a : A) h : (mret a : M A) h = (h, Ok a).
Proof. done. Qed.

Lemma result_bind_throw {A B} (e : error) (k : A → result B) :
  (Throw e ≫= k) = Throw e.
Proof. done. Qed.

Lemma if_lift {A} (c : bool) (a : A) (r : result A) :
  (if c then mret a else lift r) = lift (if c then Ok a else r).
Proof. by destruct c. Qed.

(** [x || {}] on the store makes the object when it is needed. *)
Lemma or_new_object A h0 h fts sl t v :
  building A h0 h fts sl →
  denotes_off (A ∪ {[ sl ]}) h t v →
  ∃ h' v', (if truthy v then mret v
            else (l ← alloc (OObj []); mret (HRef l))) h = (h', Ok v')
    ∧ building A h0 h' fts sl
    ∧ denotes_off (A ∪ {[ sl ]}) h' (Js.or t (VObj [])) v'.
Proof.
  intros Hb Ht. unfold Js.or. rewrite (truthy_denotes _ _ _ _ Ht).
  destruct (Js.truthy t).
  - by exists h, v.
  - exists (h ++ [OObj []]), (HRef (length h)). split; [done|].
    split; [by apply building_alloc|].
    apply new_object; [by eapply building_fresh|done].
Qed.

(** [if (!Array.isArray(x.k)) x.k = []], for the value [v] of [x.k]. *)
Lemma ensure_array A h0 h fts sl k t v :
  building A h0 h fts sl →
  denotes_off (A ∪ {[ sl ]}) h t v →
  ∃ ta h' fts',
    isArray v h = (h, Ok ta)
    ∧ (if ta is Some _ then mret ()
       else (l ← alloc (OArr []); set (HRef sl) k (HRef l))) h = (h', Ok ())
    ∧ (if Js.is_array t then Ok (VObj fts)
       else Js.set (VObj fts) k (VArr [])) = Ok (VObj fts')
    ∧ building A h0 h' fts' sl.
Proof.
  intros Hb Ht. pose proof (isArray_denotes _ _ _ _ Ht) as Ha.
  rewrite is_array_isArray. destruct (Js.isArray t) as [ts|].
  - destruct Ha as (es & Ha & _). by exists (Some es), h, fts.
  - exists None. rewrite alloc_bind.
    destruct (building_set A h0 (h ++ [OArr []]) fts sl k (VArr [])
                (HRef (length h))) as (h' & Hset & Hb' & _).
    + by apply building_alloc.
    + apply new_array; [by eapply building_fresh|done].
    + exists h', (Js.field_set k (VArr []) fts). by split_and!.
Qed.

Ltac hstep H := rewrite (bind_ok _ _ _ _ _ H).
Ltac hthrow H := rewrite (bind_throw _ _ _ _ _ H); by eexists.
Ltac tstep :=
  repeat (progress
            rewrite ?get_VObj, ?set_VObj, ?result_bind_ok, ?result_bind_throw).

(** Reading a property of a value that may be anything. *)
Ltac hget h v k Hv t' v' Ht' :=
  let Hg := fresh "Hg" in
  pose proof (get_denotes h _ v _ k Hv) as Hg;
  match type of Hg with
  | match ?g with _ => _ end =>
      destruct g as [t'|?]; tstep;
      [destruct Hg as (v' & Hg & Ht'); hstep Hg; clear Hg|hthrow Hg]
  end.

Lemma normalizeScene_denotes host base i A h s e :
  denotes_off A h s e → (∀ l, l ∈ A → (l < length h)%nat) →
  match Loader.normalizeScene host base i s with
  | Ok s' => ∃ h' v', HLoader.normalizeScene host base i e h = (h', Ok v')
               ∧ keeps h h' ∧ denotes_off A h' s' v'
  | Throw err => ∃ h', HLoader.normalizeScene host base i e h = (h', Throw err)
  end.
Proof.
  intros Hs HA. unfold Loader.normalizeScene, HLoader.normalizeScene.
  destruct (spread_denotes _ _ _ _ Hs) as (fs & Hsp & Hfs).
  hstep Hsp. rewrite alloc_bind.
  assert (Hb : building A h (h ++ [OObj fs]) (Js.spread s) (length h)).
  { split_and!; [apply keeps_alloc|done|done|].
    apply new_object; [|done]. intros Hin. specialize (HA _ Hin). lia. }
  clear Hsp Hfs Hs.
  generalize dependent (Js.spread s). intros fts Hb.
  generalize dependent (h ++ [OObj fs]). intros h1 Hb.
  set (sl := length h) in *. set (B := A ∪ {[ sl ]}).
  (* duration *)
  tstep.
  destruct (building_get _ _ _ _ _ "d" Hb) as (d0 & Hg & Hd0). hstep Hg.
  assert (Hdt : denotes_off B h1
                  (Js.or (default VUndef (Js.field_get "d" fts)) (VNum Num.zero))
                  (or d0 (HPrim (PNum Num.zero)))) by (by apply or_denotes).
  hstep (read_denotes _ _ _ _ Hdt).
  generalize (Num.max Loader.tenth
                (Js.ToNumber (Js.or (default VUndef (Js.field_get "d" fts))
                                    (VNum Num.zero)))).
  intros dn. clear Hg Hd0 Hdt d0. tstep.
  destruct (building_set _ _ _ _ _ "d" (VNum dn) (HPrim (PNum dn)) Hb eq_refl)
    as (h2 & Hset & Hb2 & _).
  hstep Hset. clear Hset Hb h1.
  destruct (negb (Num.truthy dn) || negb (Num.isFinite dn)); [by eexists|].
  generalize dependent (Js.field_set "d" (VNum dn) fts). clear fts.
  intros fts Hb.
  (* media *)
  tstep.
  destruct (building_get _ _ _ _ _ "media" Hb) as (m0 & Hg & Hm0). hstep Hg.
  destruct (or_new_object _ _ _ _ _ _ _ Hb Hm0) as (h3 & media & Hor & Hb3 & Hmedia).
  hstep Hor. clear Hg Hor Hm0 Hb m0 h2.
  generalize dependent (Js.or (default VUndef (Js.field_get "media" fts)) (VObj [])).
  intros mediaT Hmedia.
  hget h3 media "src" Hmedia msrcT msrc Hmsrc.
  assert (Hst : denotes_off B h3 (Js.or msrcT (VStr EmptyString))
                  (or msrc (HLoader.str EmptyString)))
    by (by apply or_denotes).
  hstep (read_denotes _ _ _ _ Hst). clear Hst Hmsrc.
  generalize (Js.trim (Js.ToString (Loader.Number_toString host)
                                   (Js.or msrcT (VStr EmptyString)))).
  intros src. rewrite if_lift.
  destruct (if String.eqb src EmptyString then Ok EmptyString
            else Loader.URL_href host src base) as [href|err]; tstep;
    [hstep (lift_ok (Ok href) h3)|hthrow (lift_ok (@Throw string err) h3)].
  hget h3 media "credit" Hmedia creditT credit Hcredit.
  hget h3 media "kenburns" Hmedia kbT kb Hkb.
  rewrite alloc_bind.
  match goal with
  | |- context [h3 ++ [?o]] =>
      assert (Hml : denotes_off B (h3 ++ [o])
                (VObj [("src", VStr href); ("credit", creditT);
                       ("kenburns", Js.or kbT (VStr "center"))])
                (HRef (length h3)));
      [|apply (building_alloc _ _ _ _ _ o) in Hb3]
  end.
  { apply new_object; [by eapply building_fresh|]. simpl.
    split_and!; try done. split; [done|]. by apply or_denotes. }
  destruct (building_set _ _ _ _ _ "media" _ _ Hb3 Hml)
    as (h4 & Hset & Hb4 & _).
  hstep Hset. tstep. clear Hset Hb3 Hml Hcredit Hkb Hmedia.
  generalize dependent
    (Js.field_set "media"
       (VObj [("src", VStr href); ("credit", creditT);
              ("kenburns", Js.or kbT (VStr "center"))]) fts).
  clear fts. intros fts Hb.
  (* text & callouts normalize arrays *)
  tstep.
  destruct (building_get _ _ _ _ _ "text" Hb) as (tx & Hg & Htx). hstep Hg.
  destruct (ensure_array _ _ _ _ _ "text" _ _ Hb Htx)
    as (ta & h5 & fts5 & Ha & Hens & Htree & Hb5).
  hstep Ha. hstep Hens. rewrite set_VObj in Htree. rewrite Htree. tstep.
  clear Hg Htx Ha Hens Htree Hb tx ta fts h4.
  destruct (building_get _ _ _ _ _ "callouts" Hb5) as (cs & Hg & Hcs). hstep Hg.
  destruct (ensure_array _ _ _ _ _ "callouts" _ _ Hb5 Hcs)
    as (ca & h6 & fts6 & Ha & Hens & Htree & Hb6).
  hstep Ha. hstep Hens. rewrite set_VObj in Htree. rewrite Htree. tstep.
  clear Hg Hcs Ha Hens Htree Hb5 cs ca fts5 h5.
  (* transitions defaults *)
  destruct (building_get _ _ _ _ _ "transitionIn" Hb6) as (tin & Hg & Htin).
  hstep Hg.
  assert (Hin : denotes_off B h6
                  (Js.or (default VUndef (Js.field_get "transitionIn" fts6))
                         (VStr "crossfade"))
                  (or tin (HLoader.str "crossfade"))) by (by apply or_denotes).
  destruct (building_set _ _ _ _ _ "transitionIn" _ _ Hb6 Hin)
    as (h7 & Hset & Hb7 & _).
  hstep Hset. tstep. clear Hg Htin Hin Hset Hb6 h6.
  destruct (building_get _ _ _ _ _ "transitionOut" Hb7) as (tout & Hg1 & Htout).
  hstep Hg1.
  destruct (building_get _ _ _ _ _ "transitionIn" Hb7) as (tin' & Hg2 & Htin').
  hstep Hg2.
  pose proof (or_denotes _ _ _ _ _ _ Htout Htin') as Hout.
  destruct (building_set _ _ _ _ _ "transitionOut" _ _ Hb7 Hout)
    as (h8 & Hset & Hb8 & _).
  hstep Hset. tstep.
  exists h8, (HRef sl). split; [done|].
  destruct Hb8 as (Hk & _ & _ & Hd). by split.
Qed.

Lemma mapScenes_denotes host base A ss : ∀ es h i,
  all2 (denotes_off A h) ss es → (∀ l, l ∈ A → (l < length h)%nat) →
  match Loader.normalizeScenes host base i ss with
  | Ok ss' => ∃ h' vs, HLoader.mapScenes host base i es h = (h', Ok vs)
                ∧ keeps h h' ∧ all2 (denotes_off A h') ss' vs
  | Throw err => ∃ h', HLoader.mapScenes host base i es h = (h', Throw err)
  end.
Proof.
  induction ss as [|s ss IH]; intros [|e es] h i; simpl; try done.
  - intros _ _. exists h, []. split_and!; [done|apply keeps_refl|done].
  - intros [Hs Hall] HA.
    pose proof (normalizeScene_denotes host base i A h s e Hs HA) as H1.
    destruct (Loader.normalizeScene host base i s) as [s'|err]; tstep;
      [|destruct H1 as (h' & H1); hthrow H1].
    destruct H1 as (h1 & v1 & H1 & Hk1 & Hs'). hstep H1.
    specialize (IH es h1 (S i)).
    destruct (Loader.normalizeScenes host base (S i) ss) as [ss'|err]; tstep.
    + destruct IH as (h2 & vs & H2 & Hk2 & Hss').
      * eapply all2_impl'; [|exact Hall].
        intros t v. by apply denotes_off_keeps.
      * intros l Hl. specialize (HA l Hl). destruct Hk1. lia.
      * hstep H2. exists h2, (v1 :: vs).
        split_and!; [done|by eapply keeps_trans|].
        split; [by eapply denotes_off_keeps|done].
    + destruct IH as (h2 & H2).
      * eapply all2_impl'; [|exact Hall].
        intros t v. by apply denotes_off_keeps.
      * intros l Hl. specialize (HA l Hl). destruct Hk1. lia.
      * hthrow H2.
Qed.

Lemma sumDurations_denotes A h ss : ∀ vs acc,
  all2 (denotes_off A h) ss vs →
  HLoader.sumDurations acc vs h
  = (h, Ok (foldl (λ acc s,
                     let dn := Js.ToNumber (Js.get_opt s "d") in
                     Num.add acc (if Num.truthy dn then dn else Num.zero))
                  acc ss)).
Proof.
  induction ss as [|s ss IH]; intros [|v vs] acc; simpl; try done.
  intros [Hs Hall].
  assert (Hd : ∃ dv, (match v with
                      | HPrim (PUndef | PNull) => mret undef
                      | _ => get v "d"
                      end) h = (h, Ok dv)
                     ∧ denotes_off A h (Js.get_opt s "d") dv).
  { pose proof (get_denotes h s v _ "d" Hs) as Hg. unfold Js.get_opt.
    unfold denotes_off in *. destruct s as [p|ts|fts].
    - simpl in Hs. subst v. destruct p; simpl in *;
        try (by eexists); by destruct Hg as (v' & Hg & Hv'); exists v'.
    - destruct Hs as (l & es & -> & _). simpl in Hg |- *.
      by destruct Hg as (v' & Hg & Hv'); exists v'.
    - destruct Hs as (l & fs & -> & _). simpl in Hg |- *.
      by destruct Hg as (v' & Hg & Hv'); exists v'. }
  destruct Hd as (dv & Hd & Hdv). hstep Hd.
  hstep (read_denotes _ _ _ _ Hdv). by apply IH.
Qed.

Lemma building_keeps A h0 h h' fts sl :
  building A h0 h fts sl → keeps h h' → building A h0 h' fts sl.
Proof.
  intros (Hk & Hsl & HA & Hd) Hk'. split_and!; try done.
  - by eapply keeps_trans.
  - by eapply denotes_off_keeps.
Qed.

Lemma theme_denotes h t v X :
  denotes h t v X →
  denotes h (match t with
             | VPrim (PStr "dark") => VStr "dark"
             | _ => VStr "light"
             end)
          (match v with
           | HPrim (PStr "dark") => HLoader.str "dark"
           | _ => HLoader.str "light"
           end) X.
Proof.
  destruct t as [p|ts|fts]; simpl.
  - intros ->. destruct p; try done. repeat case_match; done.
  - by intros (l & es & -> & _).
  - by intros (l & fs & -> & _).
Qed.

Lemma set_on_array h l es k x :
  h !! l = Some (OArr es) →
  Heap.set (HRef l) k x h
  = (h, Throw (Error ("named property on an array: " +:+ k))).
Proof.
  intros Hl. simpl. by rewrite (bind_ok _ _ _ _ _ (load_ok _ _ _ Hl)).
Qed.

Lemma get_on_array h l es k :
  h !! l = Some (OArr es) →
  Heap.get (HRef l) k h
  = (h, Ok (if String.eqb k "at" then HPrim (PFun "at") else undef)).
Proof.
  intros Hl. simpl. by rewrite (bind_ok _ _ _ _ _ (load_ok _ _ _ Hl)).
Qed.

Lemma tree_denotes_off h t v X :
  tree_in h t v X → denotes_off ∅ h t v.
Proof.
  intros Ht. eapply denotes_sub; [|by apply tree_denotes].
  intros l Hl. apply elem_of_difference. split; [|set_solver].
  apply elem_of_dom. by eapply tree_in_valid.
Qed.

Lemma loader_normalizeManifest_tree host url h t v X :
  tree_in h t v X →
  match Loader.normalizeManifest host t url with
  | Ok t' => ∃ h' v', HLoader.normalizeManifest host v url h = (h', Ok v')
               ∧ denotes_off ∅ h' t' v'
  | Throw e => ∃ h', HLoader.normalizeManifest host v url h = (h', Throw e)
  end.
Proof.
  intros Ht. unfold Loader.normalizeManifest, HLoader.normalizeManifest.
  destruct (Loader.URL_href host "." url) as [base|err]; tstep;
    [hstep (lift_ok (Ok base) h)|hthrow (lift_ok (@Throw string err) h)].
  pose proof (structuredClone_tree h t v X Ht) as Hc.
  rewrite structuredClone_tree_eq. destruct (cloneable t); tstep;
    [|destruct Hc as (h' & Hc); hthrow Hc].
  destruct Hc as (k & m & Xm & Hc & Hm). hstep Hc.
  apply tree_denotes_off in Hm.
  clear Hc Ht. generalize dependent (h ++ k). clear h k v X Xm.
  intros h Hm.
  destruct t as [p|ts|fts].
  - unfold denotes_off in Hm. simpl in Hm. subst m.
    destruct p; simpl; by eexists.
  - destruct Hm as (l & es & -> & _ & Hl & _).
    change (Js.get (VArr ts) "scenes") with (@Ok val VUndef). tstep.
    change (Js.is_array VUndef) with false. cbv iota.
    change (Js.set (VArr ts) "scenes" (VArr []))
      with (@Throw val (Error ("named property on an array: " +:+ "scenes"))).
    tstep.
    hstep (get_on_array _ _ _ "scenes" Hl).
    change (String.eqb "scenes" "at") with false. cbv iota.
    assert (Hno : isArray undef h = (h, Ok None)) by done.
    hstep Hno.
    assert (Hl' : (h ++ [OArr []]) !! l = Some (OArr es)).
    { rewrite lookup_app_l; [done|]. by eapply lookup_lt_Some. }
    assert (Hset : (l0 ← alloc (OArr []); set (HRef l) "scenes" (HRef l0)) h
                   = (h ++ [OArr []],
                      Throw (Error ("named property on an array: " +:+ "scenes")))).
    { rewrite alloc_bind. by apply set_on_array with es. }
    hthrow Hset.
  - assert (Hb : building ∅ [] h fts (match m with HRef l => l | _ => 0%nat end)).
    { destruct Hm as (l & fs & -> & Hm). split_and!.
      - split; [simpl; lia|]. intros l' Hl'. simpl in Hl'. lia.
      - simpl. lia.
      - set_solver.
      - by exists l, fs. }
    assert (Hmv : ∃ lm, m = HRef lm) by
      (destruct Hm as (l & fs & -> & _); by eexists).
    destruct Hmv as (lm & ->). clear Hm.
    set (B := (∅ ∪ {[ lm ]} : gset nat)).
    tstep.
    destruct (building_get _ _ _ _ _ "scenes" Hb) as (sc & Hg & Hsc). hstep Hg.
    destruct (ensure_array _ _ _ _ _ "scenes" _ _ Hb Hsc)
      as (sa & h2 & fts2 & Ha & Hens & Htree & Hb2).
    hstep Ha. hstep Hens. rewrite set_VObj in Htree. rewrite Htree. tstep.
    clear Hg Hsc Ha Hens Htree Hb sc sa fts h.
    destruct (building_get _ _ _ _ _ "scenes" Hb2) as (sc & Hg & Hsc). hstep Hg.
    assert (Hsa : ∃ sa, isArray sc h2 = (h2, Ok sa)
                    ∧ all2 (denotes_off B h2)
                        (default [] (Js.isArray
                           (default VUndef (Js.field_get "scenes" fts2))))
                        (default [] sa)).
    { pose proof (isArray_denotes _ _ _ _ Hsc) as Ha.
      destruct (Js.isArray _) as [ss|].
      - destruct Ha as (es & Ha & Hall). by exists (Some es).
      - by exists None. }
    destruct Hsa as (sa & Ha & Hss). hstep Ha. clear Hg Hsc Ha.
    generalize dependent
      (default [] (Js.isArray (default VUndef (Js.field_get "scenes" fts2)))).
    intros ss Hss.
    assert (HB : ∀ l, l ∈ B → (l < length h2)%nat).
    { intros l Hl. assert (l = lm) as -> by set_solver.
      by eapply building_lt. }
    pose proof (mapScenes_denotes host base B ss (default [] sa) h2 0%nat
                  Hss HB) as Hmap.
    destruct (Loader.normalizeScenes host base 0 ss) as [ss'|err]; tstep;
      [|destruct Hmap as (h' & Hmap); hthrow Hmap].
    destruct Hmap as (h3 & vs & Hmap & Hk3 & Hss'). hstep Hmap.
    apply (building_keeps _ _ _ h3) in Hb2; [|done].
    clear Hmap Hss HB Hk3 ss sa h2.
    rewrite alloc_bind.
    assert (Harr : denotes_off B (h3 ++ [OArr vs]) (VArr ss') (HRef (length h3)))
      by (apply new_array; [by eapply building_fresh|exact Hss']).
    assert (Hss4 : all2 (denotes_off B (h3 ++ [OArr vs])) ss' vs).
    { eapply all2_impl'; [|exact Hss']. intros t v.
      apply denotes_off_keeps, keeps_alloc. }
    apply (building_alloc _ _ _ _ _ (OArr vs)) in Hb2.
    destruct (building_set _ _ _ _ _ "scenes" _ _ Hb2 Harr)
      as (h5 & Hset5 & Hb5 & Hpres5).
    hstep Hset5.
    destruct (building_get _ _ _ _ _ "theme" Hb5) as (th & Hg5 & Hth).
    hstep Hg5. pose proof (theme_denotes _ _ _ _ Hth) as Hth'.
    destruct (building_set _ _ _ _ _ "theme" _ _ Hb5 Hth')
      as (h6 & Hset6 & Hb6 & Hpres6).
    hstep Hset6.
    destruct (building_get _ _ _ _ _ "duration" Hb6) as (du & Hg6 & Hdu).
    hstep Hg6. hstep (read_denotes _ _ _ _ Hdu).
    match goal with
    | |- context [Num.truthy ?x] => generalize x
    end.
    intros hint.
    assert (Htot : (if Num.truthy hint then mret hint
                    else HLoader.sumDurations Num.zero vs) h6
                   = (h6, Ok (if Num.truthy hint then hint
                              else Loader.sumDurations ss'))).
    { destruct (Num.truthy hint); [done|].
      apply (sumDurations_denotes B).
      eapply all2_impl'; [|exact Hss4]. intros t v Hd.
      by apply Hpres6, Hpres5. }
    hstep Htot.
    destruct (building_set _ _ _ _ _ "duration"
                (VNum (if Num.truthy hint then hint else Loader.sumDurations ss'))
                (HPrim (PNum (if Num.truthy hint then hint
                              else Loader.sumDurations ss')))
                Hb6 eq_refl)
      as (h7 & Hset7 & Hb7 & _).
    hstep Hset7. exists h7, (HRef lm). split; [done|].
    by destruct Hb7 as (_ & _ & _ & Hd).
Qed.

(** On every manifest that is a tree, the normaliser of the loader on
    trees gives what the one on the store gives: the same manifest, read
    back from the store, or the same error. *)
Theorem loader_normalizer_refines host url t :
  on_tree (λ v, HLoader.normalizeManifest host v url) t
  = Loader.normalizeManifest host t url.
Proof.
  unfold on_tree.
  destruct (build_lays t []) as (k & v & X & Hb & Ht & _).
  rewrite (bind_ok _ _ _ _ _ Hb). simpl in *.
  pose proof (loader_normalizeManifest_tree host url k t v X Ht) as Hn.
  destruct (Loader.normalizeManifest host t url) as [t'|err].
  - destruct Hn as (h' & v' & Hn & Ht').
    rewrite (bind_ok _ _ _ _ _ Hn). by rewrite (read_denotes _ _ _ _ Ht').
  - destruct Hn as (h' & Hn). by rewrite (bind_throw _ _ _ _ _ Hn).
Qed.

End TreeRefinement.

Section CloneReturns.
Import Heap.

(** ** [structuredClone] returns *)

Lemma copyOf_None mem l : copyOf mem l = None ↔ l ∉ sources mem.
Proof.
  unfold sources. induction mem as [|[src cp] mem IH]; simpl.
  - split; [set_solver|done].
  - destruct (Nat.eqb_spec l src) as [->|Hne].
    + split; [done|]. set_solver.
    + rewrite IH. set_solver.
Qed.

Lemma sources_cons l cp mem : sources ((l, cp) :: mem) = {[ l ]} ∪ sources mem.
Proof. done. Qed.

Lemma cloneAll_returns h0 fuel :
  (∀ v mem h, old (length h0) v → preserves h0 h → enough h0 fuel mem →
              returns h0 mem (clone fuel v mem h)) →
  ∀ vs mem h, Forall (old (length h0)) vs → preserves h0 h →
              enough h0 fuel mem →
              returns h0 mem (cloneAll (clone fuel) vs mem h).
Proof.
  intros Hclone. induction vs as [|v vs IH]; intros mem h Hvs Hh Hmem; simpl.
  - destruct Hmem. by split_and!.
  - apply Forall_cons in Hvs as [Hv Hvs].
    specialize (Hclone v mem h Hv Hh Hmem). unfold mbind, M_bind.
    destruct (clone fuel v mem h) as [h1 [[v1 mem1]|e]]; simpl in *; [|done].
    destruct Hclone as (Hh1 & Hsub1 & Hdom1).
    assert (Hmem1 : enough h0 fuel mem1).
    { split; [done|]. destruct Hmem as [_ Hf].
      pose proof (subseteq_size _ _ Hsub1). lia. }
    specialize (IH mem1 h1 Hvs Hh1 Hmem1).
    destruct (cloneAll (clone fuel) vs mem1 h1) as [h2 [[vs2 mem2]|e]];
      simpl in *; [|done].
    destruct IH as (Hh2 & Hsub2 & Hdom2). split_and!; [done|set_solver|done].
Qed.

Lemma preserves_alloc h0 h (o : obj) : preserves h0 h → preserves h0 (h ++ [o]).
Proof.
  intros Hh l Hl. rewrite lookup_app_l; [by apply Hh|].
  apply lookup_lt_is_Some. rewrite (Hh l Hl). by apply lookup_lt_is_Some.
Qed.

Lemma preserves_length h0 h : preserves h0 h → (length h0 ≤ length h)%nat.
Proof.
  intros Hh. destruct (length h0) as [|n] eqn:E; [lia|].
  assert (is_Some (h !! n)) as Hs.
  { rewrite (Hh n) by lia. apply lookup_lt_is_Some. lia. }
  apply lookup_lt_is_Some in Hs. lia.
Qed.

Lemma preserves_insert h0 h l (o : obj) :
  preserves h0 h → (length h0 ≤ l)%nat → preserves h0 (<[l := o]> h).
Proof.
  intros Hh Hl l' Hl'. rewrite list_lookup_insert_ne by lia. by apply Hh.
Qed.

Lemma clone_returns h0 :
  closed h0 →
  ∀ fuel v mem h, old (length h0) v → preserves h0 h → enough h0 fuel mem →
                  returns h0 mem (clone fuel v mem h).
Proof.
  intros Hclosed. induction fuel as [|fuel IH]; intros v mem h Hv Hh Hmem.
  - destruct v as [p|l]; simpl.
    + destruct Hmem. destruct p; simpl; first [done|by split_and!].
    + destruct (copyOf mem l) as [cp|] eqn:Hc; simpl.
      * destruct Hmem. by split_and!.
      * exfalso. apply copyOf_None in Hc. destruct Hmem as [Hsub Hf].
        simpl in Hv, Hf.
        assert (size (sources mem) < size (dom (length h0)))%nat.
        { apply subset_size. split; [done|]. intros Hall. apply Hc, Hall.
          by apply elem_of_dom. }
        unfold dom in *. rewrite size_set_seq in *. lia.
  - destruct v as [p|l]; simpl.
    + destruct Hmem. destruct p; simpl; first [done|by split_and!].
    + destruct (copyOf mem l) as [cp|] eqn:Hc; simpl.
      { destruct Hmem. by split_and!. }
      apply copyOf_None in Hc. simpl in Hv.
      destruct (lookup_lt_is_Some_2 h0 l Hv) as [o Ho].
      assert (Hl : h !! l = Some o) by (by rewrite Hh).
      rewrite (bind_ok _ _ _ _ _ (load_ok _ _ _ Hl)).
      assert (Hkids : Forall (old (length h0)) (children o)).
      { unfold closed in Hclosed. by eapply Forall_lookup_1 in Hclosed. }
      assert (Hmem' : enough h0 fuel ((l, length h) :: mem)).
      { destruct Hmem as [Hsub Hf]. split.
        - rewrite sources_cons. apply union_subseteq. split; [|done].
          apply singleton_subseteq_l. by apply elem_of_dom.
        - rewrite sources_cons, size_union, size_singleton by set_solver. lia. }
      pose proof (preserves_length _ _ Hh) as Hlen.
      destruct o as [es|fs]; rewrite alloc_bind.
      * pose proof (cloneAll_returns h0 fuel IH es _ (h ++ [OArr []]) Hkids
                      (preserves_alloc _ _ _ Hh) Hmem') as Hall.
        unfold mbind at 1, M_bind at 1.
        destruct (cloneAll _ es _ _) as [h2 [[es2 mem2]|e]]; simpl in *;
          [|done].
        destruct Hall as (Hh2 & Hsub2 & Hdom2).
        split_and!; [by apply preserves_insert| |done].
        rewrite sources_cons in Hsub2. set_solver.
      * pose proof (cloneAll_returns h0 fuel IH fs.*2 _ (h ++ [OObj []]) Hkids
                      (preserves_alloc _ _ _ Hh) Hmem') as Hall.
        unfold mbind at 1, M_bind at 1.
        destruct (cloneAll _ fs.*2 _ _) as [h2 [[es2 mem2]|e]]; simpl in *;
          [|done].
        destruct Hall as (Hh2 & Hsub2 & Hdom2).
        split_and!; [by apply preserves_insert| |done].
        rewrite sources_cons in Hsub2. set_solver.
Qed.

(** On a store without dangling references, whatever its objects share
    and whatever cycles they form, [structuredClone] returns a value or
    throws for a function it met: the fuel of the model, one unit per
    object of the store, never runs out. *)
Theorem structuredClone_returns h v :
  closed h → old (length h) v →
  match (structuredClone v h).2 with
  | Ok _ => True
  | Throw e => e = DataCloneError
  end.
Proof.
  intros Hclosed Hv. unfold structuredClone.
  assert (Hmem : enough h (length h) []).
  { split; [set_solver|]. change (sources []) with (∅ : gset nat). lia. }
  pose proof (clone_returns h Hclosed (length h) v [] h Hv
                ltac:(by intros ??) Hmem) as Hr.
  unfold mbind, M_bind.
  destruct (clone (length h) v [] h) as [h' [[v' mem']|e]]; simpl in *; done.
Qed.

End CloneReturns.

(** ** The errors of the normalisers *)

Lemma core_normalizeScene_errors cursor i s e :
  Core.normalizeScene cursor i s = Throw e → core_error e.
Proof.
  unfold Core.normalizeScene, core_error.
  destruct s as [p|ts|fts].
  - destruct p; simpl; intros [= <-]; eauto 10.
  - simpl. destruct (String.eqb "d" "at"); simpl; intros [= <-]; eauto 10.
  - simpl. destruct (Js.is_number _) as [d|]; [|intros [= <-]; eauto 10].
    destruct (Num.leb d Num.zero); [intros [= <-]; eauto 10|].
    by destruct (Js.is_number _).
Qed.

Lemma core_normalizeScenes_errors ss : ∀ cursor i e,
  Core.normalizeScenes cursor i ss = Throw e → core_error e.
Proof.
  induction ss as [|s ss IH]; intros cursor i e; simpl; [done|].
  destruct (Core.normalizeScene cursor i s) as [[s' c']|e1] eqn:Hs; simpl.
  - destruct (Core.normalizeScenes c' (S i) ss) as [ss'|e2] eqn:Hss; simpl;
      [done|]. intros [= <-]. by eapply IH.
  - intros [= <-]. by eapply core_normalizeScene_errors.
Qed.

Lemma core_normalizeManifest_errors m e :
  Core.normalizeManifest m = Throw e → core_error e.
Proof.
  unfold Core.normalizeManifest. rewrite structuredClone_tree_eq.
  destruct (cloneable m); simpl; [|intros [= <-]; left; done].
  destruct m as [p|ts|fts].
  - destruct p; simpl; intros [= <-]; unfold core_error; eauto 10.
  - simpl. intros [= <-]. unfold core_error; eauto 10.
  - simpl. destruct (Js.isArray _) as [ss|]; [|intros [= <-]; unfold core_error; eauto 10].
    destruct (Core.normalizeScenes Num.zero 0 ss) as [ss'|e1] eqn:Hss; simpl;
      [done|]. intros [= <-]. by eapply core_normalizeScenes_errors.
Qed.

Lemma get_truthy v k : Js.truthy v = true → ∃ x, Js.get v k = Ok x.
Proof.
  destruct v as [p|ts|fts]; simpl; [|by eexists..].
  destruct p; simpl; try done; by eexists.
Qed.

Lemma or_truthy a fs : Js.truthy (Js.or a (VObj fs)) = true.
Proof. unfold Js.or. by destruct (Js.truthy a) eqn:E. Qed.





(** * Further properties *)

(** ** The constructor: what it throws *)

(** X12. The constructor, as far as the manifest goes, throws the error of its
    guard or one of the errors of [#normalizeManifest], and nothing
    else. *)
Theorem constructor_errors m e :
  Core.new m = Throw e →
  e = Error "ZdkCore: 'manifest.scenes' is required" ∨ core_error e.
Proof.
  intros H. destruct (new_fails_in_guard_or_normaliser m e H) as [Hg|Hn].
  - left. unfold Core.checkManifest in Hg.
    destruct (Js.truthy m); [|by injection Hg].
    destruct (Js.isArray _); [done|by injection Hg].
  - right. by eapply core_normalizeManifest_errors.
Qed.

Lemma constructor_errors_witness :
  Error "ZdkCore: 'manifest.scenes' is required"
  = Error "ZdkCore: 'manifest.scenes' is required"
  ∨ core_error (Error "ZdkCore: 'manifest.scenes' is required").
Proof. apply (constructor_errors VNull). reflexivity. Defined.

(** ** The pool without a bound to work under *)

Lemma dispatch_blocked p q :
  Loader.concurrency p ≤ Loader.active p → q ≠ [] →
  Loader.queue p = q → Loader.dispatch p q = p.
Proof.
  intros Hc Hq Hp. destruct q as [|u q]; [done|]. simpl.
  destruct (Z.ltb_spec (Loader.active p) (Loader.concurrency p)); [lia|].
  destruct p. simpl in *. by subst.
Qed.

(** X5. With a concurrency of zero or below and at least one URL, no check is
    ever started and the promise of [preloadImages] stays pending,
    whatever the host does next. *)
Theorem preload_stalls_without_concurrency (urls : list string) (c r : Z)
    (es : list (nat * (nat → Loader.attempt))) :
  urls ≠ [] → c ≤ 0 →
  Loader.settles es (Loader.preloadImages urls c r)
  = Loader.preloadImages urls c r
  ∧ Loader.completion (Loader.preloadImages urls c r) = Loader.Pending
  ∧ Loader.started (Loader.preloadImages urls c r) = []
  ∧ Loader.queue (Loader.preloadImages urls c r) = urls.
Proof.
  intros Hu Hc.
  assert (Hp : Loader.preloadImages urls c r
               = {| Loader.concurrency := c; Loader.retry := r;
                    Loader.queue := urls; Loader.active := 0;
                    Loader.resolved := 0; Loader.total := length urls;
                    Loader.completion := Loader.Pending; Loader.resolves := 0;
                    Loader.inflight := []; Loader.started := [];
                    Loader.report := [] |}).
  { unfold Loader.preloadImages, Loader.next. simpl.
    destruct urls as [|u urls]; [done|].
    apply dispatch_blocked; simpl; [lia|done|done]. }
  rewrite Hp. split; [|done].
  induction es as [|[i tries] es IH]; [done|].
  unfold Loader.settles in *. simpl. unfold Loader.settle at 2. simpl.
  exact IH.
Qed.

Lemma preload_stalls_without_concurrency_witness :
  Loader.settles [(0%nat, always)] (Loader.preloadImages ["a"] 0 1)
  = Loader.preloadImages ["a"] 0 1
  ∧ Loader.completion (Loader.preloadImages ["a"] 0 1) = Loader.Pending
  ∧ Loader.started (Loader.preloadImages ["a"] 0 1) = []
  ∧ Loader.queue (Loader.preloadImages ["a"] 0 1) = ["a"].
Proof.
  apply (preload_stalls_without_concurrency ["a"] 0 1 [(0%nat, always)]);
    [done|lia].
Defined.

(** ** Normalising twice *)

Lemma field_set_twice {V} k (v : V) fs :
  Js.field_set k v (Js.field_set k v fs) = Js.field_set k v fs.
Proof.
  induction fs as [|[k' v'] fs IH]; simpl.
  - by rewrite String.eqb_refl.
  - destruct (String.eqb k k') eqn:E; simpl.
    + by rewrite String.eqb_refl.
    + by rewrite E, IH.
Qed.

Lemma field_set_same {V} k (v : V) fs :
  Js.field_get k fs = Some v → Js.field_set k v fs = fs.
Proof.
  induction fs as [|[k' v'] fs IH]; simpl; [done|].
  destruct (String.eqb k k') eqn:E.
  - intros [= ->]. apply String.eqb_eq in E. by subst.
  - intros H. by rewrite IH.
Qed.

Lemma cloneable_field_set k x fs :
  cloneable (VObj fs) = true → cloneable x = true →
  cloneable (VObj (Js.field_set k x fs)) = true.
Proof.
  simpl. intros Hfs Hx. induction fs as [|[k' v'] fs IH]; simpl in *.
  - by rewrite Hx.
  - apply andb_true_iff in Hfs as [Hv Hfs].
    destruct (String.eqb k k'); simpl; [by rewrite Hx|].
    by rewrite Hv, IH.
Qed.

Lemma normalizeScene_again cursor i s s' cursor' :
  Core.normalizeScene cursor i s = Ok (s', cursor') →
  ∀ c2 i2, Core.normalizeScene c2 i2 s' = Ok (s', cursor').
Proof.
  unfold Core.normalizeScene. intros H c2 i2.
  destruct s as [p|ts|fts].
  - by destruct p.
  - done.
  - simpl in H.
    destruct (Js.is_number (default VUndef (Js.field_get "d" fts)))
      as [d|] eqn:Hd; [|done].
    destruct (Num.leb d Num.zero) eqn:Hle; [done|].
    destruct (Js.is_number (default VUndef (Js.field_get "t" fts)))
      as [t|] eqn:Ht.
    + injection H as <- <-. simpl. by rewrite Hd, Hle, Ht.
    + injection H as <- <-. simpl.
      rewrite field_get_set_ne by done. rewrite Hd, Hle.
      by rewrite field_get_set_eq.
Qed.

Lemma normalizeScenes_again ss : ∀ cursor i ss',
  Core.normalizeScenes cursor i ss = Ok ss' →
  ∀ c2 i2, Core.normalizeScenes c2 i2 ss' = Ok ss'.
Proof.
  induction ss as [|s ss IH]; intros cursor i ss'; simpl.
  - by intros [= <-].
  - destruct (Core.normalizeScene cursor i s) as [[s1 c1]|e] eqn:Hs;
      simpl; [|done].
    destruct (Core.normalizeScenes c1 (S i) ss) as [r|e] eqn:Hr; simpl; [|done].
    intros [= <-] c2 i2. simpl.
    rewrite (normalizeScene_again _ _ _ _ _ Hs). simpl.
    by rewrite (IH _ _ _ Hr).
Qed.

Lemma normalizeScene_cloneable cursor i s s' cursor' :
  Core.normalizeScene cursor i s = Ok (s', cursor') →
  cloneable s = true → cloneable s' = true.
Proof.
  unfold Core.normalizeScene.
  destruct (Js.get s "d") as [dv|e]; simpl; [|done].
  destruct (Js.is_number dv) as [d|]; [|done].
  destruct (Num.leb d Num.zero); [done|].
  destruct (Js.get s "t") as [tv|e]; simpl; [|done].
  destruct (Js.is_number tv) as [t|]; [by intros [= <- <-]|].
  destruct s as [p|ts|fts]; simpl; try done.
  intros [= <- <-] Hc. by apply cloneable_field_set.
Qed.

Lemma normalizeScenes_cloneable ss : ∀ cursor i ss',
  Core.normalizeScenes cursor i ss = Ok ss' →
  forallb cloneable ss = true → forallb cloneable ss' = true.
Proof.
  induction ss as [|s ss IH]; intros cursor i ss'; simpl.
  - by intros [= <-].
  - destruct (Core.normalizeScene cursor i s) as [[s1 c1]|e] eqn:Hs;
      simpl; [|done].
    destruct (Core.normalizeScenes c1 (S i) ss) as [r|e] eqn:Hr; simpl; [|done].
    intros [= <-] [H1 H2]%andb_true_iff. simpl.
    rewrite (normalizeScene_cloneable _ _ _ _ _ Hs H1). simpl.
    by eapply IH.
Qed.

(** X13. A manifest that [#normalizeManifest] has returned is returned as it
    is when it is normalised again: every scene carries its start by
    then. So an engine can be built from the manifest of another. *)
Theorem normalizeManifest_idempotent m m' :
  Core.normalizeManifest m = Ok m' → Core.normalizeManifest m' = Ok m'.
Proof.
  unfold Core.normalizeManifest. rewrite !structuredClone_tree_eq.
  destruct (cloneable m) eqn:Hc; simpl; [|done].
  destruct m as [p|ts|fts].
  - by destruct p.
  - done.
  - simpl.
    destruct (Js.field_get "scenes" fts) as [sc|] eqn:Hsc; simpl; [|done].
    destruct sc as [p|ss|o]; simpl; try done.
    destruct (Core.normalizeScenes Num.zero 0 ss) as [ss'|e] eqn:Hn; simpl;
      [|done].
    intros [= <-].
    assert (Hss : forallb cloneable ss = true).
    { change (forallb (λ kv, cloneable kv.2) fts = true) in Hc.
      clear -Hc Hsc. induction fts as [|[k v] fts IH]; [done|].
      cbn [forallb] in Hc. apply andb_true_iff in Hc as [Hv Hc].
      cbn [Js.field_get] in Hsc.
      destruct (String.eqb "scenes" k); [|by apply IH].
      injection Hsc as ->. done. }
    assert (Hc' : cloneable (VObj (Js.field_set "scenes" (VArr ss') fts)) = true).
    { apply cloneable_field_set; [done|]. simpl.
      by eapply normalizeScenes_cloneable. }
    rewrite Hc'. simpl. rewrite field_get_set_eq. simpl.
    rewrite (normalizeScenes_again _ _ _ _ Hn). simpl.
    by rewrite field_set_twice.
Qed.

Lemma normalizeManifest_idempotent_witness :
  Core.normalizeManifest manifest_232_resolved = Ok manifest_232_resolved.
Proof.
  apply (normalizeManifest_idempotent manifest_232). reflexivity.
Defined.


(** ** What the loader hands over *)

Ltac tstep' :=
  repeat (progress rewrite ?get_VObj, ?set_VObj, ?result_bind_ok,
                           ?result_bind_throw).

Lemma clamp_accepted dn :
  negb (Num.truthy dn) || negb (Num.isFinite dn) = false →
  ∀ x, dn = Num.max Loader.tenth x → ∃ q, dn = Fin q ∧ (1 # 10 <= q)%Q.
Proof.
  intros Hok x Hdn. destruct dn as [| |q|]; try done. exists q.
  split; [done|]. unfold Num.max, Loader.tenth in Hdn.
  destruct x as [| |y|]; try done.
  - injection Hdn as ->. apply Qle_refl.
  - simpl in Hdn. destruct (Qle_bool (1 # 10) y) eqn:E.
    + injection Hdn as ->. by apply Qle_bool_iff.
    + injection Hdn as ->. apply Qle_refl.
Qed.

Lemma or_truthy_r a b : Js.truthy b = true → Js.truthy (Js.or a b) = true.
Proof. intros Hb. unfold Js.or. by destruct (Js.truthy a) eqn:E. Qed.

Lemma loader_normalizeScene_output host base i s s' :
  Loader.normalizeScene host base i s = Ok s' → loader_scene s'.
Proof.
  unfold Loader.normalizeScene. tstep'.
  destruct (negb _ || negb _) eqn:Hok; [done|].
  match goal with
  | |- context [Js.get (Js.or ?a (VObj [])) "src"] =>
      destruct (get_truthy (Js.or a (VObj [])) "src" (or_truthy _ _)) as [msrc ->];
      destruct (get_truthy (Js.or a (VObj [])) "credit" (or_truthy _ _)) as [cr ->];
      destruct (get_truthy (Js.or a (VObj [])) "kenburns" (or_truthy _ _)) as [kb ->]
  end.
  tstep'.
  match goal with
  | |- context [(if ?c then Ok EmptyString else ?u) ≫= _] =>
      destruct (if c then Ok EmptyString else u) as [href|e1]; [|done]
  end.
  tstep'.
  set (D := Num.max Loader.tenth _) in *.
  destruct (clamp_accepted D Hok _ eq_refl) as (q & HD & Hq).
  match goal with
  | |- context [if Js.is_array ?x then _ else _] =>
      destruct (Js.is_array x) eqn:Etx
  end; tstep';
    (match goal with
     | |- context [if Js.is_array ?x then _ else _] =>
         destruct (Js.is_array x) eqn:Ecs
     end; tstep'); intros [= <-];
    unfold loader_scene, Js.get_opt; rewrite ?get_VObj;
    repeat (rewrite field_get_set_eq || rewrite field_get_set_ne by done);
    simpl default; rewrite ?get_VObj; simpl default.
  all: repeat (rewrite field_get_set_eq in * || rewrite field_get_set_ne in * by done).
  all: simpl default in *.
  all: split_and!; try done; try (by exists q; rewrite HD);
    try (by eexists); try (by apply or_truthy_r);
    try (apply or_truthy_r, or_truthy_r; done).
Qed.

Lemma loader_normalizeScenes_output host base ss : ∀ i ss',
  Loader.normalizeScenes host base i ss = Ok ss' →
  Forall loader_scene ss' ∧ length ss' = length ss.
Proof.
  induction ss as [|s ss IH]; intros i ss'; simpl.
  - intros [= <-]. by split.
  - destruct (Loader.normalizeScene host base i s) as [s1|e] eqn:Hs;
      simpl; [|done].
    destruct (Loader.normalizeScenes host base (S i) ss) as [r|e] eqn:Hr;
      simpl; [|done].
    intros [= <-]. destruct (IH _ _ Hr) as [Hall Hlen]. split.
    + constructor; [by eapply loader_normalizeScene_output|done].
    + simpl. by rewrite Hlen.
Qed.

(** X3. The manifest that steps 1 and 2 of [loadProject] return: as many
    scenes as it was given, each in the loader's form; a theme that is
    ["dark"] or ["light"]; and for [duration] the hint it was given, when
    that is a number other than zero, or else the sum of the durations. *)
Theorem loadManifest_output host raw url m :
  Loader.loadManifest host raw url = Ok m →
  Forall loader_scene (Core.scenesOf m)
  ∧ length (Core.scenesOf m) = length (Core.scenesOf raw)
  ∧ (Js.get_opt raw "theme" = VStr "dark" ∧ Js.get_opt m "theme" = VStr "dark"
     ∨ Js.get_opt raw "theme" ≠ VStr "dark"
       ∧ Js.get_opt m "theme" = VStr "light")
  ∧ Js.get_opt m "duration"
    = VNum (let hint := Js.ToNumber (Js.get_opt raw "duration") in
            if Num.truthy hint then hint
            else Loader.sumDurations (Core.scenesOf m)).
Proof.
  unfold Loader.loadManifest.
  destruct (negb (Js.truthy raw)) eqn:Htr; simpl; [done|].
  destruct (Js.is_array (Js.get_opt raw "scenes")) eqn:Harr; simpl; [|done].
  unfold Loader.normalizeManifest.
  destruct (Loader.URL_href host "." url) as [base|e1]; [|done].
  rewrite result_bind_ok, structuredClone_tree_eq.
  destruct (cloneable raw); [|done]. rewrite result_bind_ok.
  destruct raw as [p|ts|fts]; [by destruct p|done|].
  unfold Js.get_opt in Harr. rewrite get_VObj in Harr. tstep'.
  rewrite Harr. tstep'.
  destruct (Loader.normalizeScenes host base 0 _) as [ss'|e1] eqn:Hss;
    [|done].
  tstep'. intros [= <-].
  destruct (loader_normalizeScenes_output _ _ _ _ _ Hss) as [Hall Hlen].
  unfold Core.scenesOf, Js.get_opt. rewrite !get_VObj.
  repeat (rewrite field_get_set_eq || rewrite field_get_set_ne by done).
  simpl default. split_and!; try done.
  - destruct (default VUndef (Js.field_get "theme" fts)) as [[]| |];
      try (by right).
    repeat case_match; try (by right); subst; by left.
Qed.

Lemma loadManifest_output_witness :
  ∃ m, Loader.loadManifest Loader.plainHost manifest_232 "manifest.json" = Ok m
       ∧ Forall loader_scene (Core.scenesOf m)
       ∧ length (Core.scenesOf m) = length (Core.scenesOf manifest_232).
Proof.
  eexists. split; [vm_compute; reflexivity|].
  refine (let H := loadManifest_output Loader.plainHost manifest_232
                     "manifest.json" _ _ in conj (proj1 H) (proj1 (proj2 H))).
  vm_compute. reflexivity.
Defined.



(** ** From the loader to the engine *)

Lemma get_cloneable v k x :
  cloneable v = true → String.eqb k "at" = false → Js.get v k = Ok x →
  cloneable x = true.
Proof.
  intros Hc Hk. destruct v as [p|ts|fts]; simpl.
  - destruct p; simpl; try done; try (by intros [= <-]).
    rewrite Hk. by intros [= <-].
  - rewrite Hk. by intros [= <-].
  - intros [= <-]. simpl in Hc.
    induction fts as [|[k' v'] fts IH]; simpl in *; [done|].
    apply andb_true_iff in Hc as [Hv Hc].
    destruct (String.eqb k k'); [done|by apply IH].
Qed.

Lemma field_get_cloneable k fs :
  cloneable (VObj fs) = true →
  cloneable (default VUndef (Js.field_get k fs)) = true.
Proof.
  simpl. induction fs as [|[k' v'] fs IH]; simpl; [done|].
  intros [Hv Hc]%andb_true_iff. destruct (String.eqb k k'); [done|by apply IH].
Qed.

Lemma or_cloneable a b :
  cloneable a = true → cloneable b = true → cloneable (Js.or a b) = true.
Proof. intros Ha Hb. unfold Js.or. by destruct (Js.truthy a). Qed.

Lemma indexed_cloneable l : ∀ i,
  forallb cloneable l = true →
  forallb (λ kv, cloneable kv.2) (Js.indexed i l) = true.
Proof.
  induction l as [|x l IH]; intros i; simpl; [done|].
  intros [Hx Hl]%andb_true_iff. rewrite Hx. simpl. by apply IH.
Qed.

Lemma chars_cloneable s : forallb cloneable (Js.chars s) = true.
Proof. induction s as [|c s IH]; simpl; [done|exact IH]. Qed.

Lemma spread_cloneable s :
  cloneable s = true → cloneable (VObj (Js.spread s)) = true.
Proof.
  destruct s as [p|ts|fts]; simpl; [|by apply indexed_cloneable|done].
  destruct p; simpl; try done. intros _. apply indexed_cloneable, chars_cloneable.
Qed.


Lemma loader_normalizeScene_cloneable host base i s s' :
  Loader.normalizeScene host base i s = Ok s' →
  cloneable s = true → cloneable s' = true.
Proof.
  unfold Loader.normalizeScene. intros H Hs.
  pose proof (spread_cloneable s Hs) as Hsp. revert H.
  generalize dependent (Js.spread s). intros fts Hfts. tstep'.
  destruct (negb _ || negb _) eqn:Hok; [done|].
  set (F1 := Js.field_set "d" _ fts).
  assert (HF1 : cloneable (VObj F1) = true)
    by (by apply cloneable_field_set).
  set (media := Js.or _ (VObj [])).
  assert (Hmedia : cloneable media = true).
  { apply or_cloneable; [|done]. by apply field_get_cloneable. }
  destruct (Js.get media "src") as [msrc|] eqn:Hsrc; [|done]. tstep'.
  match goal with
  | |- context [(if ?c then Ok EmptyString else ?u) ≫= _] =>
      destruct (if c then Ok EmptyString else u) as [href|e1]; [|done]
  end.
  tstep'.
  destruct (Js.get media "credit") as [cr|] eqn:Hcr; [|done]. tstep'.
  destruct (Js.get media "kenburns") as [kb|] eqn:Hkb; [|done]. tstep'.
  pose proof (get_cloneable _ "credit" _ Hmedia eq_refl Hcr) as Hcr'.
  pose proof (get_cloneable _ "kenburns" _ Hmedia eq_refl Hkb) as Hkb'.
  set (F2 := Js.field_set "media" _ F1).
  assert (HF2 : cloneable (VObj F2) = true).
  { apply cloneable_field_set; [done|]. simpl. rewrite Hcr'. simpl.
    by rewrite (or_cloneable kb (VStr "center") Hkb' eq_refl). }
  match goal with
  | |- context [if Js.is_array ?x then Ok ?a else Ok ?b] =>
      assert (∃ F3, (if Js.is_array x then Ok a else Ok b) = Ok (VObj F3)
                    ∧ cloneable (VObj F3) = true) as (F3 & -> & HF3)
  end.
  { destruct (Js.is_array _); eexists; (split; [done|]); [done|].
    by apply cloneable_field_set. }
  tstep'.
  match goal with
  | |- context [if Js.is_array ?x then Ok ?a else Ok ?b] =>
      assert (∃ F4, (if Js.is_array x then Ok a else Ok b) = Ok (VObj F4)
                    ∧ cloneable (VObj F4) = true) as (F4 & -> & HF4)
  end.
  { destruct (Js.is_array _); eexists; (split; [done|]); [done|].
    by apply cloneable_field_set. }
  tstep'. intros [= <-].
  apply cloneable_field_set.
  - apply cloneable_field_set; [done|].
    apply or_cloneable; [by apply field_get_cloneable|done].
  - apply or_cloneable; apply field_get_cloneable;
      (apply cloneable_field_set; [done|]);
      (apply or_cloneable; [by apply field_get_cloneable|done]).
Qed.

Lemma loader_normalizeScenes_cloneable host base ss : ∀ i ss',
  Loader.normalizeScenes host base i ss = Ok ss' →
  forallb cloneable ss = true → forallb cloneable ss' = true.
Proof.
  induction ss as [|s ss IH]; intros i ss'; simpl.
  - by intros [= <-].
  - destruct (Loader.normalizeScene host base i s) as [s1|e] eqn:Hs;
      simpl; [|done].
    destruct (Loader.normalizeScenes host base (S i) ss) as [r|e] eqn:Hr;
      simpl; [|done].
    intros [= <-] [H1 H2]%andb_true_iff. simpl.
    rewrite (loader_normalizeScene_cloneable _ _ _ _ _ Hs H1). simpl.
    by eapply IH.
Qed.

Lemma theme_dark_or_light v :
  let th := match v with
            | VPrim (PStr "dark") => VStr "dark"
            | _ => VStr "light"
            end in
  th = VStr "dark" ∨ th = VStr "light".
Proof.
  destruct v as [[]| |]; try (by right).
  simpl. repeat case_match; try (by right); by left.
Qed.

(** The manifest that the loader returns is an object that
    [structuredClone] accepts, with an array of scenes in the loader's
    form. *)
Lemma loadManifest_shape host raw url m :
  Loader.loadManifest host raw url = Ok m →
  ∃ fs ss, m = VObj fs ∧ cloneable m = true
           ∧ Js.field_get "scenes" fs = Some (VArr ss)
           ∧ Forall loader_scene ss
           ∧ length ss = length (Core.scenesOf raw)
           ∧ (Js.field_get "theme" fs = Some (VStr "dark")
              ∨ Js.field_get "theme" fs = Some (VStr "light")).
Proof.
  unfold Loader.loadManifest.
  destruct (negb (Js.truthy raw)) eqn:Htr; simpl; [done|].
  destruct (Js.is_array (Js.get_opt raw "scenes")) eqn:Harr; simpl; [|done].
  unfold Loader.normalizeManifest.
  destruct (Loader.URL_href host "." url) as [base|e1]; [|done].
  rewrite result_bind_ok, structuredClone_tree_eq.
  destruct (cloneable raw) eqn:Hc; [|done]. rewrite result_bind_ok.
  destruct raw as [p|ts|fts]; [by destruct p|done|].
  unfold Js.get_opt in Harr. rewrite get_VObj in Harr. tstep'.
  rewrite Harr. tstep'.
  destruct (Loader.normalizeScenes host base 0 _) as [ss'|e1] eqn:Hss;
    [|done].
  tstep'. intros [= <-].
  destruct (loader_normalizeScenes_output _ _ _ _ _ Hss) as [Hall Hlen].
  set (th := match default VUndef (Js.field_get "theme" _) with
             | VPrim (PStr "dark") => VStr "dark"
             | _ => VStr "light"
             end).
  assert (Hth : th = VStr "dark" ∨ th = VStr "light")
    by apply theme_dark_or_light.
  match goal with
  | |- context [Js.field_set "duration" (VNum ?n)] => generalize n
  end.
  intros du. eexists _, ss'. split; [reflexivity|]. split_and!.
  - apply cloneable_field_set; [|reflexivity].
    apply cloneable_field_set; [|by destruct Hth as [-> | ->]].
    apply cloneable_field_set; [exact Hc|].
    simpl. eapply loader_normalizeScenes_cloneable; [exact Hss|].
    pose proof (field_get_cloneable "scenes" fts Hc) as H.
    by destruct (default VUndef (Js.field_get "scenes" fts)) as [| |].
  - rewrite !field_get_set_ne by done. apply field_get_set_eq.
  - exact Hall.
  - unfold Core.scenesOf, Js.get_opt. by rewrite get_VObj.
  - rewrite field_get_set_ne by done. rewrite field_get_set_eq.
    destruct Hth as [-> | ->]; by (left + right).
Qed.


Lemma loader_scene_accepted cursor i s :
  loader_scene s →
  ∃ s' cursor' q,
    Core.normalizeScene cursor i s = Ok (s', cursor')
    ∧ duration s = Some (Fin q) ∧ (1 # 10 <= q)%Q.
Proof.
  intros ((q & Hd & Hq) & _).
  destruct s as [p|ts|fts].
  - by destruct p.
  - unfold Js.get_opt in Hd. by simpl in Hd.
  - unfold Js.get_opt in Hd. rewrite get_VObj in Hd.
    unfold Core.normalizeScene. rewrite !get_VObj, Hd, !result_bind_ok.
    simpl Js.is_number at 1. cbv iota beta.
    assert (Num.leb (Fin q) Num.zero = false) as ->.
    { simpl. destruct (Qle_bool q 0) eqn:E; [|done].
      apply Qle_bool_iff in E.
      exfalso. apply (Qle_not_lt _ _ (Qle_trans _ _ _ Hq E)). reflexivity. }
    rewrite result_bind_ok.
    assert (Hdur : duration (VObj fts) = Some (Fin q))
      by (unfold duration, Js.get_opt; by rewrite get_VObj, Hd).
    destruct (Js.is_number _) as [t|].
    + by eexists _, _, q.
    + rewrite set_VObj, result_bind_ok. by eexists _, _, q.
Qed.

Lemma loader_scenes_accepted ss : ∀ cursor i,
  Forall loader_scene ss →
  ∃ ss', Core.normalizeScenes cursor i ss = Ok ss'.
Proof.
  induction ss as [|s ss IH]; intros cursor i Hall; simpl; [by eexists|].
  apply Forall_cons in Hall as [Hs Hall].
  destruct (loader_scene_accepted cursor i s Hs) as (s' & c' & q & -> & _).
  rewrite result_bind_ok.
  destruct (IH c' (S i) Hall) as [r ->]. by eexists.
Qed.

Lemma chained_lasts cursor ss : ∀ ss' sc,
  chained cursor ss ss' → Forall loader_scene ss →
  mapM Core.sceneOf ss' = Some sc →
  Forall lasts_a_tenth sc ∧ length sc = length ss.
Proof.
  revert cursor. induction ss as [|s ss IH]; intros cursor [|s' ss'] sc;
    simpl; try done.
  - intros _ _ [= <-]. by split.
  - intros (d & t' & Hd & Hd' & Ht & _ & Hch) [Hs Hall]%Forall_cons.
    destruct (loader_scene_accepted cursor 0%nat s Hs)
      as (_ & _ & q & _ & Hq & Hle).
    rewrite Hd in Hq. injection Hq as ->.
    destruct (Core.sceneOf s') as [x|] eqn:Hx; simpl; [|done].
    destruct (mapM Core.sceneOf ss') as [r|] eqn:Hr; simpl; [|done].
    intros [= <-]. destruct (IH _ _ _ Hch Hall Hr) as [H1 H2]. split.
    + constructor; [|done]. exists q. split; [|done].
      unfold Core.sceneOf in Hx. unfold startTime in Ht.
      unfold duration in Hd'. rewrite Ht, Hd' in Hx. simpl in Hx.
      by injection Hx as <-.
    + simpl. by rewrite H2.
Qed.

(** X8. A manifest that the loader returns is one that the engine plays:
    whatever the [theme] parameter of the page, the theme chosen is
    ["dark"] or ["light"] (the parameter when it is one of the two, or
    else the manifest's), [applyTheme] returns a copy that carries it, and
    the constructor accepts that copy with as many scenes as the manifest
    was fetched with, each lasting a finite time of at least 0.1 s. *)
Theorem loaded_manifest_plays host raw url m themeQ :
  Loader.loadManifest host raw url = Ok m →
  ∃ th m2 st,
    App.chosenTheme themeQ m = Ok (VStr th)
    ∧ (th = "dark" ∨ th = "light")
    ∧ (themeQ = Some "dark" ∨ themeQ = Some "light" → themeQ = Some th)
    ∧ Presets.applyTheme m (VStr th) = Ok m2
    ∧ Js.get_opt m2 "theme" = VStr th
    ∧ Core.new m2 = Ok st
    ∧ length (Core.scenes st) = length (Core.scenesOf raw)
    ∧ Forall lasts_a_tenth (Core.scenes st).
Proof.
  intros Hload.
  destruct (loadManifest_shape _ _ _ _ Hload)
    as (fs & ss & -> & Hc & Hsc & Hall & Hlen & Hth).
  assert (∃ th, App.chosenTheme themeQ (VObj fs) = Ok (VStr th)
                ∧ (th = "dark" ∨ th = "light")
                ∧ (themeQ = Some "dark" ∨ themeQ = Some "light" →
                   themeQ = Some th)) as (th & Hch & Hdl & Hq).
  { unfold App.chosenTheme. rewrite get_VObj.
    destruct themeQ as [q|].
    - destruct (String.eqb q "dark") eqn:E1.
      { apply String.eqb_eq in E1 as ->. exists "dark". split_and!; auto. }
      destruct (String.eqb q "light") eqn:E2.
      { apply String.eqb_eq in E2 as ->. exists "light". split_and!; auto. }
      apply String.eqb_neq in E1, E2.
      destruct Hth as [-> | ->]; eexists; (split_and!; [done|auto|]);
        intros [[=]|[=]]; congruence.
    - destruct Hth as [-> | ->]; eexists; (split_and!; [done|auto|]);
        by intros [|]. }
  set (m2 := VObj (Js.field_set "theme" (VStr th) fs)).
  assert (Hc2 : cloneable m2 = true) by (by apply cloneable_field_set).
  assert (Hm2 : Presets.applyTheme (VObj fs) (VStr th) = Ok m2).
  { unfold Presets.applyTheme, Presets.clone.
    by rewrite structuredClone_tree_eq, Hc. }
  assert (Hsc2 : Js.field_get "scenes" (Js.field_set "theme" (VStr th) fs)
                 = Some (VArr ss)) by (by rewrite field_get_set_ne).
  destruct (loader_scenes_accepted ss Num.zero 0%nat Hall) as [ss' Hss'].
  assert (Hn : ∃ m', Core.normalizeManifest m2 = Ok m').
  { unfold Core.normalizeManifest. rewrite structuredClone_tree_eq, Hc2.
    unfold m2. rewrite result_bind_ok, get_VObj, Hsc2. simpl.
    rewrite Hss'. by eexists. }
  destruct Hn as [m' Hn].
  pose proof (normalizeManifest_chained _ _ Hn) as Hchain.
  assert (Hof : Core.scenesOf m2 = ss).
  { unfold Core.scenesOf, Js.get_opt, m2. by rewrite get_VObj, Hsc2. }
  rewrite Hof in Hchain.
  destruct (chained_schedule _ _ _ Hchain) as [sc Hsched].
  destruct (chained_lasts _ _ _ _ Hchain Hall Hsched) as [Hl Hlen'].
  eexists th, m2, _. split_and!; try done.
  - unfold Js.get_opt, m2. by rewrite get_VObj, field_get_set_eq.
  - unfold Core.new, Core.checkManifest.
    replace (Js.isArray (Js.get_opt m2 "scenes")) with (Some ss)
      by (unfold Js.get_opt, m2; by rewrite get_VObj, Hsc2).
    simpl. rewrite Hn. simpl. unfold Core.scheduleOf. rewrite Hsched. done.
  - simpl. by rewrite Hlen', Hlen.
  - done.
Qed.

Lemma loaded_manifest_plays_witness :
  ∃ th m2 st,
    App.chosenTheme (Some "dark")
      (VObj [("scenes",
              VArr [VObj [("d", VNum Loader.tenth);
                          ("media", VObj [("src", VStr EmptyString);
                                          ("credit", VUndef);
                                          ("kenburns", VStr "center")]);
                          ("text", VArr []); ("callouts", VArr []);
                          ("transitionIn", VStr "crossfade");
                          ("transitionOut", VStr "crossfade")]]);
             ("theme", VStr "light");
             ("duration", VNum Loader.tenth)]) = Ok (VStr th)
    ∧ (th = "dark" ∨ th = "light")
    ∧ Presets.applyTheme
        (VObj [("scenes",
              VArr [VObj [("d", VNum Loader.tenth);
                          ("media", VObj [("src", VStr EmptyString);
                                          ("credit", VUndef);
                                          ("kenburns", VStr "center")]);
                          ("text", VArr []); ("callouts", VArr []);
                          ("transitionIn", VStr "crossfade");
                          ("transitionOut", VStr "crossfade")]]);
             ("theme", VStr "light");
             ("duration", VNum Loader.tenth)]) (VStr th) = Ok m2
    ∧ Core.new m2 = Ok st
    ∧ Forall lasts_a_tenth (Core.scenes st).
Proof.
  destruct (loaded_manifest_plays Loader.plainHost (manifest_of_duration Num.zero)
              "manifest.json" _ (Some "dark") eq_refl)
    as (th & m2 & st & H1 & H2 & _ & H4 & _ & H6 & _ & H8).
  by exists th, m2, st.
Defined.




(** ** The frame callback *)

Lemma setNode_scenes index n st :
  Core.scenes (Core.setNode index n st) = Core.scenes st.
Proof. unfold Core.setNode. by destruct (Core._sceneNodes st !! index). Qed.

Lemma enterScene_scenes index st :
  Core.scenes (Core.enterScene index st) = Core.scenes st.
Proof.
  unfold Core.enterScene. destruct (Core.nodeOf st index); [|done].
  destruct (at_index (Core.scenes st) index); [|done].
  by rewrite setNode_scenes.
Qed.

Lemma flush_scenes st : Core.scenes (Core.flush st) = Core.scenes st.
Proof.
  unfold Core.flush.
  assert (H : ∀ l acc, Core.scenes (foldl (λ acc i, Core.enterScene i acc) acc l)
                       = Core.scenes acc).
  { induction l as [|i l IH]; intros acc; simpl; [done|].
    by rewrite IH, enterScene_scenes. }
  by rewrite H.
Qed.

Lemma exitScene_scenes index st :
  Core.scenes (Core.exitScene index st) = Core.scenes st.
Proof.
  unfold Core.exitScene.
  destruct (Core._sceneNodes st !! index) as [id|]; [|done].
  destruct (at_index (Core.scenes st) index); [|done].
  destruct (Core.nodes st !! id); [|done]. simpl. by rewrite setNode_scenes.
Qed.

Lemma exitScene_scheduler index st :
  scheduler (Core.exitScene index st) = scheduler st.
Proof.
  unfold Core.exitScene.
  destruct (Core._sceneNodes st !! index) as [id|]; [|done].
  destruct (at_index (Core.scenes st) index); [|done].
  destruct (Core.nodes st !! id); [|done].
  unfold scheduler. simpl.
  pose proof (setNode_scheduler index
    {| Core.attached := Core.attached s0;
       Core.fx := Some (Core.applyTransition
                          (Js.or (Core.transitionOut s) (Core.transitionIn s))
                          false);
       Core.img_src := Core.img_src s0;
       Core.textNodes := Core.textNodes s0;
       Core.calloutNodes := Core.calloutNodes s0 |} st) as H.
  exact H.
Qed.




Lemma tickScene_keeps index now st st' :
  Core.tickScene index now st = Ok st' →
  Core.scenes st' = Core.scenes st ∧ scheduler st' = scheduler st.
Proof.
  unfold Core.tickScene.
  destruct (at_index (Core.scenes st) index); [|done].
  destruct (Core.nodeOf st index) as [node|]; [|by intros [= <-]].
  destruct (foldl _ _ (Core.textNodes node)) as [ft tns].
  destruct (foldl _ _ (Core.calloutNodes node)) as [fc cns].
  intros [= <-]. by rewrite setNode_scenes, setNode_scheduler.
Qed.



Lemma last_at_index {A} (l : list A) :
  at_index l (Z.of_nat (length l) - 1) = last l.
Proof.
  unfold at_index. destruct l as [|x l]; [done|].
  replace (Z.of_nat (length (x :: l)) - 1 <? 0) with false
    by (symmetry; apply Z.ltb_ge; simpl; lia).
  replace (Z.to_nat (Z.of_nat (length (x :: l)) - 1)) with (length l)
    by (simpl; lia).
  rewrite last_lookup. done.
Qed.




(** ** A timeline without an end *)









(** ** Scenes in a row *)

Lemma leb_Fin x y : Num.leb (Fin x) (Fin y) = true ↔ (x <= y)%Q.
Proof. simpl. apply Qle_bool_iff. Qed.

Lemma ltb_Fin x y : Num.ltb (Fin x) (Fin y) = true ↔ (x < y)%Q.
Proof.
  simpl. rewrite negb_true_iff. split.
  - intros H. apply Qnot_le_lt. intros Hle.
    apply Qle_bool_iff in Hle. congruence.
  - intros H. destruct (Qle_bool y x) eqn:E; [|done].
    apply Qle_bool_iff in E. lra.
Qed.

Lemma activeAt_Fin s c q now :
  Core.t s = Fin c → Core.d s = Fin q →
  activeAt s now ↔ ∃ x, now = Fin x ∧ (c <= x)%Q ∧ (x < c + q)%Q.
Proof.
  intros Ht Hd. unfold activeAt. rewrite Ht, Hd. simpl Num.add. split.
  - intros [H1 H2]. destruct now as [| |x|]; try done.
    exists x. split; [done|]. by rewrite <- leb_Fin, <- ltb_Fin.
  - intros (x & -> & H1 & H2). by rewrite leb_Fin, ltb_Fin.
Qed.

Lemma contiguous_endOf ss : ∀ c, contiguous c ss → (c <= endOf c ss)%Q.
Proof.
  induction ss as [|s r IH]; intros c; simpl; [lra|].
  intros (_ & q & -> & Hq & Hr). specialize (IH _ Hr). lra.
Qed.

Lemma contiguous_timelineEnd ss : ∀ c,
  contiguous c ss → ss ≠ [] →
  timelineEnd ss = Some (Fin (endOf c ss)).
Proof.
  induction ss as [|s r IH]; intros c; [done|].
  intros (Ht & q & Hd & Hq & Hr) _. simpl endOf. rewrite Hd.
  destruct r as [|s' r'].
  - unfold timelineEnd. simpl. by rewrite Ht, Hd.
  - rewrite <- (IH _ Hr) by done. done.
Qed.

(** In a contiguous schedule, the scenes that contain a time. *)
Lemma contiguous_active ss : ∀ c i s now,
  contiguous c ss → ss !! i = Some s → activeAt s now →
  ∃ x, now = Fin x ∧ (c <= x)%Q ∧ (x < endOf c ss)%Q.
Proof.
  induction ss as [|s0 r IH]; intros c i s now; [done|].
  intros (Ht & q & Hd & Hq & Hr) Hi Ha. simpl endOf. rewrite Hd.
  pose proof (contiguous_endOf _ _ Hr) as Hge.
  destruct i as [|i]; simpl in Hi.
  - injection Hi as <-.
    apply (activeAt_Fin _ _ _ _ Ht Hd) in Ha as (x & -> & H1 & H2).
    exists x. split; [done|]. split; lra.
  - destruct (IH _ _ _ _ Hr Hi Ha) as (x & -> & H1 & H2).
    exists x. split; [done|]. split; lra.
Qed.

Lemma contiguous_disjoint ss : ∀ c i j s s' now,
  contiguous c ss → ss !! i = Some s → ss !! j = Some s' →
  activeAt s now → activeAt s' now → i = j.
Proof.
  induction ss as [|s0 r IH]; intros c i j s s' now; [done|].
  intros (Ht & q & Hd & Hq & Hr) Hi Hj Ha Ha'.
  destruct i as [|i], j as [|j]; simpl in Hi, Hj.
  - done.
  - injection Hi as <-.
    apply (activeAt_Fin _ _ _ _ Ht Hd) in Ha as (x & -> & H1 & H2).
    destruct (contiguous_active _ _ _ _ _ Hr Hj Ha') as (y & [= <-] & H3 & _).
    lra.
  - injection Hj as <-.
    apply (activeAt_Fin _ _ _ _ Ht Hd) in Ha' as (x & -> & H1 & H2).
    destruct (contiguous_active _ _ _ _ _ Hr Hi Ha) as (y & [= <-] & H3 & _).
    lra.
  - f_equal. by eapply IH.
Qed.

Lemma contiguous_covered ss : ∀ c x,
  contiguous c ss → (c <= x)%Q → (x < endOf c ss)%Q →
  ∃ i s, ss !! i = Some s ∧ activeAt s (Fin x).
Proof.
  induction ss as [|s0 r IH]; intros c x; simpl; [lra|].
  intros (Ht & q & Hd & Hq & Hr). rewrite Hd. intros H1 H2.
  destruct (Qlt_le_dec x (c + q)) as [Hlt|Hge].
  - exists 0%nat, s0. split; [done|].
    apply (activeAt_Fin _ _ _ _ Ht Hd). by exists x.
  - destruct (IH _ _ Hr Hge H2) as (i & s & Hi & Ha). by exists (S i), s.
Qed.

(** A duration that passes the test of the core's normaliser. *)
Lemma normalizeScenes_positive ss : ∀ cursor i ss',
  Core.normalizeScenes cursor i ss = Ok ss' →
  Forall (λ s, ∃ d, duration s = Some d ∧ Num.leb d Num.zero = false) ss.
Proof.
  induction ss as [|s ss IH]; intros cursor i ss'; simpl; [done|].
  destruct (Core.normalizeScene cursor i s) as [[s1 c1]|e] eqn:Hs;
    simpl; [|done].
  destruct (Core.normalizeScenes c1 (S i) ss) as [r|e] eqn:Hr; simpl; [|done].
  intros _. constructor; [|by eapply IH].
  unfold Core.normalizeScene in Hs. unfold duration.
  destruct (Js.get s "d") as [dv|e] eqn:Hd; simpl in Hs; [|done].
  rewrite (get_get_opt _ _ _ Hd).
  destruct (Js.is_number dv) as [d|]; [|done]. exists d. split; [done|].
  by destruct (Num.leb d Num.zero).
Qed.

Lemma chained_contiguous ss : ∀ c ss' sc,
  chained (Fin c) ss ss' →
  Forall implicit_finite ss →
  Forall (λ s, ∃ d, duration s = Some d ∧ Num.leb d Num.zero = false) ss →
  mapM Core.sceneOf ss' = Some sc →
  contiguous c sc.
Proof.
  induction ss as [|s ss IH]; intros c [|s' ss'] sc; simpl; try done.
  - by intros _ _ _ [= <-].
  - intros (d & t' & Hd & Hd' & Ht' & Heq & Hch)
           [[Hnone (q & Hq)] Himp]%Forall_cons
           [(d2 & Hd2 & Hpos) Hposs]%Forall_cons.
    rewrite Hd in Hq, Hd2. injection Hq as ->. injection Hd2 as <-.
    rewrite Hnone in Heq. simpl in Heq. subst t'.
    destruct (Core.sceneOf s') as [x|] eqn:Hx; simpl; [|done].
    destruct (mapM Core.sceneOf ss') as [r|] eqn:Hr; simpl; [|done].
    intros [= <-]. simpl.
    unfold Core.sceneOf in Hx. unfold startTime in Ht'. unfold duration in Hd'.
    rewrite Ht', Hd' in Hx. simpl in Hx. injection Hx as <-. simpl.
    split; [done|]. exists q. split; [done|]. split.
    + simpl in Hpos. destruct (Qle_bool q 0) eqn:E; [done|].
      apply Qnot_le_lt. intros Hle. apply Qle_bool_iff in Hle. congruence.
    + by eapply IH.
Qed.

Lemma new_contiguous m st :
  Core.new m = Ok st → Forall implicit_finite (Core.scenesOf m) →
  contiguous 0 (Core.scenes st).
Proof.
  unfold Core.new.
  destruct (Core.checkManifest m) as [[]|e1]; simpl; [|done].
  destruct (Core.normalizeManifest m) as [m'|e2] eqn:Hn; simpl; [|done].
  destruct (Core.scheduleOf m') as [sc|] eqn:Hsc; [|done].
  intros [= <-] Himp. simpl.
  pose proof (normalizeManifest_chained _ _ Hn) as Hch.
  eapply chained_contiguous; [exact Hch|exact Himp| |exact Hsc].
  revert Hn. unfold Core.normalizeManifest, structuredClone.
  destruct (cloneable m); simpl; [|done].
  destruct (Js.get m "scenes") as [scv|e] eqn:Hg; simpl; [|done].
  destruct (Js.isArray scv) as [ss|] eqn:Harr; [|done].
  destruct (Core.normalizeScenes Num.zero 0 ss) as [ss'|e] eqn:Hns;
    simpl; [|done].
  intros _. unfold Core.scenesOf. rewrite (get_get_opt _ _ _ Hg), Harr. simpl.
  by eapply normalizeScenes_positive.
Qed.

(** X14. When no scene of the manifest names a start time and every duration
    is finite, the scenes tile the timeline from 0 to the end of the last
    one: [#findSceneIndexAt] finds a scene exactly at the times from 0
    (included) to that end (excluded), and no time belongs to two
    scenes. *)
Theorem implicit_starts_tile_timeline m st e :
  Core.new m = Ok st →
  Forall implicit_finite (Core.scenesOf m) →
  timelineEnd (Core.scenes st) = Some e →
  ∀ now,
    (Core.findSceneIndexAt (Core.scenes st) now ≠ -1
     ↔ Num.leb Num.zero now = true ∧ Num.ltb now e = true)
    ∧ (∀ i j s s',
         Core.scenes st !! i = Some s → Core.scenes st !! j = Some s' →
         activeAt s now → activeAt s' now → i = j).
Proof.
  intros Hnew Himp Hend now.
  pose proof (new_contiguous _ _ Hnew Himp) as Hc.
  assert (Hne : Core.scenes st ≠ []).
  { intros H. rewrite H in Hend. done. }
  rewrite (contiguous_timelineEnd _ _ Hc Hne) in Hend. injection Hend as <-.
  split; [|intros i j s s'; by eapply contiguous_disjoint].
  unfold Core.findSceneIndexAt.
  destruct (findFrom_spec (Core.scenes st) now 0)
    as [[H1 H2]|(i & s & H1 & H2 & H3 & _)].
  - rewrite H1. split; [done|]. intros [Ha Hb]. exfalso.
    destruct now as [| |x|]; try done.
    apply leb_Fin in Ha. apply ltb_Fin in Hb.
    destruct (contiguous_covered _ _ _ Hc Ha Hb) as (i & s & Hi & Hact).
    apply inScene_activeAt in Hact. rewrite (H2 _ _ Hi) in Hact. done.
  - rewrite H1. split; [|lia]. intros _.
    apply inScene_activeAt in H3.
    destruct (contiguous_active _ _ _ _ _ Hc H2 H3) as (x & -> & Ha & Hb).
    split; [by apply (leb_Fin 0 x)|by apply ltb_Fin].
Qed.

Lemma implicit_starts_tile_timeline_witness :
  ∃ st, Core.new manifest_232 = Ok st
        ∧ (Core.findSceneIndexAt (Core.scenes st) (Num.ofZ 4) ≠ -1
           ↔ Num.leb Num.zero (Num.ofZ 4) = true
             ∧ Num.ltb (Num.ofZ 4) (Num.ofZ 7) = true).
Proof.
  eexists. split; [vm_compute; reflexivity|].
  refine (proj1 (implicit_starts_tile_timeline manifest_232 _ (Num.ofZ 7)
                   _ _ _ (Num.ofZ 4))).
  - vm_compute. reflexivity.
  - change (Forall implicit_finite
              [scene_of_duration 2; scene_of_duration 3; scene_of_duration 2]).
    repeat constructor; eexists; reflexivity.
  - vm_compute. reflexivity.
Defined.

(** ** Fetching the manifest *)

Lemma fetchJSON_loop_spec url tries fuel : ∀ a last slept,
  let r := Project.fetchJSON_loop url tries a fuel last slept in
  (∃ k v, (k < fuel)%nat
          ∧ (∀ j, (j < k)%nat → fails url tries (a + j))
          ∧ Project.attemptJSON url (tries (a + k)%nat) = Ok v
          ∧ Project.outcome r = Ok v
          ∧ Project.attempts r = S (a + k)
          ∧ Project.sleeps r = slept ++ (backoff <$> seq a k))
  ∨ ((∀ j, (j < fuel)%nat → fails url tries (a + j))
     ∧ Project.attempts r = (a + fuel)%nat
     ∧ Project.sleeps r = slept ++ (backoff <$> seq a fuel)
     ∧ match fuel with
       | O => Project.outcome r
              = Throw (default (Error ("Failed to fetch " +:+ url)) last)
       | S m => Project.outcome r
                = Project.attemptJSON url (tries (a + m)%nat)
       end).
Proof.
  induction fuel as [|fuel IH]; intros a last slept; simpl.
  - right. split; [intros j Hj; lia|]. split; [lia|].
    by rewrite app_nil_r.
  - destruct (Project.attemptJSON url (tries a)) as [v|err] eqn:Ha.
    + left. exists 0%nat, v. rewrite Nat.add_0_r. simpl.
      split; [lia|]. split; [intros j Hj; lia|]. by rewrite app_nil_r.
    + destruct (IH (S a) (Some err) (slept ++ [200 * Z.of_nat a]))
        as [(k & v & Hk & Hf & Hv & Ho & Hat & Hs)|(Hf & Hat & Hs & Ho)].
      * left. exists (S k), v.
        replace (a + S k)%nat with (S a + k)%nat by lia.
        split; [lia|]. split.
        { intros [|j] Hj.
          - rewrite Nat.add_0_r. unfold fails. by rewrite Ha.
          - replace (a + S j)%nat with (S a + j)%nat by lia.
            apply Hf. lia. }
        split; [done|]. split; [done|]. split; [done|].
        rewrite Hs, <- app_assoc. done.
      * right. split.
        { intros [|j] Hj.
          - rewrite Nat.add_0_r. unfold fails. by rewrite Ha.
          - replace (a + S j)%nat with (S a + j)%nat by lia.
            apply Hf. lia. }
        split; [lia|]. split; [by rewrite Hs, <- app_assoc|].
        destruct fuel as [|m].
        -- rewrite Ho. simpl. by rewrite Nat.add_0_r, Ha.
        -- rewrite Ho. f_equal. f_equal. lia.
Qed.

(** X1. [fetchJSON] makes at most [retry + 1] attempts and stops at the
    first that succeeds. After the failed attempt [k] it sleeps
    [200 * k] ms, also after the last one, when nothing is left to wait
    for. When every attempt fails it throws what the last attempt threw;
    with a negative [retry] it makes no attempt and throws
    ["Failed to fetch ..."]. *)
Theorem fetchJSON_backoff url retry tries :
  let r := Project.fetchJSON url retry tries in
  let n := Z.to_nat (retry + 1) in
  (∃ k v, (k < n)%nat
          ∧ (∀ j, (j < k)%nat → fails url tries j)
          ∧ Project.attemptJSON url (tries k) = Ok v
          ∧ Project.outcome r = Ok v
          ∧ Project.attempts r = S k
          ∧ Project.sleeps r = backoff <$> seq 0 k)
  ∨ ((∀ j, (j < n)%nat → fails url tries j)
     ∧ Project.attempts r = n
     ∧ Project.sleeps r = backoff <$> seq 0 n
     ∧ match n with
       | O => Project.outcome r = Throw (Error ("Failed to fetch " +:+ url))
       | S m => Project.outcome r = Project.attemptJSON url (tries m)
       end).
Proof.
  intros r n. subst r. unfold Project.fetchJSON. fold n.
  destruct (fetchJSON_loop_spec url tries n 0%nat None [])
    as [(k & v & H)|H]; [left; by exists k, v|right; exact H].
Qed.

(** ** Decoding an image *)

(** The three states that a call of [decodeImage] can be in. *)
Lemma delivered_states hasDecode es :
  let st := Project.delivered hasDecode es Project.decodeImage in
  st = Project.decodeImage ∨ st = awaitingDecode ∨ ∃ s, st = settledWith s.
Proof.
  induction es as [|e es IH] using rev_ind; [by left|].
  unfold Project.delivered in *. rewrite foldl_app. simpl.
  destruct IH as [-> | [-> | [s ->]]].
  - destruct e as [| | |ok]; simpl.
    + right. right. by eexists.
    + destruct hasDecode; [right; by left|right; right; by eexists].
    + right. right. by eexists.
    + by left.
  - destruct e as [| | |ok]; simpl.
    + right. by left.
    + right. by left.
    + right. by left.
    + right. right. by eexists.
  - destruct e as [| | |ok]; simpl; right; right; by exists s.
Qed.

Lemma delivered_cons hasDecode e es st :
  Project.delivered hasDecode (e :: es) st
  = Project.delivered hasDecode es (Project.deliver hasDecode e st).
Proof. done. Qed.

Lemma delivered_app hasDecode es es' st :
  Project.delivered hasDecode (es ++ es') st
  = Project.delivered hasDecode es' (Project.delivered hasDecode es st).
Proof. unfold Project.delivered. by rewrite foldl_app. Qed.

Lemma delivered_settled hasDecode es s :
  Project.delivered hasDecode es (settledWith s) = settledWith s.
Proof.
  induction es as [|e es IH]; [done|]. rewrite delivered_cons.
  by destruct e as [| | |ok].
Qed.

Lemma delivered_decoding es :
  Forall undecoded es →
  Project.delivered true es awaitingDecode = awaitingDecode.
Proof.
  induction es as [|e es IH]; [done|].
  intros [He Hes]%Forall_cons. rewrite delivered_cons.
  destruct e as [| | |ok]; try done; by apply IH.
Qed.

(** X6. Whatever the host delivers and in whatever order, [decodeImage]
    calls [res] or [rej] at most once, and the promise is settled exactly
    when it has. The first of timer, [load] and [error] decides: the
    timer rejects with ["decode timeout"], [error] with ["image error"],
    and [load] resolves when [img.decode] does not exist. When it exists,
    the promise resolves when [decode()] settles, as it may; the timer
    was cleared at [load], so until then the promise stays pending
    whatever else arrives. *)
Theorem decodeImage_settles_once :
  (∀ hasDecode es,
     let st := Project.delivered hasDecode es Project.decodeImage in
     (Project.calls st ≤ 1)%nat
     ∧ (is_Some (Project.promise st) ↔ Project.calls st = 1%nat))
  ∧ (∀ hasDecode es,
       Project.promise
         (Project.delivered hasDecode (Project.TimerFires :: es)
                            Project.decodeImage)
       = Some (Project.Failed "decode timeout"))
  ∧ (∀ hasDecode es,
       Project.promise
         (Project.delivered hasDecode (Project.ImgError :: es)
                            Project.decodeImage)
       = Some (Project.Failed "image error"))
  ∧ (∀ es,
       Project.promise
         (Project.delivered false (Project.ImgLoad :: es)
                            Project.decodeImage)
       = Some Project.Decoded)
  ∧ (∀ es, Forall undecoded es →
       Project.promise
         (Project.delivered true (Project.ImgLoad :: es)
                            Project.decodeImage)
       = None)
  ∧ (∀ es ok es', Forall undecoded es →
       Project.promise
         (Project.delivered true
            (Project.ImgLoad :: es ++ Project.DecodeSettles ok :: es')
            Project.decodeImage)
       = Some Project.Decoded).
Proof.
  split_and!.
  - intros hasDecode es st. subst st.
    destruct (delivered_states hasDecode es) as [-> | [-> | [s ->]]]; simpl.
    + split; [lia|]. split; [by intros [? ?]|lia].
    + split; [lia|]. split; [by intros [? ?]|lia].
    + split; [lia|]. split; [done|by eexists].
  - intros hasDecode es. rewrite delivered_cons.
    change (Project.deliver hasDecode Project.TimerFires Project.decodeImage)
      with (settledWith (Project.Failed "decode timeout")).
    by rewrite delivered_settled.
  - intros hasDecode es. rewrite delivered_cons.
    change (Project.deliver hasDecode Project.ImgError Project.decodeImage)
      with (settledWith (Project.Failed "image error")).
    by rewrite delivered_settled.
  - intros es. rewrite delivered_cons.
    change (Project.deliver false Project.ImgLoad Project.decodeImage)
      with (settledWith Project.Decoded).
    by rewrite delivered_settled.
  - intros es Hes. rewrite delivered_cons.
    change (Project.deliver true Project.ImgLoad Project.decodeImage)
      with awaitingDecode.
    by rewrite delivered_decoding.
  - intros es ok es' Hes. rewrite delivered_cons, delivered_app.
    change (Project.deliver true Project.ImgLoad Project.decodeImage)
      with awaitingDecode.
    rewrite delivered_decoding by done. rewrite delivered_cons.
    change (Project.deliver true (Project.DecodeSettles ok) awaitingDecode)
      with (settledWith Project.Decoded).
    by rewrite delivered_settled.
Qed.

(** ** Escaping the error message *)

Lemma occurs_app c a b : occurs c (a +:+ b) = occurs c a || occurs c b.
Proof.
  induction a as [|x a IH]; simpl; [done|]. by rewrite IH, orb_assoc.
Qed.

(** What [escapeChar] returns: one of the five entities, or the
    character itself when it is none of the five. *)
Lemma escapeChar_cases c :
  (c = "&"%char ∧ Project.escapeChar c = "&amp;")
  ∨ (c = "<"%char ∧ Project.escapeChar c = "&lt;")
  ∨ (c = ">"%char ∧ Project.escapeChar c = "&gt;")
  ∨ (c = "034"%char ∧ Project.escapeChar c = "&quot;")
  ∨ (c = "'"%char ∧ Project.escapeChar c = "&#39;")
  ∨ (c ≠ "&"%char ∧ c ≠ "<"%char ∧ c ≠ ">"%char ∧ c ≠ "034"%char
     ∧ c ≠ "'"%char ∧ Project.escapeChar c = String c EmptyString).
Proof.
  unfold Project.escapeChar.
  destruct (Ascii.eqb_spec c "&"); [by left|].
  destruct (Ascii.eqb_spec c "<"); [right; by left|].
  destruct (Ascii.eqb_spec c ">"); [right; right; by left|].
  destruct (Ascii.eqb_spec c "034"); [right; right; right; by left|].
  destruct (Ascii.eqb_spec c "'"); [right; right; right; right; by left|].
  by repeat right.
Qed.

Lemma escapeChar_no_markup c x :
  markup x → occurs x (Project.escapeChar c) = false.
Proof.
  intros Hx.
  destruct (escapeChar_cases c)
    as [[-> ->]|[[-> ->]|[[-> ->]|[[-> ->]|[[-> ->]|H]]]]];
    try (by destruct Hx as [-> | [-> | [-> | ->]]]).
  destruct H as (H1 & H2 & H3 & H4 & H5 & ->). simpl.
  rewrite orb_false_r. apply Ascii.eqb_neq.
  destruct Hx as [-> | [-> | [-> | ->]]]; congruence.
Qed.

Lemma escapeHTML_no_markup s x :
  markup x → occurs x (Project.escapeHTML s) = false.
Proof.
  intros Hx. induction s as [|c s IH]; simpl; [done|].
  by rewrite occurs_app, IH, escapeChar_no_markup.
Qed.

Lemma escapeHTML_app a b :
  Project.escapeHTML (a +:+ b)
  = Project.escapeHTML a +:+ Project.escapeHTML b.
Proof.
  induction a as [|c a IH]; simpl; [done|].
  rewrite IH. generalize (Project.escapeChar c) (Project.escapeHTML a)
    (Project.escapeHTML b). intros e x y.
  induction e as [|z e IHe]; [done|].
  change (String z (e +:+ x +:+ y) = String z ((e +:+ x) +:+ y)).
  by f_equal.
Qed.

Lemma escapeHTML_inj s : ∀ s',
  Project.escapeHTML s = Project.escapeHTML s' → s = s'.
Proof.
  induction s as [|c s IH]; intros [|c' s']; simpl.
  - done.
  - destruct (escapeChar_cases c')
      as [[-> ->]|[[-> ->]|[[-> ->]|[[-> ->]|[[-> ->]|H]]]]];
      try discriminate.
    destruct H as (_ & _ & _ & _ & _ & ->). discriminate.
  - destruct (escapeChar_cases c)
      as [[-> ->]|[[-> ->]|[[-> ->]|[[-> ->]|[[-> ->]|H]]]]];
      try discriminate.
    destruct H as (_ & _ & _ & _ & _ & ->). discriminate.
  - destruct (escapeChar_cases c)
      as [[-> ->]|[[-> ->]|[[-> ->]|[[-> ->]|[[-> ->]|H]]]]];
      destruct (escapeChar_cases c')
        as [[-> ->]|[[-> ->]|[[-> ->]|[[-> ->]|[[-> ->]|H']]]]];
      simpl; try discriminate;
      try (intros [= Heq]; f_equal; by apply IH);
      try (destruct H' as (H1 & H2 & H3 & H4 & H5 & ->); simpl;
           intros [= Hc Heq]; congruence);
      try (destruct H as (H1 & H2 & H3 & H4 & H5 & ->); simpl;
           intros [= Hc Heq]; congruence).
    destruct H as (H1 & H2 & H3 & H4 & H5 & ->).
    destruct H' as (H1' & H2' & H3' & H4' & H5' & ->). simpl.
    intros [= -> Heq]. f_equal. by apply IH.
Qed.

(** X7. What [escapeHTML] returns holds none of the characters that could
    open a tag or close an attribute value, so the text of the error
    overlay is never read as markup, whatever the message. The escaping
    loses nothing: two messages that escape to the same text are the same
    message, and escaping runs through a concatenation. *)
Theorem escapeHTML_leaves_no_markup :
  (∀ s x, markup x → occurs x (Project.escapeHTML s) = false)
  ∧ (∀ numberToString message x,
       markup x →
       occurs x (Project.overlayText numberToString message) = false)
  ∧ (∀ s s', Project.escapeHTML s = Project.escapeHTML s' → s = s')
  ∧ (∀ a b, Project.escapeHTML (a +:+ b)
            = Project.escapeHTML a +:+ Project.escapeHTML b).
Proof.
  split_and!.
  - intros s x. apply escapeHTML_no_markup.
  - intros f message x. unfold Project.overlayText.
    apply escapeHTML_no_markup.
  - intros s s'. apply escapeHTML_inj.
  - apply escapeHTML_app.
Qed.

(** ** The images to preload *)

Lemma existsb_sameValueZero src (l : list string) :
  existsb (Project.sameValueZero (VStr src)) (VStr <$> l)
  = bool_decide (src ∈ l).
Proof.
  induction l as [|x l IH]; [done|].
  rewrite fmap_cons. cbn [existsb]. rewrite IH.
  change (Project.sameValueZero (VStr src) (VStr x)) with (String.eqb src x).
  destruct (String.eqb_spec src x) as [->|Hne].
  - simpl. symmetry. apply bool_decide_eq_true. left.
  - simpl. apply bool_decide_ext. split; [by right|].
    intros [?|?]%elem_of_cons; [done|done].
Qed.

(** One step of the collection, on a set of strings and a scene whose
    [media.src] is a string. *)
Lemma collectStep_string (l : list string) s src :
  Js.get_opt (Js.get_opt s "media") "src" = VStr src →
  Project.collectStep (VStr <$> l) s
  = VStr <$> (if bool_decide (src ≠ EmptyString ∧ src ∉ l)
              then l ++ [src] else l).
Proof.
  intros Hsrc. unfold Project.collectStep. rewrite Hsrc.
  rewrite existsb_sameValueZero. simpl Js.truthy.
  destruct (String.eqb_spec src EmptyString) as [->|Hne]; simpl.
  - done.
  - destruct (decide (src ∈ l)) as [Hin|Hnin].
    + rewrite (bool_decide_eq_true_2 _ Hin). simpl.
      rewrite bool_decide_eq_false_2; [done|]. by intros [_ ?].
    + rewrite (bool_decide_eq_false_2 _ Hnin). simpl.
      rewrite bool_decide_eq_true_2 by done.
      by rewrite fmap_app.
Qed.

Lemma collect_strings ss : ∀ l : list string,
  Forall loader_scene ss → NoDup l → EmptyString ∉ l →
  ∃ l' : list string,
    foldl Project.collectStep (VStr <$> l) ss = VStr <$> l'
    ∧ NoDup l' ∧ (EmptyString ∉ l')
    ∧ (length l' ≤ (length l + length ss))%nat
    ∧ ∀ u, u ∈ l' ↔
           u ∈ l
           ∨ (u ≠ EmptyString
              ∧ ∃ s, s ∈ ss
                     ∧ Js.get_opt (Js.get_opt s "media") "src" = VStr u).
Proof.
  induction ss as [|s ss IH]; intros l Hall Hnd Hne; simpl.
  - exists l. split_and!; try done; [lia|].
    intros u. split; [by left|]. intros [?|(_ & s & Hs & _)]; [done|].
    by apply elem_of_nil in Hs.
  - apply Forall_cons in Hall as [Hs Hall].
    destruct Hs as (_ & (src & Hsrc) & _).
    rewrite (collectStep_string l s src Hsrc).
    case_bool_decide as Hadd.
    + destruct Hadd as [Hsne Hnin].
      destruct (IH (l ++ [src])) as (l' & Heq & Hnd' & Hne' & Hlen & Hmem).
      * done.
      * apply NoDup_app. split_and!; [done| |apply NoDup_singleton].
        intros x Hx Hx'. apply list_elem_of_singleton in Hx'. by subst.
      * rewrite elem_of_app, list_elem_of_singleton. intros [?|?]; [done|].
        by apply Hsne.
      * exists l'. split_and!; try done.
        { rewrite length_app in Hlen. simpl in Hlen. lia. }
        intros u. rewrite Hmem, elem_of_app, list_elem_of_singleton. split.
        -- intros [[? | ->] | (Hu & s' & Hs' & Hsrc')].
           ++ by left.
           ++ right. split; [done|]. exists s. split; [left|done].
           ++ right. split; [done|]. exists s'. split; [by right|done].
        -- intros [?|(Hu & s' & Hs' & Hsrc')]; [left; by left|].
           apply elem_of_cons in Hs' as [->|Hs'].
           ++ left. right. rewrite Hsrc in Hsrc'. by injection Hsrc' as ->.
           ++ right. split; [done|]. by exists s'.
    + destruct (IH l Hall Hnd Hne) as (l' & Heq & Hnd' & Hne' & Hlen & Hmem).
      exists l'. split_and!; try done; [lia|].
      intros u. rewrite Hmem. split.
      * intros [?|(Hu & s' & Hs' & Hsrc')]; [by left|].
        right. split; [done|]. exists s'. split; [by right|done].
      * intros [?|(Hu & s' & Hs' & Hsrc')]; [by left|].
        apply elem_of_cons in Hs' as [->|Hs'].
        -- left. rewrite Hsrc in Hsrc'. injection Hsrc' as ->.
           destruct (decide (u ∈ l)) as [?|Hnin]; [done|].
           exfalso. apply Hadd. by split.
        -- right. split; [done|]. by exists s'.
Qed.

(** X4. From the manifest that the loader returns, [collectMediaURLs] gives
    the list that is preloaded: every image address that some scene
    names, each once however many scenes use it, none of them empty, and
    so no more addresses than scenes. *)
Theorem collectMediaURLs_of_loaded host raw url m :
  Loader.loadManifest host raw url = Ok m →
  ∃ urls : list string,
    Project.collectMediaURLs m = Ok (VStr <$> urls)
    ∧ NoDup urls
    ∧ (∀ u, u ∈ urls ↔
            u ≠ EmptyString
            ∧ ∃ s, s ∈ Core.scenesOf m
                   ∧ Js.get_opt (Js.get_opt s "media") "src" = VStr u)
    ∧ (length urls ≤ length (Core.scenesOf raw))%nat.
Proof.
  intros Hload.
  destruct (loadManifest_shape _ _ _ _ Hload)
    as (fs & ss & -> & _ & Hsc & Hall & Hlen & _).
  destruct (collect_strings ss [] Hall NoDup_nil_2)
    as (urls & Heq & Hnd & Hne & Hle & Hmem).
  { by intros ?%elem_of_nil. }
  exists urls. unfold Project.collectMediaURLs.
  rewrite get_VObj, Hsc, result_bind_ok.
  change (Js.isArray (Js.or (default VUndef (Some (VArr ss))) (VArr [])))
    with (Some ss).
  cbv iota beta. change (foldl Project.collectStep [] ss)
    with (foldl Project.collectStep (VStr <$> []) ss).
  rewrite Heq. split_and!; [done|done| |simpl in Hle; lia].
  assert (Hof : Core.scenesOf (VObj fs) = ss).
  { unfold Core.scenesOf, Js.get_opt. by rewrite get_VObj, Hsc. }
  rewrite Hof. intros u. rewrite Hmem. split.
  - intros [?%elem_of_nil|?]; done.
  - intros ?. by right.
Qed.

Lemma collectMediaURLs_of_loaded_witness :
  ∃ urls : list string,
    Project.collectMediaURLs
      (VObj [("scenes",
              VArr [VObj [("d", VNum Loader.tenth);
                          ("media", VObj [("src", VStr "a.webp");
                                          ("credit", VUndef);
                                          ("kenburns", VStr "center")]);
                          ("text", VArr []); ("callouts", VArr []);
                          ("transitionIn", VStr "crossfade");
                          ("transitionOut", VStr "crossfade")];
                    VObj [("d", VNum Loader.tenth);
                          ("media", VObj [("src", VStr "a.webp");
                                          ("credit", VUndef);
                                          ("kenburns", VStr "center")]);
                          ("text", VArr []); ("callouts", VArr []);
                          ("transitionIn", VStr "crossfade");
                          ("transitionOut", VStr "crossfade")]]);
             ("theme", VStr "light");
             ("duration", VNum (Fin ((1 # 10) + (1 # 10))))])
    = Ok (VStr <$> urls)
    ∧ NoDup urls.
Proof.
  destruct (collectMediaURLs_of_loaded Loader.plainHost
              (VObj [("scenes",
                      VArr [VObj [("d", VNum Num.zero);
                                  ("media", VObj [("src", VStr "a.webp")])];
                            VObj [("d", VNum Num.zero);
                                  ("media", VObj [("src", VStr "a.webp")])]])])
              EmptyString _ eq_refl) as (urls & H1 & H2 & _).
  by exists urls.
Defined.

(** ** The total that the replay waits for *)

Lemma totalLoop_chained ss : ∀ c ss' sc,
  chained (Fin c) ss ss' →
  Forall untimed ss →
  Forall (λ s, ∃ d, duration s = Some d ∧ Num.leb d Num.zero = false) ss →
  mapM Core.sceneOf ss' = Some sc →
  App.totalLoop (Fin c) ss = Ok (Fin (endOf c sc)).
Proof.
  induction ss as [|s ss IH]; intros c [|s' ss'] sc; simpl; try done.
  - by intros _ _ _ [= <-].
  - intros (d & t' & Hd & Hd' & Ht' & Heq & Hch)
           [[Hnone (q & Hq)] Himp]%Forall_cons
           [(d2 & Hd2 & Hpos) Hposs]%Forall_cons.
    rewrite Hd in Hq, Hd2. injection Hq as ->. injection Hd2 as <-.
    assert (Hst : startTime s = None).
    { unfold startTime. by rewrite Hnone. }
    rewrite Hst in Heq. simpl in Heq. subst t'.
    destruct (Core.sceneOf s') as [x|] eqn:Hx; simpl; [|done].
    destruct (mapM Core.sceneOf ss') as [r|] eqn:Hr; simpl; [|done].
    intros [= <-]. simpl.
    unfold Core.sceneOf in Hx. unfold startTime in Ht'. unfold duration in Hd'.
    rewrite Ht', Hd' in Hx. simpl in Hx. injection Hx as <-. simpl.
    assert (Hq : (0 < q)%Q).
    { simpl in Hpos. destruct (Qle_bool q 0) eqn:E; [done|].
      apply Qnot_le_lt. intros Hle. apply Qle_bool_iff in Hle. congruence. }
    assert (Hstep : App.totalStep (Fin c) s = Ok (Fin (c + q))).
    { unfold App.totalStep. unfold duration in Hd.
      destruct s as [p|ts|fts].
      - by destruct p.
      - unfold Js.get_opt in Hd. by simpl in Hd.
      - unfold Js.get_opt in Hd, Hnone. rewrite get_VObj in Hd, Hnone.
        rewrite !get_VObj, Hnone, !result_bind_ok.
        destruct (default VUndef (Js.field_get "d" fts)) as [[| | |n| |]| |];
          try done.
        simpl in Hd. injection Hd as ->.
        assert (Htr : Js.truthy (VNum (Fin q)) = true).
        { simpl. destruct (Qeq_bool q 0) eqn:E; [|done].
          apply Qeq_bool_iff in E. lra. }
        unfold Js.or.
        change (Js.truthy (VPrim (PNum (Fin q))))
          with (Js.truthy (VNum (Fin q))).
        rewrite Htr. simpl.
        destruct (Qle_bool c (c + q)) eqn:E; [done|].
        assert (c <= c + q)%Q as Hle by lra.
        apply Qle_bool_iff in Hle. congruence. }
    rewrite Hstep, result_bind_ok. by eapply IH.
Qed.

(** X20. When no scene names a start time and every duration is finite, the
    total that [calcTotalDuration] computes for the replay is the end of
    the last scene, the time that the loop of the engine compares with;
    for a manifest without scenes it is 0. *)
Theorem calcTotalDuration_is_timeline_end m st :
  Core.new m = Ok st →
  Forall untimed (Core.scenesOf m) →
  App.calcTotalDuration m
  = Ok (default Num.zero (timelineEnd (Core.scenes st))).
Proof.
  intros Hnew Hun.
  assert (Himp : Forall implicit_finite (Core.scenesOf m)).
  { eapply Forall_impl; [exact Hun|]. intros s [Ht Hd]. split; [|done].
    unfold startTime. by rewrite Ht. }
  pose proof (new_contiguous _ _ Hnew Himp) as Hc.
  revert Hnew. unfold Core.new.
  destruct (Core.checkManifest m) as [[]|e1] eqn:Hchk; simpl; [|done].
  destruct (Core.normalizeManifest m) as [m'|e2] eqn:Hn; simpl; [|done].
  destruct (Core.scheduleOf m') as [sc|] eqn:Hsc; [|done].
  intros [= <-]. simpl in *.
  pose proof (normalizeManifest_chained _ _ Hn) as Hch.
  assert (Hpos : Forall (λ s, ∃ d, duration s = Some d
                               ∧ Num.leb d Num.zero = false)
                        (Core.scenesOf m)).
  { revert Hn. unfold Core.normalizeManifest, structuredClone.
    destruct (cloneable m); simpl; [|done].
    destruct (Js.get m "scenes") as [scv|e] eqn:Hg; simpl; [|done].
    destruct (Js.isArray scv) as [ss|] eqn:Harr; [|done].
    destruct (Core.normalizeScenes Num.zero 0 ss) as [ss'|e] eqn:Hns;
      simpl; [|done].
    intros _. unfold Core.scenesOf. rewrite (get_get_opt _ _ _ Hg), Harr.
    simpl. by eapply normalizeScenes_positive. }
  pose proof (totalLoop_chained _ 0%Q _ _ Hch Hun Hpos Hsc) as Htot.
  unfold App.calcTotalDuration.
  unfold Core.checkManifest in Hchk.
  destruct (Js.truthy m); [|done].
  unfold Core.scenesOf in Htot.
  destruct (Js.get_opt m "scenes") as [|ss|] eqn:Hg; try done.
  simpl in Htot. change (Js.or (VArr ss) (VArr [])) with (VArr ss).
  cbv iota beta. change (App.totalLoop Num.zero ss)
    with (App.totalLoop (Fin 0) ss). rewrite Htot.
  destruct sc as [|s0 sc'].
  - done.
  - by rewrite (contiguous_timelineEnd _ _ Hc).
Qed.

Lemma calcTotalDuration_is_timeline_end_witness :
  ∃ st, Core.new manifest_232 = Ok st
        ∧ App.calcTotalDuration manifest_232
          = Ok (default Num.zero (timelineEnd (Core.scenes st))).
Proof.
  eexists. split; [vm_compute; reflexivity|].
  apply calcTotalDuration_is_timeline_end; [vm_compute; reflexivity|].
  change (Forall untimed
            [scene_of_duration 2; scene_of_duration 3; scene_of_duration 2]).
  repeat constructor; eexists; reflexivity.
Defined.

Section ThemeOnTheStore.
Import Heap.

(** ** [applyTheme] on the store *)

Lemma safe_applyTheme h0 manifest p :
  safe h0 (HPresets.applyTheme manifest (HPrim p)) (fresh (length h0)).
Proof.
  unfold HPresets.applyTheme.
  eapply safe_bind; [apply safe_structuredClone|]. intros m Hm.
  eapply safe_bind; [apply safe_set; [done|by destruct p]|].
  intros _ _. by apply safe_ret.
Qed.

(** X9. [applyTheme] with a theme that is a string, or any other primitive,
    leaves every object that existed before the call as it was, whether
    it returns or throws; what it returns is a new object; and the new
    objects refer to new objects only, so that the themed manifest shares
    nothing with the one it was made from. *)
Theorem applyTheme_leaves_manifest_unchanged (h : list Heap.obj)
    (manifest : Heap.hval) (p : Js.prim) :
  let themed := HPresets.applyTheme manifest (Heap.HPrim p) h in
  (∀ l o, h !! l = Some o → themed.1 !! l = Some o)
  ∧ (∀ m, themed.2 = Ok m → fresh (length h) m)
  ∧ (∀ l o, (length h ≤ l)%nat → themed.1 !! l = Some o → own (length h) o).
Proof.
  intros themed.
  destruct (safe_applyTheme h manifest p h (extends_refl h)) as [H1 H2].
  fold themed in H1, H2. split_and!; try done.
  - intros l o. by apply extends_old.
  - intros l o. by apply extends_own.
Qed.

Lemma applyTheme_tree h t v X p :
  tree_in h t v X →
  match Presets.applyTheme t (VPrim p) with
  | Ok t' => ∃ h' v' X', HPresets.applyTheme v (HPrim p) h = (h', Ok v')
               ∧ tree_in h' t' v' X'
  | Throw e => ∃ h', HPresets.applyTheme v (HPrim p) h = (h', Throw e)
  end.
Proof.
  intros Ht. unfold Presets.applyTheme, Presets.clone, HPresets.applyTheme.
  set (q := match p with PUndef => PStr "light" | _ => p end).
  replace (match VPrim p with
           | VPrim PUndef => VStr "light"
           | _ => VPrim p
           end) with (VPrim q) by (by destruct p).
  replace (match HPrim p with
           | HPrim PUndef => HPrim (PStr "light")
           | _ => HPrim p
           end) with (HPrim q) by (by destruct p).
  pose proof (structuredClone_tree h t v X Ht) as Hc.
  rewrite structuredClone_tree_eq. destruct (cloneable t); simpl;
    [|destruct Hc as (h' & Hc); rewrite (bind_throw _ _ _ _ _ Hc);
      by exists h'].
  destruct Hc as (k & m & Xm & Hc & Hm). rewrite (bind_ok _ _ _ _ _ Hc).
  pose proof (set_tree (h ++ k) t m Xm "theme" q Hm) as Hs.
  destruct (Js.set t "theme" (VPrim q)) as [t'|err].
  - destruct Hs as (h' & X' & Hs & Ht' & _).
    rewrite (bind_ok _ _ _ _ _ Hs). by exists h', m, X'.
  - rewrite (bind_throw _ _ _ _ _ Hs). by eexists.
Qed.

(** X10. On every manifest that is a tree and every theme that is a
    primitive, [applyTheme] on trees gives what the one on the store
    gives: the same manifest, read back from the store, or the same
    error. *)
Theorem applyTheme_refines t p :
  on_tree (λ v, HPresets.applyTheme v (Heap.HPrim p)) t
  = Presets.applyTheme t (VPrim p).
Proof.
  unfold on_tree.
  destruct (build_lays t []) as (k & v & X & Hb & Ht & _).
  rewrite (bind_ok _ _ _ _ _ Hb). simpl in *.
  pose proof (applyTheme_tree k t v X p Ht) as Hn.
  destruct (Presets.applyTheme t (VPrim p)) as [t'|err].
  - destruct Hn as (h' & v' & X' & Hn & Ht').
    rewrite (bind_ok _ _ _ _ _ Hn). unfold read. simpl. f_equal.
    eapply reify_tree; [exact Ht'|].
    apply size_below. intros l. by eapply tree_in_valid.
  - destruct Hn as (h' & Hn). by rewrite (bind_throw _ _ _ _ _ Hn).
Qed.

End ThemeOnTheStore.

(** ** Scenes made by the presets *)






(** ** The end of a playback *)



(** ** A removal timer that outlives the exit *)

Lemma setNode_sceneNodes index n st :
  Core._sceneNodes (Core.setNode index n st) = Core._sceneNodes st.
Proof. unfold Core.setNode. by destruct (Core._sceneNodes st !! index). Qed.

Lemma enterScene_sceneNodes index st :
  Core._sceneNodes (Core.enterScene index st) = Core._sceneNodes st.
Proof.
  unfold Core.enterScene. destruct (Core.nodeOf st index); [|done].
  destruct (at_index (Core.scenes st) index); [|done].
  by rewrite setNode_sceneNodes.
Qed.

Lemma enterScene_t0 index st :
  Core._t0 (Core.enterScene index st) = Core._t0 st.
Proof.
  unfold Core.enterScene. destruct (Core.nodeOf st index); [|done].
  destruct (at_index (Core.scenes st) index); [|done].
  unfold Core.setNode. by destruct (Core._sceneNodes _ !! index).
Qed.

Lemma flush_sceneNodes st :
  Core._sceneNodes (Core.flush st) = Core._sceneNodes st.
Proof.
  unfold Core.flush.
  assert (H : ∀ l acc,
            Core._sceneNodes (foldl (λ acc i, Core.enterScene i acc) acc l)
            = Core._sceneNodes acc).
  { induction l as [|i l IH]; intros acc; simpl; [done|].
    by rewrite IH, enterScene_sceneNodes. }
  by rewrite H.
Qed.

Lemma flush_t0 st : Core._t0 (Core.flush st) = Core._t0 st.
Proof.
  unfold Core.flush.
  assert (H : ∀ l acc,
            Core._t0 (foldl (λ acc i, Core.enterScene i acc) acc l)
            = Core._t0 acc).
  { induction l as [|i l IH]; intros acc; simpl; [done|].
    by rewrite IH, enterScene_t0. }
  by rewrite H.
Qed.

(** A frame that finds the active scene unchanged and unmounted, before
    the end of the timeline: only the clock and the frame request
    move. *)
Lemma loop_unmounted ts st i :
  Core._running st = true →
  Core._activeIndex st = i →
  Core._sceneNodes st !! i = None →
  Core.findSceneIndexAt (Core.scenes st) (elapsed ts st) = i →
  (∀ last, timelineEnd (Core.scenes st) = Some last →
           Num.gtb (elapsed ts st) (Num.add last Core.grace) = false) →
  ∃ fr, (Core.loop ts st).1
        = Core.with_frame fr (Core.with_clock (Core._t0 st) (elapsed ts st) st).
Proof.
  intros Hrun Hact Hnone Hidx Hend. unfold Core.loop. rewrite Hrun.
  simpl negb. cbv iota. fold (elapsed ts st).
  set (now := elapsed ts st) in *.
  set (st1 := Core.with_clock (Core._t0 st) now st).
  change (Core.scenes st1) with (Core.scenes st).
  change (Core._activeIndex st1) with (Core._activeIndex st).
  rewrite Hidx, Hact. rewrite bool_decide_eq_true_2 by done.
  assert (Ht : (if 0 <=? i then Core.tickScene i now st1 else Ok st1)
               = Ok st1
               ∨ ∃ err, (if 0 <=? i then Core.tickScene i now st1
                         else Ok st1) = Throw err).
  { destruct (0 <=? i); [|by left]. unfold Core.tickScene.
    destruct (at_index (Core.scenes st1) i); [|right; by eexists].
    unfold Core.nodeOf. change (Core._sceneNodes st1) with (Core._sceneNodes st).
    rewrite Hnone. by left. }
  destruct Ht as [-> | [err ->]].
  - change (Core.scenes st1) with (Core.scenes st).
    rewrite last_at_index.
    destruct (last (Core.scenes st)) as [l|] eqn:Hl.
    + rewrite (Hend (Num.add (Core.t l) (Core.d l))).
      * exists true. done.
      * unfold timelineEnd. by rewrite Hl.
    + exists (Core.frame st). simpl. by destruct st.
  - exists (Core.frame st). simpl. by destruct st.
Qed.

Lemma scheduler_running x y :
  scheduler x = scheduler y →
  Core._running x = Core._running y
  ∧ Core._activeIndex x = Core._activeIndex y.
Proof. unfold scheduler. by intros [= -> _ _ ->]. Qed.

Lemma handle_stays_unmounted st0 st i ev :
  Core.scenes st = Core.scenes st0 →
  Core._t0 st = Core._t0 st0 →
  Core._running st = true →
  Core._activeIndex st = i →
  Core._sceneNodes st !! i = None →
  stays_on st0 i ev →
  Core.scenes (Core.handle ev st) = Core.scenes st0
  ∧ Core._t0 (Core.handle ev st) = Core._t0 st0
  ∧ Core._running (Core.handle ev st) = true
  ∧ Core._activeIndex (Core.handle ev st) = i
  ∧ Core._sceneNodes (Core.handle ev st) !! i = None.
Proof.
  intros Hsc Ht0 Hrun Hact Hnone Hev.
  destruct ev as [ts|j| |toEnd]; [| | |done].
  - unfold Core.handle. destruct (Core.frame st) eqn:Hfr; [|done].
    destruct Hev as [Hidx Hend].
    assert (Hel : elapsed ts (Core.with_frame false st) = elapsed ts st0).
    { unfold elapsed. simpl. by rewrite Ht0. }
    destruct (loop_unmounted ts (Core.with_frame false st) i)
      as [fr Hloop]; try done.
    + rewrite Hel. change (Core.scenes (Core.with_frame false st))
        with (Core.scenes st). by rewrite Hsc.
    + intros last. rewrite Hel.
      change (Core.scenes (Core.with_frame false st)) with (Core.scenes st).
      rewrite Hsc. apply Hend.
    + rewrite Hloop.
      set (X := Core.with_frame fr _).
      destruct (scheduler_running _ _ (flush_scheduler X)) as [Hr Ha].
      rewrite flush_scenes, flush_t0, flush_sceneNodes, Hr, Ha.
      by split_and!.
  - unfold Core.handle.
    destruct (Core.remove_first j (Core.awaiting st)) as [aw|]; [|done].
    set (X := Core.enterScene j _).
    destruct (scheduler_running _ _ (flush_scheduler X)) as [Hr Ha].
    rewrite flush_scenes, flush_t0, flush_sceneNodes, Hr, Ha.
    subst X.
    destruct (scheduler_running _ _
                (enterScene_scheduler j
                   (Core.with_pending (Core.timers st) aw
                      (Core.microtasks st) st))) as [Hr' Ha'].
    rewrite enterScene_scenes, enterScene_t0, enterScene_sceneNodes, Hr', Ha'.
    by split_and!.
  - unfold Core.handle.
    destruct (Core.timers st) as [|[index id] rest]; [done|].
    set (X := Core.removeScene index id _).
    destruct (scheduler_running _ _ (flush_scheduler X)) as [Hr Ha].
    rewrite flush_scenes, flush_t0, flush_sceneNodes, Hr, Ha.
    subst X. simpl. split_and!; try done.
    apply lookup_delete_None. by right.
Qed.

(** X18. A removal timer deletes the entry of its scene from [_sceneNodes]
    whether or not the scene has been entered again since it was left.
    When the timer of scene [i] fires while [i] is the active scene, the
    active scene is left without a node, and it stays so as long as it
    stays active: frames within the scene, settled images and other
    timers mount nothing, and [#tickScene] returns at once. *)
Theorem stale_timer_unmounts_active_scene st i id rest es :
  Core._running st = true →
  Core._activeIndex st = i →
  Core.timers st = (i, id) :: rest →
  Forall (stays_on st i) es →
  Core._sceneNodes (Core.run (Core.Timeout :: es) st) !! i = None
  ∧ Core._activeIndex (Core.run (Core.Timeout :: es) st) = i
  ∧ Core._running (Core.run (Core.Timeout :: es) st) = true.
Proof.
  intros Hrun Hact Htim Hes.
  change (Core.run (Core.Timeout :: es) st)
    with (Core.run es (Core.handle Core.Timeout st)).
  assert (H0 : Core.scenes (Core.handle Core.Timeout st) = Core.scenes st
               ∧ Core._t0 (Core.handle Core.Timeout st) = Core._t0 st
               ∧ Core._running (Core.handle Core.Timeout st) = true
               ∧ Core._activeIndex (Core.handle Core.Timeout st) = i
               ∧ Core._sceneNodes (Core.handle Core.Timeout st) !! i = None).
  { unfold Core.handle. rewrite Htim.
    set (X := Core.removeScene i id _).
    destruct (scheduler_running _ _ (flush_scheduler X)) as [Hr Ha].
    rewrite flush_scenes, flush_t0, flush_sceneNodes, Hr, Ha.
    subst X. simpl. split_and!; try done.
    apply lookup_delete_None. by left. }
  revert H0. generalize (Core.handle Core.Timeout st). intros s.
  revert s. induction es as [|ev es IH]; intros s (H1 & H2 & H3 & H4 & H5).
  - done.
  - apply Forall_cons in Hes as [Hev Hes].
    change (Core.run (ev :: es) s) with (Core.run es (Core.handle ev s)).
    apply IH; [done|]. by apply handle_stays_unmounted.
Qed.

Lemma stale_timer_unmounts_active_scene_witness :
  ∃ st, overlap_reentered = Some st
        ∧ Core._activeIndex st = 1
        ∧ is_Some (Core._sceneNodes st !! 1)
        ∧ Core._sceneNodes
            (Core.run [Core.Timeout; Core.Frame (ms 2000); Core.Timeout;
                       Core.Frame (ms 9000)] st) !! 1 = None
        ∧ Core._activeIndex
            (Core.run [Core.Timeout; Core.Frame (ms 2000); Core.Timeout;
                       Core.Frame (ms 9000)] st) = 1.
Proof.
  eexists. split; [vm_compute; reflexivity|].
  split; [reflexivity|]. split; [by eexists|].
  refine (let H := stale_timer_unmounts_active_scene _ 1 0%nat _
                     [Core.Frame (ms 2000); Core.Timeout;
                      Core.Frame (ms 9000)] _ _ _ _ in
          conj (proj1 H) (proj1 (proj2 H))).
  - reflexivity.
  - reflexivity.
  - reflexivity.
  - repeat constructor; try reflexivity;
      intros last [= <-]; reflexivity.
Defined.

(** ** A mount that throws *)

Lemma exitScene_sceneNodes index st :
  Core._sceneNodes (Core.exitScene index st) = Core._sceneNodes st.
Proof.
  unfold Core.exitScene.
  destruct (Core._sceneNodes st !! index) as [id|] eqn:Hid; [|done].
  destruct (at_index (Core.scenes st) index); [|done].
  destruct (Core.nodes st !! id); [|done]. simpl.
  unfold Core.setNode. by rewrite Hid.
Qed.

Lemma exitScene_t0 index st :
  Core._t0 (Core.exitScene index st) = Core._t0 st.
Proof.
  unfold Core.exitScene.
  destruct (Core._sceneNodes st !! index) as [id|] eqn:Hid; [|done].
  destruct (at_index (Core.scenes st) index); [|done].
  destruct (Core.nodes st !! id); [|done]. simpl.
  unfold Core.setNode. by rewrite Hid.
Qed.

(** The frame at which a scene whose mount throws becomes the active
    one. *)
Lemma loop_failed_mount ts st i scene err :
  Core._running st = true →
  Core._activeIndex st ≠ i →
  Core._sceneNodes st !! i = None →
  at_index (Core.scenes st) i = Some scene →
  Core.buildNode scene false = Throw err →
  stays_on st i (Core.Frame ts) →
  let st' := (Core.loop ts st).1 in
  Core.scenes st' = Core.scenes st
  ∧ Core._t0 st' = Core._t0 st
  ∧ Core._running st' = true
  ∧ Core._activeIndex st' = i
  ∧ Core._sceneNodes st' !! i = None.
Proof.
  intros Hrun Hact Hnone Hat Hbuild [Hidx Hend] st'. subst st'.
  assert (Hpos : 0 ≤ i).
  { unfold at_index in Hat. destruct (Z.ltb_spec i 0); [done|lia]. }
  unfold Core.loop. rewrite Hrun. simpl negb. cbv iota.
  fold (elapsed ts st). set (now := elapsed ts st) in *.
  set (st1 := Core.with_clock (Core._t0 st) now st).
  change (Core.scenes st1) with (Core.scenes st).
  change (Core._activeIndex st1) with (Core._activeIndex st).
  rewrite Hidx. rewrite bool_decide_eq_false_2 by congruence.
  set (st2 := Core.onSceneChange (Core._activeIndex st) i st1).
  assert (H2 : Core.scenes st2 = Core.scenes st
               ∧ Core._t0 st2 = Core._t0 st
               ∧ Core._running st2 = true
               ∧ Core._sceneNodes st2 !! i = None).
  { subst st2. unfold Core.onSceneChange.
    set (sx := if 0 <=? Core._activeIndex st
               then Core.exitScene (Core._activeIndex st) st1 else st1).
    assert (Hx : Core.scenes sx = Core.scenes st
                 ∧ Core._t0 sx = Core._t0 st
                 ∧ Core._running sx = true
                 ∧ Core._sceneNodes sx = Core._sceneNodes st).
    { subst sx. destruct (0 <=? Core._activeIndex st); [|done].
      rewrite exitScene_scenes, exitScene_t0, exitScene_sceneNodes.
      destruct (scheduler_running _ _
                  (exitScene_scheduler (Core._activeIndex st) st1))
        as [-> _]. done. }
    destruct Hx as (Hx1 & Hx2 & Hx3 & Hx4).
    replace (0 <=? i) with true by (symmetry; by apply Z.leb_le).
    unfold Core.ensureSceneMounted. rewrite Hx4, Hnone, Hx1, Hat, Hbuild.
    by rewrite Hx4. }
  destruct H2 as (H21 & H22 & H23 & H24).
  replace (0 <=? i) with true by (symmetry; by apply Z.leb_le).
  assert (Htick : Core.tickScene i now (Core.with_active i st2)
                  = Ok (Core.with_active i st2)).
  { unfold Core.tickScene. simpl Core.scenes. rewrite H21, Hat.
    unfold Core.nodeOf. simpl Core._sceneNodes. by rewrite H24. }
  rewrite Htick. simpl Core.scenes. rewrite H21, last_at_index.
  destruct (last (Core.scenes st)) as [l|] eqn:Hl.
  - rewrite (Hend (Num.add (Core.t l) (Core.d l)))
      by (unfold timelineEnd; by rewrite Hl).
    simpl. by split_and!.
  - simpl. by split_and!.
Qed.

(** X19. A scene whose mount throws (a text block or a callout that is
    [null], say) is not mounted, and the mount is not tried again: the
    scene change runs once, when the scene becomes active, and its
    exception is lost in the promise that nobody awaits. For as long as
    the scene stays active the engine runs on with nothing of it on the
    stage. *)
Theorem failed_mount_is_not_retried st ts i scene err es :
  Core._running st = true →
  Core.frame st = true →
  Core._activeIndex st ≠ i →
  Core._sceneNodes st !! i = None →
  at_index (Core.scenes st) i = Some scene →
  Core.buildNode scene false = Throw err →
  Forall (stays_on st i) (Core.Frame ts :: es) →
  Core._sceneNodes (Core.run (Core.Frame ts :: es) st) !! i = None
  ∧ Core._activeIndex (Core.run (Core.Frame ts :: es) st) = i
  ∧ Core._running (Core.run (Core.Frame ts :: es) st) = true.
Proof.
  intros Hrun Hfr Hact Hnone Hat Hbuild [Hev Hes]%Forall_cons.
  change (Core.run (Core.Frame ts :: es) st)
    with (Core.run es (Core.handle (Core.Frame ts) st)).
  assert (H0 : Core.scenes (Core.handle (Core.Frame ts) st) = Core.scenes st
               ∧ Core._t0 (Core.handle (Core.Frame ts) st) = Core._t0 st
               ∧ Core._running (Core.handle (Core.Frame ts) st) = true
               ∧ Core._activeIndex (Core.handle (Core.Frame ts) st) = i
               ∧ Core._sceneNodes (Core.handle (Core.Frame ts) st) !! i
                 = None).
  { unfold Core.handle. rewrite Hfr.
    destruct (loop_failed_mount ts (Core.with_frame false st) i scene err)
      as (H1 & H2 & H3 & H4 & H5); try done.
    set (X := (Core.loop ts (Core.with_frame false st)).1) in *.
    destruct (scheduler_running _ _ (flush_scheduler X)) as [Hr Ha].
    rewrite flush_scenes, flush_t0, flush_sceneNodes, Hr, Ha.
    by split_and!. }
  revert H0. generalize (Core.handle (Core.Frame ts) st). intros s.
  revert s. induction es as [|ev es IH]; intros s (H1 & H2 & H3 & H4 & H5).
  - done.
  - apply Forall_cons in Hes as [Hev' Hes].
    change (Core.run (ev :: es) s) with (Core.run es (Core.handle ev s)).
    apply IH; [done|]. by apply handle_stays_unmounted.
Qed.

Lemma failed_mount_is_not_retried_witness :
  ∃ st, Core.new manifest_null_text = Ok st
        ∧ Core._sceneNodes
            (Core.run [Core.Frame (ms 16); Core.Frame (ms 1000)]
                      (Core.start Num.zero st)) !! 0 = None
        ∧ Core._activeIndex
            (Core.run [Core.Frame (ms 16); Core.Frame (ms 1000)]
                      (Core.start Num.zero st)) = 0.
Proof.
  eexists. split; [vm_compute; reflexivity|].
  refine (let H := failed_mount_is_not_retried _ (ms 16) 0 _ _
                     [Core.Frame (ms 1000)] _ _ _ _ _ _ _ in
          conj (proj1 H) (proj1 (proj2 H))).
  - reflexivity.
  - reflexivity.
  - simpl. lia.
  - reflexivity.
  - reflexivity.
  - reflexivity.
  - repeat constructor; try reflexivity; intros last [= <-]; reflexivity.
Defined.

(** * Sub-events across an activation *)

(** The loop calls [#onSceneChange] without awaiting it and ticks the
    scene in the same callback; the enter of the scene runs when its
    image has settled. What follows takes one text or callout through
    such an activation: the frame that mounts the scene, the frames that
    come while the image loads, the enter, and the frames after it. *)

Lemma wellMounted_ext a b i s node :
  Core.scenes a = Core.scenes b →
  Core._sceneNodes a = Core._sceneNodes b →
  Core.nodes a = Core.nodes b →
  wellMounted a i s node → wellMounted b i s node.
Proof.
  intros H1 H2 H3 ([id (Hs & Hid & Hn)] & Hnd). split; [|done].
  exists id. unfold mountedAs. by rewrite <- H1, <- H2, <- H3.
Qed.

Lemma at_index_nonneg {A} (l : list A) i x :
  at_index l i = Some x → (0 <=? i) = true.
Proof.
  unfold at_index. destruct (i <? 0) eqn:E; [done|]. intros _.
  apply Z.leb_le. apply Z.ltb_ge in E. lia.
Qed.

Lemma remove_first_elem i l :
  i ∈ l → is_Some (Core.remove_first i l).
Proof.
  induction l as [|j l IH]; [by intros ?%elem_of_nil|].
  intros Hin. simpl. case_bool_decide as Hij; [by eexists|].
  apply elem_of_cons in Hin as [?|Hin]; [done|].
  destruct (IH Hin) as [r ->]. by eexists.
Qed.

Lemma tickScene_pending index now st st' :
  Core.tickScene index now st = Ok st' →
  Core.awaiting st' = Core.awaiting st
  ∧ Core.microtasks st' = Core.microtasks st
  ∧ Core._t0 st' = Core._t0 st.
Proof.
  unfold Core.tickScene.
  destruct (at_index (Core.scenes st) index); [|done].
  destruct (Core.nodeOf st index) as [node|]; [|by intros [= <-]].
  destruct (foldl _ _ (Core.textNodes node)) as [ft tns].
  destruct (foldl _ _ (Core.calloutNodes node)) as [fc cns].
  intros [= <-]. unfold Core.setNode.
  by destruct (Core._sceneNodes _ !! index).
Qed.

Lemma exitScene_pending index st :
  let st' := Core.exitScene index st in
  Core.awaiting st' = Core.awaiting st
  ∧ Core.microtasks st' = Core.microtasks st
  ∧ Core._firedText st' = Core._firedText st
  ∧ Core._firedCallout st' = Core._firedCallout st.
Proof.
  unfold Core.exitScene.
  destruct (Core._sceneNodes st !! index) as [id|] eqn:Hid; [|done].
  destruct (at_index (Core.scenes st) index); [|done].
  destruct (Core.nodes st !! id); [|done]. simpl.
  unfold Core.setNode. by rewrite Hid.
Qed.

(** A frame on the active scene, mounted, before the end of the
    timeline: [#tickScene] and the request of the next frame. *)
Lemma loop_on_scene st i s node ts :
  Core._running st = true →
  Core._activeIndex st = i →
  wellMounted st i s node →
  stays_on st i (Core.Frame ts) →
  ∃ st3,
    Core.tickScene i (elapsed ts st)
      (Core.with_clock (Core._t0 st) (elapsed ts st) st) = Ok st3
    ∧ (Core.loop ts st).1 = Core.with_frame true st3.
Proof.
  intros Hrun Hact Hw [Hidx Hend]. unfold Core.loop. rewrite Hrun.
  simpl negb. cbv iota. fold (elapsed ts st).
  set (now := elapsed ts st) in *.
  set (st1 := Core.with_clock (Core._t0 st) now st).
  change (Core.scenes st1) with (Core.scenes st).
  change (Core._activeIndex st1) with (Core._activeIndex st).
  rewrite Hidx, Hact. rewrite bool_decide_eq_true_2 by done.
  assert (Hw1 : wellMounted st1 i s node)
    by (by apply (wellMounted_ext st)).
  destruct Hw as ([id (Hs & _)] & _).
  rewrite (at_index_nonneg _ _ _ Hs).
  destruct (tickScene_wellMounted _ _ _ _ now Hw1) as (st3 & Htick & _).
  exists st3. split; [done|]. rewrite Htick.
  destruct (tickScene_keeps _ _ _ _ Htick) as [Hsc _]. rewrite Hsc.
  change (Core.scenes st1) with (Core.scenes st).
  rewrite last_at_index.
  destruct (last (Core.scenes st)) as [l|] eqn:Hl.
  - rewrite (Hend (Num.add (Core.t l) (Core.d l))); [done|].
    unfold timelineEnd. by rewrite Hl.
  - apply last_None in Hl. rewrite Hl in Hs. unfold at_index in Hs.
    by destruct (i <? 0).
Qed.

Lemma flush_idle st :
  Core.microtasks st = [] →
  Core.flush st = Core.with_pending (Core.timers st) (Core.awaiting st) [] st.
Proof. intros H. unfold Core.flush. by rewrite H. Qed.

(** What a frame does while scene [i] stays the active one: the tick of
    the scene, at the local offset of the frame. *)
Lemma frame_on_scene st0 st i s node ts :
  playing st0 st i s node →
  stays_on st0 i (Core.Frame ts) →
  let tLocal := localOffset st0 s ts in
  let st' := Core.handle (Core.Frame ts) st in
  playing st0 st' i s
    (tickedNode i tLocal (Core._firedText st) (Core._firedCallout st) node)
  ∧ Core.awaiting st' = Core.awaiting st
  ∧ (∀ n, n ∈ Core.textNodes node →
       Core.textKey i (Core.t_idx n) ∈ Core._firedText st' ↔
       Core.textKey i (Core.t_idx n) ∈ Core._firedText st
       ∨ Core.due tLocal (Core.t_at n) = true)
  ∧ (∀ n, n ∈ Core.calloutNodes node →
       Core.calloutKey i (Core.c_idx n) ∈ Core._firedCallout st' ↔
       Core.calloutKey i (Core.c_idx n) ∈ Core._firedCallout st
       ∨ Core.due tLocal (Core.c_at n) = true).
Proof.
  intros (Hsc & Ht0 & Hrun & Hfr & Hmt & Hact & Hw) Hstay tLocal st'.
  subst st'. unfold Core.handle. rewrite Hfr.
  set (sta := Core.with_frame false st).
  assert (Hel : elapsed ts sta = elapsed ts st0).
  { unfold elapsed. change (Core._t0 sta) with (Core._t0 st). by rewrite Ht0. }
  assert (Hstay' : stays_on sta i (Core.Frame ts)).
  { destruct Hstay as [Hidx Hend]. unfold stays_on. rewrite Hel.
    change (Core.scenes sta) with (Core.scenes st). by rewrite Hsc. }
  destruct (loop_on_scene sta i s node ts) as (st3 & Htick & Hloop);
    [done|done|by apply (wellMounted_ext st)|done|].
  rewrite Hloop. rewrite Hel in Htick.
  change (Core._t0 sta) with (Core._t0 st) in Htick.
  set (st1 := Core.with_clock (Core._t0 st) (elapsed ts st0) sta) in Htick.
  destruct (tickScene_wellMounted st1 i s node (elapsed ts st0))
    as (st3' & Htick' & Hw3 & Htx & Hcl); [by apply (wellMounted_ext st)|].
  rewrite Htick in Htick'. injection Htick' as <-.
  destruct (tickScene_keeps _ _ _ _ Htick) as [Hsc3 Hsch3].
  destruct (tickScene_pending _ _ _ _ Htick) as (Haw3 & Hmt3 & Ht03).
  apply scheduler_running in Hsch3 as [Hrun3 Hact3].
  rewrite flush_idle by (etrans; [exact Hmt3|exact Hmt]).
  split_and!.
  - split_and!; try done.
    + etrans; [exact Hsc3|exact Hsc].
    + etrans; [exact Ht03|exact Ht0].
    + etrans; [exact Hrun3|exact Hrun].
    + etrans; [exact Hact3|exact Hact].
  - exact Haw3.
  - exact Htx.
  - exact Hcl.
Qed.

(** The frame on which a scene that is not mounted becomes the active
    one: the scene is mounted, its enter is left waiting for the image,
    and [#tickScene] runs on the new node in the same callback. *)
Lemma loop_activates st i s node ts :
  Core._running st = true →
  Core._activeIndex st ≠ i →
  Core._sceneNodes st !! i = None →
  at_index (Core.scenes st) i = Some s →
  Core.buildNode s false = Ok node →
  stays_on st i (Core.Frame ts) →
  ∃ st2 st3,
    Core.tickScene i (elapsed ts st) st2 = Ok st3
    ∧ (Core.loop ts st).1 = Core.with_frame true st3
    ∧ wellMounted st2 i s node
    ∧ Core.scenes st2 = Core.scenes st
    ∧ Core._t0 st2 = Core._t0 st
    ∧ Core._running st2 = true
    ∧ Core._activeIndex st2 = i
    ∧ Core._firedText st2 = Core._firedText st
    ∧ Core._firedCallout st2 = Core._firedCallout st
    ∧ Core.awaiting st2 = Core.awaiting st ++ [i]
    ∧ Core.microtasks st2 = Core.microtasks st.
Proof.
  intros Hrun Hact Hnone Hs Hb [Hidx Hend]. unfold Core.loop. rewrite Hrun.
  simpl negb. cbv iota. fold (elapsed ts st).
  set (now := elapsed ts st) in *.
  set (st1 := Core.with_clock (Core._t0 st) now st).
  change (Core.scenes st1) with (Core.scenes st).
  change (Core._activeIndex st1) with (Core._activeIndex st).
  rewrite Hidx. rewrite bool_decide_eq_false_2 by congruence.
  rewrite (at_index_nonneg _ _ _ Hs).
  unfold Core.onSceneChange. rewrite (at_index_nonneg _ _ _ Hs).
  set (stx := if 0 <=? Core._activeIndex st then
                Core.exitScene (Core._activeIndex st) st1 else st1).
  assert (Hx : Core.scenes stx = Core.scenes st
               ∧ Core._sceneNodes stx = Core._sceneNodes st
               ∧ Core._t0 stx = Core._t0 st
               ∧ scheduler stx = scheduler st1
               ∧ Core.awaiting stx = Core.awaiting st
               ∧ Core.microtasks stx = Core.microtasks st
               ∧ Core._firedText stx = Core._firedText st
               ∧ Core._firedCallout stx = Core._firedCallout st).
  { subst stx. destruct (0 <=? Core._activeIndex st); [|done].
    rewrite exitScene_scenes, exitScene_sceneNodes, exitScene_t0,
      exitScene_scheduler.
    destruct (exitScene_pending (Core._activeIndex st) st1)
      as (-> & -> & -> & ->). done. }
  destruct Hx as (Hxs & Hxn & Hxt & Hxsch & Hxa & Hxm & Hxf & Hxc).
  apply scheduler_running in Hxsch as [Hxr _].
  unfold Core.ensureSceneMounted. rewrite Hxn, Hnone, Hxs, Hs, Hb.
  set (st2 := Core.with_active i _).
  assert (Hw : wellMounted st2 i s node).
  { split; [|by eapply buildNode_NoDup].
    exists (length (Core.nodes stx)). split_and!; simpl.
    - by rewrite Hxs.
    - apply lookup_insert_eq.
    - by rewrite lookup_app_r, Nat.sub_diag by done. }
  destruct (tickScene_wellMounted _ _ _ _ now Hw) as (st3 & Htick & _).
  exists st2, st3. split; [done|]. rewrite Htick.
  destruct (tickScene_keeps _ _ _ _ Htick) as [Hsc _]. rewrite Hsc.
  change (Core.scenes st2) with (Core.scenes stx). rewrite Hxs.
  rewrite last_at_index.
  destruct (last (Core.scenes st)) as [l|] eqn:Hl.
  - rewrite (Hend (Num.add (Core.t l) (Core.d l)));
      [|unfold timelineEnd; by rewrite Hl].
    split_and!; try done.
    + etrans; [exact Hxr|exact Hrun].
    + simpl. by rewrite Hxa.
  - apply last_None in Hl. rewrite Hl in Hs. unfold at_index in Hs.
    by destruct (i <? 0).
Qed.

Lemma frame_activates st i s node ts :
  activates st i s ts →
  Core.buildNode s false = Ok node →
  let tLocal := localOffset st s ts in
  let st' := Core.handle (Core.Frame ts) st in
  playing st st' i s
    (tickedNode i tLocal (Core._firedText st) (Core._firedCallout st) node)
  ∧ i ∈ Core.awaiting st'
  ∧ (∀ n, n ∈ Core.textNodes node →
       Core.textKey i (Core.t_idx n) ∈ Core._firedText st' ↔
       Core.textKey i (Core.t_idx n) ∈ Core._firedText st
       ∨ Core.due tLocal (Core.t_at n) = true)
  ∧ (∀ n, n ∈ Core.calloutNodes node →
       Core.calloutKey i (Core.c_idx n) ∈ Core._firedCallout st' ↔
       Core.calloutKey i (Core.c_idx n) ∈ Core._firedCallout st
       ∨ Core.due tLocal (Core.c_at n) = true).
Proof.
  intros (Hrun & Hfr & Hmt & Hact & Hnone & Hs & Hstay) Hb tLocal st'.
  subst st'. unfold Core.handle. rewrite Hfr.
  set (sta := Core.with_frame false st).
  destruct (loop_activates sta i s node ts)
    as (st2 & st3 & Htick & Hloop & Hw & Hsc2 & Ht2 & Hrun2 & Hact2 & Hf2
        & Hc2 & Haw2 & Hmt2); try done.
  rewrite Hloop.
  destruct (tickScene_wellMounted st2 i s node (elapsed ts sta) Hw)
    as (st3' & Htick' & Hw3 & Htx & Hcl).
  rewrite Htick in Htick'. injection Htick' as <-.
  destruct (tickScene_keeps _ _ _ _ Htick) as [Hsc3 Hsch3].
  destruct (tickScene_pending _ _ _ _ Htick) as (Haw3 & Hmt3 & Ht03).
  apply scheduler_running in Hsch3 as [Hrun3 Hact3].
  rewrite flush_idle
    by (etrans; [exact Hmt3|]; etrans; [exact Hmt2|exact Hmt]).
  rewrite Hf2, Hc2 in Hw3. rewrite Hf2 in Htx. rewrite Hc2 in Hcl.
  split_and!.
  - split_and!; try done.
    + etrans; [exact Hsc3|exact Hsc2].
    + etrans; [exact Ht03|exact Ht2].
    + etrans; [exact Hrun3|exact Hrun2].
    + etrans; [exact Hact3|exact Hact2].
  - change (i ∈ Core.awaiting st3). rewrite Haw3, Haw2.
    apply elem_of_app. right. by apply list_elem_of_singleton.
  - exact Htx.
  - exact Hcl.
Qed.

(** [#enterScene] on a mounted scene. *)
Lemma enterScene_mounted st i s id node :
  mountedAs st i s id node →
  Core.enterScene i st
  = Core.with_nodes (Core._sceneNodes st)
      (<[id := enteredNode s node]> (Core.nodes st))
      (Core.with_fired
         (foldl (λ acc n, acc ∖ {[ Core.textKey i (Core.t_idx n) ]})
                (Core._firedText st) (Core.textNodes node))
         (foldl (λ acc n, acc ∖ {[ Core.textKey i (Core.c_idx n) ]})
                (Core._firedCallout st) (Core.calloutNodes node))
         st).
Proof.
  intros (Hs & Hid & Hnode).
  unfold Core.enterScene, Core.nodeOf. rewrite Hid. simpl. rewrite Hnode, Hs.
  unfold Core.setNode. simpl. by rewrite Hid.
Qed.

(** The image settles: the suspended scene change resumes and enters the
    scene. Every text key of the scene leaves the fired set, no callout
    key does, and every text and callout loses [is-in]. *)
Lemma settle_enters st0 st i s node :
  playing st0 st i s node →
  i ∈ Core.awaiting st →
  let st' := Core.handle (Core.ImageSettled i) st in
  playing st0 st' i s (enteredNode s node)
  ∧ (∀ n, n ∈ Core.textNodes node →
          Core.textKey i (Core.t_idx n) ∉ Core._firedText st')
  ∧ (∀ k, Core.calloutKey i k ∈ Core._firedCallout st' ↔
          Core.calloutKey i k ∈ Core._firedCallout st).
Proof.
  intros (Hsc & Ht0 & Hrun & Hfr & Hmt & Hact & Hw) Haw st'. subst st'.
  unfold Core.handle. destruct (remove_first_elem _ _ Haw) as [aw ->].
  set (stp := Core.with_pending (Core.timers st) aw (Core.microtasks st) st).
  destruct Hw as ([id Hm] & Hnt & Hnc).
  assert (Hm' : mountedAs stp i s id node) by exact Hm.
  rewrite (enterScene_mounted _ _ _ _ _ Hm').
  rewrite flush_idle by exact Hmt.
  destruct Hm as (Hs & Hid & Hnode).
  split_and!.
  - split_and!; try done. split_and!.
    + exists id. split_and!; try done. simpl.
      apply list_lookup_insert_eq. by eapply lookup_lt_Some.
    + simpl. by rewrite <- list_fmap_compose.
    + simpl. by rewrite <- list_fmap_compose.
  - intros n Hn. simpl. rewrite foldl_difference_spec. intros [_ Hne].
    by apply (Hne n).
  - intros k. simpl. rewrite foldl_difference_spec. split; [by intros [? _]|].
    intros Hk. split; [done|]. intros x _. apply textKey_ne_calloutKey.
Qed.

Lemma run_cons e es st :
  Core.run (e :: es) st = Core.run es (Core.handle e st).
Proof. done. Qed.

Lemma run_app es es' st :
  Core.run (es ++ es') st = Core.run es' (Core.run es st).
Proof. unfold Core.run. by rewrite foldl_app. Qed.

(** Frames on the active scene leave a text whose key is in the fired
    set as it is. *)
Lemma frames_text_fired st0 i s p tn tss : ∀ st node,
  playing st0 st i s node →
  Core.textNodes node !! p = Some tn →
  Core.textKey i (Core.t_idx tn) ∈ Core._firedText st →
  Forall (stays_on st0 i) (Core.Frame <$> tss) →
  let st' := Core.run (Core.Frame <$> tss) st in
  ∃ node',
    playing st0 st' i s node'
    ∧ Core.textNodes node' !! p = Some tn
    ∧ Core.textKey i (Core.t_idx tn) ∈ Core._firedText st'
    ∧ Core.awaiting st' = Core.awaiting st.
Proof.
  induction tss as [|ts tss IH]; intros st node Hp Hn Hk Hall; simpl.
  - by exists node.
  - rewrite fmap_cons in Hall. apply Forall_cons in Hall as [Hts Hall].
    destruct (frame_on_scene _ _ _ _ _ _ Hp Hts) as (Hp' & Haw & Htx & _).
    destruct (IH _ _ Hp') as (node' & H1 & H2 & H3 & H4).
    + simpl. rewrite list_lookup_fmap, Hn. simpl. unfold tickOne.
      by rewrite (bool_decide_eq_true_2 _ Hk).
    + rewrite (Htx tn) by (by eapply list_elem_of_lookup_2). by left.
    + done.
    + exists node'. split_and!; try done. by rewrite <- Haw.
Qed.

(** Frames whose local offset is below the [at] of a text that has not
    fired leave it as it is. *)
Lemma frames_text_waiting st0 i s p tn tss : ∀ st node,
  playing st0 st i s node →
  Core.textNodes node !! p = Some tn →
  Core.textKey i (Core.t_idx tn) ∉ Core._firedText st →
  Forall (stays_on st0 i) (Core.Frame <$> tss) →
  (∀ x, x ∈ tss → Core.due (localOffset st0 s x) (Core.t_at tn) = false) →
  let st' := Core.run (Core.Frame <$> tss) st in
  ∃ node',
    playing st0 st' i s node'
    ∧ Core.textNodes node' !! p = Some tn
    ∧ (Core.textKey i (Core.t_idx tn) ∉ Core._firedText st')
    ∧ Core.awaiting st' = Core.awaiting st.
Proof.
  induction tss as [|ts tss IH]; intros st node Hp Hn Hk Hall Hnone; simpl.
  - by exists node.
  - rewrite fmap_cons in Hall. apply Forall_cons in Hall as [Hts Hall].
    destruct (frame_on_scene _ _ _ _ _ _ Hp Hts) as (Hp' & Haw & Htx & _).
    assert (Hnd : Core.due (localOffset st0 s ts) (Core.t_at tn) = false)
      by (apply Hnone; left).
    destruct (IH _ _ Hp') as (node' & H1 & H2 & H3 & H4).
    + simpl. rewrite list_lookup_fmap, Hn. simpl. unfold tickOne.
      by rewrite Hnd, andb_false_r.
    + rewrite (Htx tn) by (by eapply list_elem_of_lookup_2).
      intros [?|?]; [done|congruence].
    + done.
    + intros x Hx. apply Hnone. by right.
    + exists node'. split_and!; try done. by rewrite <- Haw.
Qed.

(** A text that has not fired fires at the first frame whose local
    offset reaches its [at], and the frames after it leave it as it
    is. *)
Lemma frames_text_fires st0 i s p tn pre now post st node :
  playing st0 st i s node →
  Core.textNodes node !! p = Some tn →
  Core.textKey i (Core.t_idx tn) ∉ Core._firedText st →
  Forall (stays_on st0 i) (Core.Frame <$> pre ++ now :: post) →
  (∀ x, x ∈ pre → Core.due (localOffset st0 s x) (Core.t_at tn) = false) →
  Core.due (localOffset st0 s now) (Core.t_at tn) = true →
  let st' := Core.run (Core.Frame <$> pre ++ now :: post) st in
  ∃ node',
    playing st0 st' i s node'
    ∧ Core.textNodes node' !! p = Some (revealedText tn)
    ∧ Core.textKey i (Core.t_idx tn) ∈ Core._firedText st'
    ∧ Core.awaiting st' = Core.awaiting st.
Proof.
  intros Hp Hn Hk Hall Hpre Hnow st'. subst st'.
  rewrite fmap_app, fmap_cons in Hall.
  apply Forall_app in Hall as [Hall1 Hall2].
  apply Forall_cons in Hall2 as [Hts Hall2].
  rewrite fmap_app, fmap_cons, run_app, run_cons.
  destruct (frames_text_waiting _ _ _ _ _ _ _ _ Hp Hn Hk Hall1 Hpre)
    as (node1 & Hp1 & Hn1 & Hk1 & Haw1).
  destruct (frame_on_scene _ _ _ _ _ _ Hp1 Hts) as (Hp2 & Haw2 & Htx & _).
  destruct (frames_text_fired st0 i s p (revealedText tn) post _ _ Hp2)
    as (node3 & Hp3 & Hn3 & Hk3 & Haw3).
  - simpl. rewrite list_lookup_fmap, Hn1. simpl. unfold tickOne.
    by rewrite (bool_decide_eq_false_2 _ Hk1), Hnow.
  - simpl. rewrite (Htx tn) by (by eapply list_elem_of_lookup_2). by right.
  - done.
  - exists node3. split_and!; try done.
    by rewrite Haw3, Haw2, Haw1.
Qed.

(** Frames on the active scene leave a callout whose key is in the fired
    set as it is. *)
Lemma frames_callout_fired st0 i s p cn tss : ∀ st node,
  playing st0 st i s node →
  Core.calloutNodes node !! p = Some cn →
  Core.calloutKey i (Core.c_idx cn) ∈ Core._firedCallout st →
  Forall (stays_on st0 i) (Core.Frame <$> tss) →
  let st' := Core.run (Core.Frame <$> tss) st in
  ∃ node',
    playing st0 st' i s node'
    ∧ Core.calloutNodes node' !! p = Some cn
    ∧ Core.calloutKey i (Core.c_idx cn) ∈ Core._firedCallout st'
    ∧ Core.awaiting st' = Core.awaiting st.
Proof.
  induction tss as [|ts tss IH]; intros st node Hp Hn Hk Hall; simpl.
  - by exists node.
  - rewrite fmap_cons in Hall. apply Forall_cons in Hall as [Hts Hall].
    destruct (frame_on_scene _ _ _ _ _ _ Hp Hts) as (Hp' & Haw & _ & Hcl).
    destruct (IH _ _ Hp') as (node' & H1 & H2 & H3 & H4).
    + simpl. rewrite list_lookup_fmap, Hn. simpl. unfold tickOne.
      by rewrite (bool_decide_eq_true_2 _ Hk).
    + rewrite (Hcl cn) by (by eapply list_elem_of_lookup_2). by left.
    + done.
    + exists node'. split_and!; try done. by rewrite <- Haw.
Qed.

(** Frames whose local offset is below the [at] of a callout that has not
    fired leave it as it is. *)
Lemma frames_callout_waiting st0 i s p cn tss : ∀ st node,
  playing st0 st i s node →
  Core.calloutNodes node !! p = Some cn →
  Core.calloutKey i (Core.c_idx cn) ∉ Core._firedCallout st →
  Forall (stays_on st0 i) (Core.Frame <$> tss) →
  (∀ x, x ∈ tss → Core.due (localOffset st0 s x) (Core.c_at cn) = false) →
  let st' := Core.run (Core.Frame <$> tss) st in
  ∃ node',
    playing st0 st' i s node'
    ∧ Core.calloutNodes node' !! p = Some cn
    ∧ (Core.calloutKey i (Core.c_idx cn) ∉ Core._firedCallout st')
    ∧ Core.awaiting st' = Core.awaiting st.
Proof.
  induction tss as [|ts tss IH]; intros st node Hp Hn Hk Hall Hnone; simpl.
  - by exists node.
  - rewrite fmap_cons in Hall. apply Forall_cons in Hall as [Hts Hall].
    destruct (frame_on_scene _ _ _ _ _ _ Hp Hts) as (Hp' & Haw & _ & Hcl).
    assert (Hnd : Core.due (localOffset st0 s ts) (Core.c_at cn) = false)
      by (apply Hnone; left).
    destruct (IH _ _ Hp') as (node' & H1 & H2 & H3 & H4).
    + simpl. rewrite list_lookup_fmap, Hn. simpl. unfold tickOne.
      by rewrite Hnd, andb_false_r.
    + rewrite (Hcl cn) by (by eapply list_elem_of_lookup_2).
      intros [?|?]; [done|congruence].
    + done.
    + intros x Hx. apply Hnone. by right.
    + exists node'. split_and!; try done. by rewrite <- Haw.
Qed.

(** A callout that has not fired fires at the first frame whose local
    offset reaches its [at], and the frames after it leave it as it
    is. *)
Lemma frames_callout_fires st0 i s p cn pre now post st node :
  playing st0 st i s node →
  Core.calloutNodes node !! p = Some cn →
  Core.calloutKey i (Core.c_idx cn) ∉ Core._firedCallout st →
  Forall (stays_on st0 i) (Core.Frame <$> pre ++ now :: post) →
  (∀ x, x ∈ pre → Core.due (localOffset st0 s x) (Core.c_at cn) = false) →
  Core.due (localOffset st0 s now) (Core.c_at cn) = true →
  let st' := Core.run (Core.Frame <$> pre ++ now :: post) st in
  ∃ node',
    playing st0 st' i s node'
    ∧ Core.calloutNodes node' !! p = Some (revealedCallout cn)
    ∧ Core.calloutKey i (Core.c_idx cn) ∈ Core._firedCallout st'
    ∧ Core.awaiting st' = Core.awaiting st.
Proof.
  intros Hp Hn Hk Hall Hpre Hnow st'. subst st'.
  rewrite fmap_app, fmap_cons in Hall.
  apply Forall_app in Hall as [Hall1 Hall2].
  apply Forall_cons in Hall2 as [Hts Hall2].
  rewrite fmap_app, fmap_cons, run_app, run_cons.
  destruct (frames_callout_waiting _ _ _ _ _ _ _ _ Hp Hn Hk Hall1 Hpre)
    as (node1 & Hp1 & Hn1 & Hk1 & Haw1).
  destruct (frame_on_scene _ _ _ _ _ _ Hp1 Hts) as (Hp2 & Haw2 & _ & Hcl).
  destruct (frames_callout_fired st0 i s p (revealedCallout cn) post _ _ Hp2)
    as (node3 & Hp3 & Hn3 & Hk3 & Haw3).
  - simpl. rewrite list_lookup_fmap, Hn1. simpl. unfold tickOne.
    by rewrite (bool_decide_eq_false_2 _ Hk1), Hnow.
  - simpl. rewrite (Hcl cn) by (by eapply list_elem_of_lookup_2). by right.
  - done.
  - exists node3. split_and!; try done.
    by rewrite Haw3, Haw2, Haw1.
Qed.

Lemma mountText_hidden blocks : ∀ i tns,
  Core.mountText i blocks = Ok tns →
  Forall (λ n, Core.t_el n = Core.hidden) tns.
Proof.
  induction blocks as [|b blocks IH]; intros i tns; simpl.
  - intros [= <-]. by apply Forall_nil.
  - destruct (Js.get b "role"); simpl; [|done].
    destruct (Js.get b "at"); simpl; [|done].
    destruct (Core.mountText (S i) blocks) as [rest|] eqn:Hr; simpl; [|done].
    intros [= <-]. apply Forall_cons. split; [done|]. by eapply IH.
Qed.

Lemma mountCallouts_bare cs : ∀ i cns,
  Core.mountCallouts i cs = Ok cns →
  Forall (λ n, Core.c_el n = Core.bare) cns.
Proof.
  induction cs as [|c cs IH]; intros i cns; simpl.
  - intros [= <-]. by apply Forall_nil.
  - destruct (Js.get c "x"); simpl; [|done].
    destruct (Js.get c "at"); simpl; [|done].
    destruct (Core.mountCallouts (S i) cs) as [rest|] eqn:Hr; simpl; [|done].
    intros [= <-]. apply Forall_cons. split; [done|]. by eapply IH.
Qed.

(** A mount without [finalize] leaves every text hidden, with opacity 0,
    and every callout without [is-in]. *)
Lemma buildNode_fresh s node :
  Core.buildNode s false = Ok node →
  Forall (λ n, Core.t_el n = Core.hidden) (Core.textNodes node)
  ∧ Forall (λ n, Core.c_el n = Core.bare) (Core.calloutNodes node).
Proof.
  unfold Core.buildNode.
  destruct (match Js.isArray (Core.text s) with
            | Some blocks => Core.mountText 0 blocks
            | None => Ok []
            end) as [tns|] eqn:Ht; simpl; [|done].
  destruct (match Js.isArray (Core.callouts s) with
            | Some cs => Core.mountCallouts 0 cs
            | None => Ok []
            end) as [cns|] eqn:Hc; simpl; [|done].
  intros [= <-]. simpl. split.
  - destruct (Js.isArray (Core.text s)).
    + by eapply mountText_hidden.
    + injection Ht as <-. by apply Forall_nil.
  - destruct (Js.isArray (Core.callouts s)).
    + by eapply mountCallouts_bare.
    + injection Hc as <-. by apply Forall_nil.
Qed.


Lemma first_true {A} (f : A → bool) (l : list A) :
  (∃ x, x ∈ l ∧ f x = true) →
  ∃ pre now post,
    l = pre ++ now :: post ∧ (∀ x, x ∈ pre → f x = false) ∧ f now = true.
Proof.
  induction l as [|a l IH]; intros (x & Hx & Hf).
  - by apply elem_of_nil in Hx.
  - destruct (f a) eqn:Ha.
    + exists [], a, l. split_and!; [done| |done]. by intros y ?%elem_of_nil.
    + apply elem_of_cons in Hx as [->|Hx]; [congruence|].
      destruct IH as (pre & now & post & -> & Hpre & Hnow); [by exists x|].
      exists (a :: pre), now, post. split_and!; [done| |done].
      intros y [->|Hy]%elem_of_cons; [done|by apply Hpre].
Qed.

Lemma activation_run i ts before after st :
  Core.run (activation i ts before after) st
  = Core.run (Core.Frame <$> after)
      (Core.handle (Core.ImageSettled i)
         (Core.run (Core.Frame <$> ts :: before) st)).
Proof.
  unfold activation. by rewrite fmap_cons, !run_cons, run_app, run_cons.
Qed.

Lemma activation_entered i ts before st :
  Core.run (activation i ts before []) st
  = Core.handle (Core.ImageSettled i)
      (Core.run (Core.Frame <$> ts :: before) st).
Proof. by rewrite activation_run. Qed.

Lemma playing_textElAt st0 st i s node p tn :
  playing st0 st i s node →
  Core.textNodes node !! p = Some tn →
  textElAt st i p = Some (Core.t_el tn).
Proof.
  intros (_ & _ & _ & _ & _ & _ & Hw). by apply (textElAt_wellMounted _ _ s).
Qed.

Lemma playing_calloutElAt st0 st i s node p cn :
  playing st0 st i s node →
  Core.calloutNodes node !! p = Some cn →
  calloutElAt st i p = Some (Core.c_el cn).
Proof.
  intros (_ & _ & _ & _ & _ & _ & Hw).
  by apply (calloutElAt_wellMounted _ _ s).
Qed.

(** The frames that come before the enter, the one that mounts the scene
    and those that follow while the image loads: a text that has not
    fired and whose [at] one of them reaches is fired by the time the
    image settles, and one whose [at] none of them reaches is as
    mounted. *)
Lemma loading_text st i s node ts before p tn :
  activates st i s ts →
  Core.buildNode s false = Ok node →
  Forall (stays_on st i) (Core.Frame <$> before) →
  Core.textNodes node !! p = Some tn →
  Core.textKey i (Core.t_idx tn) ∉ Core._firedText st →
  let loading := Core.run (Core.Frame <$> ts :: before) st in
  ((∃ x, x ∈ ts :: before
         ∧ Core.due (localOffset st s x) (Core.t_at tn) = true) →
   ∃ node2,
     playing st loading i s node2
     ∧ i ∈ Core.awaiting loading
     ∧ Core.textNodes node2 !! p = Some (revealedText tn)
     ∧ Core.textKey i (Core.t_idx tn) ∈ Core._firedText loading)
  ∧ ((∀ x, x ∈ ts :: before →
           Core.due (localOffset st s x) (Core.t_at tn) = false) →
     ∃ node2,
       playing st loading i s node2
       ∧ i ∈ Core.awaiting loading
       ∧ Core.textNodes node2 !! p = Some tn
       ∧ Core.textKey i (Core.t_idx tn) ∉ Core._firedText loading).
Proof.
  intros Hact Hb Hbef Hn Hk loading. subst loading.
  rewrite fmap_cons, run_cons.
  destruct (frame_activates st i s node ts Hact Hb) as (Hp1 & Haw1 & Htx1 & _).
  assert (Hin : tn ∈ Core.textNodes node)
    by (by eapply list_elem_of_lookup_2).
  set (st1 := Core.handle (Core.Frame ts) st) in *.
  set (node1 := tickedNode i (localOffset st s ts) (Core._firedText st)
                  (Core._firedCallout st) node) in *.
  destruct (Core.due (localOffset st s ts) (Core.t_at tn)) eqn:Hdue.
  - assert (Hn1 : Core.textNodes node1 !! p = Some (revealedText tn)).
    { simpl. rewrite list_lookup_fmap, Hn. simpl. unfold tickOne.
      by rewrite (bool_decide_eq_false_2 _ Hk), Hdue. }
    assert (Hk1 : Core.textKey i (Core.t_idx tn) ∈ Core._firedText st1)
      by (apply (Htx1 tn Hin); by right).
    split.
    + intros _.
      destruct (frames_text_fired st i s p (revealedText tn) before _ _
                  Hp1 Hn1 Hk1 Hbef) as (node2 & Hp2 & Hn2 & Hk2 & Haw2).
      exists node2. split_and!; try done. by rewrite Haw2.
    + intros Hnone. rewrite (Hnone ts) in Hdue by left. done.
  - assert (Hn1 : Core.textNodes node1 !! p = Some tn).
    { simpl. rewrite list_lookup_fmap, Hn. simpl. unfold tickOne.
      by rewrite Hdue, andb_false_r. }
    assert (Hk1 : Core.textKey i (Core.t_idx tn) ∉ Core._firedText st1).
    { rewrite (Htx1 tn Hin). intros [?|Hd]; [done|congruence]. }
    split.
    + intros (x & Hx & Hd).
      apply elem_of_cons in Hx as [->|Hx]; [congruence|].
      destruct (first_true
                  (λ x, Core.due (localOffset st s x) (Core.t_at tn)) before)
        as (pre & now & post & -> & Hpre & Hnow); [by exists x|].
      destruct (frames_text_fires st i s p tn pre now post _ _
                  Hp1 Hn1 Hk1 Hbef Hpre Hnow)
        as (node2 & Hp2 & Hn2 & Hk2 & Haw2).
      exists node2. split_and!; try done. by rewrite Haw2.
    + intros Hnone.
      destruct (frames_text_waiting st i s p tn before _ _
                  Hp1 Hn1 Hk1 Hbef) as (node2 & Hp2 & Hn2 & Hk2 & Haw2).
      { intros x Hx. apply Hnone. by right. }
      exists node2. split_and!; try done. by rewrite Haw2.
Qed.

(** The frames that come before the enter, the one that mounts the scene
    and those that follow while the image loads: a callout that has not
    fired and whose [at] one of them reaches is fired by the time the
    image settles, and one whose [at] none of them reaches is as
    mounted. *)
Lemma loading_callout st i s node ts before p cn :
  activates st i s ts →
  Core.buildNode s false = Ok node →
  Forall (stays_on st i) (Core.Frame <$> before) →
  Core.calloutNodes node !! p = Some cn →
  Core.calloutKey i (Core.c_idx cn) ∉ Core._firedCallout st →
  let loading := Core.run (Core.Frame <$> ts :: before) st in
  ((∃ x, x ∈ ts :: before
         ∧ Core.due (localOffset st s x) (Core.c_at cn) = true) →
   ∃ node2,
     playing st loading i s node2
     ∧ i ∈ Core.awaiting loading
     ∧ Core.calloutNodes node2 !! p = Some (revealedCallout cn)
     ∧ Core.calloutKey i (Core.c_idx cn) ∈ Core._firedCallout loading)
  ∧ ((∀ x, x ∈ ts :: before →
           Core.due (localOffset st s x) (Core.c_at cn) = false) →
     ∃ node2,
       playing st loading i s node2
       ∧ i ∈ Core.awaiting loading
       ∧ Core.calloutNodes node2 !! p = Some cn
       ∧ Core.calloutKey i (Core.c_idx cn) ∉ Core._firedCallout loading).
Proof.
  intros Hact Hb Hbef Hn Hk loading. subst loading.
  rewrite fmap_cons, run_cons.
  destruct (frame_activates st i s node ts Hact Hb) as (Hp1 & Haw1 & _ & Hcl1).
  assert (Hin : cn ∈ Core.calloutNodes node)
    by (by eapply list_elem_of_lookup_2).
  set (st1 := Core.handle (Core.Frame ts) st) in *.
  set (node1 := tickedNode i (localOffset st s ts) (Core._firedText st)
                  (Core._firedCallout st) node) in *.
  destruct (Core.due (localOffset st s ts) (Core.c_at cn)) eqn:Hdue.
  - assert (Hn1 : Core.calloutNodes node1 !! p = Some (revealedCallout cn)).
    { simpl. rewrite list_lookup_fmap, Hn. simpl. unfold tickOne.
      by rewrite (bool_decide_eq_false_2 _ Hk), Hdue. }
    assert (Hk1 : Core.calloutKey i (Core.c_idx cn) ∈ Core._firedCallout st1)
      by (apply (Hcl1 cn Hin); by right).
    split.
    + intros _.
      destruct (frames_callout_fired st i s p (revealedCallout cn) before _ _
                  Hp1 Hn1 Hk1 Hbef) as (node2 & Hp2 & Hn2 & Hk2 & Haw2).
      exists node2. split_and!; try done. by rewrite Haw2.
    + intros Hnone. rewrite (Hnone ts) in Hdue by left. done.
  - assert (Hn1 : Core.calloutNodes node1 !! p = Some cn).
    { simpl. rewrite list_lookup_fmap, Hn. simpl. unfold tickOne.
      by rewrite Hdue, andb_false_r. }
    assert (Hk1 : Core.calloutKey i (Core.c_idx cn) ∉ Core._firedCallout st1).
    { rewrite (Hcl1 cn Hin). intros [?|Hd]; [done|congruence]. }
    split.
    + intros (x & Hx & Hd).
      apply elem_of_cons in Hx as [->|Hx]; [congruence|].
      destruct (first_true
                  (λ x, Core.due (localOffset st s x) (Core.c_at cn)) before)
        as (pre & now & post & -> & Hpre & Hnow); [by exists x|].
      destruct (frames_callout_fires st i s p cn pre now post _ _
                  Hp1 Hn1 Hk1 Hbef Hpre Hnow)
        as (node2 & Hp2 & Hn2 & Hk2 & Haw2).
      exists node2. split_and!; try done. by rewrite Haw2.
    + intros Hnone.
      destruct (frames_callout_waiting st i s p cn before _ _
                  Hp1 Hn1 Hk1 Hbef) as (node2 & Hp2 & Hn2 & Hk2 & Haw2).
      { intros x Hx. apply Hnone. by right. }
      exists node2. split_and!; try done. by rewrite Haw2.
Qed.

(** C8, what the code does. In one activation of a scene, as the host
    delivers it, the frame that makes the scene active mounts it and runs
    [#tickScene] in the same callback, while [#enterScene] waits for the
    image. A text whose [at] is reached by that frame, or by one that
    comes while the image loads, is fired before the enter: its key is in
    [_firedText] and [is-in] has been added. The enter then deletes the
    key and removes [is-in], and the first frame after the enter fires
    the text again: its reveal has been requested twice within the
    activation. A callout reached before the enter is fired likewise; the
    enter removes its [is-in] and leaves its key in [_firedCallout], and
    no later frame of the activation reveals it. A text or callout that
    no frame before the enter has reached fires once, at the first frame
    after the enter whose local offset is at least its [at], and the
    frames after that one leave it as it is. *)
Theorem sub_event_fires_before_enter st i s node ts before after :
  activates st i s ts →
  Core.buildNode s false = Ok node →
  Forall (stays_on st i) (Core.Frame <$> before ++ after) →
  let loading := Core.run (Core.Frame <$> ts :: before) st in
  let entered := Core.run (activation i ts before []) st in
  let st' := Core.run (activation i ts before after) st in
  (∀ p tn,
     Core.textNodes node !! p = Some tn →
     Core.textKey i (Core.t_idx tn) ∉ Core._firedText st →
     ((∃ x, x ∈ ts :: before
            ∧ Core.due (localOffset st s x) (Core.t_at tn) = true) →
      (Core.textKey i (Core.t_idx tn) ∈ Core._firedText loading
       ∧ textElAt loading i p
         = Some {| Core.isIn := true; Core.opacity := EmptyString;
                   Core.reveals := 1 |})
      ∧ ((Core.textKey i (Core.t_idx tn) ∉ Core._firedText entered)
         ∧ textElAt entered i p
           = Some {| Core.isIn := false; Core.opacity := EmptyString;
                     Core.reveals := 1 |})
      ∧ (∀ now post,
           after = now :: post →
           Core.due (localOffset st s now) (Core.t_at tn) = true →
           Core.textKey i (Core.t_idx tn) ∈ Core._firedText st'
           ∧ textElAt st' i p
             = Some {| Core.isIn := true; Core.opacity := EmptyString;
                       Core.reveals := 2 |}))
     ∧ ((∀ x, x ∈ ts :: before →
              Core.due (localOffset st s x) (Core.t_at tn) = false) →
        ∀ pre now post,
          after = pre ++ now :: post →
          (∀ x, x ∈ pre →
                Core.due (localOffset st s x) (Core.t_at tn) = false) →
          Core.due (localOffset st s now) (Core.t_at tn) = true →
          Core.textKey i (Core.t_idx tn) ∈ Core._firedText st'
          ∧ textElAt st' i p
            = Some {| Core.isIn := true; Core.opacity := EmptyString;
                      Core.reveals := 1 |}))
  ∧ (∀ p cn,
       Core.calloutNodes node !! p = Some cn →
       Core.calloutKey i (Core.c_idx cn) ∉ Core._firedCallout st →
       ((∃ x, x ∈ ts :: before
              ∧ Core.due (localOffset st s x) (Core.c_at cn) = true) →
        (Core.calloutKey i (Core.c_idx cn) ∈ Core._firedCallout loading
         ∧ calloutElAt loading i p
           = Some {| Core.isIn := true; Core.opacity := EmptyString;
                     Core.reveals := 1 |})
        ∧ (Core.calloutKey i (Core.c_idx cn) ∈ Core._firedCallout st'
           ∧ calloutElAt st' i p
             = Some {| Core.isIn := false; Core.opacity := EmptyString;
                       Core.reveals := 1 |}))
       ∧ ((∀ x, x ∈ ts :: before →
                Core.due (localOffset st s x) (Core.c_at cn) = false) →
          ∀ pre now post,
            after = pre ++ now :: post →
            (∀ x, x ∈ pre →
                  Core.due (localOffset st s x) (Core.c_at cn) = false) →
            Core.due (localOffset st s now) (Core.c_at cn) = true →
            Core.calloutKey i (Core.c_idx cn) ∈ Core._firedCallout st'
            ∧ calloutElAt st' i p
              = Some {| Core.isIn := true; Core.opacity := EmptyString;
                        Core.reveals := 1 |})).
Proof.
  intros Hact Hb Hall loading entered st'. subst entered st'.
  rewrite activation_entered, activation_run. fold loading.
  destruct (buildNode_fresh _ _ Hb) as [Hhid Hbare].
  rewrite fmap_app in Hall. apply Forall_app in Hall as [Hbef Haft].
  split.
  - intros p tn Hn Hk.
    assert (Hel : Core.t_el tn = Core.hidden).
    { apply (proj1 (Forall_forall _ _) Hhid). by eapply list_elem_of_lookup_2. }
    destruct (loading_text st i s node ts before p tn Hact Hb Hbef Hn Hk)
      as [Hreached Hwaits]. fold loading in Hreached, Hwaits.
    split.
    + intros Hex. destruct (Hreached Hex) as (node2 & Hp2 & Haw2 & Hn2 & Hk2).
      destruct (settle_enters _ _ _ _ _ Hp2 Haw2) as (Hp3 & Hclr & _).
      assert (Hn3 : Core.textNodes (enteredNode s node2) !! p
                    = Some (Core.hideText (revealedText tn))).
      { simpl. by rewrite list_lookup_fmap, Hn2. }
      assert (Hk3 := Hclr _ (list_elem_of_lookup_2 _ _ _ Hn2)).
      split_and!.
      * exact Hk2.
      * rewrite (playing_textElAt _ _ _ _ _ _ _ Hp2 Hn2). simpl.
        by rewrite Hel.
      * exact Hk3.
      * rewrite (playing_textElAt _ _ _ _ _ _ _ Hp3 Hn3). simpl.
        by rewrite Hel.
      * intros now post -> Hnow.
        destruct (frames_text_fires st i s p
                    (Core.hideText (revealedText tn)) [] now post _ _
                    Hp3 Hn3 Hk3 Haft) as (node4 & Hp4 & Hn4 & Hk4 & _);
          [by intros x ?%elem_of_nil|done|].
        split; [exact Hk4|].
        etrans; [exact (playing_textElAt _ _ _ _ _ _ _ Hp4 Hn4)|]. simpl.
        by rewrite Hel.
    + intros Hnone pre now post -> Hpre Hnow.
      destruct (Hwaits Hnone) as (node2 & Hp2 & Haw2 & Hn2 & Hk2).
      destruct (settle_enters _ _ _ _ _ Hp2 Haw2) as (Hp3 & Hclr & _).
      assert (Hn3 : Core.textNodes (enteredNode s node2) !! p
                    = Some (Core.hideText tn)).
      { simpl. by rewrite list_lookup_fmap, Hn2. }
      assert (Hk3 := Hclr _ (list_elem_of_lookup_2 _ _ _ Hn2)).
      destruct (frames_text_fires st i s p (Core.hideText tn) pre now post
                  _ _ Hp3 Hn3 Hk3 Haft Hpre Hnow)
        as (node4 & Hp4 & Hn4 & Hk4 & _).
      split; [exact Hk4|].
      rewrite (playing_textElAt _ _ _ _ _ _ _ Hp4 Hn4). simpl.
      by rewrite Hel.
  - intros p cn Hn Hk.
    assert (Hel : Core.c_el cn = Core.bare).
    { apply (proj1 (Forall_forall _ _) Hbare).
      by eapply list_elem_of_lookup_2. }
    destruct (loading_callout st i s node ts before p cn Hact Hb Hbef Hn Hk)
      as [Hreached Hwaits]. fold loading in Hreached, Hwaits.
    split.
    + intros Hex. destruct (Hreached Hex) as (node2 & Hp2 & Haw2 & Hn2 & Hk2).
      destruct (settle_enters _ _ _ _ _ Hp2 Haw2) as (Hp3 & _ & Hkeep).
      assert (Hn3 : Core.calloutNodes (enteredNode s node2) !! p
                    = Some (Core.hideCallout (revealedCallout cn))).
      { simpl. by rewrite list_lookup_fmap, Hn2. }
      assert (Hk3 : Core.calloutKey i (Core.c_idx cn)
                    ∈ Core._firedCallout
                        (Core.handle (Core.ImageSettled i) loading))
        by (by apply Hkeep).
      destruct (frames_callout_fired st i s p
                  (Core.hideCallout (revealedCallout cn)) after _ _
                  Hp3 Hn3 Hk3 Haft) as (node4 & Hp4 & Hn4 & Hk4 & _).
      split_and!.
      * exact Hk2.
      * rewrite (playing_calloutElAt _ _ _ _ _ _ _ Hp2 Hn2). simpl.
        by rewrite Hel.
      * exact Hk4.
      * rewrite (playing_calloutElAt _ _ _ _ _ _ _ Hp4 Hn4). simpl.
        by rewrite Hel.
    + intros Hnone pre now post -> Hpre Hnow.
      destruct (Hwaits Hnone) as (node2 & Hp2 & Haw2 & Hn2 & Hk2).
      destruct (settle_enters _ _ _ _ _ Hp2 Haw2) as (Hp3 & _ & Hkeep).
      assert (Hn3 : Core.calloutNodes (enteredNode s node2) !! p
                    = Some (Core.hideCallout cn)).
      { simpl. by rewrite list_lookup_fmap, Hn2. }
      assert (Hk3 : Core.calloutKey i (Core.c_idx cn)
                    ∉ Core._firedCallout
                        (Core.handle (Core.ImageSettled i) loading))
        by (by rewrite Hkeep).
      destruct (frames_callout_fires st i s p (Core.hideCallout cn) pre now
                  post _ _ Hp3 Hn3 Hk3 Haft Hpre Hnow)
        as (node4 & Hp4 & Hn4 & Hk4 & _).
      split; [exact Hk4|].
      rewrite (playing_calloutElAt _ _ _ _ _ _ _ Hp4 Hn4). simpl.
      by rewrite Hel.
Qed.

Lemma sub_event_fires_before_enter_witness :
  ∃ st,
    Core.new manifest_prompt = Ok st
    ∧ let st' := Core.run (activation 0 (ms 16) [ms 33] [ms 50; ms 1000])
                          (Core.start Num.zero st) in
      textElAt st' 0 0
      = Some {| Core.isIn := true; Core.opacity := EmptyString;
                Core.reveals := 2 |}
      ∧ calloutElAt st' 0 0
        = Some {| Core.isIn := false; Core.opacity := EmptyString;
                  Core.reveals := 1 |}
      ∧ "0#c0" ∈ Core._firedCallout st'.
Proof.
  eexists. split; [vm_compute; reflexivity|].
  match goal with
  | |- context [Core.start Num.zero ?st] => set (st0 := Core.start Num.zero st)
  end.
  eassert (Ha : activates st0 0 _ (ms 16)).
  { split_and!; try reflexivity; [simpl; lia|].
    split; [reflexivity|]. intros last [= <-]. reflexivity. }
  eassert (Hb : Core.buildNode _ false = Ok _).
  { match type of Ha with
    | activates _ _ ?s _ => instantiate (2 := s)
    end. vm_compute. reflexivity. }
  assert (Hall : Forall (stays_on st0 0)
                   (Core.Frame <$> [ms 33] ++ [ms 50; ms 1000])).
  { repeat constructor; try reflexivity; intros last [= <-]; reflexivity. }
  destruct (sub_event_fires_before_enter _ _ _ _ _ _ _ Ha Hb Hall)
    as [Ht Hc].
  assert (Hno : ∀ k, k ∉ (∅ : gset string))
    by (intros k; apply not_elem_of_empty).
  assert (Hex : ∃ x, x ∈ [ms 16; ms 33]
                     ∧ Core.due (localOffset st0
                                   {| Core.t := Fin 0; Core.d := Fin 5;
                                      Core.media := VUndef;
                                      Core.text :=
                                        VArr [VObj [("html", VStr "mapa")]];
                                      Core.callouts :=
                                        VArr [VObj [("html", VStr "detalhe")]];
                                      Core.transitionIn := VUndef;
                                      Core.transitionOut := VUndef |} x)
                                (VNum Num.zero) = true).
  { exists (ms 16). split; [left|reflexivity]. }
  split_and!.
  - exact (proj2 (proj2 (proj2 (proj1 (Ht 0%nat _ eq_refl (Hno _)) Hex))
                    _ _ eq_refl eq_refl)).
  - exact (proj2 (proj2 (proj1 (Hc 0%nat _ eq_refl (Hno _)) Hex))).
  - exact (proj1 (proj2 (proj1 (Hc 0%nat _ eq_refl (Hno _)) Hex))).
Defined.
